(** * A shallow embedding of the JS-Interpreter bundled with Acorn

    Source: [server_tokylabs_remote/public/js/acorn_interpreter.js].
    The file is one script made of two parts: the Acorn parser (lines 23 to
    1761) followed by Neil Fraser's JS-Interpreter (lines 1919 to 5443).

    The development follows the source function by function and keeps its
    names.  Guest values, objects, scopes and evaluator frames are records;
    the object graph is a finite map from handles to objects, so that the
    aliasing the source relies on (frames, scopes and objects are shared,
    mutable host objects) is explicit. *)

From Stdlib Require Import ZArith String Ascii List Bool Lia.
From stdpp Require Import base option list gmap strings fin_maps pretty.

Set Warnings "-register-all".

Local Open Scope string_scope.
Local Open Scope Z_scope.

(** ** Part 1: the tokenizer's number reader (Acorn, lines 777 to 827) *)

Module Acorn.

(** The input is a host string, read through [charCodeAt]: a sequence of
    UTF-16 code units. *)
Definition input := list Z.

Definition codes (s : string) : input :=
  map (fun a => Z.of_nat (nat_of_ascii a)) (list_ascii_of_string s).

(** [input.charCodeAt(pos)]; [None] stands for the NaN returned past the
    end, on which every comparison of the source is false. *)
Definition charCodeAt (inp : input) (pos : nat) : option Z := nth_error inp pos.

Definition slice (inp : input) (from to : nat) : input :=
  firstn (to - from) (skipn from inp).

(** *** Host numbers

    The totals of [readInt] and the results of [parseInt] are IEEE 754
    doubles.  On the digits of a token they are non-negative integers, or
    [Infinity] for a run of several hundred digits: [Finite z] is the double
    whose value is the integer [z]. *)
Inductive double : Type :=
| Finite (z : Z)
| Infinity.

(** The double nearest to a non-negative integer, before its range is
    taken into account: an integer of at most 53 bits is a double; of a
    longer one the 53 leading bits [q] are kept, and [q] is incremented
    when the bits dropped, [r], are more than half of the last place kept,
    or exactly half with [q] odd (round to nearest, ties to even). *)
Definition roundNearestEven (z : Z) : Z :=
  let n := Z.log2 z in
  if n <? 53 then z
  else
    let dropped := n - 52 in
    let q := Z.shiftr z dropped in
    let r := z - Z.shiftl q dropped in
    let half := Z.shiftl 1 (dropped - 1) in
    let q' := if (half <? r) || ((r =? half) && Z.odd q) then q + 1 else q in
    Z.shiftl q' dropped.

(** The Number value of a non-negative integer: what rounds to 2^1024 or
    more is [Infinity]. *)
Definition toDouble (z : Z) : double :=
  let r := roundNearestEven z in
  if r <? 2 ^ 1024 then Finite r else Infinity.

(** [total * radix + val] of the host, on a total that is not negative, a
    radix of 1 or more and the value of a digit: the product and the sum
    are each rounded. *)
Definition mulAdd (total : double) (radix val : Z) : double :=
  match total with
  | Finite t =>
      match toDouble (t * radix) with
      | Finite p => toDouble (p + val)
      | Infinity => Infinity
      end
  | Infinity => Infinity
  end.

(** The value of a number token.  [parseFloat] is a host function; its
    result on the text of a token with a fraction or exponent is left
    uninterpreted. *)
Inductive tokVal : Type :=
| NumInt (z : Z)
| NumInfinity
| NumFloat (text : input)
| NumNaN.

Definition tokNum (d : double) : tokVal :=
  match d with
  | Finite z => NumInt z
  | Infinity => NumInfinity
  end.

(** [raise(pos, message)]: the SyntaxError thrown by the tokenizer.  The
    line and column suffix of the message is not modelled. *)
Inductive result (A : Type) : Type :=
| Ok (a : A)
| Raise (pos : nat) (message : string).
Arguments Ok {A} a.
Arguments Raise {A} pos message.

Section Lexer.

(** [nonASCIIidentifierStart.test(String.fromCharCode(code))]: the table of
    non-ASCII identifier start characters (lines 392 to 393). *)
Variable nonASCIIidentifierStart : Z -> bool.

(** The tokenizer's [strict] flag. *)
Variable strict : bool.

Definition isIdentifierStart (code : option Z) : bool :=
  match code with
  | None => false
  | Some code =>
      if code <? 65 then code =? 36
      else if code <? 91 then true
      else if code <? 97 then code =? 95
      else if code <? 123 then true
      else (170 <=? code) && nonASCIIidentifierStart code
  end.

(** The digit value computed in the loop of [readInt]; [None] is the
    source's [Infinity]. *)
Definition digitVal (code : Z) : option Z :=
  if 97 <=? code then Some (code - 97 + 10)
  else if 65 <=? code then Some (code - 65 + 10)
  else if (48 <=? code) && (code <=? 57) then Some (code - 48)
  else None.

(** The loop of [readInt]: [rest] is the input from [tokPos] on, [e] the
    number of iterations left ([None] for [Infinity]); it returns the number
    of characters consumed and the total, a double (line 788). *)
Fixpoint readInt_loop (radix : Z) (rest : input) (e : option nat)
    (cnt : nat) (total : double) : nat * double :=
  match e with
  | Some O => (cnt, total)
  | _ =>
      match rest with
      | [] => (cnt, total)
      | code :: rest' =>
          match digitVal code with
          | None => (cnt, total)
          | Some val =>
              if radix <=? val then (cnt, total)
              else readInt_loop radix rest' (Nat.pred <$> e) (S cnt)
                     (mulAdd total radix val)
          end
      end
  end.

(** [readInt(radix, len)] at position [tokPos]: the value ([None] for
    [null]) and the new [tokPos]. *)
Definition readInt (inp : input) (radix : Z) (len : option nat) (tokPos : nat)
    : option double * nat :=
  let '(cnt, total) := readInt_loop radix (skipn tokPos inp) len 0 (Finite 0) in
  let bad :=
    (cnt =? 0)%nat ||
    match len with Some l => negb (cnt =? l)%nat | None => false end in
  if bad then (None, (tokPos + cnt)%nat) else (Some total, (tokPos + cnt)%nat).

(** The longest prefix of [str] made of digits below the radix: its
    length and the integer that it denotes. *)
Fixpoint digitsPrefix (radix : Z) (str : input) (cnt : nat) (total : Z)
    : nat * Z :=
  match str with
  | [] => (cnt, total)
  | code :: str' =>
      match digitVal code with
      | None => (cnt, total)
      | Some val =>
          if radix <=? val then (cnt, total)
          else digitsPrefix radix str' (S cnt) (total * radix + val)
      end
  end.

(** [parseInt(str, radix)] of the host, on the text of a token, which
    begins with a digit, and for a radix up to 36: NaN when no digit below
    the radix begins [str], else the Number value of the integer that the
    longest prefix of such digits denotes (ECMA-262, 18.2.5).  For the radix
    10 the standard lets a host replace the digits after the twentieth by
    zeros; the embedding takes the nearest double there too. *)
Definition parseInt (str : input) (radix : Z) : tokVal :=
  let '(cnt, total) := digitsPrefix radix str 0 0 in
  if (cnt =? 0)%nat then NumNaN else tokNum (toDouble total).

(** [/[89]/.test(str)] *)
Definition has89 (str : input) : bool :=
  existsb (fun c => (c =? 56) || (c =? 57)) str.

(** [readNumber(startsWithDot)]: the token value and the position after the
    token ([finishToken] then skips white space). *)
Definition readNumber (inp : input) (startsWithDot : bool) (tokPos0 : nat)
    : result (tokVal * nat) :=
  let start := tokPos0 in
  let octal := match charCodeAt inp tokPos0 with Some 48 => true | _ => false end in
  let '(r1, tokPos1) :=
    if startsWithDot then (Some (Finite 0), tokPos0)
    else readInt inp 10 None tokPos0 in
  match r1 with
  | None => Raise start "Invalid number"
  | Some _ =>
      let '(isFloat2, tokPos2) :=
        match charCodeAt inp tokPos1 with
        | Some 46 => (true, snd (readInt inp 10 None (S tokPos1)))
        | _ => (false, tokPos1)
        end in
      let next := charCodeAt inp tokPos2 in
      let exponent :=
        match next with
        | Some 69 | Some 101 =>
            let tokPos3 := S tokPos2 in
            let tokPos4 :=
              match charCodeAt inp tokPos3 with
              | Some 43 | Some 45 => S tokPos3
              | _ => tokPos3
              end in
            match readInt inp 10 None tokPos4 with
            | (None, _) => Raise start "Invalid number"
            | (Some _, tokPos5) => Ok (true, tokPos5)
            end
        | _ => Ok (isFloat2, tokPos2)
        end in
      match exponent with
      | Raise p m => Raise p m
      | Ok (isFloat, tokPos) =>
          if isIdentifierStart (charCodeAt inp tokPos)
          then Raise tokPos "Identifier directly after number"
          else
            let str := slice inp start tokPos in
            if isFloat then Ok (NumFloat str, tokPos)
            else if negb octal || (length str =? 1)%nat
            then Ok (parseInt str 10, tokPos)
            else if has89 str || strict then Raise start "Invalid number"
            else Ok (parseInt str 8, tokPos)
      end
  end.

(** [nonASCIIidentifier] (line 424) is the character class made of the
    identifier start characters and of [nonASCIIidentifierChars]. *)
Variable nonASCIIidentifierChars : Z -> bool.

Definition nonASCIIidentifier (code : Z) : bool :=
  nonASCIIidentifierStart code || nonASCIIidentifierChars code.

(** [isIdentifierChar] (line 447) *)
Definition isIdentifierChar (code : option Z) : bool :=
  match code with
  | None => false
  | Some code =>
      if code <? 48 then code =? 36
      else if code <? 58 then true
      else if code <? 65 then false
      else if code <? 91 then true
      else if code <? 97 then code =? 95
      else if code <? 123 then true
      else (170 <=? code) && nonASCIIidentifier code
  end.

(** [readHexNumber()] (line 794), called with [tokPos] on the [0] of [0x],
    where [readToken] has set [tokStart]. *)
Definition readHexNumber (inp : input) (tokStart : nat) : result (tokVal * nat) :=
  match readInt inp 16 None (tokStart + 2) with
  | (None, _) => Raise (tokStart + 2)%nat "Expected hexadecimal number"
  | (Some val, tokPos) =>
      if isIdentifierStart (charCodeAt inp tokPos)
      then Raise tokPos "Identifier directly after number"
      else Ok (tokNum val, tokPos)
  end.

(** [readHexChar(len)] (line 882): the code of an escape sequence and the
    position after it. *)
Definition readHexChar (inp : input) (len : nat) (tokStart tokPos : nat)
    : result (double * nat) :=
  match readInt inp 16 (Some len) tokPos with
  | (None, _) => Raise tokStart "Bad character escape sequence"
  | (Some n, tokPos') => Ok (n, tokPos')
  end.

End Lexer.

(** *** The literals of the specification *)

(** A decimal digit, as a character code. *)
Definition isDigit (c : Z) : Prop := 48 <= c <= 57.

(** An octal digit. *)
Definition isOctalDigit (c : Z) : Prop := 48 <= c <= 55.

(** The integer that the digits [ds] denote in the given radix. *)
Definition valueOf (radix : Z) (ds : input) (acc : Z) : Z :=
  fold_left (fun a c => a * radix + (c - 48)) ds acc.

(** A digit below the radix, as [readInt] reads it, and the integer that a
    run of such digits denotes. *)
Definition isDigitBelow (radix : Z) (c : Z) : Prop :=
  exists v, digitVal c = Some v /\ v < radix.

Definition digitsValue (radix : Z) (ds : input) (acc : Z) : Z :=
  fold_left (fun a c => a * radix + default 0 (digitVal c)) ds acc.

(** What stops the loop of [readInt]: the end of the input, or a character
    that is not a digit below the radix. *)
Definition stops (radix : Z) (rest : input) : Prop :=
  match rest with
  | [] => True
  | c :: _ =>
      match digitVal c with
      | Some v => radix <= v
      | None => True
      end
  end.

(** A hexadecimal digit, and its value. *)
Definition isHexDigit (c : Z) : Prop :=
  48 <= c <= 57 \/ 65 <= c <= 70 \/ 97 <= c <= 102.

Definition hexVal (c : Z) : Z :=
  if c <? 58 then c - 48 else if c <? 71 then c - 55 else c - 87.

Definition hexValueOf (ds : input) (acc : Z) : Z :=
  fold_left (fun a c => a * 16 + hexVal c) ds acc.

(** What may follow an integer literal: the end of the input, or a
    character that is not a digit, a dot, or the start of an identifier
    (which covers the exponent letters). *)
Definition terminates (nonASCII : Z -> bool) (rest : input) : Prop :=
  match rest with
  | [] => True
  | c :: _ =>
      ~ isDigit c /\ c <> 46 /\ isIdentifierStart nonASCII (Some c) = false
  end.

End Acorn.

(** ** Part 2: the interpreter's data model (lines 1919 to 4448) *)

Module Interpreter.

(** *** Values

    Numbers are IEEE doubles in the host.  The embedding represents a double
    by the real number it denotes: integers exactly ([NInt], which identifies
    the two zeros), other finite doubles as [mant * 2^exp] ([NFrac]), and the
    three special values.  The only arithmetic the embedded functions perform
    is on unsigned 32-bit integers (array lengths and indices), where doubles
    are exact. *)
Inductive number : Type :=
| NInt (z : Z)
| NFrac (mant exp : Z)
| NNaN
| NInf (negative : bool).

(** A handle is the identity of a host object of class [Interpreter.Object]. *)
Definition handle := nat.

(** [Interpreter.Value] (line 3455), extended with the three host values
    that the evaluator stores next to guest values: the two sentinels
    [SCOPE_REFERENCE] and [VALUE_IN_DESCRIPTOR] (lines 2036 and 2043) and the
    two-element host array [[base, name]] that a frame evaluated with
    [components] writes to its parent. *)
Inductive Value : Type :=
| Undefined
| Null
| Bool (b : bool)
| Num (n : number)
| Str (s : string)
| Obj (h : handle)
| SCOPE_REFERENCE
| VALUE_IN_DESCRIPTOR
| Components (base name : Value).

Global Instance number_eq_dec : EqDecision number.
Proof. solve_decision. Defined.
Global Instance Value_eq_dec : EqDecision Value.
Proof. solve_decision. Defined.

(** Host [ToBoolean]: the test of [if (v)], [v && ...], [!v]. *)
Definition truthy (v : Value) : bool :=
  match v with
  | Undefined | Null => false
  | Bool b => b
  | Num (NInt z) => negb (z =? 0)
  | Num NNaN => false
  | Num _ => true
  | Str s => negb (String.eqb s "")
  | Obj _ | SCOPE_REFERENCE | VALUE_IN_DESCRIPTOR | Components _ _ => true
  end.

(** Host [typeof v === 'object']: true of [null], of every
    [Interpreter.Object] (guest functions included, they are host objects)
    and of host arrays and sentinels. *)
Definition typeof_object (v : Value) : bool :=
  match v with
  | Null | Obj _ | SCOPE_REFERENCE | VALUE_IN_DESCRIPTOR | Components _ _ => true
  | _ => false
  end.

(** [v.isObject]: the flag on [Interpreter.Object.prototype] (line 3473),
    undefined on primitives. *)
Definition isObject (v : Value) : bool :=
  match v with Obj _ => true | _ => false end.

Definition isArray (v : Value) : bool :=
  match v with Components _ _ => true | _ => false end.

(** *** Syntax trees

    ESTree nodes as Acorn builds them, for the node types whose step
    functions are embedded below.  Every node carries its [end] offset;
    [None] is a node without one (polyfill code after [stripLocations_], and
    the nodes made by [createGetter_] and [createSetter_]). *)
Inductive Node : Type :=
| Program (end_ : option nat) (body : list Node)
| BlockStatement (end_ : option nat) (body : list Node)
| ExpressionStatement (end_ : option nat) (expression : Node)
| EmptyStatement (end_ : option nat)
| ReturnStatement (end_ : option nat) (argument : option Node)
| ThrowStatement (end_ : option nat) (argument : Node)
| TryStatement (end_ : option nat) (block : Node)
    (handler : option Node) (finalizer : option Node)
| VariableDeclaration (end_ : option nat)
    (declarations : list (string * option Node))
| FunctionDeclaration (end_ : option nat) (id : string)
    (params : list string) (body : Node)
| FunctionExpression (end_ : option nat) (id : option string)
    (params : list string) (body : Node)
| Identifier (end_ : option nat) (name : string)
| Literal (end_ : option nat) (value : Value)
| ThisExpression (end_ : option nat)
| MemberExpression (end_ : option nat) (object property : Node)
    (computed : bool)
| AssignmentExpression (end_ : option nat) (operator : string)
    (left right : Node)
| UnaryExpression (end_ : option nat) (operator : string) (argument : Node)
| CallExpression (end_ : option nat) (callee : option Node)
    (arguments : list Node)
| NewExpression (end_ : option nat) (callee : Node) (arguments : list Node)
| CatchClause (end_ : option nat) (param : string) (body : Node).

(** [node['type']] *)
Definition node_type (n : Node) : string :=
  match n with
  | Program _ _ => "Program"
  | BlockStatement _ _ => "BlockStatement"
  | ExpressionStatement _ _ => "ExpressionStatement"
  | EmptyStatement _ => "EmptyStatement"
  | ReturnStatement _ _ => "ReturnStatement"
  | ThrowStatement _ _ => "ThrowStatement"
  | TryStatement _ _ _ _ => "TryStatement"
  | VariableDeclaration _ _ => "VariableDeclaration"
  | FunctionDeclaration _ _ _ _ => "FunctionDeclaration"
  | FunctionExpression _ _ _ _ => "FunctionExpression"
  | Identifier _ _ => "Identifier"
  | Literal _ _ => "Literal"
  | ThisExpression _ => "ThisExpression"
  | MemberExpression _ _ _ _ => "MemberExpression"
  | AssignmentExpression _ _ _ _ => "AssignmentExpression"
  | UnaryExpression _ _ _ => "UnaryExpression"
  | CallExpression _ _ _ => "CallExpression"
  | NewExpression _ _ _ => "NewExpression"
  | CatchClause _ _ _ => "CatchClause"
  end.

(** [node['end']] *)
Definition node_end (n : Node) : option nat :=
  match n with
  | Program e _ | BlockStatement e _ | ExpressionStatement e _
  | EmptyStatement e | ReturnStatement e _ | ThrowStatement e _
  | TryStatement e _ _ _ | VariableDeclaration e _
  | FunctionDeclaration e _ _ _ | FunctionExpression e _ _ _
  | Identifier e _ | Literal e _ | ThisExpression e
  | MemberExpression e _ _ _ | AssignmentExpression e _ _ _
  | UnaryExpression e _ _ | CallExpression e _ _ | NewExpression e _ _
  | CatchClause e _ _ => e
  end.

(** [!node['end']]: no offset, or offset 0. *)
Definition no_end (n : Node) : bool :=
  match node_end n with
  | None | Some O => true
  | Some (S _) => false
  end.

(** *** Objects

    A slot of the host object [obj.properties]: its value and the three
    attributes the host keeps for it ([Object.defineProperty] at line 4008
    sets them; a plain assignment creates a slot with all three true). *)
Record Prop_ : Type := mkProp {
  pvalue : Value;
  writable : bool;
  enumerable : bool;
  configurable : bool
}.

Definition plain (v : Value) : Prop_ := mkProp v true true true.

Global Instance Prop_eq_dec : EqDecision Prop_.
Proof. solve_decision. Defined.

(** [Interpreter.Object] (line 3462), with the fields that the source adds
    to scopes ([parentScope], [strict]) and to functions ([node], here
    [fnode]; [nativeFunc] and [asyncFunc], here the number under which the
    host function is registered; [eval], here [isEval]). *)
Record Object : Type := mkObject {
  proto : Value;
  properties : gmap string Prop_;
  getter : gmap string Value;
  setter : gmap string Value;
  class : string;
  data : Value;
  preventExtensions : bool;
  parentScope : Value;
  strict : bool;
  fnode : option Node;
  nativeFunc : option nat;
  asyncFunc : option nat;
  isEval : bool;
  illegalConstructor : bool;
  isGetter : bool
}.

(** [new Interpreter.Object(proto)] *)
Definition newObject (proto : Value) : Object :=
  {| proto := proto; properties := ∅; getter := ∅; setter := ∅;
     class := "Object"; data := Null; preventExtensions := false;
     parentScope := Undefined; strict := false; fnode := None;
     nativeFunc := None; asyncFunc := None; isEval := false;
     illegalConstructor := false; isGetter := false |}.

(** *** Frames

    [Interpreter.Completion] and the record stored in [state.cv]. *)
Inductive Completion : Type := NORMAL | BREAK | CONTINUE | RETURN | THROW.

Global Instance Completion_eq_dec : EqDecision Completion.
Proof. solve_decision. Defined.

Record CompletionValue : Type := mkCv {
  cv_type : Completion;
  cv_value : Value;
  cv_label : option string
}.

(** [Interpreter.State] (line 4441).  A frame is a host object to which
    the step functions attach scratch fields as they go ([done], [done_],
    [n_], [components], [doneLeft_], [doneRight_], [doneGetter_],
    [doneSetter_], [leftReference_], [leftValue_], [doneCallee_], [func_],
    [funcThis_], [directEval_], [doneArgs_], [doneExec_], [isConstructor],
    [doneObject_], [doneProperty_], [object_], [init_], [isLoop],
    [isSwitch], [throwValue], ...).  The fields that hold a guest or
    sentinel value are kept in [fields], a map from the field's name, where
    an absent name reads [undefined] as in the host; the fields of another
    type have a component of their own. *)
Record State : Type := mkState {
  node : Node;
  scope : Value;
  value : Value;
  arguments_ : list Value;
  cv : option CompletionValue;
  labels : list string;
  fields : gmap string Value
}.

(** [new Interpreter.State(node, scope)] *)
Definition newState (n : Node) (sc : Value) : State :=
  {| node := n; scope := sc; value := Undefined; arguments_ := [];
     cv := None; labels := []; fields := ∅ |}.

(** [state.f] and [state.f = v] for a scratch field [f]. *)
Definition fld (f : string) (st : State) : Value :=
  default Undefined (fields st !! f).

Definition set_fld (f : string) (v : Value) (st : State) : State :=
  mkState (node st) (scope st) (value st) (arguments_ st) (cv st) (labels st)
    (<[f := v]> (fields st)).

Definition set_value (v : Value) (st : State) : State :=
  mkState (node st) (scope st) v (arguments_ st) (cv st) (labels st)
    (fields st).

Definition set_arguments_ (l : list Value) (st : State) : State :=
  mkState (node st) (scope st) (value st) l (cv st) (labels st) (fields st).

Definition set_cv (c : option CompletionValue) (st : State) : State :=
  mkState (node st) (scope st) (value st) (arguments_ st) c (labels st)
    (fields st).

Definition set_labels (l : list string) (st : State) : State :=
  mkState (node st) (scope st) (value st) (arguments_ st) (cv st) l
    (fields st).

(** [state.n_ || 0] *)
Definition n_ (st : State) : nat :=
  match fld "n_" st with
  | Num (NInt z) => Z.to_nat z
  | _ => 0%nat
  end.

(** *** The interpreter

    Observable side effects, logged in order in the ghost field [trace]: a
    write to a slot of some [obj.properties], and the invocation of a host
    function registered with [createNativeFunction] or
    [createAsyncFunction]. *)
Inductive Event : Type :=
| EvWrite (h : handle) (name : string) (v : Value)
| EvDelete (h : handle) (name : string)
| EvNative (id : nat) (this : Value) (args : list Value)
| EvAsync (id : nat) (this : Value) (args : list Value).

(** The roots to the built-in constructors and prototypes that the
    interpreter object carries ([this.OBJECT], ...); [Undefined] before
    [initGlobalScope] has set them. *)
Record Roots : Type := mkRoots {
  OBJECT : Value; OBJECT_PROTO : Value;
  FUNCTION : Value; FUNCTION_PROTO : Value;
  ARRAY : Value; ARRAY_PROTO : Value;
  STRING : Value; BOOLEAN : Value; NUMBER : Value;
  REGEXP : Value;
  ERROR : Value; RANGE_ERROR : Value; REFERENCE_ERROR : Value;
  SYNTAX_ERROR : Value; TYPE_ERROR : Value
}.

(** The [Interpreter] object.  [heap] is the graph of [Interpreter.Object]s
    (objects, functions and scopes) and [nextHandle] the next free identity;
    [stateStack] is [None] while the constructor has not assigned it, and
    otherwise the array read from its last element: the head of the list is
    [stack[stack.length - 1]], the last element is [stack[0]].  [this_value]
    is [this.value]. *)
Record Interp : Type := mkInterp {
  heap : gmap handle Object;
  nextHandle : handle;
  stateStack : option (list State);
  paused_ : bool;
  this_value : Value;
  global : Value;
  roots : Roots;
  trace : list Event
}.

Definition set_heap (f : gmap handle Object -> gmap handle Object)
    (I : Interp) : Interp :=
  mkInterp (f (heap I)) (nextHandle I) (stateStack I) (paused_ I)
    (this_value I) (global I) (roots I) (trace I).

Definition set_nextHandle (n : handle) (I : Interp) : Interp :=
  mkInterp (heap I) n (stateStack I) (paused_ I) (this_value I) (global I)
    (roots I) (trace I).

Definition set_stateStack (s : option (list State)) (I : Interp) : Interp :=
  mkInterp (heap I) (nextHandle I) s (paused_ I) (this_value I) (global I)
    (roots I) (trace I).

Definition set_paused_ (b : bool) (I : Interp) : Interp :=
  mkInterp (heap I) (nextHandle I) (stateStack I) b (this_value I) (global I)
    (roots I) (trace I).

Definition set_this_value (v : Value) (I : Interp) : Interp :=
  mkInterp (heap I) (nextHandle I) (stateStack I) (paused_ I) v (global I)
    (roots I) (trace I).

Definition set_global (v : Value) (I : Interp) : Interp :=
  mkInterp (heap I) (nextHandle I) (stateStack I) (paused_ I) (this_value I)
    v (roots I) (trace I).

Definition set_roots (r : Roots) (I : Interp) : Interp :=
  mkInterp (heap I) (nextHandle I) (stateStack I) (paused_ I) (this_value I)
    (global I) r (trace I).

Definition log (e : Event) (I : Interp) : Interp :=
  mkInterp (heap I) (nextHandle I) (stateStack I) (paused_ I) (this_value I)
    (global I) (roots I) (trace I ++ [e]).

(** *** Host exceptions and the monad of interpreter methods

    A method of the interpreter either returns or throws, and in both cases
    leaves the interpreter in a new state (the host does not roll back).
    What can be thrown:
    - [STEP_ERROR], the sentinel of line 2030;
    - a host error object, by the name of its constructor and its message,
      or another thrown host value, by its string;
    - [Outside]: the call leaves the embedded fragment (a host operation or
      a conversion that is not modelled) or does not return (a cyclic
      prototype or scope chain, unbounded reentrancy). *)
Inductive Exn : Type :=
| STEP_ERROR
| HostError (name message : string)
| HostThrown (s : string)
| Outside.

Inductive outcome (A : Type) : Type :=
| Ret (a : A)
| Throw (e : Exn).
Arguments Ret {A} a.
Arguments Throw {A} e.

Definition M (A : Type) : Type := Interp -> outcome A * Interp.

Global Instance M_ret : MRet M := fun A a I => (Ret a, I).

Global Instance M_bind : MBind M := fun A B f m I =>
  match m I with
  | (Ret a, I') => f a I'
  | (Throw e, I') => (Throw e, I')
  end.

Definition throw {A} (e : Exn) : M A := fun I => (Throw e, I).

(** Reading the interpreter, and changing it. *)
Definition gets {A} (f : Interp -> A) : M A := fun I => (Ret (f I), I).

Definition modify (f : Interp -> Interp) : M unit := fun I => (Ret tt, f I).

(** A read-only method, as a function of the interpreter. *)
Definition lift {A} (f : Interp -> outcome A) : M A := fun I => (f I, I).

Definition obind {A B} (o : outcome A) (f : A -> outcome B) : outcome B :=
  match o with
  | Ret a => f a
  | Throw e => Throw e
  end.

(** The host object behind a value; reading a field of a value that is not
    an [Interpreter.Object] is outside the fragment where the source does
    not guard it. *)
Definition objectOf (I : Interp) (v : Value) : option Object :=
  match v with
  | Obj h => heap I !! h
  | _ => None
  end.

Definition getObject (v : Value) : M Object := fun I =>
  match objectOf I v with
  | Some o => (Ret o, I)
  | None => (Throw Outside, I)
  end.

Definition updObject (v : Value) (f : Object -> Object) : M unit := fun I =>
  match v with
  | Obj h =>
      match heap I !! h with
      | Some o => (Ret tt, set_heap <[h := f o]> I)
      | None => (Throw Outside, I)
      end
  | _ => (Throw Outside, I)
  end.

(** Updates of the fields of an object. *)
Definition set_proto (p : Value) (o : Object) : Object :=
  mkObject p (properties o) (getter o) (setter o) (class o) (data o)
    (preventExtensions o) (parentScope o) (strict o) (fnode o)
    (nativeFunc o) (asyncFunc o) (isEval o) (illegalConstructor o)
    (isGetter o).

Definition set_properties (ps : gmap string Prop_) (o : Object) : Object :=
  mkObject (proto o) ps (getter o) (setter o) (class o) (data o)
    (preventExtensions o) (parentScope o) (strict o) (fnode o)
    (nativeFunc o) (asyncFunc o) (isEval o) (illegalConstructor o)
    (isGetter o).

Definition set_getter (g : gmap string Value) (o : Object) : Object :=
  mkObject (proto o) (properties o) g (setter o) (class o) (data o)
    (preventExtensions o) (parentScope o) (strict o) (fnode o)
    (nativeFunc o) (asyncFunc o) (isEval o) (illegalConstructor o)
    (isGetter o).

Definition set_setter (s : gmap string Value) (o : Object) : Object :=
  mkObject (proto o) (properties o) (getter o) s (class o) (data o)
    (preventExtensions o) (parentScope o) (strict o) (fnode o)
    (nativeFunc o) (asyncFunc o) (isEval o) (illegalConstructor o)
    (isGetter o).

Definition set_class (c : string) (o : Object) : Object :=
  mkObject (proto o) (properties o) (getter o) (setter o) c (data o)
    (preventExtensions o) (parentScope o) (strict o) (fnode o)
    (nativeFunc o) (asyncFunc o) (isEval o) (illegalConstructor o)
    (isGetter o).

Definition set_data (d : Value) (o : Object) : Object :=
  mkObject (proto o) (properties o) (getter o) (setter o) (class o) d
    (preventExtensions o) (parentScope o) (strict o) (fnode o)
    (nativeFunc o) (asyncFunc o) (isEval o) (illegalConstructor o)
    (isGetter o).

Definition set_preventExtensions (b : bool) (o : Object) : Object :=
  mkObject (proto o) (properties o) (getter o) (setter o) (class o) (data o)
    b (parentScope o) (strict o) (fnode o)
    (nativeFunc o) (asyncFunc o) (isEval o) (illegalConstructor o)
    (isGetter o).

Definition set_parentScope (p : Value) (o : Object) : Object :=
  mkObject (proto o) (properties o) (getter o) (setter o) (class o) (data o)
    (preventExtensions o) p (strict o) (fnode o)
    (nativeFunc o) (asyncFunc o) (isEval o) (illegalConstructor o)
    (isGetter o).

Definition set_strict (b : bool) (o : Object) : Object :=
  mkObject (proto o) (properties o) (getter o) (setter o) (class o) (data o)
    (preventExtensions o) (parentScope o) b (fnode o)
    (nativeFunc o) (asyncFunc o) (isEval o) (illegalConstructor o)
    (isGetter o).

Definition set_fnode (n : option Node) (o : Object) : Object :=
  mkObject (proto o) (properties o) (getter o) (setter o) (class o) (data o)
    (preventExtensions o) (parentScope o) (strict o) n
    (nativeFunc o) (asyncFunc o) (isEval o) (illegalConstructor o)
    (isGetter o).

Definition set_nativeFunc (n : option nat) (o : Object) : Object :=
  mkObject (proto o) (properties o) (getter o) (setter o) (class o) (data o)
    (preventExtensions o) (parentScope o) (strict o) (fnode o)
    n (asyncFunc o) (isEval o) (illegalConstructor o)
    (isGetter o).

Definition set_asyncFunc (n : option nat) (o : Object) : Object :=
  mkObject (proto o) (properties o) (getter o) (setter o) (class o) (data o)
    (preventExtensions o) (parentScope o) (strict o) (fnode o)
    (nativeFunc o) n (isEval o) (illegalConstructor o)
    (isGetter o).

Definition set_illegalConstructor (b : bool) (o : Object) : Object :=
  mkObject (proto o) (properties o) (getter o) (setter o) (class o) (data o)
    (preventExtensions o) (parentScope o) (strict o) (fnode o)
    (nativeFunc o) (asyncFunc o) (isEval o) b
    (isGetter o).

Definition set_isGetter (b : bool) (o : Object) : Object :=
  mkObject (proto o) (properties o) (getter o) (setter o) (class o) (data o)
    (preventExtensions o) (parentScope o) (strict o) (fnode o)
    (nativeFunc o) (asyncFunc o) (isEval o) (illegalConstructor o)
    b.

(** The stack of frames. *)
Definition getStack : M (list State) := fun I =>
  match stateStack I with
  | Some s => (Ret s, I)
  | None => (Throw (HostError "TypeError" "stateStack is undefined"), I)
  end.

Definition putStack (s : list State) : M unit :=
  modify (set_stateStack (Some s)).

(** [stack.pop()] *)
Definition pop : M unit :=
  s ← getStack; putStack (tail s).

(** [stack[stack.length - 1].f = ...]: an update of the frame on top; on an
    empty stack the host throws a TypeError. *)
Definition updTop (f : State -> State) : M unit :=
  s ← getStack;
  match s with
  | st :: rest => putStack (f st :: rest)
  | [] => throw (HostError "TypeError" "Cannot set property of undefined")
  end.


(** *** Host operations on [obj.properties]

    [obj.properties] is a host object without prototype
    ([Object.create(null)]), so a read, a test with [in] and an assignment
    see its own slots only. *)

(** [o.properties[name]] *)
Definition readProp (o : Object) (name : string) : Value :=
  default Undefined (pvalue <$> properties o !! name).

(** [name in o.properties] *)
Definition inProps (name : string) (o : Object) : bool :=
  bool_decide (is_Some (properties o !! name)).

(** [ps[name] = v]: [None] when the slot exists and is not writable (the
    host then throws a TypeError in strict code and does nothing in
    non-strict code). *)
Definition hostAssign (ps : gmap string Prop_) (name : string) (v : Value)
    : option (gmap string Prop_) :=
  match ps !! name with
  | None => Some (<[name := plain v]> ps)
  | Some cur =>
      if writable cur
      then Some (<[name := mkProp v true (enumerable cur) (configurable cur)]> ps)
      else None
  end.

(** [delete ps[name]]: [None] when the slot exists and is not configurable
    (a TypeError in strict code, the result [false] in non-strict code). *)
Definition hostDelete (ps : gmap string Prop_) (name : string)
    : option (gmap string Prop_) :=
  match ps !! name with
  | None => Some ps
  | Some cur => if configurable cur then Some (delete name ps) else None
  end.

(** [Object.defineProperty(ps, name, {configurable, enumerable, writable,
    value})] with the fields that are present: [None] when the host rejects
    the definition with a TypeError (ES5 8.12.9, for data properties). *)
Definition hostDefineProperty (ps : gmap string Prop_) (name : string)
    (c e w : option bool) (v : option Value) : option (gmap string Prop_) :=
  match ps !! name with
  | None =>
      Some (<[name := mkProp (default Undefined v) (default false w)
                        (default false e) (default false c)]> ps)
  | Some cur =>
      let updated :=
        mkProp (default (pvalue cur) v) (default (writable cur) w)
          (default (enumerable cur) e) (default (configurable cur) c) in
      if configurable cur then Some (<[name := updated]> ps)
      else if bool_decide (c = Some true) then None
      else if bool_decide (is_Some e ∧ e ≠ Some (enumerable cur)) then None
      else if writable cur then Some (<[name := updated]> ps)
      else if bool_decide (w = Some true) then None
      else if bool_decide (is_Some v ∧ v ≠ Some (pvalue cur)) then None
      else Some (<[name := updated]> ps)
  end.

(** *** Conversions *)

(** [a === b] on the values that the embedded functions compare. *)
Definition strict_equal (a b : Value) : bool :=
  match a, b with
  | Num NNaN, _ | _, Num NNaN => false
  | Components _ _, _ | _, Components _ _ => false
  | _, _ => bool_decide (a = b)
  end.

(** The value of a string of decimal digits; [None] when the string is
    empty or has another character. *)
Fixpoint decimal_go (s : string) (acc : Z) : option Z :=
  match s with
  | EmptyString => Some acc
  | String a s' =>
      let c := Z.of_nat (nat_of_ascii a) in
      if (48 <=? c) && (c <=? 57) then decimal_go s' (acc * 10 + (c - 48))
      else None
  end.

Definition decimal (s : string) : option Z :=
  match s with
  | EmptyString => None
  | _ => decimal_go s 0
  end.

(** [x >>> 0] on a number: [ToUint32]. *)
Definition toUint32 (n : number) : Z :=
  match n with
  | NInt z => z mod 2 ^ 32
  | NFrac mant exp => Z.quot mant (2 ^ (- exp)) mod 2 ^ 32
  | NNaN | NInf _ => 0
  end.

(** The Number value of a non-negative integer: the nearest double, or
    [Infinity]. *)
Definition numberOfInteger (z : Z) : number :=
  match Acorn.toDouble z with
  | Acorn.Finite r => NInt r
  | Acorn.Infinity => NInf false
  end.

(** [Number(x)] for the values on which it is embedded: numbers, booleans,
    [null], [undefined] and the strings made of decimal digits, which
    denote an integer.  The other strings (the empty string, strings with
    white space, a sign, a fraction, an exponent or a radix prefix, and the
    strings that are not numerals) and the objects are left out: [None]. *)
Definition ToNumber (x : Value) : option number :=
  match x with
  | Num n => Some n
  | Bool b => Some (NInt (if b then 1 else 0))
  | Null => Some (NInt 0)
  | Undefined => Some NNaN
  | Str s => numberOfInteger <$> decimal s
  | _ => None
  end.

(** [Interpreter.legalArrayLength] (line 3432); the inner [None] is NaN.
    On a value that [ToNumber] leaves out the result is outside the
    embedding. *)
Definition legalArrayLength (x : Value) : outcome (option Z) :=
  match ToNumber x with
  | None => Throw Outside
  | Some nx =>
      let n := toUint32 nx in
      Ret (if bool_decide (NInt n = nx) then Some n else None)
  end.

(** [String(n)] for an unsigned 32-bit integer. *)
Definition String_uint32 (n : Z) : string := pretty n.

(** [Interpreter.legalArrayIndex] (line 3444) on a string, [None] for NaN.
    [x >>> 0] needs [Number(x)]; its result only matters when [String(n)]
    is [x], that is when [x] is the decimal numeral of an unsigned 32-bit
    integer, and then [Number(x)] is that integer: on every other string
    the comparison fails whatever [n] is. *)
Definition legalArrayIndex (x : string) : option Z :=
  match decimal x with
  | Some z =>
      let n := z mod 2 ^ 32 in
      if String.eqb (String_uint32 n) x && negb (n =? 4294967295)
      then Some n else None
  | None => None
  end.

(** [String(v)] of a primitive, where the embedding has it. *)
Definition String_prim (v : Value) : outcome string :=
  match v with
  | Str s => Ret s
  | Num (NInt z) =>
      if Z.abs z <? 10 ^ 21 then Ret (pretty z) else Throw Outside
  | Num NNaN => Ret "NaN"
  | Num (NInf false) => Ret "Infinity"
  | Num (NInf true) => Ret "-Infinity"
  | Bool true => Ret "true"
  | Bool false => Ret "false"
  | Undefined => Ret "undefined"
  | Null => Ret "null"
  | _ => Throw Outside
  end.

(** [String(v)]: on an object, [Interpreter.Object.prototype.toString]
    (line 3486) for the classes other than Array and Error. *)
Definition String_ (I : Interp) (v : Value) : outcome string :=
  match v with
  | Obj h =>
      match heap I !! h with
      | None => Throw Outside
      | Some o =>
          if String.eqb (class o) "Array" || String.eqb (class o) "Error"
          then Throw Outside
          else if bool_decide (data o = Null)
          then Ret ("[object " ++ class o ++ "]")
          else String_prim (data o)
      end
  | SCOPE_REFERENCE | VALUE_IN_DESCRIPTOR => Ret "[object Object]"
  | _ => String_prim v
  end.

(** [String(obj).length] *)
Definition String_length (I : Interp) (v : Value) : outcome Z :=
  obind (String_ I v) (fun s => Ret (Z.of_nat (String.length s))).

(** The bound on the walks along a prototype or scope chain: a chain
    without cycle visits every object at most once. *)
Definition chainFuel (I : Interp) : nat := S (size (heap I)).

(** *** Prototypes *)

(** [c.properties['prototype']] for a root [c]. *)
Definition prototypeOf (I : Interp) (c : Value) : outcome Value :=
  match c with
  | Obj h =>
      match heap I !! h with
      | Some o => Ret (readProp o "prototype")
      | None => Throw Outside
      end
  | _ => Throw (HostError "TypeError" "Cannot read property 'properties'")
  end.

(** [Interpreter.prototype.getPrototype] (line 3814) *)
Definition getPrototype (I : Interp) (value : Value) : outcome Value :=
  match value with
  | Num _ => prototypeOf I (NUMBER (roots I))
  | Bool _ => prototypeOf I (BOOLEAN (roots I))
  | Str _ => prototypeOf I (STRING (roots I))
  | Obj h =>
      match heap I !! h with
      | Some o => Ret (proto o)
      | None => Throw Outside
      end
  | Undefined | Null => Ret Null
  | SCOPE_REFERENCE | VALUE_IN_DESCRIPTOR | Components _ _ => Ret Undefined
  end.

(** [child.proto] for a truthy [child] *)
Definition dot_proto (I : Interp) (child : Value) : outcome Value :=
  match child with
  | Obj h =>
      match heap I !! h with
      | Some o => Ret (proto o)
      | None => Throw Outside
      end
  | _ => Ret Undefined
  end.

(** The loop of [isa]: [while (child) { ... child = child.proto; }] *)
Fixpoint isa_loop (fuel : nat) (I : Interp) (child proto : Value)
    : outcome bool :=
  match fuel with
  | O => Throw Outside
  | S fuel' =>
      if truthy child then
        if strict_equal child proto then Ret true
        else obind (dot_proto I child) (fun c => isa_loop fuel' I c proto)
      else Ret false
  end.

(** [Interpreter.prototype.isa] (line 3406) *)
Definition isa (I : Interp) (child constructor : Value) : outcome bool :=
  match child with
  | Null | Undefined => Ret false
  | _ =>
      if negb (truthy constructor) then Ret false
      else
        obind (prototypeOf I constructor) (fun proto =>
        if strict_equal child proto then Ret true
        else obind (getPrototype I child) (fun c =>
             isa_loop (chainFuel I) I c proto))
  end.

(** The loop of [hasProperty] and of [getProperty]:
    [do { if (obj.properties && name in obj.properties) ... }
     while ((obj = this.getPrototype(obj)));]
    It returns the object on which the name is found. *)
Fixpoint lookup_loop (fuel : nat) (I : Interp) (obj : Value) (name : string)
    : outcome (option Object) :=
  match fuel with
  | O => Throw Outside
  | S fuel' =>
      let found :=
        match objectOf I obj with
        | Some o => if inProps name o then Some o else None
        | None => None
        end in
      match found with
      | Some o => Ret (Some o)
      | None =>
          obind (getPrototype I obj) (fun p =>
          if truthy p then lookup_loop fuel' I p name else Ret None)
      end
  end.

(** [Interpreter.prototype.hasProperty] (line 3877) *)
Definition hasProperty (I : Interp) (obj name : Value) : outcome bool :=
  match obj with
  | Undefined | Null =>
      Throw (HostError "TypeError" "Cannot read property 'isObject'")
  | _ =>
      if negb (isObject obj)
      then Throw (HostError "TypeError" "Primitive data type has no properties")
      else
        obind (String_ I name) (fun name =>
        obind (isa I obj (STRING (roots I))) (fun isString =>
        if String.eqb name "length" && isString then Ret true
        else
          obind (if isString
                 then match legalArrayIndex name with
                      | Some n =>
                          obind (String_length I obj) (fun len =>
                          Ret (n <? len))
                      | None => Ret false
                      end
                 else Ret false) (fun inString =>
          if (inString : bool) then Ret true
          else obind (lookup_loop (S (chainFuel I)) I obj name) (fun r =>
               Ret (bool_decide (is_Some r))))))
  end.

(** [name.charCodeAt(0) < 0x40] *)
Definition charCode0_lt_0x40 (name : string) : bool :=
  match name with
  | EmptyString => false
  | String a _ => (nat_of_ascii a <? 64)%nat
  end.


(** *** Property descriptors

    The optional descriptor of [setProperty]: a host object in which each of
    the six recognised fields is present or absent. *)
Record Descriptor : Type := mkDescriptor {
  d_configurable : option bool;
  d_enumerable : option bool;
  d_writable : option bool;
  d_value : option Value;
  d_get : option Value;
  d_set : option Value
}.

Definition dataDescriptor (c e w : bool) : Descriptor :=
  mkDescriptor (Some c) (Some e) (Some w) None None None.

(** Lines 1992 to 2023. *)
Definition READONLY_DESCRIPTOR := dataDescriptor true true false.
Definition NONENUMERABLE_DESCRIPTOR := dataDescriptor true false true.
Definition READONLY_NONENUMERABLE_DESCRIPTOR := dataDescriptor true false false.
Definition VARIABLE_DESCRIPTOR := dataDescriptor false true true.

(** *** Number comparison

    [a < b] and [Math.max(a, b)] on numbers; a double [mant * 2^exp] with
    [exp < 0] is the fraction [mant / 2^(-exp)]. *)
Definition num_frac (n : number) : option (Z * Z) :=
  match n with
  | NInt z => Some (z, 1)
  | NFrac mant exp => Some (mant, 2 ^ (- exp))
  | _ => None
  end.

Definition num_ltb (a b : number) : bool :=
  match a, b with
  | NNaN, _ | _, NNaN => false
  | NInf true, NInf true => false
  | NInf true, _ => true
  | _, NInf true => false
  | NInf false, _ => false
  | _, NInf false => true
  | _, _ =>
      match num_frac a, num_frac b with
      | Some (p, q), Some (r, s) => p * s <? r * q
      | _, _ => false
      end
  end.

Definition Math_max (a b : number) : number :=
  match a, b with
  | NNaN, _ | _, NNaN => NNaN
  | _, _ => if num_ltb a b then b else a
  end.

(** [o.getter[name]] and [o.setter[name]] when truthy. *)
Definition accessor (m : gmap string Value) (name : string) : option Value :=
  match m !! name with
  | Some f => if truthy f then Some f else None
  | None => None
  end.

(** *** Scopes of frames *)

(** [Interpreter.prototype.getScope] (line 4067) *)
Definition getScope : M Value :=
  s ← getStack;
  match s with
  | st :: _ =>
      if truthy (scope st) then mret (scope st)
      else throw (HostError "Error" "No scope found.")
  | [] => throw (HostError "TypeError" "Cannot read property 'scope' of undefined")
  end.

(** [scope.strict] *)
Definition scopeStrict (I : Interp) (sc : Value) : bool :=
  match objectOf I sc with
  | Some o => strict o
  | None => false
  end.

(** [new Interpreter.Object(proto)]: a host object with a new identity. *)
Definition alloc (o : Object) : M Value := fun I =>
  (Ret (Obj (nextHandle I)),
   set_nextHandle (S (nextHandle I)) (set_heap <[nextHandle I := o]> I)).

(** The loop of [unwind] (line 4338) over the frames from the top; it
    returns the stack that is left and how the loop ended. *)
Inductive Unwound : Type :=
| Handled
| Exhausted
| Unsyntactic.

Definition label_matches (label : option string) (st : State)
    (unlabelled : bool) : bool :=
  match label with
  | Some l =>
      if String.eqb l "" then unlabelled else bool_decide (l ∈ labels st)
  | None => unlabelled
  end.

Fixpoint unwind_loop (stack : list State) (type : Completion) (v : Value)
    (label : option string) : Unwound * list State :=
  match stack with
  | [] => (Exhausted, [])
  | state :: rest =>
      let ty := node_type (node state) in
      if String.eqb ty "TryStatement"
      then (Handled, set_cv (Some (mkCv type v label)) state :: rest)
      else
        let isCall :=
          String.eqb ty "CallExpression" || String.eqb ty "NewExpression" in
        if isCall && bool_decide (type = RETURN)
        then (Handled, set_value v state :: rest)
        else if isCall && negb (bool_decide (type = THROW))
        then (Unsyntactic, stack)
        else if bool_decide (type = BREAK) &&
                label_matches label state
                  (truthy (fld "isLoop" state) || truthy (fld "isSwitch" state))
        then (Handled, rest)
        else if bool_decide (type = CONTINUE) &&
                label_matches label state (truthy (fld "isLoop" state))
        then (Handled, stack)
        else unwind_loop rest type v label
  end.

(** [errorTable[name] || Error] (lines 4370 to 4381) *)
Definition errorTable (name : string) : string :=
  if bool_decide (name ∈ ["EvalError"; "RangeError"; "ReferenceError";
                          "SyntaxError"; "TypeError"; "URIError"])
  then name else "Error".

(** *** Methods that can throw a guest exception

    [setProperty] and [getProperty] call [throwException], which creates
    the error object with [createObject] and [setProperty];
    [createObjectProto] calls itself for the prototype of a new function.
    The bodies in [Body] take these reentrant calls as parameters; the
    methods are tied together below, to a fixed depth of reentrancy. *)

Module Body.

Section Reentrant.

(** Whether the functions of the interpreter run as strict host code. *)
Variable hostStrict : bool.

Variable throwException' : forall A : Type, Value -> option string -> M A.
Variable createObjectProto' : Value -> M Value.

Definition throwError {A} (cls : Roots -> Value) (message : string) : M A :=
  c ← gets (fun I => cls (roots I));
  throwException' A c (Some message).

(** [!this.stateStack || this.getScope().strict] *)
Definition isStrict : M bool :=
  ss ← gets stateStack;
  match ss with
  | None => mret true
  | Some _ => sc ← getScope; gets (fun I => scopeStrict I sc)
  end.

(** The loop of [setProperty] that finds the object on which the property
    is defined (lines 4018 to 4025). *)
Fixpoint defObj_loop (fuel : nat) (I : Interp) (obj defObj : Value)
    (name : string) : outcome Value :=
  match fuel with
  | O => Throw Outside
  | S fuel' =>
      match objectOf I defObj with
      | None => Throw Outside
      | Some d =>
          if inProps name d then Ret defObj
          else obind (getPrototype I defObj) (fun p =>
               if truthy p then defObj_loop fuel' I obj p name else Ret obj)
      end
  end.

(** The keys that the loop of lines 3949 to 3954 deletes: the enumerable
    slots whose name is a legal index at or above the new length. *)
Definition truncated (newLength : Z) (name : string) (p : Prop_) : bool :=
  enumerable p &&
  match legalArrayIndex name with
  | Some i => newLength <=? i
  | None => false
  end.

(** The part of [setProperty] for objects of class Array (lines 3940 to
    3959); it returns the value to store, which for [length] is the
    converted length. *)
Definition setProperty_array (obj : Value) (name : string) (value : Value)
    : M Value :=
  o ← getObject obj;
  let length := readProp o "length" in
  if String.eqb name "length" then
    r ← lift (fun _ => legalArrayLength value);
    match r with
    | None => throwError RANGE_ERROR "Invalid array length"
    | Some value' =>
        match ToNumber length with
        | None => throw Outside
        | Some len =>
            (if num_ltb (NInt value') len then
               let doomed := filter (fun kp => truncated value' kp.1 kp.2 = true)
                               (properties o) in
               if bool_decide (map_Forall (fun _ p => configurable p = true) doomed)
               then updObject obj (set_properties
                      (filter (fun kp => truncated value' kp.1 kp.2 = false)
                         (properties o)))
               else if hostStrict then throw Outside
               else updObject obj (set_properties
                      (filter (fun kp => truncated value' kp.1 kp.2 = false
                                         ∨ configurable kp.2 = false)
                         (properties o)))
             else mret tt);;
            mret (Num (NInt value'))
        end
    end
  else
    match legalArrayIndex name with
    | Some i =>
        match ToNumber length with
        | None => throw Outside
        | Some len =>
            let m := Num (Math_max len (NInt (i + 1))) in
            match hostAssign (properties o) "length" m with
            | Some ps =>
                updObject obj (set_properties ps);;
                match obj with
                | Obj h => modify (log (EvWrite h "length" m))
                | _ => mret tt
                end;;
                mret value
            | None =>
                if hostStrict
                then throw (HostError "TypeError" "Cannot assign to read only property 'length'")
                else mret value
            end
        end
    | None => mret value
    end.

(** The branch of [setProperty] that defines the property from a
    descriptor (lines 3971 to 4011). *)
Definition setProperty_define (obj : Value) (name : string) (value : Value)
    (d : Descriptor) : M Value :=
  match d_get d with
  | Some g =>
      updObject obj (fun o => set_getter
        (if truthy g then <[name := g]> (getter o) else delete name (getter o)) o)
  | None => mret tt
  end;;
  match d_set d with
  | Some s =>
      updObject obj (fun o => set_setter
        (if truthy s then <[name := s]> (setter o) else delete name (setter o)) o)
  | None => mret tt
  end;;
  let clearAccessors :=
    updObject obj (fun o =>
      set_setter (delete name (setter o)) (set_getter (delete name (getter o)) o)) in
  match d_writable d with
  | Some _ => clearAccessors
  | None => mret tt
  end;;
  dvalue ←
    match d_value d with
    | Some v => clearAccessors;; mret (Some v)
    | None =>
        if bool_decide (value = VALUE_IN_DESCRIPTOR) then mret None
        else clearAccessors;; mret (Some value)
    end;
  o ← getObject obj;
  match hostDefineProperty (properties o) name (d_configurable d)
          (d_enumerable d) (d_writable d) dvalue with
  | Some ps =>
      updObject obj (set_properties ps);;
      match obj with
      | Obj h => modify (log (EvWrite h name (default Undefined (pvalue <$> ps !! name))))
      | _ => mret tt
      end;;
      mret Undefined
  | None => throwError TYPE_ERROR ("Cannot redefine property: " ++ name)
  end.

(** The branch of [setProperty] that assigns (lines 4012 to 4046). *)
Definition setProperty_assign (strict : bool) (obj : Value) (name : string)
    (value : Value) : M Value :=
  if bool_decide (value = VALUE_IN_DESCRIPTOR)
  then throw (HostError "ReferenceError" "Value not specified.")
  else
    defObj ← lift (fun I => defObj_loop (S (chainFuel I)) I obj obj name);
    d ← getObject defObj;
    match accessor (setter d) name with
    | Some s => mret s
    | None =>
        match accessor (getter d) name with
        | Some _ =>
            if strict
            then
              s ← lift (fun I => String_ I obj);
              throwError TYPE_ERROR
                ("Cannot set property '" ++ name ++ "' of object '" ++ s ++
                 "' which only has a getter")
            else mret Undefined
        | None =>
            o ← getObject obj;
            match hostAssign (properties o) name value with
            | Some ps =>
                updObject obj (set_properties ps);;
                match obj with
                | Obj h => modify (log (EvWrite h name value))
                | _ => mret tt
                end;;
                mret Undefined
            | None =>
                if hostStrict && strict
                then
                  s ← lift (fun I => String_ I obj);
                  throwError TYPE_ERROR
                    ("Cannot assign to read only property '" ++ name ++
                     "' of object '" ++ s ++ "'")
                else mret Undefined
            end
        end
    end.

(** [Interpreter.prototype.setProperty] (line 3910).  The result is the
    setter to call, or [undefined]. *)
Definition setProperty (obj name value : Value)
    (opt_descriptor : option Descriptor) : M Value :=
  name ← lift (fun I => String_ I name);
  match obj with
  | Undefined | Null =>
      s ← lift (fun _ => String_prim obj);
      throwError TYPE_ERROR ("Cannot set property '" ++ name ++ "' of " ++ s)
  | _ =>
      let accessorsAndValue :=
        match opt_descriptor with
        | Some d =>
            (bool_decide (is_Some (d_get d)) || bool_decide (is_Some (d_set d)))
            && (bool_decide (is_Some (d_value d)) ||
                bool_decide (is_Some (d_writable d)))
        | None => false
        end in
      if accessorsAndValue
      then throwError TYPE_ERROR
             "Invalid property descriptor. Cannot both specify accessors and a value or writable attribute"
      else
        guestStrict ← isStrict;
        if negb (isObject obj) then
          if (guestStrict : bool)
          then
            s ← lift (fun I => String_ I obj);
            throwError TYPE_ERROR
              ("Can't create property '" ++ name ++ "' on '" ++ s ++ "'")
          else mret Undefined
        else
          isString ← lift (fun I => isa I obj (STRING (roots I)));
          readonlyChar ←
            (if (isString : bool) then
               if String.eqb name "length" then mret true
               else match legalArrayIndex name with
                    | Some n =>
                        len ← lift (fun I => String_length I obj);
                        mret (n <? len)
                    | None => mret false
                    end
             else mret false);
          if (readonlyChar : bool) then
            if (guestStrict : bool)
            then
              o ← getObject obj;
              s ← lift (fun _ => String_prim (data o));
              throwError TYPE_ERROR
                ("Cannot assign to read only property '" ++ name ++
                 "' of String '" ++ s ++ "'")
            else mret Undefined
          else
            o ← getObject obj;
            stored ← (if String.eqb (class o) "Array"
                      then setProperty_array obj name value
                      else mret value);
            o ← getObject obj;
            if preventExtensions o && negb (inProps name o) then
              if (guestStrict : bool)
              then throwError TYPE_ERROR
                     ("Can't add property '" ++ name ++ "', object is not extensible")
              else mret Undefined
            else
              match opt_descriptor with
              | Some d => setProperty_define obj name stored d
              | None => setProperty_assign guestStrict obj name stored
              end
  end.

(** [Interpreter.prototype.createObjectProto] (line 3574) *)
Definition createObjectProto (proto : Value) : M Value :=
  obj ← alloc (newObject proto);
  isFunction ← lift (fun I => isa I obj (FUNCTION (roots I)));
  (if (isFunction : bool) then
     op ← gets (fun I => OBJECT_PROTO (roots I));
     p ← createObjectProto' (if truthy op then op else Null);
     setProperty obj (Str "prototype") p None;;
     updObject obj (set_class "Function")
   else mret tt);;
  isArray ← lift (fun I => isa I obj (ARRAY (roots I)));
  (if (isArray : bool) then
     setProperty obj (Str "length") (Num (NInt 0))
       (Some (dataDescriptor false false true));;
     updObject obj (set_class "Array")
   else mret tt);;
  isError ← lift (fun I => isa I obj (ERROR (roots I)));
  (if (isError : bool) then updObject obj (set_class "Error") else mret tt);;
  mret obj.

(** [Interpreter.prototype.createObject] (line 3564) *)
Definition createObject (constructor : Value) : M Value :=
  if truthy constructor
  then p ← lift (fun I => prototypeOf I constructor); createObjectProto p
  else createObjectProto constructor.

(** [Interpreter.prototype.getProperty] (line 3835).  The flag [isGetter]
    that it sets on a getter is a write to the function object. *)
Definition getProperty (obj name : Value) : M Value :=
  name ← lift (fun I => String_ I name);
  match obj with
  | Undefined | Null =>
      s ← lift (fun _ => String_prim obj);
      throwError TYPE_ERROR ("Cannot read property '" ++ name ++ "' of " ++ s)
  | _ =>
      special ←
        (if String.eqb name "length" then
           isString ← lift (fun I => isa I obj (STRING (roots I)));
           if (isString : bool)
           then l ← lift (fun I => String_length I obj);
                mret (Some (Num (NInt l)))
           else mret None
         else if charCode0_lt_0x40 name then
           isString ← lift (fun I => isa I obj (STRING (roots I)));
           if (isString : bool) then
             match legalArrayIndex name with
             | Some n =>
                 s ← lift (fun I => String_ I obj);
                 if n <? Z.of_nat (String.length s)
                 then mret (Some (Str (String.substring (Z.to_nat n) 1 s)))
                 else mret None
             | None => mret None
             end
           else mret None
         else mret None);
      match special with
      | Some v => mret v
      | None =>
          r ← lift (fun I => lookup_loop (S (chainFuel I)) I obj name);
          match r with
          | None => mret Undefined
          | Some o =>
              match accessor (getter o) name with
              | Some g => updObject g (set_isGetter true);; mret g
              | None => mret (readProp o name)
              end
          end
      end
  end.

(** [Interpreter.prototype.unwind] (line 4333) *)
Definition unwind (type : Completion) (v : Value) (label : option string)
    : M unit :=
  if bool_decide (type = NORMAL)
  then throw (HostError "TypeError" "Should not unwind for NORMAL completions")
  else
    stack ← getStack;
    match unwind_loop stack type v label with
    | (Handled, stack') => putStack stack'
    | (Unsyntactic, stack') =>
        putStack stack';;
        throw (HostError "Error" "Unsynatctic break/continue not rejected by Acorn")
    | (Exhausted, stack') =>
        putStack stack';;
        isError ← lift (fun I => isa I v (ERROR (roots I)));
        if (isError : bool) then
          name ← getProperty v (Str "name");
          name ← lift (fun _ => String_prim name);
          message ← getProperty v (Str "message");
          match message with
          | Undefined | Null =>
              throw (HostError "TypeError" "Cannot read property 'valueOf'")
          | _ =>
              message ← lift (fun I => String_ I message);
              throw (HostError (errorTable name) message)
          end
        else
          s ← lift (fun I => String_ I v);
          throw (HostThrown s)
    end.

(** [Interpreter.prototype.throwException] (line 4311) *)
Definition throwException (A : Type) (errorClass : Value)
    (opt_message : option string) : M A :=
  error ←
    match opt_message with
    | None => mret errorClass
    | Some message =>
        e ← createObject errorClass;
        setProperty e (Str "message") (Str message)
          (Some NONENUMERABLE_DESCRIPTOR);;
        mret e
    end;
  unwind THROW error None;;
  throw STEP_ERROR.

End Reentrant.

End Body.

(** *** Native values (the host side of the bridge)

    What the embedder passes to [nativeToPseudo] and gets from
    [pseudoToNative]: host primitives, host arrays and plain host objects.
    Arrays and objects have an identity and live in a heap of their own, so
    that the cyclic results of [pseudoToNative] can be represented.  Host
    functions and regular expressions are not represented. *)
Definition nhandle := nat.

Inductive NValue : Type :=
| NUndefined
| NNull
| NBool (b : bool)
| NNum (n : number)
| NStr (s : string)
| NRef (h : nhandle).

Global Instance NValue_eq_dec : EqDecision NValue.
Proof. solve_decision. Defined.

(** The host prototype of a native object: [Object.prototype] for [{}],
    [Array.prototype] for [[]], or what the setter of [__proto__] has put
    there. *)
Inductive NProto : Type :=
| ObjectPrototype
| ArrayPrototype
| NullPrototype
| ProtoOf (h : nhandle).

(** A native array or plain object: its own slots (all of them plain data
    slots), and for an array its [length]. *)
Record NObject : Type := mkNObject {
  n_isArray : bool;
  n_props : gmap string NValue;
  n_length : Z;
  n_proto : NProto
}.

Record NHeap : Type := mkNHeap {
  nobjs : gmap nhandle NObject;
  nnext : nhandle
}.

Definition emptyNHeap : NHeap := mkNHeap ∅ 0%nat.

(** [{}] and [[]] *)
Definition nalloc (o : NObject) (nh : NHeap) : NValue * NHeap :=
  (NRef (nnext nh), mkNHeap (<[nnext nh := o]> (nobjs nh)) (S (nnext nh))).

Definition newNObject : NObject := mkNObject false ∅ 0 ObjectPrototype.
Definition newNArray : NObject := mkNObject true ∅ 0 ArrayPrototype.

(** Whether [p] already has [h] on its prototype chain (the test of
    [[SetPrototypeOf]]). *)
Fixpoint nproto_reaches (fuel : nat) (nh : NHeap) (p : NProto) (h : nhandle)
    : bool :=
  match fuel with
  | O => true
  | S fuel' =>
      match p with
      | ProtoOf q =>
          if bool_decide (q = h) then true
          else match nobjs nh !! q with
               | Some o => nproto_reaches fuel' nh (n_proto o) h
               | None => false
               end
      | _ => false
      end
  end.

(** [nativeObj[key] = v] on a plain object that the host has just made
    with [{}].  Every name creates or overwrites an own slot, except
    [__proto__]: [Object.prototype] has an accessor of that name, whose
    setter changes the prototype when [v] is an object or [null], does
    nothing for another value, and throws a TypeError on a cyclic chain. *)
Definition host_set (nh : NHeap) (h : nhandle) (key : string) (v : NValue)
    : outcome NHeap :=
  match nobjs nh !! h with
  | None => Throw Outside
  | Some o =>
      if String.eqb key "__proto__" then
        match v with
        | NRef p =>
            if bool_decide (p = h) || nproto_reaches (S (size (nobjs nh))) nh (ProtoOf p) h
            then Throw (HostError "TypeError" "Cyclic __proto__ value")
            else Ret (mkNHeap (<[h := mkNObject (n_isArray o) (n_props o)
                                         (n_length o) (ProtoOf p)]> (nobjs nh))
                        (nnext nh))
        | NNull =>
            Ret (mkNHeap (<[h := mkNObject (n_isArray o) (n_props o)
                                   (n_length o) NullPrototype]> (nobjs nh))
                   (nnext nh))
        | _ => Ret nh
        end
      else
        Ret (mkNHeap (<[h := mkNObject (n_isArray o) (<[key := v]> (n_props o))
                               (n_length o) (n_proto o)]> (nobjs nh))
               (nnext nh))
  end.

(** [nativeObj[i] = v] on a host array, for an index [i]. *)
Definition host_set_index (nh : NHeap) (h : nhandle) (i : Z) (v : NValue)
    : outcome NHeap :=
  match nobjs nh !! h with
  | None => Throw Outside
  | Some o =>
      Ret (mkNHeap (<[h := mkNObject (n_isArray o)
                             (<[String_uint32 i := v]> (n_props o))
                             (Z.max (n_length o) (i + 1)) (n_proto o)]> (nobjs nh))
             (nnext nh))
  end.

(** [nativeObj[key]]: the own slot, or the one inherited from a prototype
    set through [__proto__]. *)
Fixpoint host_get (fuel : nat) (nh : NHeap) (h : nhandle) (key : string)
    : NValue :=
  match fuel with
  | O => NUndefined
  | S fuel' =>
      match nobjs nh !! h with
      | None => NUndefined
      | Some o =>
          match n_props o !! key with
          | Some v => v
          | None =>
              match n_proto o with
              | ProtoOf p => host_get fuel' nh p key
              | _ => NUndefined
              end
          end
      end
  end.

(** The names that [for (var key in nativeObj)] visits: the own ones, then
    those of the prototypes that are not shadowed.  The order within an
    object is the host's and is not modelled. *)
Fixpoint host_forin (fuel : nat) (nh : NHeap) (h : nhandle) (seen : list string)
    : list string :=
  match fuel with
  | O => []
  | S fuel' =>
      match nobjs nh !! h with
      | None => []
      | Some o =>
          let own := filter (fun k => k ∉ seen) (map fst (map_to_list (n_props o))) in
          own ++
          match n_proto o with
          | ProtoOf p => host_forin fuel' nh p (seen ++ own)
          | _ => []
          end
      end
  end.

(** *** JSON-shaped values

    The trees that [JSON.parse] builds: every member of an object becomes
    an own slot, whatever its name. *)
Inductive Json : Type :=
| JNull
| JBool (b : bool)
| JNum (n : number)
| JStr (s : string)
| JArr (elements : list Json)
| JObj (members : list (string * Json)).

Fixpoint build (x : Json) (nh : NHeap) : NValue * NHeap :=
  match x with
  | JNull => (NNull, nh)
  | JBool b => (NBool b, nh)
  | JNum n => (NNum n, nh)
  | JStr s => (NStr s, nh)
  | JArr elements =>
      let '(r, nh1) := nalloc newNArray nh in
      let h := match r with NRef h => h | _ => 0%nat end in
      let fix go (l : list Json) (i : Z) (nh : NHeap) : NHeap :=
        match l with
        | [] => nh
        | e :: l' =>
            let '(v, nh') := build e nh in
            let nh'' :=
              match nobjs nh' !! h with
              | Some o =>
                  mkNHeap (<[h := mkNObject true (<[String_uint32 i := v]> (n_props o))
                                    (i + 1) (n_proto o)]> (nobjs nh')) (nnext nh')
              | None => nh'
              end in
            go l' (i + 1) nh''
        end in
      (r, go elements 0 nh1)
  | JObj members =>
      let '(r, nh1) := nalloc newNObject nh in
      let h := match r with NRef h => h | _ => 0%nat end in
      let fix go (l : list (string * Json)) (nh : NHeap) : NHeap :=
        match l with
        | [] => nh
        | (k, e) :: l' =>
            let '(v, nh') := build e nh in
            let nh'' :=
              match nobjs nh' !! h with
              | Some o =>
                  mkNHeap (<[h := mkNObject false (<[k := v]> (n_props o))
                                    0 (n_proto o)]> (nobjs nh')) (nnext nh')
              | None => nh'
              end in
            go l' nh''
        end in
      (r, go members nh1)
  end.

(** Structural equality of a native value with a JSON tree: the same
    primitive, or an array of the same length, or an object with the same
    own names, whose elements or members are equal in turn. *)
Fixpoint matches (nh : NHeap) (v : NValue) (x : Json) {struct x} : bool :=
  match x, v with
  | JNull, NNull => true
  | JBool b, NBool b' => bool_decide (b = b')
  | JNum n, NNum n' => bool_decide (n = n')
  | JStr s, NStr s' => bool_decide (s = s')
  | JArr elements, NRef h =>
      match nobjs nh !! h with
      | Some o =>
          n_isArray o && (n_length o =? Z.of_nat (length elements)) &&
          bool_decide (size (n_props o) = length elements) &&
          (fix go (l : list Json) (i : Z) : bool :=
             match l with
             | [] => true
             | e :: l' =>
                 match n_props o !! String_uint32 i with
                 | Some w => matches nh w e && go l' (i + 1)
                 | None => false
                 end
             end) elements 0
      | None => false
      end
  | JObj members, NRef h =>
      match nobjs nh !! h with
      | Some o =>
          negb (n_isArray o) &&
          bool_decide (dom (n_props o) = list_to_set (map fst members)) &&
          (fix go (l : list (string * Json)) : bool :=
             match l with
             | [] => true
             | (k, e) :: l' =>
                 (* of two members of the same name, the last one counts *)
                 (if bool_decide (k ∈ map fst l') then true
                  else match n_props o !! k with
                       | Some w => matches nh w e
                       | None => false
                       end) && go l'
             end) members
      | None => false
      end
  | _, _ => false
  end.

(** *** The step engine (lines 2079 to 2118)

    [this.stepFunctions_] maps the type of a node to its step function; a
    step function receives the frame on top of the stack and its node, and
    returns the frame to push, if any. *)
Definition StepFunction : Type := State -> Node -> M (option State).

(** [stack.push(st)] *)
Definition push (st : State) : M unit :=
  s ← getStack; putStack (st :: s).

(** The [try] of [step]: a thrown [STEP_ERROR] is eaten, and leaves
    [nextState] undefined. *)
Definition eatStepError (m : M (option State)) : M (option State) := fun I =>
  match m I with
  | (Throw STEP_ERROR, I') => (Ret None, I')
  | r => r
  end.

Section Engine.

Variable stepFunctions_ : string -> option StepFunction.

(** [Interpreter.prototype.step] (line 2079).  The call of [step] on itself
    after a node without [end] is bounded by [fuel]. *)
Fixpoint step (fuel : nat) : M bool :=
  match fuel with
  | O => throw Outside
  | S fuel' =>
      stack ← getStack;
      match stack with
      | [] => mret false
      | state :: _ =>
          let type := node_type (node state) in
          if String.eqb type "Program" && truthy (fld "done" state)
          then mret false
          else
            paused ← gets paused_;
            if (paused : bool) then mret true
            else
              nextState ←
                eatStepError
                  match stepFunctions_ type with
                  | Some f => f state (node state)
                  | None => throw (HostError "TypeError"
                              "this.stepFunctions_[type] is not a function")
                  end;
              match nextState with
              | Some ns => push ns
              | None => mret tt
              end;;
              if no_end (node state) then step fuel' else mret true
      end
  end.

(** [Interpreter.prototype.run] (line 2115): [loops] bounds the iterations
    of the [while], [fuel] is the bound given to each [step]. *)
Fixpoint run (fuel loops : nat) : M bool :=
  match loops with
  | O => throw Outside
  | S loops' =>
      paused ← gets paused_;
      if (paused : bool) then gets paused_
      else
        more ← step fuel;
        if (more : bool) then run fuel loops' else gets paused_
  end.

(** The loop of a host that drives the interpreter with [step]:
    [while (interpreter.step()) {}]. *)
Fixpoint stepUntilFalse (fuel loops : nat) : M unit :=
  match loops with
  | O => throw Outside
  | S loops' =>
      more ← step fuel;
      if (more : bool) then stepUntilFalse fuel loops' else mret tt
  end.

End Engine.

(** The callback that [stepCallExpression] hands to an asynchronous host
    function (lines 4727 to 4730): it writes to the frame [state] of the
    call, which is the frame at position [pos] from the bottom of the stack
    for as long as the interpreter is paused, and clears [paused_].  A
    position that is not on the stack is a frame that has left it: the
    write shows nowhere. *)
Definition callback (pos : nat) (v : Value) : M unit :=
  stack ← gets stateStack;
  match stack with
  | Some s =>
      if (pos <? length s)%nat then
        let i := (length s - 1 - pos)%nat in
        match s !! i with
        | Some st => putStack (<[i := set_value v st]> s)
        | None => mret tt
        end
      else mret tt
  | None => mret tt
  end;;
  modify (set_paused_ false).

(** *** The host in which the interpreter runs *)

Section Host.

(** Whether the functions of the interpreter run as strict host code. *)
Variable hostStrict : bool.

(** The host functions registered with [createNativeFunction]: their arity
    and what a call does, given [this] and the arguments. *)
Variable nativeFuncs : nat -> Value -> list Value -> M Value.

(** The host functions registered with [createAsyncFunction].  A call
    returns [Some v] when the host function has called the callback with
    [v] before returning, [None] when it has kept the callback for later. *)
Variable asyncFuncs : nat -> Value -> list Value -> M (option Value).

(** The methods of [Body], tied: a reentrant call beyond depth
    [reentrancy] is outside the embedding. *)
Fixpoint tie (depth : nat)
    : (forall A : Type, Value -> option string -> M A) * (Value -> M Value) :=
  match depth with
  | O => (fun A _ _ => throw Outside, fun _ => throw Outside)
  | S d =>
      (Body.throwException hostStrict (tie d).1 (tie d).2,
       Body.createObjectProto hostStrict (tie d).1 (tie d).2)
  end.

Definition reentrancy : nat := 3.

Definition throwException {A : Type} : Value -> option string -> M A :=
  Body.throwException hostStrict (tie reentrancy).1 (tie reentrancy).2 A.

Definition setProperty : Value -> Value -> Value -> option Descriptor -> M Value :=
  Body.setProperty hostStrict (tie reentrancy).1.

Definition getProperty : Value -> Value -> M Value :=
  Body.getProperty (tie reentrancy).1.

Definition createObjectProto : Value -> M Value :=
  Body.createObjectProto hostStrict (tie reentrancy).1 (tie reentrancy).2.

Definition createObject : Value -> M Value :=
  Body.createObject hostStrict (tie reentrancy).1 (tie reentrancy).2.

Definition unwind : Completion -> Value -> option string -> M unit :=
  Body.unwind (tie reentrancy).1.

Definition throwError {A} (cls : Roots -> Value) (message : string) : M A :=
  c ← gets (fun I => cls (roots I));
  throwException c (Some message).


(** *** Functions *)

Definition params_of (n : Node) : list string :=
  match n with
  | FunctionDeclaration _ _ ps _ | FunctionExpression _ _ ps _ => ps
  | _ => []
  end.

(** [Interpreter.prototype.createFunction] (line 3621) *)
Definition createFunction (n : Node) (sc : Value) : M Value :=
  fp ← gets (fun I => FUNCTION_PROTO (roots I));
  func ← createObjectProto fp;
  updObject func (set_parentScope sc);;
  updObject func (set_fnode (Some n));;
  setProperty func (Str "length") (Num (NInt (Z.of_nat (length (params_of n)))))
    (Some READONLY_DESCRIPTOR);;
  mret func.

(** [Interpreter.prototype.createNativeFunction] (line 3639), for the host
    function registered under [id], of declared arity [arity]. *)
Definition createNativeFunction (id : nat) (arity : Z)
    (opt_constructor : option bool) : M Value :=
  fp ← gets (fun I => FUNCTION_PROTO (roots I));
  func ← createObjectProto fp;
  updObject func (set_nativeFunc (Some id));;
  setProperty func (Str "length") (Num (NInt arity)) (Some READONLY_DESCRIPTOR);;
  match opt_constructor with
  | Some true =>
      o ← getObject func;
      setProperty (readProp o "prototype") (Str "constructor") func
        (Some NONENUMERABLE_DESCRIPTOR);;
      mret tt
  | Some false =>
      updObject func (set_illegalConstructor true);;
      setProperty func (Str "prototype") Undefined None;;
      mret tt
  | None => mret tt
  end;;
  mret func.

(** [Interpreter.prototype.createAsyncFunction] (line 3661) *)
Definition createAsyncFunction (id : nat) (arity : Z) : M Value :=
  fp ← gets (fun I => FUNCTION_PROTO (roots I));
  func ← createObjectProto fp;
  updObject func (set_asyncFunc (Some id));;
  setProperty func (Str "length") (Num (NInt arity)) (Some READONLY_DESCRIPTOR);;
  mret func.

(** *** Scopes (lines 4082 to 4219) *)

(** [Interpreter.prototype.populateScope_] (line 4184).  A
    [VariableDeclarator] is the pair of its name and initialiser. *)
Fixpoint populateScope_ (n : Node) (sc : Value) {struct n} : M unit :=
  let each :=
    fix each (l : list Node) : M unit :=
      match l with
      | [] => mret tt
      | x :: l' => populateScope_ x sc;; each l'
      end in
  let opt := fun o : option Node =>
    match o with
    | Some x => populateScope_ x sc
    | None => mret tt
    end in
  match n with
  | VariableDeclaration _ decls =>
      (fix vars (l : list (string * option Node)) : M unit :=
         match l with
         | [] => mret tt
         | (x, _) :: l' =>
             setProperty sc (Str x) Undefined (Some VARIABLE_DESCRIPTOR);;
             vars l'
         end) decls;;
      (fix inits (l : list (string * option Node)) : M unit :=
         match l with
         | [] => mret tt
         | (_, Some i) :: l' => populateScope_ i sc;; inits l'
         | (_, None) :: l' => inits l'
         end) decls
  | FunctionDeclaration _ id _ _ =>
      f ← createFunction n sc;
      setProperty sc (Str id) f (Some VARIABLE_DESCRIPTOR);;
      mret tt
  | FunctionExpression _ _ _ _ => mret tt
  | ExpressionStatement _ _ => mret tt
  | Program _ body | BlockStatement _ body => each body
  | ReturnStatement _ a => opt a
  | ThrowStatement _ a => populateScope_ a sc
  | TryStatement _ b h f => populateScope_ b sc;; opt h;; opt f
  | CatchClause _ _ b => populateScope_ b sc
  | MemberExpression _ o p _ => populateScope_ o sc;; populateScope_ p sc
  | AssignmentExpression _ _ l r => populateScope_ l sc;; populateScope_ r sc
  | UnaryExpression _ _ a => populateScope_ a sc
  | CallExpression _ c args => opt c;; each args
  | NewExpression _ c args => populateScope_ c sc;; each args
  | EmptyStatement _ | Identifier _ _ | Literal _ _ | ThisExpression _ =>
      mret tt
  end.

(** Whether [node['body'][0]] is the statement ['use strict']. *)
Definition startsWithUseStrict (n : Node) : bool :=
  match n with
  | Program _ (ExpressionStatement _ (Literal _ (Str s)) :: _)
  | BlockStatement _ (ExpressionStatement _ (Literal _ (Str s)) :: _) =>
      String.eqb s "use strict"
  | _ => false
  end.

(** [Interpreter.prototype.createScope] (line 4082), for a scope with a
    parent; the scope without parent is the global scope, whose
    initialisation is [initGlobalScope]. *)
Definition createScope (n : Node) (parent : Value) : M Value :=
  sc ← createObjectProto Null;
  updObject sc (set_parentScope parent);;
  (if truthy parent then mret tt else throw Outside);;
  populateScope_ n sc;;
  updObject sc (set_strict false);;
  ps ← gets (fun I => scopeStrict I parent);
  (if (ps : bool) || startsWithUseStrict n
   then updObject sc (set_strict true) else mret tt);;
  mret sc.

(** [Interpreter.prototype.createSpecialScope] (line 4114) *)
Definition createSpecialScope (parent : Value) (opt_scope : option Value)
    : M Value :=
  if negb (truthy parent) then throw (HostError "Error" "parentScope required")
  else
    sc ← match opt_scope with
         | Some s => if truthy s then mret s else createObjectProto Null
         | None => createObjectProto Null
         end;
    updObject sc (set_parentScope parent);;
    ps ← gets (fun I => scopeStrict I parent);
    updObject sc (set_strict ps);;
    mret sc.

(** The loop shared by [getValueFromScope] and [setValueToScope]:
    [while (scope && scope !== this.global) {
       if (name in scope.properties) ...; scope = scope.parentScope; }].
    It returns the scope on which it stops and whether the name was found
    there. *)
Fixpoint scope_loop (fuel : nat) (I : Interp) (sc : Value) (name : string)
    : outcome (Value * bool) :=
  match fuel with
  | O => Throw Outside
  | S fuel' =>
      if truthy sc && negb (strict_equal sc (global I)) then
        match objectOf I sc with
        | None => Throw Outside
        | Some o =>
            if inProps name o then Ret (sc, true)
            else scope_loop fuel' I (parentScope o) name
        end
      else Ret (sc, false)
  end.

(** [Interpreter.prototype.getValueFromScope] (line 4131) *)
Definition getValueFromScope (name : string) : M Value :=
  sc ← getScope;
  r ← lift (fun I => scope_loop (chainFuel I) I sc name);
  match r with
  | (sc', true) => o ← getObject sc'; mret (readProp o name)
  | (sc', false) =>
      g ← gets global;
      has ← (if strict_equal sc' g
             then lift (fun I => hasProperty I sc' (Str name))
             else mret false);
      if (has : bool) then getProperty sc' (Str name)
      else
        stack ← getStack;
        match stack with
        | [] => throw (HostError "TypeError" "Cannot read property 'node' of undefined")
        | top :: _ =>
            match node top with
            | UnaryExpression _ "typeof" _ => mret Undefined
            | _ => throwError REFERENCE_ERROR (name ++ " is not defined")
            end
        end
  end.

(** [Interpreter.prototype.setValueToScope] (line 4160) *)
Definition setValueToScope (name : string) (v : Value) : M Value :=
  sc ← getScope;
  guestStrict ← gets (fun I => scopeStrict I sc);
  r ← lift (fun I => scope_loop (chainFuel I) I sc name);
  match r with
  | (sc', true) =>
      o ← getObject sc';
      match hostAssign (properties o) name v with
      | Some ps =>
          updObject sc' (set_properties ps);;
          match sc' with
          | Obj h => modify (log (EvWrite h name v))
          | _ => mret tt
          end;;
          mret Undefined
      | None =>
          if hostStrict
          then throw (HostError "TypeError" ("Cannot assign to read only property '" ++ name ++ "'"))
          else mret Undefined
      end
  | (sc', false) =>
      g ← gets global;
      ok ← (if strict_equal sc' g then
              if negb guestStrict then mret true
              else lift (fun I => hasProperty I sc' (Str name))
            else mret false);
      if (ok : bool) then setProperty sc' (Str name) v None
      else throwError REFERENCE_ERROR (name ++ " is not defined")
  end.

(** [Interpreter.prototype.getValue] (line 4263) and
    [Interpreter.prototype.setValue] (line 4280): [ref] is the host array
    [[base, name]]. *)
Definition getValue (ref : Value) : M Value :=
  match ref with
  | Components SCOPE_REFERENCE name =>
      name ← lift (fun _ => String_prim name);
      getValueFromScope name
  | Components base name => getProperty base name
  | _ => throw Outside
  end.

Definition setValue (ref : Value) (v : Value) : M Value :=
  match ref with
  | Components SCOPE_REFERENCE name =>
      name ← lift (fun _ => String_prim name);
      setValueToScope name v
  | Components base name => setProperty base name v None
  | _ => throw Outside
  end.

(** The node that [createGetter_] and [createSetter_] make:
    [new this.nodeConstructor()] with only its type set. *)
Definition syntheticCall : Node := CallExpression None None [].

Definition topScope : M Value :=
  s ← getStack;
  match s with
  | st :: _ => mret (scope st)
  | [] => throw (HostError "TypeError" "Cannot read property 'scope' of undefined")
  end.

(** [Interpreter.prototype.createGetter_] (line 4395) *)
Definition createGetter_ (func left : Value) : M State :=
  let funcThis := match left with Components b _ => b | _ => left end in
  sc ← topScope;
  mret (set_arguments_ []
       (set_fld "doneArgs_" (Bool true)
       (set_fld "func_" func
       (set_fld "funcThis_" funcThis
       (set_fld "doneCallee_" (Bool true)
       (newState syntheticCall sc)))))).

(** [Interpreter.prototype.createSetter_] (line 4419) *)
Definition createSetter_ (func left v : Value) : M State :=
  g ← gets global;
  let funcThis := match left with Components b _ => b | _ => g end in
  sc ← topScope;
  mret (set_arguments_ [v]
       (set_fld "doneArgs_" (Bool true)
       (set_fld "func_" func
       (set_fld "funcThis_" funcThis
       (set_fld "doneCallee_" (Bool true)
       (newState syntheticCall sc)))))).

(** [v && typeof v === 'object' && v.isGetter] *)
Definition flaggedGetter (I : Interp) (v : Value) : bool :=
  match objectOf I v with
  | Some o => isGetter o
  | None => false
  end.

(** *** The step functions (lines 4451 to 5427)

    Each takes the frame [state] on top of the stack and its node.  The
    source mutates [state] in place; here the changed frame is written back
    with [setTop] before anything else can observe it. *)

(** [state = ...], for the frame on top. *)
Definition setTop (st : State) : M unit := updTop (fun _ => st).

(** [stack[stack.length - 1].value = v] *)
Definition setTopValue (v : Value) : M unit := updTop (set_value v).

(** [stepProgram] (line 5158) *)
Definition stepProgram (state : State) (n : Node) : M (option State) :=
  match n with
  | Program _ body =>
      match body !! n_ state with
      | Some expression =>
          setTop (set_fld "n_" (Num (NInt (Z.of_nat (n_ state + 1))))
                   (set_fld "done" (Bool false) state));;
          mret (Some (newState expression (scope state)))
      | None =>
          setTop (set_fld "done" (Bool true) state);;
          mret None
      end
  | _ => throw Outside
  end.

(** [stepBlockStatement] (line 4592) *)
Definition stepBlockStatement (state : State) (n : Node) : M (option State) :=
  match n with
  | BlockStatement _ body =>
      match body !! n_ state with
      | Some expression =>
          setTop (set_fld "n_" (Num (NInt (Z.of_nat (n_ state + 1)))) state);;
          mret (Some (newState expression (scope state)))
      | None => pop;; mret None
      end
  | _ => throw Outside
  end.

(** [stepEmptyStatement] (line 4828) and [stepFunctionDeclaration]
    (line 4992) *)
Definition stepEmptyStatement (state : State) (n : Node) : M (option State) :=
  pop;; mret None.

Definition stepFunctionDeclaration (state : State) (n : Node)
    : M (option State) :=
  pop;; mret None.

(** [stepExpressionStatement] (line 4843) *)
Definition stepExpressionStatement (state : State) (n : Node)
    : M (option State) :=
  match n with
  | ExpressionStatement _ expression =>
      if negb (truthy (fld "done_" state)) then
        setTop (set_fld "done_" (Bool true) state);;
        mret (Some (newState expression (scope state)))
      else
        pop;;
        modify (set_this_value (value state));;
        mret None
  | _ => throw Outside
  end.

(** [stepFunctionExpression] (line 4998) *)
Definition stepFunctionExpression (state : State) (n : Node)
    : M (option State) :=
  pop;;
  f ← createFunction n (scope state);
  setTopValue f;;
  mret None.

(** The loop of [stepIdentifier] (lines 5015 to 5017), whose result the
    source does not use. *)
Fixpoint identifier_loop (fuel : nat) (I : Interp) (sc : Value) (name : string)
    : outcome unit :=
  match fuel with
  | O => Throw Outside
  | S fuel' =>
      obind (hasProperty I sc (Str name)) (fun has =>
      if (has : bool) then Ret tt
      else match objectOf I sc with
           | Some o => identifier_loop fuel' I (parentScope o) name
           | None => Throw Outside
           end)
  end.

(** [stepIdentifier] (line 5003) *)
Definition stepIdentifier (state : State) (n : Node) : M (option State) :=
  match n with
  | Identifier _ name =>
      pop;;
      if truthy (fld "components" state) then
        setTopValue (Components SCOPE_REFERENCE (Str name));;
        mret None
      else
        v ← getValueFromScope name;
        isG ← gets (fun I => flaggedGetter I v);
        if (isG : bool) then
          updObject v (set_isGetter false);;
          lift (fun I => identifier_loop (chainFuel I) I (scope state) name);;
          g ← gets global;
          s ← createGetter_ v g;
          mret (Some s)
        else
          setTopValue v;;
          mret None
  | _ => throw Outside
  end.

(** [stepLiteral] (line 5038), for the literals that are not regular
    expressions. *)
Definition stepLiteral (state : State) (n : Node) : M (option State) :=
  match n with
  | Literal _ v => pop;; setTopValue v;; mret None
  | _ => throw Outside
  end.

(** [stepThisExpression] (line 5243) *)
Definition stepThisExpression (state : State) (n : Node) : M (option State) :=
  pop;;
  v ← getValueFromScope "this";
  setTopValue v;;
  mret None.

(** [stepMemberExpression] (line 5073) *)
Definition stepMemberExpression (state : State) (n : Node) : M (option State) :=
  match n with
  | MemberExpression _ object property computed =>
      if negb (truthy (fld "doneObject_" state)) then
        setTop (set_fld "doneObject_" (Bool true) state);;
        mret (Some (newState object (scope state)))
      else
        let finish (st : State) (propName : Value) : M (option State) :=
          pop;;
          if truthy (fld "components" st) then
            setTopValue (Components (fld "object_" st) propName);;
            mret None
          else
            v ← getProperty (fld "object_" st) propName;
            isG ← gets (fun I => flaggedGetter I v);
            if (isG : bool) then
              updObject v (set_isGetter false);;
              s ← createGetter_ v (fld "object_" st);
              mret (Some s)
            else
              setTopValue v;;
              mret None in
        if negb computed then
          let st := set_fld "object_" (value state) state in
          setTop st;;
          match property with
          | Identifier _ name => finish st (Str name)
          | _ => throw Outside
          end
        else if negb (truthy (fld "doneProperty_" state)) then
          setTop (set_fld "doneProperty_" (Bool true)
                   (set_fld "object_" (value state) state));;
          mret (Some (newState property (scope state)))
        else finish state (value state)
  | _ => throw Outside
  end.

(** [stepReturnStatement] (line 5171) *)
Definition stepReturnStatement (state : State) (n : Node) : M (option State) :=
  match n with
  | ReturnStatement _ argument =>
      match argument with
      | Some a =>
          if negb (truthy (fld "done_" state)) then
            setTop (set_fld "done_" (Bool true) state);;
            mret (Some (newState a (scope state)))
          else unwind RETURN (value state) None;; mret None
      | None => unwind RETURN (value state) None;; mret None
      end
  | _ => throw Outside
  end.

(** [stepThrowStatement] (line 5248) *)
Definition stepThrowStatement (state : State) (n : Node) : M (option State) :=
  match n with
  | ThrowStatement _ argument =>
      if negb (truthy (fld "done_" state)) then
        setTop (set_fld "done_" (Bool true) state);;
        mret (Some (newState argument (scope state)))
      else throwException (value state) None
  | _ => throw Outside
  end.

(** [stepTryStatement] (line 5257) *)
Definition stepTryStatement (state : State) (n : Node) : M (option State) :=
  match n with
  | TryStatement _ block handler finalizer =>
      if negb (truthy (fld "doneBlock_" state)) then
        setTop (set_fld "doneBlock_" (Bool true) state);;
        mret (Some (newState block (scope state)))
      else
        let thrown :=
          match cv state with
          | Some c => if bool_decide (cv_type c = THROW) then Some (cv_value c) else None
          | None => None
          end in
        match thrown, negb (truthy (fld "doneHandler_" state)), handler with
        | Some v, true, Some h =>
            setTop (set_cv None (set_fld "doneHandler_" (Bool true) state));;
            mret (Some (set_fld "throwValue" v (newState h (scope state))))
        | _, _, _ =>
            match negb (truthy (fld "doneFinalizer_" state)), finalizer with
            | true, Some f =>
                setTop (set_fld "doneFinalizer_" (Bool true) state);;
                mret (Some (newState f (scope state)))
            | _, _ =>
                pop;;
                match cv state with
                | Some c => unwind (cv_type c) (cv_value c) (cv_label c);; mret None
                | None => mret None
                end
            end
        end
  | _ => throw Outside
  end.

(** [stepCatchClause] (line 4759) *)
Definition stepCatchClause (state : State) (n : Node) : M (option State) :=
  match n with
  | CatchClause _ param body =>
      if negb (truthy (fld "done_" state)) then
        setTop (set_fld "done_" (Bool true) state);;
        sc ← createSpecialScope (scope state) None;
        setProperty sc (Str param) (fld "throwValue" state) None;;
        mret (Some (newState body sc))
      else pop;; mret None
  | _ => throw Outside
  end.

(** [stepVariableDeclaration] (line 5384) *)
Definition stepVariableDeclaration (state : State) (n : Node)
    : M (option State) :=
  match n with
  | VariableDeclaration _ declarations =>
      let n0 := n_ state in
      '(st, n1) ←
        match truthy (fld "init_" state), declarations !! n0 with
        | true, Some (name, _) =>
            setValueToScope name (value state);;
            let st := set_fld "init_" (Bool false) state in
            setTop st;;
            mret (st, S n0)
        | _, _ => mret (state, n0)
        end;
      let fix next (l : list (string * option Node)) (k : nat)
          : option (nat * Node) :=
        match l with
        | [] => None
        | (_, Some i) :: _ => Some (k, i)
        | (_, None) :: l' => next l' (S k)
        end in
      match next (drop n1 declarations) n1 with
      | Some (k, i) =>
          setTop (set_fld "init_" (Bool true)
                   (set_fld "n_" (Num (NInt (Z.of_nat k))) st));;
          mret (Some (newState i (scope state)))
      | None => pop;; mret None
      end
  | _ => throw Outside
  end.

(** [stepAssignmentExpression] (line 4473).  Of the operators, [=] is
    embedded; the compound ones need the host's arithmetic. *)
Definition stepAssignmentExpression (state : State) (n : Node)
    : M (option State) :=
  match n with
  | AssignmentExpression _ operator lhs rhs =>
      if negb (truthy (fld "doneLeft_" state)) then
        setTop (set_fld "doneLeft_" (Bool true) state);;
        mret (Some (set_fld "components" (Bool true)
                      (newState lhs (scope state))))
      else if negb (truthy (fld "doneRight_" state)) then
        let st1 :=
          if negb (truthy (fld "leftReference_" state))
          then set_fld "leftReference_" (value state) state else state in
        let st2 :=
          if truthy (fld "doneGetter_" st1)
          then set_fld "leftValue_" (value st1) st1 else st1 in
        if negb (truthy (fld "doneGetter_" st2)) && negb (String.eqb operator "=")
        then
          setTop st2;;
          leftValue ← getValue (fld "leftReference_" st2);
          let st3 := set_fld "leftValue_" leftValue st2 in
          isG ← gets (fun I => flaggedGetter I leftValue);
          if (isG : bool) then
            updObject leftValue (set_isGetter false);;
            setTop (set_fld "doneGetter_" (Bool true) st3);;
            s ← createGetter_ leftValue (fld "leftReference_" st3);
            mret (Some s)
          else
            setTop (set_fld "doneRight_" (Bool true) st3);;
            mret (Some (newState rhs (scope state)))
        else
          setTop (set_fld "doneRight_" (Bool true) st2);;
          mret (Some (newState rhs (scope state)))
      else if truthy (fld "doneSetter_" state) then
        pop;;
        setTopValue (fld "doneSetter_" state);;
        mret None
      else
        let rightValue := value state in
        v ← (if String.eqb operator "=" then mret rightValue
             else if bool_decide (operator ∈ ["+="; "-="; "*="; "/="; "%=";
                                   "<<="; ">>="; ">>>="; "&="; "^="; "|="])
             then throw Outside
             else throw (HostError "SyntaxError"
                           ("Unknown assignment expression: " ++ operator)));
        setter ← setValue (fld "leftReference_" state) v;
        if truthy setter then
          setTop (set_fld "doneSetter_" v state);;
          s ← createSetter_ setter (fld "leftReference_" state) v;
          mret (Some s)
        else
          pop;;
          setTopValue v;;
          mret None
  | _ => throw Outside
  end.

(** [typeof value], with the case of line 5322 for guest functions. *)
Definition typeofValue (I : Interp) (v : Value) : string :=
  match v with
  | Undefined => "undefined"
  | Bool _ => "boolean"
  | Num _ => "number"
  | Str _ => "string"
  | Obj h =>
      match heap I !! h with
      | Some o => if String.eqb (class o) "Function" then "function" else "object"
      | None => "object"
      end
  | _ => "object"
  end.

(** [stepUnaryExpression] (line 5282).  Of the operators, [delete],
    [typeof], [void] and [!] are embedded; [-], [+] and [~] need the host's
    arithmetic.  In the [try] of lines 5309 to 5318, [obj.properties] of a
    value that is not an object throws in every host mode, while [delete]
    of a slot that is not configurable throws in strict host code only and
    is [false], discarded by the source, otherwise. *)
Definition stepUnaryExpression (state : State) (n : Node) : M (option State) :=
  match n with
  | UnaryExpression _ operator argument =>
      if negb (truthy (fld "done_" state)) then
        setTop (set_fld "done_" (Bool true) state);;
        mret (Some (set_fld "components" (Bool (String.eqb operator "delete"))
                      (newState argument (scope state))))
      else
        pop;;
        v ←
          (if bool_decide (operator ∈ ["-"; "+"; "~"]) then throw Outside
           else if String.eqb operator "!" then mret (Bool (negb (truthy (value state))))
           else if String.eqb operator "delete" then
             match value state with
             | Components base name =>
                 let obj :=
                   if strict_equal base SCOPE_REFERENCE then scope state else base in
                 name ← lift (fun I => String_ I name);
                 guestStrict ← gets (fun I => scopeStrict I (scope state));
                 let caught : M Value :=
                   if (guestStrict : bool)
                   then
                     s ← lift (fun I => String_ I obj);
                     throwError TYPE_ERROR
                       ("Cannot delete property '" ++ name ++ "' of '" ++ s ++ "'")
                   else mret (Bool false) in
                 o ← gets (fun I => objectOf I obj);
                 match o with
                 | None => caught
                 | Some o =>
                     match hostDelete (properties o) name with
                     | Some ps =>
                         updObject obj (set_properties ps);;
                         match obj with
                         | Obj h => modify (log (EvDelete h name))
                         | _ => mret tt
                         end;;
                         mret (Bool true)
                     | None => if hostStrict then caught else mret (Bool true)
                     end
                 end
             | _ => mret (Bool true)
             end
           else if String.eqb operator "typeof"
           then gets (fun I => Str (typeofValue I (value state)))
           else if String.eqb operator "void" then mret Undefined
           else throw (HostError "SyntaxError"
                         ("Unknown unary operator: " ++ operator)));
        setTopValue v;;
        mret None
  | _ => throw Outside
  end.

(** [func.illegalConstructor] *)
Definition illegalConstructorOf (func : Value) : M bool :=
  match func with
  | Undefined | Null =>
      throw (HostError "TypeError" "Cannot read property 'illegalConstructor'")
  | _ => gets (fun I => match objectOf I func with
                        | Some o => illegalConstructor o
                        | None => false
                        end)
  end.

(** The call of a guest function (lines 4672 to 4696): the new scope with
    the parameters, [arguments], the function's name and [this]. *)
Definition enterFunction (state : State) (func : Value) (funcNode : Node)
    : M State :=
  match funcNode with
  | FunctionDeclaration _ _ params body
  | FunctionExpression _ _ params body =>
      fo ← getObject func;
      sc ← createScope body (parentScope fo);
      (fix bind (ps : list string) (args : list Value) : M unit :=
         match ps with
         | [] => mret tt
         | p :: ps' =>
             setProperty sc (Str p) (default Undefined (head args)) None;;
             bind ps' (tail args)
         end) params (arguments_ state);;
      ap ← gets (fun I => ARRAY_PROTO (roots I));
      argsList ← createObjectProto ap;
      (fix fill (args : list Value) (i : Z) : M unit :=
         match args with
         | [] => mret tt
         | a :: args' =>
             setProperty argsList (Num (NInt i)) a None;;
             fill args' (i + 1)
         end) (arguments_ state) 0;;
      setProperty sc (Str "arguments") argsList None;;
      match funcNode with
      | FunctionDeclaration _ name _ _ | FunctionExpression _ (Some name) _ _ =>
          if negb (String.eqb name "")
          then setProperty sc (Str name) func None;; mret tt
          else mret tt
      | _ => mret tt
      end;;
      setProperty sc (Str "this") (fld "funcThis_" state)
        (Some READONLY_DESCRIPTOR);;
      mret (newState body sc)
  | _ => throw Outside
  end.

(** [stepCallExpression] (line 4607), which is also [stepNewExpression]
    (line 5106).  A direct or indirect [eval] needs the parser and is
    outside the embedding. *)
Definition stepCallExpression (state : State) (n : Node) : M (option State) :=
  let '(isNew, callee, args) :=
    match n with
    | CallExpression _ c a => (false, c, a)
    | NewExpression _ c a => (true, Some c, a)
    | _ => (false, None, [])
    end in
  if negb (truthy (fld "doneCallee_" state)) then
    setTop (set_fld "doneCallee_" (Num (NInt 1)) state);;
    match callee with
    | Some c =>
        mret (Some (set_fld "components" (Bool true) (newState c (scope state))))
    | None => throw Outside
    end
  else
    (* [if (state.doneCallee_ === 1)]: the left result is the frame to go
       on with, the right one the frame of a getter to run first. *)
    r ←
      (if strict_equal (fld "doneCallee_" state) (Num (NInt 1)) then
         let st := set_fld "doneCallee_" (Num (NInt 2)) state in
         let func := value state in
         r1 ←
           match func with
           | Components base name =>
               setTop st;;
               f ← getValue func;
               let st := set_fld "func_" f st in
               let st :=
                 if strict_equal base SCOPE_REFERENCE
                 then set_fld "directEval_"
                        (Bool (strict_equal name (Str "eval"))) st
                 else set_fld "funcThis_" base st in
               isG ← gets (fun I => flaggedGetter I f);
               if (isG : bool) then
                 updObject f (set_isGetter false);;
                 setTop (set_fld "doneCallee_" (Num (NInt 1)) st);;
                 g ← createGetter_ f (value state);
                 mret (inr g)
               else mret (inl st)
           | _ => mret (inl (set_fld "func_" func st))
           end;
         match r1 with
         | inr g => mret (inr g)
         | inl st =>
             let st := set_fld "n_" (Num (NInt 0)) (set_arguments_ [] st) in
             setTop st;;
             mret (inl st)
         end
       else mret (inl state));
    match r with
    | inr g => mret (Some g)
    | inl st =>
        let func := fld "func_" st in
        (* [if (!state.doneArgs_)] *)
        r2 ←
          (if negb (truthy (fld "doneArgs_" st)) then
             let st :=
               if negb (strict_equal (fld "n_" st) (Num (NInt 0)))
               then set_arguments_ (arguments_ st ++ [value st]) st else st in
             match args !! n_ st with
             | Some a =>
                 setTop (set_fld "n_" (Num (NInt (Z.of_nat (n_ st + 1)))) st);;
                 mret (inr (newState a (scope st)))
             | None =>
                 setTop st;;
                 st ←
                   (if (isNew : bool) then
                      illegal ← illegalConstructorOf func;
                      if (illegal : bool) then
                        s ← lift (fun I => String_ I func);
                        throwError TYPE_ERROR (s ++ " is not a constructor")
                      else
                        this ← createObject func;
                        mret (set_fld "isConstructor" (Bool true)
                               (set_fld "funcThis_" this st))
                    else if strict_equal (fld "funcThis_" st) Undefined then
                      gs ← gets (fun I => scopeStrict I (scope st));
                      g ← gets global;
                      mret (set_fld "funcThis_" (if (gs : bool) then Undefined else g) st)
                    else mret st);
                 let st := set_fld "doneArgs_" (Bool true) st in
                 setTop st;;
                 mret (inl st)
             end
           else mret (inl st));
        match r2 with
        | inr next => mret (Some next)
        | inl st =>
            if negb (truthy (fld "doneExec_" st)) then
              let st := set_fld "doneExec_" (Bool true) st in
              setTop st;;
              if negb (truthy func) || negb (isObject func) then
                s ← lift (fun I => String_ I func);
                throwError TYPE_ERROR (s ++ " is not a function")
              else
                fo ← getObject func;
                match fnode fo with
                | Some funcNode =>
                    next ← enterFunction st func funcNode;
                    updTop (set_value Undefined);;
                    mret (Some next)
                | None =>
                    if isEval fo then throw Outside
                    else
                      match nativeFunc fo, asyncFunc fo with
                      | Some id, _ =>
                          modify (log (EvNative id (fld "funcThis_" st) (arguments_ st)));;
                          v ← nativeFuncs id (fld "funcThis_" st) (arguments_ st);
                          setTopValue v;;
                          mret None
                      | None, Some id =>
                          stack ← getStack;
                          modify (set_paused_ true);;
                          modify (log (EvAsync id (fld "funcThis_" st) (arguments_ st)));;
                          now ← asyncFuncs id (fld "funcThis_" st) (arguments_ st);
                          match now with
                          | Some v => callback (length stack - 1) v
                          | None => mret tt
                          end;;
                          mret None
                      | None, None =>
                          throwError TYPE_ERROR (class fo ++ " is not a function")
                      end
                end
            else
              pop;;
              (if truthy (fld "isConstructor" st) && negb (typeof_object (value st))
               then setTopValue (fld "funcThis_" st)
               else setTopValue (value st));;
              mret None
        end
    end.

(** [this.stepFunctions_], for the step functions above. *)
Definition stepFunctions (type : string) : option StepFunction :=
  if String.eqb type "Program" then Some stepProgram
  else if String.eqb type "BlockStatement" then Some stepBlockStatement
  else if String.eqb type "ExpressionStatement" then Some stepExpressionStatement
  else if String.eqb type "EmptyStatement" then Some stepEmptyStatement
  else if String.eqb type "ReturnStatement" then Some stepReturnStatement
  else if String.eqb type "ThrowStatement" then Some stepThrowStatement
  else if String.eqb type "TryStatement" then Some stepTryStatement
  else if String.eqb type "CatchClause" then Some stepCatchClause
  else if String.eqb type "VariableDeclaration" then Some stepVariableDeclaration
  else if String.eqb type "FunctionDeclaration" then Some stepFunctionDeclaration
  else if String.eqb type "FunctionExpression" then Some stepFunctionExpression
  else if String.eqb type "Identifier" then Some stepIdentifier
  else if String.eqb type "Literal" then Some stepLiteral
  else if String.eqb type "ThisExpression" then Some stepThisExpression
  else if String.eqb type "MemberExpression" then Some stepMemberExpression
  else if String.eqb type "AssignmentExpression" then Some stepAssignmentExpression
  else if String.eqb type "UnaryExpression" then Some stepUnaryExpression
  else if String.eqb type "CallExpression" then Some stepCallExpression
  else if String.eqb type "NewExpression" then Some stepCallExpression
  else None.

(** *** Construction (lines 1929 to 1981 and 2124 to 2207)

    The constructor creates the global scope and the built-in constructors.
    Of [initGlobalScope] the embedding keeps what creates the roots and
    the global constants, in the order of the source; the methods installed
    on the built-ins, [Date], [Math], [JSON], the global functions and the
    polyfills are left out.  The host functions behind the constructors are
    registered under the numbers below. *)
Definition ID_Function : nat := 0.
Definition ID_FunctionProto : nat := 1.
Definition ID_Object : nat := 2.
Definition ID_Array : nat := 3.
Definition ID_String : nat := 4.
Definition ID_Boolean : nat := 5.
Definition ID_Number : nat := 6.
Definition ID_RegExp : nat := 7.
Definition ID_Error : nat := 8.
(** Identifiers from [ID_user] on are free for the embedder. *)
Definition ID_user : nat := 20.

Definition noRoots : Roots :=
  mkRoots Undefined Undefined Undefined Undefined Undefined Undefined
    Undefined Undefined Undefined Undefined Undefined Undefined Undefined
    Undefined Undefined.

(** The interpreter object when its constructor starts. *)
Definition emptyInterp : Interp :=
  mkInterp ∅ 0%nat None false Undefined Undefined noRoots [].

Definition setRoot (f : Value -> Roots -> Roots) (v : Value) : M unit :=
  modify (fun I => set_roots (f v (roots I)) I).

Definition with_OBJECT v r := mkRoots v (OBJECT_PROTO r) (FUNCTION r) (FUNCTION_PROTO r) (ARRAY r) (ARRAY_PROTO r) (STRING r) (BOOLEAN r) (NUMBER r) (REGEXP r) (ERROR r) (RANGE_ERROR r) (REFERENCE_ERROR r) (SYNTAX_ERROR r) (TYPE_ERROR r).
Definition with_OBJECT_PROTO v r := mkRoots (OBJECT r) v (FUNCTION r) (FUNCTION_PROTO r) (ARRAY r) (ARRAY_PROTO r) (STRING r) (BOOLEAN r) (NUMBER r) (REGEXP r) (ERROR r) (RANGE_ERROR r) (REFERENCE_ERROR r) (SYNTAX_ERROR r) (TYPE_ERROR r).
Definition with_FUNCTION v r := mkRoots (OBJECT r) (OBJECT_PROTO r) v (FUNCTION_PROTO r) (ARRAY r) (ARRAY_PROTO r) (STRING r) (BOOLEAN r) (NUMBER r) (REGEXP r) (ERROR r) (RANGE_ERROR r) (REFERENCE_ERROR r) (SYNTAX_ERROR r) (TYPE_ERROR r).
Definition with_FUNCTION_PROTO v r := mkRoots (OBJECT r) (OBJECT_PROTO r) (FUNCTION r) v (ARRAY r) (ARRAY_PROTO r) (STRING r) (BOOLEAN r) (NUMBER r) (REGEXP r) (ERROR r) (RANGE_ERROR r) (REFERENCE_ERROR r) (SYNTAX_ERROR r) (TYPE_ERROR r).
Definition with_ARRAY v r := mkRoots (OBJECT r) (OBJECT_PROTO r) (FUNCTION r) (FUNCTION_PROTO r) v (ARRAY_PROTO r) (STRING r) (BOOLEAN r) (NUMBER r) (REGEXP r) (ERROR r) (RANGE_ERROR r) (REFERENCE_ERROR r) (SYNTAX_ERROR r) (TYPE_ERROR r).
Definition with_ARRAY_PROTO v r := mkRoots (OBJECT r) (OBJECT_PROTO r) (FUNCTION r) (FUNCTION_PROTO r) (ARRAY r) v (STRING r) (BOOLEAN r) (NUMBER r) (REGEXP r) (ERROR r) (RANGE_ERROR r) (REFERENCE_ERROR r) (SYNTAX_ERROR r) (TYPE_ERROR r).
Definition with_STRING v r := mkRoots (OBJECT r) (OBJECT_PROTO r) (FUNCTION r) (FUNCTION_PROTO r) (ARRAY r) (ARRAY_PROTO r) v (BOOLEAN r) (NUMBER r) (REGEXP r) (ERROR r) (RANGE_ERROR r) (REFERENCE_ERROR r) (SYNTAX_ERROR r) (TYPE_ERROR r).
Definition with_BOOLEAN v r := mkRoots (OBJECT r) (OBJECT_PROTO r) (FUNCTION r) (FUNCTION_PROTO r) (ARRAY r) (ARRAY_PROTO r) (STRING r) v (NUMBER r) (REGEXP r) (ERROR r) (RANGE_ERROR r) (REFERENCE_ERROR r) (SYNTAX_ERROR r) (TYPE_ERROR r).
Definition with_NUMBER v r := mkRoots (OBJECT r) (OBJECT_PROTO r) (FUNCTION r) (FUNCTION_PROTO r) (ARRAY r) (ARRAY_PROTO r) (STRING r) (BOOLEAN r) v (REGEXP r) (ERROR r) (RANGE_ERROR r) (REFERENCE_ERROR r) (SYNTAX_ERROR r) (TYPE_ERROR r).
Definition with_REGEXP v r := mkRoots (OBJECT r) (OBJECT_PROTO r) (FUNCTION r) (FUNCTION_PROTO r) (ARRAY r) (ARRAY_PROTO r) (STRING r) (BOOLEAN r) (NUMBER r) v (ERROR r) (RANGE_ERROR r) (REFERENCE_ERROR r) (SYNTAX_ERROR r) (TYPE_ERROR r).
Definition with_ERROR v r := mkRoots (OBJECT r) (OBJECT_PROTO r) (FUNCTION r) (FUNCTION_PROTO r) (ARRAY r) (ARRAY_PROTO r) (STRING r) (BOOLEAN r) (NUMBER r) (REGEXP r) v (RANGE_ERROR r) (REFERENCE_ERROR r) (SYNTAX_ERROR r) (TYPE_ERROR r).
Definition with_RANGE_ERROR v r := mkRoots (OBJECT r) (OBJECT_PROTO r) (FUNCTION r) (FUNCTION_PROTO r) (ARRAY r) (ARRAY_PROTO r) (STRING r) (BOOLEAN r) (NUMBER r) (REGEXP r) (ERROR r) v (REFERENCE_ERROR r) (SYNTAX_ERROR r) (TYPE_ERROR r).
Definition with_REFERENCE_ERROR v r := mkRoots (OBJECT r) (OBJECT_PROTO r) (FUNCTION r) (FUNCTION_PROTO r) (ARRAY r) (ARRAY_PROTO r) (STRING r) (BOOLEAN r) (NUMBER r) (REGEXP r) (ERROR r) (RANGE_ERROR r) v (SYNTAX_ERROR r) (TYPE_ERROR r).
Definition with_SYNTAX_ERROR v r := mkRoots (OBJECT r) (OBJECT_PROTO r) (FUNCTION r) (FUNCTION_PROTO r) (ARRAY r) (ARRAY_PROTO r) (STRING r) (BOOLEAN r) (NUMBER r) (REGEXP r) (ERROR r) (RANGE_ERROR r) (REFERENCE_ERROR r) v (TYPE_ERROR r).
Definition with_TYPE_ERROR v r := mkRoots (OBJECT r) (OBJECT_PROTO r) (FUNCTION r) (FUNCTION_PROTO r) (ARRAY r) (ARRAY_PROTO r) (STRING r) (BOOLEAN r) (NUMBER r) (REGEXP r) (ERROR r) (RANGE_ERROR r) (REFERENCE_ERROR r) (SYNTAX_ERROR r) v.

(** [c.properties['prototype']] *)
Definition prototypeProperty (c : Value) : M Value :=
  lift (fun I => prototypeOf I c).

(** [createErrorSubclass] (line 3310) *)
Definition createErrorSubclass (sc : Value) (name : string) : M Value :=
  constructor ← createNativeFunction ID_Error 1 (Some true);
  e ← gets (fun I => ERROR (roots I));
  p ← createObject e;
  setProperty constructor (Str "prototype") p None;;
  p ← prototypeProperty constructor;
  setProperty p (Str "name") (Str name) (Some NONENUMERABLE_DESCRIPTOR);;
  setProperty sc (Str name) constructor None;;
  mret constructor.

(** [Interpreter.prototype.initGlobalScope] (line 2124) *)
Definition initGlobalScope (sc : Value) : M unit :=
  setProperty sc (Str "NaN") (Num NNaN) (Some READONLY_DESCRIPTOR);;
  setProperty sc (Str "Infinity") (Num (NInf false)) (Some READONLY_DESCRIPTOR);;
  setProperty sc (Str "undefined") Undefined (Some READONLY_DESCRIPTOR);;
  setProperty sc (Str "window") sc (Some READONLY_DESCRIPTOR);;
  setProperty sc (Str "this") sc (Some READONLY_DESCRIPTOR);;
  setProperty sc (Str "self") sc None;;
  op ← alloc (newObject Null);
  setRoot with_OBJECT_PROTO op;;
  fp ← alloc (newObject op);
  setRoot with_FUNCTION_PROTO fp;;
  (* initFunction, lines 2262 to 2274 *)
  f ← createObjectProto fp;
  setRoot with_FUNCTION f;;
  setProperty sc (Str "Function") f None;;
  setProperty f (Str "prototype") fp None;;
  updObject f (set_nativeFunc (Some ID_Function));;
  setProperty fp (Str "constructor") f (Some NONENUMERABLE_DESCRIPTOR);;
  updObject fp (set_nativeFunc (Some ID_FunctionProto));;
  (* initObject, lines 2408 to 2412 *)
  o ← createNativeFunction ID_Object 1 (Some true);
  setRoot with_OBJECT o;;
  setProperty o (Str "prototype") op None;;
  setProperty op (Str "constructor") o None;;
  setProperty sc (Str "Object") o None;;
  updObject sc (set_proto op);;
  setProperty sc (Str "constructor") o None;;
  (* initArray, lines 2661 to 2663 *)
  a ← createNativeFunction ID_Array 1 (Some true);
  setRoot with_ARRAY a;;
  ap ← prototypeProperty a;
  setRoot with_ARRAY_PROTO ap;;
  setProperty sc (Str "Array") a None;;
  (* initString, initBoolean, initNumber *)
  s ← createNativeFunction ID_String 1 (Some true);
  setRoot with_STRING s;;
  setProperty sc (Str "String") s None;;
  b ← createNativeFunction ID_Boolean 1 (Some true);
  setRoot with_BOOLEAN b;;
  setProperty sc (Str "Boolean") b None;;
  n ← createNativeFunction ID_Number 1 (Some true);
  setRoot with_NUMBER n;;
  setProperty sc (Str "Number") n None;;
  (* initRegExp, lines 3241 to 3243 *)
  r ← createNativeFunction ID_RegExp 2 (Some true);
  setRoot with_REGEXP r;;
  setProperty sc (Str "RegExp") r None;;
  (* initError *)
  e ← createNativeFunction ID_Error 1 (Some true);
  setRoot with_ERROR e;;
  setProperty sc (Str "Error") e None;;
  ep ← prototypeProperty e;
  setProperty ep (Str "message") (Str "") (Some NONENUMERABLE_DESCRIPTOR);;
  setProperty ep (Str "name") (Str "Error") (Some NONENUMERABLE_DESCRIPTOR);;
  createErrorSubclass sc "EvalError";;
  re ← createErrorSubclass sc "RangeError";
  setRoot with_RANGE_ERROR re;;
  rfe ← createErrorSubclass sc "ReferenceError";
  setRoot with_REFERENCE_ERROR rfe;;
  se ← createErrorSubclass sc "SyntaxError";
  setRoot with_SYNTAX_ERROR se;;
  te ← createErrorSubclass sc "TypeError";
  setRoot with_TYPE_ERROR te;;
  createErrorSubclass sc "URIError";;
  mret tt.

(** The constructor [Interpreter(code, opt_initFunc)] (line 1929), from the
    creation of the global scope on: [createScope(this.ast, null)] with
    [initGlobalScope], the optional initialisation function of the
    embedder, the scan of the program for declarations, and the first
    frame. *)
Definition construct (code : Node) (initFunc_ : Value -> M unit) : M unit :=
  sc ← createObjectProto Null;
  updObject sc (set_parentScope Null);;
  initGlobalScope sc;;
  initFunc_ sc;;
  populateScope_ code sc;;
  updObject sc (set_strict (startsWithUseStrict code));;
  modify (set_global sc);;
  modify (set_this_value Undefined);;
  putStack [set_fld "done" (Bool false) (newState code sc)].

Definition newInterpreter (code : Node) (initFunc_ : Value -> M unit) : Interp :=
  (construct code initFunc_ emptyInterp).2.

(** *** The bridge (lines 3676 to 3770) *)

(** A primitive passes through the bridge unchanged. *)
Definition toGuest (v : NValue) : Value :=
  match v with
  | NUndefined => Undefined
  | NNull => Null
  | NBool b => Bool b
  | NNum n => Num n
  | NStr s => Str s
  | NRef _ => Undefined
  end.

(** [Interpreter.prototype.nativeToPseudo] (line 3676) on the native value
    [nativeObj] of the heap [nh].  The source recurses along the native
    graph and does not return on a cyclic one; [depth] bounds the
    recursion. *)
Fixpoint nativeToPseudo (depth : nat) (nh : NHeap) (nativeObj : NValue)
    : M Value :=
  match depth with
  | O => throw Outside
  | S depth' =>
      match nativeObj with
      | NRef h =>
          match nobjs nh !! h with
          | None => throw Outside
          | Some o =>
              if n_isArray o then
                ap ← gets (fun I => ARRAY_PROTO (roots I));
                pseudoObj ← createObjectProto ap;
                (fix loop (count : nat) (i : Z) : M unit :=
                   match count with
                   | O => mret tt
                   | S count' =>
                       (if bool_decide (is_Some (n_props o !! String_uint32 i)) then
                          v ← nativeToPseudo depth' nh
                                (host_get (S (size (nobjs nh))) nh h (String_uint32 i));
                          setProperty pseudoObj (Num (NInt i)) v None;;
                          mret tt
                        else mret tt);;
                       loop count' (i + 1)
                   end) (Z.to_nat (n_length o)) 0;;
                mret pseudoObj
              else
                op ← gets (fun I => OBJECT_PROTO (roots I));
                pseudoObj ← createObjectProto op;
                (fix loop (keys : list string) : M unit :=
                   match keys with
                   | [] => mret tt
                   | key :: keys' =>
                       v ← nativeToPseudo depth' nh
                             (host_get (S (size (nobjs nh))) nh h key);
                       setProperty pseudoObj (Str key) v None;;
                       loop keys'
                   end) (host_forin (S (size (nobjs nh))) nh h []);;
                mret pseudoObj
          end
      | _ => mret (toGuest nativeObj)
      end
  end.

(** [cycles.pseudo.indexOf(pseudoObj)] and [cycles.native[i]]: the two
    arrays of [cycles] as one list of pairs. *)
Fixpoint cyclesLookup (cycles : list (Value * NValue)) (pseudoObj : Value)
    : option NValue :=
  match cycles with
  | [] => None
  | (p, n) :: rest =>
      if strict_equal p pseudoObj then Some n else cyclesLookup rest pseudoObj
  end.

(** The enumerable names of [pseudoObj.properties], as
    [for (var key in pseudoObj.properties)] visits them. *)
Definition enumerableKeys (o : Object) : list (string * Value) :=
  map (fun kp => (kp.1, pvalue kp.2))
    (filter (fun kp => enumerable kp.2 = true) (map_to_list (properties o))).

(** [Interpreter.prototype.pseudoToNative] (line 3728).  The native
    objects that it creates are allocated in [nh]; [depth] bounds the
    recursion, which the source bounds by [cycles]. *)
Fixpoint pseudoToNative (depth : nat) (pseudoObj : Value)
    (cycles : list (Value * NValue)) (nh : NHeap) : M (NValue * NHeap) :=
  match depth with
  | O => throw Outside
  | S depth' =>
      match pseudoObj with
      | Undefined => mret (NUndefined, nh)
      | Null => mret (NNull, nh)
      | Bool b => mret (NBool b, nh)
      | Num n => mret (NNum n, nh)
      | Str s => mret (NStr s, nh)
      | Obj _ =>
          isRegExp ← lift (fun I => isa I pseudoObj (REGEXP (roots I)));
          if (isRegExp : bool) then throw Outside
          else
            match cyclesLookup cycles pseudoObj with
            | Some n => mret (n, nh)
            | None =>
                isArr ← lift (fun I => isa I pseudoObj (ARRAY (roots I)));
                if (isArr : bool) then
                  let '(nativeObj, nh) := nalloc newNArray nh in
                  let cycles := (cycles ++ [(pseudoObj, nativeObj)])%list in
                  length ← getProperty pseudoObj (Str "length");
                  let count :=
                    match ToNumber length with
                    | Some (NInt l) => Z.to_nat l
                    | _ => 0%nat
                    end in
                  nh ←
                    (fix loop (count : nat) (i : Z) (nh : NHeap) : M NHeap :=
                       match count with
                       | O => mret nh
                       | S count' =>
                           has ← lift (fun I => hasProperty I pseudoObj (Num (NInt i)));
                           nh ←
                             (if (has : bool) then
                                e ← getProperty pseudoObj (Num (NInt i));
                                '(v, nh) ← pseudoToNative depth' e cycles nh;
                                match nativeObj with
                                | NRef h => lift (fun _ => host_set_index nh h i v)
                                | _ => throw Outside
                                end
                              else mret nh);
                           loop count' (i + 1) nh
                       end) count 0 nh;
                  mret (nativeObj, nh)
                else
                  let '(nativeObj, nh) := nalloc newNObject nh in
                  let cycles := (cycles ++ [(pseudoObj, nativeObj)])%list in
                  o ← getObject pseudoObj;
                  nh ←
                    (fix loop (keys : list (string * Value)) (nh : NHeap) : M NHeap :=
                       match keys with
                       | [] => mret nh
                       | (key, val) :: keys' =>
                           '(v, nh) ← pseudoToNative depth' val cycles nh;
                           nh ← match nativeObj with
                                | NRef h => lift (fun _ => host_set nh h key v)
                                | _ => throw Outside
                                end;
                           loop keys' nh
                       end) (enumerableKeys o) nh;
                  mret (nativeObj, nh)
            end
      | _ => throw Outside
      end
  end.

End Host.


End Interpreter.

(** ** Programs and interpreters used as examples *)

Module Fixtures.
Import Interpreter.

(** The source file is one classic script that begins with Acorn's
    wrapper (line 23), so the string ['use strict'] of line 1919 is an
    expression statement in the middle of the script and not a directive:
    the functions of the interpreter run as non-strict host code. *)
Definition scriptIsStrict : bool := false.

(** A host that has registered no function of its own. *)
Definition noNative : nat -> Value -> list Value -> M Value :=
  fun _ _ _ => throw Outside.

Definition noAsync : nat -> Value -> list Value -> M (option Value) :=
  fun _ _ _ => throw Outside.

Definition noInit : Value -> M unit := fun _ => mret tt.

(** End offsets of the nodes of the examples: any offset that is not 0. *)
Definition e : option nat := Some 1%nat.

Definition statement (x : Node) : Node := ExpressionStatement e x.
Definition num (z : Z) : Node := Literal e (Num (NInt z)).
Definition var (x : string) : Node := Identifier e x.
Definition dot (o : Node) (p : string) : Node :=
  MemberExpression e o (Identifier e p) false.
Definition assign (l r : Node) : Node := AssignmentExpression e "=" l r.

(** [var a = 1; a;] *)
Definition prog_var : Node :=
  Program e [VariableDeclaration e [("a", Some (num 1))]; statement (var "a")].

(** [sleep();] for a host that has registered the asynchronous function
    [sleep] under [ID_user] and calls its callback later. *)
Definition prog_sleep : Node :=
  Program e [statement (CallExpression e (Some (var "sleep")) [])].

Definition asyncLater : nat -> Value -> list Value -> M (option Value) :=
  fun _ _ _ => mret None.

Definition init_sleep (hostStrict : bool) (sc : Value) : M unit :=
  f ← createAsyncFunction hostStrict ID_user 1;
  setProperty hostStrict sc (Str "sleep") f None;;
  mret tt.

Definition I_sleep : Interp :=
  newInterpreter false prog_sleep (init_sleep false).

(** The interpreter after [k] calls of [step]. *)
Fixpoint stepN (sf : string -> option StepFunction) (fuel k : nat)
    (I : Interp) : Interp :=
  match k with
  | O => I
  | S k' => stepN sf fuel k' (step sf fuel I).2
  end.


(** [new (function () { return R; })();] and
    [new (function () { })();] *)
Definition prog_new (body : list Node) : Node :=
  Program e [statement (NewExpression e
    (FunctionExpression e None [] (BlockStatement e body)) [])].

Definition prog_new_null : Node :=
  prog_new [ReturnStatement e (Some (Literal e Null))].
Definition prog_new_number : Node :=
  prog_new [ReturnStatement e (Some (num 5))].
Definition prog_new_nothing : Node := prog_new [].

(** [var x; delete x;] and ['use strict'; var x; delete window.x;] *)
Definition delete_ (x : Node) : Node := UnaryExpression e "delete" x.

Definition prog_delete_var : Node :=
  Program e [VariableDeclaration e [("x", None)]; statement (delete_ (var "x"))].

Definition prog_delete_strict : Node :=
  Program e [statement (Literal e (Str "use strict"));
             VariableDeclaration e [("x", None)];
             statement (delete_ (dot (var "window") "x"))].

(** A host that has registered under [ID_user] a function returning 7, and
    has made it the setter of the property [x] of a global object [o]:
    [interpreter.setProperty(o, 'x', Interpreter.VALUE_IN_DESCRIPTOR,
       {set: interpreter.createNativeFunction(function (v) { return 7; })})]. *)
Definition native7 : nat -> Value -> list Value -> M Value :=
  fun _ _ _ => mret (Num (NInt 7)).

Definition setterDescriptor (f : Value) : Descriptor :=
  mkDescriptor None None None None None (Some f).

Definition init_setter (hostStrict : bool) (sc : Value) : M unit :=
  op ← gets (fun I => OBJECT_PROTO (roots I));
  o ← createObjectProto hostStrict op;
  f ← createNativeFunction hostStrict ID_user 1 None;
  setProperty hostStrict o (Str "x") VALUE_IN_DESCRIPTOR (Some (setterDescriptor f));;
  setProperty hostStrict sc (Str "o") o None;;
  mret tt.

(** [o.x = 0;] and [o.x = 5;] *)
Definition prog_set (z : Z) : Node :=
  Program e [statement (assign (dot (var "o") "x") (num z))].

(** The calls of host functions in a trace, with their arguments. *)
Definition nativeCalls (t : list Event) : list (list Value) :=
  omap (fun ev => match ev with EvNative _ _ args => Some args | _ => None end) t.

(** [NaN = 1;] *)
Definition prog_assign_NaN : Node :=
  Program e [statement (assign (var "NaN") (num 1))].

(** Running a program to the end: the result of [run], the final [value],
    and the final interpreter. *)
Definition finalOf (hostStrict : bool)
    (natives : nat -> Value -> list Value -> M Value)
    (prog : Node) (init : Value -> M unit) : outcome bool * Interp :=
  run (stepFunctions hostStrict natives noAsync) 10 100
    (newInterpreter hostStrict prog init).

(** The interpreter of the empty program. *)
Definition I_empty : Interp :=
  newInterpreter scriptIsStrict (Program e []) noInit.

(** The slot [name] of the global scope. *)
Definition globalSlot (I : Interp) (name : string) : option Prop_ :=
  o ← objectOf I (global I); properties o !! name.

(** [o.properties['prototype']] of the function that [new] was applied to,
    read back from the object made for [this]. *)
Definition protoOfValue (I : Interp) (v : Value) : option Value :=
  proto <$> objectOf I v.

(** The function object created for the function expression of
    [prog_new]: the only object whose [fnode] is set. *)
Definition functionsOf (I : Interp) : list Object :=
  filter (fun o => bool_decide (is_Some (fnode o))) (map snd (map_to_list (heap I))).

(** A guest object with a property that refers to the object itself, and
    a JSON-shaped value whose member is named [__proto__]. *)
Definition init_cyclic (hostStrict : bool) (sc : Value) : M unit :=
  op ← gets (fun I => OBJECT_PROTO (roots I));
  o ← createObjectProto hostStrict op;
  setProperty hostStrict o (Str "self") o None;;
  setProperty hostStrict o (Str "n") (Num (NInt 1)) None;;
  setProperty hostStrict sc (Str "o") o None;;
  mret tt.

Definition json_proto : Json := JObj [("__proto__", JNum (NInt 1))].

Definition json_sample : Json :=
  JObj [("a", JNum (NInt 1)); ("b", JArr [JStr "x"; JNull; JBool true]);
        ("c", JObj [])].

(** [pseudoToNative(nativeToPseudo(x))] for a JSON-shaped [x], in a new
    interpreter: the native result and its heap. *)
Definition roundTrip (hostStrict : bool) (x : Json) : outcome (NValue * NHeap) :=
  let '(n, nh) := build x emptyNHeap in
  let I := newInterpreter hostStrict (Program e []) noInit in
  match nativeToPseudo hostStrict 10 nh n I with
  | (Ret g, I') => (pseudoToNative hostStrict 10 g [] emptyNHeap I').1
  | (Throw ex, _) => Throw ex
  end.

(** Whether [roundTrip] gives back a value structurally equal to [x]. *)
Definition roundTripOk (hostStrict : bool) (x : Json) : bool :=
  match roundTrip hostStrict x with
  | Ret (n, nh) => matches nh n x
  | Throw _ => false
  end.

(** The step functions of a host whose asynchronous functions call back
    later, and the interpreter of [sleep();] after the five steps that
    bring it to the call. *)
Definition sf_sleep : string -> option StepFunction :=
  stepFunctions false noNative asyncLater.

Definition I_paused : Interp := stepN sf_sleep 10 5 I_sleep.

Definition root_of (I : Interp) : State :=
  List.last (default [] (stateStack I)) (newState (EmptyStatement None) Undefined).

Definition above_root (I : Interp) : list State :=
  removelast (default [] (stateStack I)).

(** The bodies [{ var a; }] and [{ 'use strict'; }] of two functions, and
    the interpreter that has entered such a body: its scope is made by
    [createScope] under the global scope, for the state on top of the
    stack. *)
Definition body_var_a : Node :=
  BlockStatement e [VariableDeclaration e [("a", None)]].

Definition body_strict : Node :=
  BlockStatement e [statement (Literal e (Str "use strict"))].

Definition entered (body : Node) : Interp :=
  ((sc ← createScope scriptIsStrict body (global I_empty);
    push (newState body sc)) I_empty).2.

(** The interpreter of the empty program after the host has defined the
    accessor property [first] on the global object, with the function
    [Object] as its getter: [setProperty(global, 'first',
    Interpreter.VALUE_IN_DESCRIPTOR, {get: f})]. *)
Definition getterDescriptor (f : Value) : Descriptor :=
  mkDescriptor None None None None (Some f) None.

Definition I_getter : Interp :=
  (setProperty scriptIsStrict (global I_empty) (Str "first") VALUE_IN_DESCRIPTOR
     (Some (getterDescriptor (OBJECT (roots I_empty)))) I_empty).2.

(** [var a = []], by [createObjectProto(ARRAY_PROTO)], in the interpreter
    of the empty program; the array is the last object made. *)
Definition I_array : Interp :=
  ((p ← gets (fun I => ARRAY_PROTO (roots I)); createObjectProto scriptIsStrict p)
     I_empty).2.

Definition the_array : Value := Obj (nextHandle I_empty).

(** A state in which [delete base[name]] has evaluated its argument. *)
Definition deleting (I : Interp) (base : Value) (name : string) : State :=
  set_value (Components base (Str name))
    (set_fld "done_" (Bool true)
       (newState (delete_ (dot (var "a") name)) (global I))).

(** A stack in which the literal [1] is evaluated inside the block of a
    [try] statement of the program, in the interpreter of the empty
    program. *)
Definition try_node : Node := TryStatement e (BlockStatement e [statement (num 1)]) None None.

Definition stack_in_try : list State :=
  [newState (num 1) (global I_empty);
   newState (statement (num 1)) (global I_empty);
   newState try_node (global I_empty);
   newState (Program e [try_node]) (global I_empty)].

Definition I_in_try : Interp := set_stateStack (Some stack_in_try) I_empty.

(** A stack in which [return 7;] is executed in the body of a function
    called by the program. *)
Definition call_node : Node :=
  CallExpression e
    (Some (FunctionExpression e None []
             (BlockStatement e [ReturnStatement e (Some (num 7))]))) [].

Definition stack_in_call : list State :=
  [newState (ReturnStatement e (Some (num 7))) (global I_empty);
   newState (BlockStatement e [ReturnStatement e (Some (num 7))]) (global I_empty);
   newState call_node (global I_empty);
   newState (Program e [statement call_node]) (global I_empty)].

Definition I_in_call : Interp := set_stateStack (Some stack_in_call) I_empty.

(** The frame of [throw 7;] once the argument is evaluated, on top of the
    frame of an enclosing [try] statement. *)
Definition throwing_frame : State :=
  set_value (Num (NInt 7))
    (set_fld "done_" (Bool true)
       (newState (ThrowStatement e (num 7)) (global I_empty))).

Definition I_throwing : Interp :=
  set_stateStack
    (Some [throwing_frame;
           newState try_node (global I_empty);
           newState (Program e [try_node]) (global I_empty)]) I_empty.

(** [delete a.length] on the array, once the reference is evaluated. *)
Definition I_deleting : Interp :=
  set_stateStack
    (Some [deleting I_array the_array "length";
           newState (Program e []) (global I_array)]) I_array.

End Fixtures.

(** ** Predicates of the specification *)

Module Logic.
Import Interpreter.

(** A chain of objects linked by a field ([proto] for a prototype chain,
    [parentScope] for a scope chain): the objects visited from [v] until a
    value on which the walk stops. *)
Inductive Chain (I : Interp) (next : Object -> Value) (stop : Value -> bool)
    : Value -> list handle -> Prop :=
| chain_end v : stop v = true -> Chain I next stop v []
| chain_step h o l :
    stop (Obj h) = false ->
    heap I !! h = Some o ->
    Chain I next stop (next o) l ->
    Chain I next stop (Obj h) (h :: l).

(** The value on which the walk from [v] along the objects [l] stops. *)
Fixpoint chainEnd (I : Interp) (next : Object -> Value) (v : Value)
    (l : list handle) : Value :=
  match l with
  | [] => v
  | h :: l' =>
      match heap I !! h with
      | Some o => chainEnd I next (next o) l'
      | None => v
      end
  end.

(** The prototype chain of [v]: it ends on a prototype that is [null] (or
    another falsy value). *)
Definition ProtoChain (I : Interp) : Value -> list handle -> Prop :=
  Chain I proto (fun v => negb (truthy v)).

(** The scopes around [sc], up to the global scope (or the end of the
    chain), which is not part of the list. *)
Definition ScopeChain (I : Interp) : Value -> list handle -> Prop :=
  Chain I parentScope
    (fun v => negb (truthy v && negb (strict_equal v (global I)))).

(** A primitive value: a boolean, a number or a string. *)
Definition isPrimitive (v : Value) : Prop :=
  match v with
  | Bool _ | Num _ | Str _ => True
  | _ => False
  end.

(** The object, among those of the chain, on which [name] is found first. *)
Fixpoint firstWith (I : Interp) (name : string) (l : list handle)
    : option Object :=
  match l with
  | [] => None
  | h :: l' =>
      match heap I !! h with
      | Some o => if inProps name o then Some o else firstWith I name l'
      | None => None
      end
  end.

(** The first scope, among those of the chain, that has [name]. *)
Fixpoint firstScopeWith (I : Interp) (name : string) (l : list handle)
    : option handle :=
  match l with
  | [] => None
  | h :: l' =>
      match heap I !! h with
      | Some o => if inProps name o then Some h else firstScopeWith I name l'
      | None => None
      end
  end.

(** Two states of an object that differ at most by the flag [isGetter]. *)
Definition sameShape (o o' : Object) : Prop :=
  exists b, o' = set_isGetter b o.

(** Every object of the heap has a handle below [nextHandle]. *)
Definition handlesBounded (I : Interp) : Prop :=
  forall h, is_Some (heap I !! h) -> (h < nextHandle I)%nat.

(** [I] comes after [I0]: handles are not reused, and every object of [I0]
    outside [except] is still there with the same properties, accessors, class,
    prototype and scope fields. *)
Definition Extends (except : handle -> Prop) (I0 I : Interp) : Prop :=
  (nextHandle I0 <= nextHandle I)%nat /\
  handlesBounded I /\
  forall h o, heap I0 !! h = Some o -> ~ except h ->
    exists o', heap I !! h = Some o' /\ sameShape o o'.

(** A value that a method may write to while keeping [Extends except I0]:
    not an object of [I0], unless the object is in [except]. *)
Definition touchable (except : handle -> Prop) (I0 : Interp) (v : Value) : Prop :=
  forall h, v = Obj h -> except h \/ (nextHandle I0 <= h)%nat.

(** A method keeps an invariant of the interpreter, and returns values
    that satisfy [Q]. *)
Definition keeps {A} (Inv : Interp -> Prop) (m : M A) (Q : A -> Prop) : Prop :=
  forall I, Inv I -> Inv (m I).2 /\ forall a, (m I).1 = Ret a -> Q a.

(** An invariant that depends on the heap and on [nextHandle] only. *)
Definition heapOnly (Inv : Interp -> Prop) : Prop :=
  forall I s p v t,
    Inv I ->
    Inv (mkInterp (heap I) (nextHandle I) s p v (global I) (roots I) t).

(** What a method's call guarantees: [Q] of its outcome and of the
    interpreter it leaves, from every interpreter that satisfies [P]. *)
Definition hoare {A} (P : Interp -> Prop) (m : M A)
    (Q : outcome A -> Interp -> Prop) : Prop :=
  forall I, P I -> Q (m I).1 (m I).2.

(** A method called from an interpreter that satisfies [P] leaves one that
    satisfies [Q] with its result, or [Inv] when it throws. *)
Definition holds {A} (Inv P : Interp -> Prop) (m : M A)
    (Q : A -> Interp -> Prop) : Prop :=
  forall I, P I ->
    match m I with
    | (Ret a, I') => Q a I'
    | (Throw _, I') => Inv I'
    end.

(** The program has run to its end: the stack is empty, or the frame on
    top is the program's, marked [done]. *)
Definition finished (I : Interp) : Prop :=
  match stateStack I with
  | Some [] => True
  | Some (st :: _) =>
      node_type (node st) = "Program" /\ truthy (fld "done" st) = true
  | None => False
  end.

(** The frames to which a [return] unwinds: a [try] statement or a call. *)
Definition catchesReturn (st : State) : Prop :=
  node_type (node st) = "TryStatement" \/
  node_type (node st) = "CallExpression" \/
  node_type (node st) = "NewExpression".

Global Instance catchesReturn_dec st : Decision (catchesReturn st).
Proof. unfold catchesReturn. apply _. Defined.

(** A method that always throws, to the host or to the guest. *)
Definition neverReturns {A} (m : M A) : Prop :=
  forall I, exists ex, (m I).1 = Throw ex.

(** Every object of [I] is in [I'] with the properties, accessors, class,
    prototype and scope fields that it had. *)
Definition objectsKept (I I' : Interp) : Prop :=
  forall h o, heap I !! h = Some o ->
    exists o', heap I' !! h = Some o' /\ sameShape o o'.

(** *** Arrays *)

(** A slot of an array whose length is [n]: when its name is a legal array
    index, the index is below [n], and the slot is enumerable and
    configurable, as element assignment makes it. *)
Definition indexOK (n : Z) (k : string) (p : Prop_) : bool :=
  match legalArrayIndex k with
  | Some i => (i <? n) && enumerable p && configurable p
  | None => true
  end.

(** The property table of an array: [length] is a writable slot that
    cannot be deleted, it holds an integer from 0 to 2^32-1, and every
    index of the table is below it, in a slot that is enumerable and
    configurable. *)
Definition arrayOK (ps : gmap string Prop_) : bool :=
  match ps !! "length" with
  | Some cur =>
      match pvalue cur with
      | Num (NInt n) =>
          (0 <=? n) && (n <=? 4294967295) && writable cur &&
          negb (configurable cur) &&
          bool_decide (map_Forall (fun k p => indexOK n k p = true) ps)
      | _ => false
      end
  | None => false
  end.

(** The object [h] is such an array. *)
Definition ArrayInv (h : handle) (I : Interp) : Prop :=
  handlesBounded I /\
  exists o, heap I !! h = Some o /\ class o = "Array" /\
            arrayOK (properties o) = true.

(** The property table has a [length] slot as [arrayOK] wants it, of
    value [n]. *)
Definition lengthIs (ps : gmap string Prop_) (n : Z) : Prop :=
  exists cur, ps !! "length" = Some cur /\ pvalue cur = Num (NInt n) /\
              writable cur = true /\ configurable cur = false.

(** The assignment of [stored] to the slot [name] of the array [h] would
    leave a property table that is [arrayOK]. *)
Definition fits (h : handle) (name : string) (stored : Value) (I : Interp)
    : Prop :=
  forall o ps', heap I !! h = Some o ->
    hostAssign (properties o) name stored = Some ps' -> arrayOK ps' = true.

(** The array [h] is the object [o]. *)
Definition At (h : handle) (o : Object) (I : Interp) : Prop :=
  ArrayInv h I /\ heap I !! h = Some o.

(** A method that reads the interpreter and leaves it as it is. *)
Definition reads {A} (m : M A) : Prop := forall I, (m I).2 = I.

(** The operations on properties: an assignment [obj[name] = v], which is
    the call [setProperty(obj, name, v)], and a step of a unary expression
    ([delete obj[name]] among them) in a state of the stack. *)
Inductive PropertyOp : Type :=
| OpSet (obj name v : Value)
| OpUnary (state : State) (n : Node).

(** The operations that the embedding follows to their end on an array:
    the property name is a primitive value, whose string the embedding
    has, and a value assigned to the name [length] is one that [ToNumber]
    converts (a number, a boolean, [null], [undefined] or a string of
    decimal digits). *)
Definition covered (op : PropertyOp) : Prop :=
  match op with
  | OpSet obj name v =>
      exists s, String_prim name = Ret s /\
                (s = "length" -> is_Some (ToNumber v))
  | OpUnary state n =>
      match value state with
      | Components _ name => exists s, String_prim name = Ret s
      | _ => True
      end
  end.

Definition applyOp (hostStrict : bool) (op : PropertyOp) (I : Interp) : Interp :=
  match op with
  | OpSet obj name v => (setProperty hostStrict obj name v None I).2
  | OpUnary state n => (stepUnaryExpression hostStrict state n I).2
  end.

Definition runOps (hostStrict : bool) (ops : list PropertyOp) (I : Interp)
    : Interp :=
  foldl (fun I op => applyOp hostStrict op I) I ops.

(** The own numeric indexes of an object, and its [length]. *)
Definition indexesOf (I : Interp) (v : Value) : list Z :=
  match objectOf I v with
  | Some o => omap (fun kp => legalArrayIndex kp.1) (map_to_list (properties o))
  | None => []
  end.

Definition lengthOf (I : Interp) (v : Value) : option Value :=
  o ← objectOf I v; pvalue <$> properties o !! "length".

End Logic.

(** * Properties *)

Local Open Scope list_scope.

(** ** Number literals with a leading zero *)

Module AcornProps.
Import Acorn.

Lemma digitVal_digit c : isDigit c -> digitVal c = Some (c - 48).
Proof.
  unfold isDigit, digitVal. intros H.
  destruct (97 <=? c) eqn:E1; [lia|].
  destruct (65 <=? c) eqn:E2; [lia|].
  destruct (48 <=? c) eqn:E3; [|lia].
  destruct (c <=? 57) eqn:E4; [reflexivity|lia].
Qed.

(** The character after the literal stops every radix up to ten. *)
Lemma digitVal_stop nonASCII c radix v :
  ~ isDigit c -> isIdentifierStart nonASCII (Some c) = false ->
  radix <= 10 -> digitVal c = Some v -> radix <= v.
Proof.
  unfold isDigit, digitVal. intros Hd Hi Hr.
  destruct (97 <=? c) eqn:E1; [intros [= <-]; lia|].
  destruct (65 <=? c) eqn:E2; [intros [= <-]; lia|].
  destruct (48 <=? c) eqn:E3; simpl; [|discriminate].
  destruct (c <=? 57) eqn:E4; [lia|discriminate].
Qed.

(** A double that is an integer of at most 53 bits, or 2^53, is kept by
    the rounding. *)
Lemma roundNearestEven_exact z : 0 <= z <= 2 ^ 53 -> roundNearestEven z = z.
Proof.
  intros Hz. unfold roundNearestEven.
  destruct (Z.log2 z <? 53) eqn:E; [reflexivity|].
  apply Z.ltb_ge in E.
  assert (z = 2 ^ 53) as ->; [|vm_compute; reflexivity].
  destruct (Z.eq_dec z (2 ^ 53)) as [|Hne]; [assumption|].
  assert (Hlt : z < 2 ^ 53) by lia.
  destruct (Z.eq_dec z 0) as [->|Hz0]; [rewrite Z.log2_nonpos in E; lia|].
  apply Z.log2_lt_pow2 in Hlt; lia.
Qed.

Lemma toDouble_exact z : 0 <= z <= 2 ^ 53 -> toDouble z = Finite z.
Proof.
  intros Hz. unfold toDouble. rewrite roundNearestEven_exact by exact Hz.
  destruct (z <? 2 ^ 1024) eqn:E; [reflexivity|].
  apply Z.ltb_ge in E.
  assert (2 ^ 53 < 2 ^ 1024) by (apply Z.pow_lt_mono_r; lia). lia.
Qed.

(** The loop of [readInt] consumes a run of digits below the radix,
    whatever the total is. *)
Lemma readInt_loop_digits nonASCII radix ds rest cnt total :
  radix <= 10 ->
  Forall (fun c => 48 <= c < 48 + radix) ds ->
  terminates nonASCII rest ->
  exists t, readInt_loop radix (ds ++ rest) None cnt total =
    ((cnt + length ds)%nat, t).
Proof.
  intros Hr Hds Ht. revert cnt total.
  induction Hds as [|c ds Hc Hds IH]; intros cnt total; simpl.
  - replace (cnt + 0)%nat with cnt by lia.
    destruct rest as [|c rest]; [eexists; reflexivity|].
    simpl in *. destruct Ht as (Hd & _ & Hi).
    destruct (digitVal c) as [v|] eqn:E; [|eexists; reflexivity].
    pose proof (digitVal_stop nonASCII c radix v Hd Hi Hr E) as Hv.
    destruct (radix <=? v) eqn:E'; [eexists; reflexivity|lia].
  - rewrite digitVal_digit by (unfold isDigit; lia).
    destruct (radix <=? c - 48) eqn:E; [lia|].
    destruct (IH (S cnt) (mulAdd total radix (c - 48))) as [t Ht'].
    exists t. rewrite Ht'. f_equal. lia.
Qed.

(** The digits that [parseInt] reads, and their integer. *)
Lemma digitsPrefix_digits nonASCII radix ds rest cnt total :
  radix <= 10 ->
  Forall (fun c => 48 <= c < 48 + radix) ds ->
  terminates nonASCII rest ->
  digitsPrefix radix (ds ++ rest) cnt total =
    ((cnt + length ds)%nat, valueOf radix ds total).
Proof.
  intros Hr Hds Ht. revert cnt total.
  induction Hds as [|c ds Hc Hds IH]; intros cnt total; simpl.
  - replace (cnt + 0)%nat with cnt by lia.
    destruct rest as [|c rest]; [reflexivity|].
    simpl in *. destruct Ht as (Hd & _ & Hi).
    destruct (digitVal c) as [v|] eqn:E; [|reflexivity].
    pose proof (digitVal_stop nonASCII c radix v Hd Hi Hr E) as Hv.
    destruct (radix <=? v) eqn:E'; [reflexivity|lia].
  - rewrite digitVal_digit by (unfold isDigit; lia).
    destruct (radix <=? c - 48) eqn:E; [lia|].
    rewrite IH. f_equal. lia.
Qed.

Lemma skipn_prefix {A} (pre l : list A) : skipn (length pre) (pre ++ l) = l.
Proof. induction pre; simpl; auto. Qed.

Lemma charCodeAt_prefix (pre l : input) k :
  charCodeAt (pre ++ l) (length pre + k) = charCodeAt l k.
Proof.
  unfold charCodeAt. induction pre; simpl; auto.
Qed.

Lemma charCodeAt_after (ds rest : input) :
  charCodeAt (ds ++ rest) (length ds) = charCodeAt rest 0.
Proof.
  unfold charCodeAt. induction ds; simpl; auto.
Qed.

Lemma has89_false ds : Forall isOctalDigit ds -> has89 ds = false.
Proof.
  induction 1 as [|c ds Hc _ IH]; simpl; [reflexivity|].
  unfold isOctalDigit in Hc. rewrite IH.
  destruct (c =? 56) eqn:E1; [lia|]. destruct (c =? 57) eqn:E2; [lia|].
  reflexivity.
Qed.

Lemma has89_true ds :
  Exists (fun c => c = 56 \/ c = 57) ds -> has89 ds = true.
Proof.
  induction 1 as [c l [-> | ->]|c l _ IH]; simpl; try reflexivity.
  rewrite IH. apply orb_true_r.
Qed.

Lemma valueOf_nonneg radix ds acc :
  0 <= radix -> 0 <= acc -> Forall (fun c => 48 <= c) ds ->
  0 <= valueOf radix ds acc.
Proof.
  intros Hr Ha Hds. revert acc Ha. unfold valueOf.
  induction Hds as [|c ds Hc _ IH]; intros acc Ha; cbn [fold_left]; [exact Ha|].
  apply IH. nia.
Qed.

(** The reader on a literal made of a zero and more digits: the part of
    [readNumber] before the choice of the radix. *)
Lemma readNumber_leading_zero nonASCII strict pre ds rest :
  ds <> [] -> Forall isDigit ds -> terminates nonASCII rest ->
  readNumber nonASCII strict (pre ++ 48 :: ds ++ rest) false (length pre) =
    if has89 (48 :: ds) || strict
    then Raise (length pre) "Invalid number"
    else Ok (parseInt (48 :: ds) 8, (length pre + S (length ds))%nat).
Proof.
  intros Hne Hds Ht.
  assert (Hall : Forall (fun c => 48 <= c < 48 + 10) (48 :: ds)).
  { constructor; [lia|]. eapply Forall_impl; [exact Hds|].
    unfold isDigit. simpl. intros. lia. }
  unfold readNumber.
  replace (charCodeAt (pre ++ 48 :: ds ++ rest) (length pre)) with (Some 48).
  2:{ replace (length pre) with (length pre + 0)%nat at 1 by lia.
      rewrite charCodeAt_prefix. reflexivity. }
  unfold readInt at 1. rewrite skipn_prefix.
  change (48 :: ds ++ rest) with ((48 :: ds) ++ rest).
  destruct (readInt_loop_digits nonASCII 10 (48 :: ds) rest 0 (Finite 0)
              ltac:(lia) Hall Ht) as [t ->].
  cbn [length Nat.add Nat.eqb orb].
  set (tokPos := (length pre + S (length ds))%nat).
  assert (Hat : charCodeAt (pre ++ (48 :: ds) ++ rest) tokPos = charCodeAt rest 0).
  { unfold tokPos. rewrite charCodeAt_prefix.
    change (S (length ds)) with (length (48 :: ds)). apply charCodeAt_after. }
  assert (Hnodot : match charCodeAt rest 0 with Some 46 => False | _ => True end).
  { destruct rest as [|c rest]; simpl; [exact I|].
    simpl in Ht. destruct Ht as (_ & Hc & _).
    destruct c as [|p|p]; try exact I.
    do 6 (destruct p as [p|p|]; try exact I). lia. }
  assert (Hid : isIdentifierStart nonASCII (charCodeAt rest 0) = false).
  { destruct rest as [|c rest]; simpl; [reflexivity|]. apply Ht. }
  assert (Hnoexp : match charCodeAt rest 0 with
                   | Some 69 | Some 101 => False | _ => True end).
  { destruct (charCodeAt rest 0) as [c|] eqn:E; [|exact I].
    destruct (Z.eq_dec c 69) as [->|N1]; [discriminate Hid|].
    destruct (Z.eq_dec c 101) as [->|N2]; [discriminate Hid|].
    destruct c as [|p|p]; try exact I.
    do 7 (destruct p as [p|p|]; try exact I); lia. }
  rewrite Hat.
  destruct (charCodeAt rest 0) as [c|] eqn:E.
  - destruct (Z.eq_dec c 46) as [->|N]; [destruct Hnodot|].
    assert (Hc46 : (match c with 46 => (true, snd (readInt (pre ++ (48 :: ds) ++ rest) 10 None (S tokPos))) | _ => (false, tokPos) end) = (false, tokPos)).
    { destruct c as [|p|p]; try reflexivity.
      do 6 (destruct p as [p|p|]; try reflexivity). lia. }
    rewrite Hc46. rewrite Hat.
    assert (Hc69 : forall (A : Type) (x y : A),
               match c with 69 | 101 => x | _ => y end = y).
    { intros A x y. destruct c as [|p|p]; try reflexivity.
      do 7 (destruct p as [p|p|]; try reflexivity); lia. }
    rewrite Hc69. rewrite Hat, Hid.
    unfold slice. rewrite skipn_prefix.
    replace (tokPos - length pre)%nat with (length (48 :: ds)) by (unfold tokPos; simpl; lia).
    rewrite firstn_app, Nat.sub_diag, firstn_all. simpl firstn. rewrite app_nil_r.
    destruct ds as [|d ds]; [congruence|]. reflexivity.
  - rewrite Hat. rewrite Hat. simpl isIdentifierStart.
    unfold slice. rewrite skipn_prefix.
    replace (tokPos - length pre)%nat with (length (48 :: ds)) by (unfold tokPos; simpl; lia).
    rewrite firstn_app, Nat.sub_diag, firstn_all. simpl firstn. rewrite app_nil_r.
    destruct ds as [|d ds]; [congruence|]. reflexivity.
Qed.

(** C9, as amended.  A numeric literal made of [0] followed by one or more
    digits, and not continued by a fraction or an exponent: when every digit
    is in 0 to 7 and the tokenizer is not strict, the token is the integer
    that the digits denote in base eight, as the host's [parseInt] returns
    it: the nearest double, which is the integer itself up to 2^53; when a
    digit is 8 or 9, or when the tokenizer is strict, [readNumber] raises
    "Invalid number" at the start of the literal.  (The claim has a literal
    with an 8 or a 9 read as decimal in non-strict mode; the guard of line
    824 rejects it in both modes.) *)
Theorem C9_leading_zero_literal nonASCII strict pre ds rest :
  ds <> [] -> Forall isDigit ds -> terminates nonASCII rest ->
  (Forall isOctalDigit ds -> strict = false ->
     readNumber nonASCII strict (pre ++ 48 :: ds ++ rest) false (length pre)
     = Ok (tokNum (toDouble (valueOf 8 ds 0)), (length pre + S (length ds))%nat) /\
     (valueOf 8 ds 0 <= 2 ^ 53 ->
      readNumber nonASCII strict (pre ++ 48 :: ds ++ rest) false (length pre)
      = Ok (NumInt (valueOf 8 ds 0), (length pre + S (length ds))%nat))) /\
  (Exists (fun c => c = 56 \/ c = 57) ds ->
     readNumber nonASCII strict (pre ++ 48 :: ds ++ rest) false (length pre)
     = Raise (length pre) "Invalid number") /\
  (strict = true ->
     readNumber nonASCII strict (pre ++ 48 :: ds ++ rest) false (length pre)
     = Raise (length pre) "Invalid number").
Proof.
  intros Hne Hds Ht.
  rewrite (readNumber_leading_zero nonASCII strict pre ds rest Hne Hds Ht).
  split; [|split].
  - intros Hoct ->. simpl has89. rewrite has89_false by exact Hoct. simpl.
    assert (E : parseInt (48 :: ds) 8 = tokNum (toDouble (valueOf 8 ds 0))).
    { unfold parseInt.
      assert (H8 : Forall (fun c => 48 <= c < 48 + 8) (48 :: ds)).
      { constructor; [lia|]. eapply Forall_impl; [exact Hoct|].
        unfold isOctalDigit. simpl. intros. lia. }
      pose proof (digitsPrefix_digits nonASCII 8 (48 :: ds) [] 0 0) as E.
      rewrite app_nil_r in E. rewrite E by (simpl; auto; lia).
      reflexivity. }
    rewrite E. split; [reflexivity|].
    intros Hle. rewrite toDouble_exact; [reflexivity|].
    split; [|exact Hle]. apply valueOf_nonneg; [lia|lia|].
    eapply Forall_impl; [exact Hoct|]. unfold isOctalDigit. simpl. intros. lia.
  - intros Hex.
    assert (H89 : has89 (48 :: ds) = true) by (simpl; apply has89_true, Hex).
    rewrite H89. reflexivity.
  - intros ->. rewrite orb_true_r. reflexivity.
Qed.

(** The literal [010] in non-strict code is the number 8, in strict code
    an error; the literal [089] is an error in both. *)
Lemma C9_leading_zero_literal_witness :
  readNumber (fun _ => false) false (codes "010;") false 0 = Ok (NumInt 8, 3%nat) /\
  readNumber (fun _ => false) false (codes "089;") false 0 = Raise 0 "Invalid number" /\
  readNumber (fun _ => false) true (codes "010;") false 0 = Raise 0 "Invalid number".
Proof.
  assert (T : terminates (fun _ => false) [59]).
  { simpl. unfold isDigit. repeat split; [lia|discriminate]. }
  assert (D1 : Forall isDigit [49; 48]) by (repeat constructor; lia).
  assert (D2 : Forall isDigit [56; 57]) by (repeat constructor; lia).
  assert (O1 : Forall isOctalDigit [49; 48]) by (repeat constructor; lia).
  assert (N1 : [49; 48] <> @nil Z) by discriminate.
  assert (N2 : [56; 57] <> @nil Z) by discriminate.
  destruct (C9_leading_zero_literal (fun _ => false) false [] [49; 48] [59] N1 D1 T)
    as (H1 & _ & _).
  destruct (H1 O1 eq_refl) as [_ H1'].
  destruct (C9_leading_zero_literal (fun _ => false) false [] [56; 57] [59] N2 D2 T)
    as (_ & H2 & _).
  destruct (C9_leading_zero_literal (fun _ => false) true [] [49; 48] [59] N1 D1 T)
    as (_ & _ & H3).
  split; [|split].
  - apply H1'. vm_compute. discriminate.
  - apply H2. constructor. left. reflexivity.
  - exact (H3 eq_refl).
Defined.

(** The claim as stated fails on [089] in non-strict mode: the token is not
    the decimal number 89, the reader raises an error. *)
Lemma C9_counterexample :
  readNumber (fun _ => false) false (codes "089") false 0
  <> Ok (NumInt 89, 3%nat).
Proof. vm_compute. discriminate. Qed.

(** Above 2^53 the octal literal is rounded as the host rounds it:
    [0400000000000000001] is 2^53 + 1 and reads as 2^53. *)
Example leading_zero_literal_rounds :
  readNumber (fun _ => false) false (codes "0400000000000000001") false 0
  = Ok (NumInt 9007199254740992, 19%nat).
Proof. vm_compute. reflexivity. Qed.

End AcornProps.

(** ** The step engine: pausing, and [run] against a loop of [step] *)

Module EngineProps.
Import Interpreter Fixtures.

Section Engine.

Variable sf : string -> option StepFunction.

Lemma step_paused I state rest fuel :
  stateStack I = Some (state :: rest) ->
  paused_ I = true ->
  String.eqb (node_type (node state)) "Program" && truthy (fld "done" state) = false ->
  step sf (S fuel) I = (Ret true, I).
Proof.
  intros Hs Hp Hd. simpl. unfold mbind, M_bind, getStack at 1.
  rewrite Hs, Hd. unfold gets. rewrite Hp. reflexivity.
Qed.

Lemma top_of_rooted (rest : list State) root :
  node_type (node root) = "Program" ->
  truthy (fld "done" root) = false ->
  Forall (fun st => node_type (node st) <> "Program") rest ->
  exists state rest', rest ++ [root] = state :: rest' /\
    String.eqb (node_type (node state)) "Program" && truthy (fld "done" state) = false.
Proof.
  intros Hn Hd Hr. destruct rest as [|st rest].
  - exists root, []. split; [reflexivity|]. rewrite Hd. apply andb_false_r.
  - exists st, (rest ++ [root]). split; [reflexivity|].
    inversion Hr as [|? ? Hst _]; subst.
    apply String.eqb_neq in Hst. rewrite Hst. reflexivity.
Qed.

(** C1.  In every interpreter state where [paused_] is true and the frame at
    the root of the stack is a Program frame that is not done (the frames
    above it are not Program frames: Acorn makes one Program node, the
    root), a call of [step] returns true and leaves the interpreter as it
    was, whatever the step functions are: none is dispatched, and the
    stack, the scopes and the object graph are unchanged; a call of [run]
    returns true at once; this goes on for any number of calls, and the
    callback of the asynchronous function is what sets [paused_] back to
    false. *)
Theorem C1_paused I root rest :
  paused_ I = true ->
  stateStack I = Some (rest ++ [root]) ->
  node_type (node root) = "Program" ->
  truthy (fld "done" root) = false ->
  Forall (fun st => node_type (node st) <> "Program") rest ->
  (forall fuel, step sf (S fuel) I = (Ret true, I)) /\
  (forall fuel loops, run sf fuel (S loops) I = (Ret true, I)) /\
  (forall fuel k, stepN sf (S fuel) k I = I) /\
  (forall pos v, paused_ (callback pos v I).2 = false).
Proof.
  intros Hp Hs Hn Hd Hr.
  destruct (top_of_rooted rest root Hn Hd Hr) as (state & rest' & E & Htop).
  rewrite E in Hs.
  assert (Hstep : forall fuel, step sf (S fuel) I = (Ret true, I)).
  { intros fuel. eapply step_paused; eauto. }
  repeat split.
  - exact Hstep.
  - intros fuel loops. simpl. unfold mbind, M_bind, gets. rewrite Hp. simpl.
    rewrite Hp. reflexivity.
  - intros fuel k. induction k as [|k IH]; [reflexivity|].
    cbn [stepN]. rewrite Hstep. exact IH.
  - intros pos v. unfold callback, mbind, M_bind, gets. rewrite Hs.
    destruct (pos <? _)%nat; [|reflexivity].
    destruct ((state :: rest') !! _); reflexivity.
Qed.

Lemma stepUntilFalse_more I J fuel loops :
  step sf fuel I = (Ret true, J) ->
  stepUntilFalse sf fuel (S loops) I = stepUntilFalse sf fuel loops J.
Proof.
  intros H. cbn [stepUntilFalse]. unfold mbind, M_bind. rewrite H. reflexivity.
Qed.

Lemma stepUntilFalse_stepN fuel k : forall I loops,
  (forall j, (j < k)%nat -> (step sf fuel (stepN sf fuel j I)).1 = Ret true) ->
  stepUntilFalse sf fuel (k + loops) I
  = stepUntilFalse sf fuel loops (stepN sf fuel k I).
Proof.
  induction k as [|k IH]; intros I loops H; [reflexivity|].
  cbn [Nat.add stepN].
  pose proof (H 0%nat ltac:(lia)) as H0. cbn [stepN] in H0.
  destruct (step sf fuel I) as [r J] eqn:E. simpl in H0. subst r.
  rewrite (stepUntilFalse_more I J fuel (k + loops) E).
  apply IH. intros j Hj. specialize (H (S j) ltac:(lia)).
  cbn [stepN] in H. rewrite E in H. exact H.
Qed.

Lemma stepUntilFalse_short fuel k : forall I loops,
  (forall j, (j < k)%nat -> (step sf fuel (stepN sf fuel j I)).1 = Ret true) ->
  (loops <= k)%nat ->
  (stepUntilFalse sf fuel loops I).1 = Throw Outside.
Proof.
  induction k as [|k IH]; intros I loops H Hl.
  - replace loops with 0%nat by lia. reflexivity.
  - destruct loops as [|loops]; [reflexivity|].
    pose proof (H 0%nat ltac:(lia)) as H0. cbn [stepN] in H0.
    destruct (step sf fuel I) as [r J] eqn:E. simpl in H0. subst r.
    rewrite (stepUntilFalse_more I J fuel loops E).
    apply IH; [|lia]. intros j Hj. specialize (H (S j) ltac:(lia)).
    cbn [stepN] in H. rewrite E in H. exact H.
Qed.

(** While the interpreter is paused below a frame that is not a finished
    Program, the loop of the host never sees [step] return false. *)
Lemma stepUntilFalse_paused I state rest fuel loops :
  stateStack I = Some (state :: rest) ->
  paused_ I = true ->
  String.eqb (node_type (node state)) "Program" && truthy (fld "done" state) = false ->
  stepUntilFalse sf (S fuel) loops I = (Throw Outside, I).
Proof.
  intros Hs Hp Hd. induction loops as [|loops IH]; [reflexivity|].
  rewrite (stepUntilFalse_more I I (S fuel) loops); [exact IH|].
  eapply step_paused; eauto.
Qed.

(** C2, as amended.  For every program on which [run] returns false, that
    is, which runs to completion without being left suspended on an
    asynchronous call, calling [step] until it returns false ends in the
    same interpreter: the same [value], the same object graph and the same
    sequence of logged side effects.  (A program that suspends makes [run]
    return true at the suspension, while a loop of [step] spins on the
    paused interpreter; see [C2_counterexample].) *)
Theorem C2_run_false_is_step_loop fuel loops I I' :
  run sf fuel loops I = (Ret false, I') ->
  stepUntilFalse sf fuel loops I = (Ret tt, I').
Proof.
  revert I. induction loops as [|loops IH]; intros I H.
  - discriminate H.
  - cbn [run stepUntilFalse] in *. unfold mbind, M_bind, gets in *.
    destruct (paused_ I) eqn:Hp.
    + simpl in H. rewrite Hp in H. discriminate H.
    + destruct (step sf fuel I) as [[[|] | ex] J] eqn:E.
      * apply IH. exact H.
      * simpl in H. injection H as HpJ <-. reflexivity.
      * discriminate H.
Qed.

End Engine.

Lemma C1_paused_witness :
  step sf_sleep 10 I_paused = (Ret true, I_paused) /\
  run sf_sleep 10 10 I_paused = (Ret true, I_paused).
Proof.
  assert (H : paused_ I_paused = true /\
              stateStack I_paused = Some (above_root I_paused ++ [root_of I_paused]) /\
              node_type (node (root_of I_paused)) = "Program" /\
              truthy (fld "done" (root_of I_paused)) = false /\
              Forall (fun st => node_type (node st) <> "Program") (above_root I_paused)).
  { split; [vm_compute; reflexivity|].
    split; [vm_compute; reflexivity|].
    split; [vm_compute; reflexivity|].
    split; [vm_compute; reflexivity|].
    vm_compute. repeat constructor; discriminate. }
  destruct H as (H1 & H2 & H3 & H4 & H5).
  destruct (C1_paused sf_sleep I_paused (root_of I_paused) (above_root I_paused)
              H1 H2 H3 H4 H5) as (Hstep & Hrun & _).
  split; [apply (Hstep 9%nat) | apply (Hrun 10%nat 9%nat)].
Defined.

Lemma C2_run_false_is_step_loop_witness :
  let sf := stepFunctions false noNative noAsync in
  let I := newInterpreter false prog_var noInit in
  run sf 10 20 I = (Ret false, (run sf 10 20 I).2) /\
  stepUntilFalse sf 10 20 I = (Ret tt, (run sf 10 20 I).2) /\
  this_value (run sf 10 20 I).2 = Num (NInt 1).
Proof.
  intros sf I.
  assert (H : run sf 10 20 I = (Ret false, (run sf 10 20 I).2)).
  { vm_compute. reflexivity. }
  split; [exact H|]. split.
  - exact (C2_run_false_is_step_loop sf 10 20 I _ H).
  - vm_compute. reflexivity.
Defined.

(** The claim as stated fails on [sleep();] where [sleep] is an
    asynchronous function whose callback comes later: [run] returns (true,
    suspended), and no number of calls of [step] ever returns false. *)
Lemma C2_counterexample :
  (exists J, run sf_sleep 10 20 I_sleep = (Ret true, J)) /\
  (forall loops J, stepUntilFalse sf_sleep 10 loops I_sleep <> (Ret tt, J)).
Proof.
  split.
  - eexists. vm_compute. reflexivity.
  - intros loops J H.
    assert (Hfirst : forall j, (j < 5)%nat ->
              (step sf_sleep 10 (stepN sf_sleep 10 j I_sleep)).1 = Ret true).
    { intros j Hj. do 5 (destruct j as [|j]; [vm_compute; reflexivity|]). lia. }
    destruct (le_lt_dec loops 5) as [Hle|Hgt].
    + pose proof (stepUntilFalse_short sf_sleep 10 5 I_sleep loops Hfirst Hle) as E.
      rewrite H in E. discriminate E.
    + replace loops with (5 + (loops - 5))%nat in H by lia.
      rewrite (stepUntilFalse_stepN sf_sleep 10 5 I_sleep _ Hfirst) in H.
      fold I_paused in H.
      assert (Hs : exists state rest, stateStack I_paused = Some (state :: rest) /\
  String.eqb (node_type (node state)) "Program" && truthy (fld "done" state) = false).
      { vm_compute. eexists _, _. split; reflexivity. }
      destruct Hs as (state & rest & Hs & Hd).
      rewrite (stepUntilFalse_paused sf_sleep I_paused state rest 9 _ Hs) in H;
        [discriminate H| vm_compute; reflexivity | exact Hd].
Qed.

End EngineProps.

(** ** Programs run to the end: setters, [new], [delete], the bridge *)

Module RunProps.
Import Interpreter Fixtures.

(** C3, on the failing input.  [o.x = 0;] where [x] has a setter that
    returns 7: the setter is called with 0, then once more with the 7 it
    has returned, and the value of the assignment expression is 7, not the
    assigned 0.  [stepAssignmentExpression] keeps the assigned value in
    [state.doneSetter_] and tests that same field to know whether the
    setter has run (lines 4508 and 4531), so a falsy assigned value sends
    the frame through the assignment again, with the setter's return value
    as right-hand side. *)
Theorem C3_setter_falsy_value :
  let r := finalOf scriptIsStrict native7 (prog_set 0) (init_setter scriptIsStrict) in
  r.1 = Ret false /\
  this_value r.2 = Num (NInt 7) /\
  nativeCalls (trace r.2) = [[Num (NInt 0)]; [Num (NInt 7)]].
Proof.
  split; [vm_compute; reflexivity|].
  split; vm_compute; reflexivity.
Qed.

(** With a truthy assigned value the same program behaves as the claim
    says: one call of the setter, with 5, and 5 as value of the
    expression, whatever the setter returns. *)
Lemma setter_truthy_value :
  let r := finalOf scriptIsStrict native7 (prog_set 5) (init_setter scriptIsStrict) in
  r.1 = Ret false /\
  this_value r.2 = Num (NInt 5) /\
  nativeCalls (trace r.2) = [[Num (NInt 5)]].
Proof.
  split; [vm_compute; reflexivity|].
  split; vm_compute; reflexivity.
Qed.

(** The host mode plays no part in it. *)
Lemma setter_falsy_value_strict_host :
  this_value (finalOf true native7 (prog_set 0) (init_setter true)).2 = Num (NInt 7).
Proof. vm_compute. reflexivity. Qed.

(** C4, on the failing input.  [new (function () { return null; })()] is
    [null], not the object created for [this]: the test of line 4751 is
    [typeof state.value !== 'object'], and [typeof null] is ['object']. *)
Theorem C4_new_returning_null :
  let r := finalOf scriptIsStrict noNative prog_new_null noInit in
  r.1 = Ret false /\ this_value r.2 = Null.
Proof. split; vm_compute; reflexivity. Qed.

(** A constructor that returns a number, or nothing, yields the object
    created for [this], whose prototype is the [prototype] property of the
    function. *)
Lemma new_returning_primitive :
  let r := finalOf scriptIsStrict noNative prog_new_number noInit in
  r.1 = Ret false /\
  isObject (this_value r.2) = true /\
  (fun o => Some (readProp o "prototype")) <$> functionsOf r.2
  = [protoOfValue r.2 (this_value r.2)].
Proof.
  split; [vm_compute; reflexivity|].
  split; vm_compute; reflexivity.
Qed.

Lemma new_returning_nothing :
  let r := finalOf scriptIsStrict noNative prog_new_nothing noInit in
  r.1 = Ret false /\
  isObject (this_value r.2) = true /\
  (fun o => Some (readProp o "prototype")) <$> functionsOf r.2
  = [protoOfValue r.2 (this_value r.2)].
Proof.
  split; [vm_compute; reflexivity|].
  split; vm_compute; reflexivity.
Qed.

(** The last branch of [stepCallExpression] (lines 4748 to 4756), for every
    frame whose call has been executed: the frame is popped, and its parent
    receives [funcThis_] when the frame is a constructor call and
    [typeof state.value] is not ['object'], else [state.value]. *)
Lemma stepCallExpression_complete hs natives asyncs state n parent rest I :
  truthy (fld "doneCallee_" state) = true ->
  strict_equal (fld "doneCallee_" state) (Num (NInt 1)) = false ->
  truthy (fld "doneArgs_" state) = true ->
  truthy (fld "doneExec_" state) = true ->
  stateStack I = Some (state :: parent :: rest) ->
  stepCallExpression hs natives asyncs state n I =
    (Ret None,
     set_stateStack
       (Some (set_value
                (if truthy (fld "isConstructor" state) && negb (typeof_object (value state))
                 then fld "funcThis_" state else value state) parent :: rest)) I).
Proof.
  intros H1 H2 H3 H4 Hs.
  unfold stepCallExpression.
  destruct (match n with
            | CallExpression _ c a => (false, c, a)
            | NewExpression _ c a => (true, Some c, a)
            | _ => (false, None, [])
            end) as [[isNew callee] args].
  rewrite H1. cbn [negb]. rewrite H2.
  unfold mbind, mret, M_bind, M_ret. rewrite H3. cbn [negb]. rewrite H4. cbn [negb].
  unfold pop, setTopValue, updTop, getStack, putStack, modify, mbind, M_bind.
  rewrite Hs. cbn.
  destruct (truthy (fld "isConstructor" state) && negb (typeof_object (value state)));
    destruct I; reflexivity.
Qed.

(** C5, on the failing input.  In the source file as it is,
    [var x; delete x;] evaluates to true although the binding [x] is not
    configurable (and stays in place), and in a strict guest program
    [delete window.x] evaluates to true as well instead of throwing: the
    host's [delete] throws on a slot that is not configurable only in
    strict host code, and the interpreter's functions are not strict host
    code (see [scriptIsStrict]), so the [catch] of line 5311 is not
    reached and [result] stays true. *)
Theorem C5_delete_not_configurable :
  let I := newInterpreter scriptIsStrict prog_delete_var noInit in
  let r := finalOf scriptIsStrict noNative prog_delete_var noInit in
  let r' := finalOf scriptIsStrict noNative prog_delete_strict noInit in
  (configurable <$> globalSlot I "x") = Some false /\
  r.1 = Ret false /\ this_value r.2 = Bool true /\
  globalSlot r.2 "x" = globalSlot I "x" /\
  r'.1 = Ret false /\ this_value r'.2 = Bool true.
Proof.
  split; [vm_compute; reflexivity|].
  split; [vm_compute; reflexivity|].
  split; [vm_compute; reflexivity|].
  split; [vm_compute; reflexivity|].
  split; vm_compute; reflexivity.
Qed.

(** Were the interpreter's functions strict host code, the same programs
    would do what the claim says: false in the non-strict guest program, a
    TypeError (here uncaught, so rethrown to the host) in the strict one,
    and the binding in place in both. *)
Lemma delete_not_configurable_strict_host :
  let I := newInterpreter true prog_delete_var noInit in
  let r := finalOf true noNative prog_delete_var noInit in
  let I' := newInterpreter true prog_delete_strict noInit in
  let r' := finalOf true noNative prog_delete_strict noInit in
  r.1 = Ret false /\ this_value r.2 = Bool false /\
  globalSlot r.2 "x" = globalSlot I "x" /\
  r'.1 = Throw (HostError "TypeError"
                  "Cannot delete property 'x' of '[object Object]'") /\
  globalSlot r'.2 "x" = globalSlot I' "x".
Proof.
  split; [vm_compute; reflexivity|].
  split; [vm_compute; reflexivity|].
  split; [vm_compute; reflexivity|].
  split; vm_compute; reflexivity.
Qed.

(** C7, on the failing input.  The JSON-shaped value [{"__proto__": 1}]
    does not survive the round trip: [nativeToPseudo] gives a guest object
    with the own property [__proto__], and [pseudoToNative] copies it with
    [nativeObj[key] = ...] (line 3764) into a host object made with [{}],
    where the name [__proto__] is the accessor of [Object.prototype] and
    not an own slot; the result is an object without own property. *)
Theorem C7_round_trip_proto_member :
  roundTripOk scriptIsStrict json_proto = false /\
  (exists nh h o, roundTrip scriptIsStrict json_proto = Ret (NRef h, nh) /\
     nobjs nh !! h = Some o /\ n_props o = ∅).
Proof.
  split; [vm_compute; reflexivity|].
  eexists _, _, _. split; [vm_compute; reflexivity|].
  split; vm_compute; reflexivity.
Qed.

(** On a value without such a member the round trip is the identity. *)
Lemma round_trip_sample : roundTripOk scriptIsStrict json_sample = true.
Proof. vm_compute. reflexivity. Qed.

(** A guest object that refers to itself is lowered to a native object that
    refers to itself. *)
Lemma pseudoToNative_cyclic :
  let I := newInterpreter scriptIsStrict (Program e []) (init_cyclic scriptIsStrict) in
  exists g nh h o,
    pvalue <$> globalSlot I "o" = Some g /\
    (pseudoToNative scriptIsStrict 10 g [] emptyNHeap I).1 = Ret (NRef h, nh) /\
    nobjs nh !! h = Some o /\
    n_props o !! "self" = Some (NRef h) /\
    n_props o !! "n" = Some (NNum (NInt 1)).
Proof.
  eexists _, _, _, _.
  split; [vm_compute; reflexivity|].
  split; [vm_compute; reflexivity|].
  split; [vm_compute; reflexivity|].
  split; vm_compute; reflexivity.
Qed.

End RunProps.

(** ** Prototype chains, [hasProperty] and [getProperty] *)

Module ObjectProps.
Import Interpreter Fixtures Logic.

Section Chains.

Variable I : Interp.
Variable next : Object -> Value.
Variable stop : Value -> bool.

Lemma Chain_functional v l l' :
  Chain I next stop v l -> Chain I next stop v l' -> l = l'.
Proof.
  intros H. revert l'.
  induction H as [v Hs|h o l Hs Ho _ IH]; intros l' H'.
  - inversion H' as [|h o l Hs' Ho' Hc]; subst; [reflexivity|congruence].
  - inversion H' as [v Hs'|h' o' l'' Hs' Ho' Hc]; subst; [congruence|].
    rewrite Ho in Ho'. injection Ho' as <-. f_equal. apply IH. exact Hc.
Qed.

Lemma Chain_suffix v l1 h l2 :
  Chain I next stop v (l1 ++ h :: l2) -> Chain I next stop (Obj h) (h :: l2).
Proof.
  revert v. induction l1 as [|x l1 IH]; intros v H; simpl in H.
  - inversion H; subst. exact H.
  - inversion H; subst. eapply IH. eassumption.
Qed.

(** A chain that ends visits no object twice. *)
Lemma Chain_NoDup v l : Chain I next stop v l -> NoDup l.
Proof.
  induction 1 as [v Hs|h o l Hs Ho Hc IH]; [constructor|].
  apply NoDup_cons. split; [|exact IH].
  intros Hin. apply list_elem_of_split in Hin as (l1 & l2 & ->).
  pose proof (Chain_suffix _ _ _ _ Hc) as Hsuf.
  assert (Hfull : Chain I next stop (Obj h) (h :: l1 ++ h :: l2))
    by (econstructor; eassumption).
  pose proof (Chain_functional _ _ _ Hsuf Hfull) as E.
  apply (f_equal length) in E. simpl in E. rewrite length_app in E. simpl in E. lia.
Qed.

Lemma Chain_in_heap v l h :
  Chain I next stop v l -> h ∈ l -> is_Some (heap I !! h).
Proof.
  induction 1 as [v Hs|h' o l Hs Ho Hc IH]; intros Hin.
  - inversion Hin.
  - apply elem_of_cons in Hin as [->|Hin]; [eauto|auto].
Qed.

(** So its length is at most the number of objects. *)
Lemma Chain_length v l :
  Chain I next stop v l -> (length l <= size (heap I))%nat.
Proof.
  intros H.
  rewrite <- (size_list_to_set (C := gset handle) l) by (eapply Chain_NoDup; eauto).
  rewrite <- (size_dom (D := gset handle) (heap I)).
  apply subseteq_size. intros h Hh. apply elem_of_list_to_set in Hh.
  apply elem_of_dom. eapply Chain_in_heap; eauto.
Qed.

End Chains.


Section ProtoChains.

Variable I : Interp.

Lemma isa_loop_chain c l proto fuel :
  ProtoChain I c l -> (length l < fuel)%nat ->
  isa_loop fuel I c proto
  = Ret (existsb (fun h => strict_equal (Obj h) proto) l).
Proof.
  intros H. revert fuel.
  induction H as [v Hs|h o l Hs Ho Hc IH]; intros fuel Hf.
  - destruct fuel as [|fuel]; [simpl in Hf; lia|]. simpl.
    apply negb_true_iff in Hs. rewrite Hs. reflexivity.
  - destruct fuel as [|fuel]; [simpl in Hf; lia|].
    cbn [isa_loop truthy existsb].
    destruct (strict_equal (Obj h) proto) eqn:E; [reflexivity|].
    cbn [dot_proto orb]. rewrite Ho. cbn [obind]. apply IH. simpl in Hf. lia.
Qed.

Lemma lookup_loop_chain h l name fuel :
  ProtoChain I (Obj h) l -> (length l <= fuel)%nat ->
  lookup_loop fuel I (Obj h) name = Ret (firstWith I name l).
Proof.
  remember (Obj h) as v eqn:Ev. intros H. revert h Ev fuel.
  induction H as [v Hs|h' o l Hs Ho Hc IH]; intros h Ev fuel Hf.
  - subst v. discriminate Hs.
  - injection Ev as ->.
    destruct fuel as [|fuel]; [simpl in Hf; lia|].
    cbn [lookup_loop objectOf firstWith]. rewrite Ho.
    destruct (inProps name o); [reflexivity|].
    cbn [getPrototype]. rewrite Ho. cbn [obind].
    inversion Hc as [v Hs'|h'' o'' l'' Hs' Ho' Hc']; subst.
    + apply negb_true_iff in Hs'. rewrite Hs'. reflexivity.
    + cbn [truthy]. rewrite H. eapply IH; [symmetry; exact H|]. simpl in Hf. simpl. lia.
Qed.

(** From a primitive the walk takes one more step: to the prototype of the
    matching built-in constructor. *)
Lemma lookup_loop_primitive v p l name :
  isPrimitive v ->
  getPrototype I v = Ret p ->
  ProtoChain I p l ->
  lookup_loop (S (chainFuel I)) I v name = Ret (firstWith I name l).
Proof.
  intros Hv Hp Hc.
  assert (Hobj : objectOf I v = None) by (destruct v; try contradiction; reflexivity).
  cbn [lookup_loop]. rewrite Hobj, Hp. cbn [obind].
  pose proof (Chain_length _ _ _ _ _ Hc) as Hlen.
  inversion Hc as [v' Hs'|h o l' Hs' Ho' Hc']; subst.
  - apply negb_true_iff in Hs'. rewrite Hs'. reflexivity.
  - cbn [truthy]. apply lookup_loop_chain; [exact Hc|].
    unfold chainFuel. lia.
Qed.

Lemma isa_primitive v c p l proto :
  isPrimitive v ->
  prototypeOf I c = Ret proto ->
  getPrototype I v = Ret p ->
  ProtoChain I p l ->
  exists b, isa I v c = Ret b.
Proof.
  intros Hv Hc Hp Hl. unfold isa.
  assert (E : (if negb (truthy c) then Ret false
               else obind (prototypeOf I c) (fun proto0 =>
                    if strict_equal v proto0 then Ret true
                    else obind (getPrototype I v) (fun c0 =>
                         isa_loop (chainFuel I) I c0 proto0)))
              = Ret (negb (negb (truthy c)) &&
                     (strict_equal v proto ||
                      existsb (fun h => strict_equal (Obj h) proto) l))).
  { destruct (truthy c); [|reflexivity]. cbn [negb andb].
    rewrite Hc. cbn [obind]. destruct (strict_equal v proto); [reflexivity|].
    rewrite Hp. cbn [obind orb].
    apply isa_loop_chain; [exact Hl|].
    pose proof (Chain_length _ _ _ _ _ Hl). unfold chainFuel. lia. }
  destruct v; try contradiction; rewrite E; eauto.
Qed.

End ProtoChains.

(** C10.  On every primitive value [v] (a boolean, a number or a string)
    and every name, the host-facing [hasProperty] throws the host
    TypeError "Primitive data type has no properties" and consults no
    prototype, whereas [getProperty] returns: it walks the chain [l] of the
    prototype of the matching built-in constructor, and, for a boolean or a
    number, its result is the accessor or the value of the first object of
    [l] that has the name, or [undefined] when none has.  The chain must be
    there to be walked: the prototype [p] of the constructor for [v] has a
    chain [l] that ends, [String] is a function object from which booleans
    and numbers do not inherit, and a getter found for the name is a
    function object. *)
Theorem C10_primitive_hasProperty_getProperty hs I v name p l sp :
  isPrimitive v ->
  getPrototype I v = Ret p ->
  ProtoChain I p l ->
  prototypeOf I (STRING (roots I)) = Ret sp ->
  ((forall s, v <> Str s) -> isa I v (STRING (roots I)) = Ret false) ->
  (forall o g, firstWith I name l = Some o ->
               accessor (getter o) name = Some g -> is_Some (objectOf I g)) ->
  hasProperty I v (Str name)
    = Throw (HostError "TypeError" "Primitive data type has no properties") /\
  (exists r I', getProperty hs v (Str name) I = (Ret r, I')) /\
  ((forall s, v <> Str s) ->
   exists I', getProperty hs v (Str name) I =
     (Ret match firstWith I name l with
          | None => Undefined
          | Some o =>
              match accessor (getter o) name with
              | Some g => g
              | None => readProp o name
              end
          end, I')).
Proof.
  intros Hv Hp Hl Hsp Hns Hg.
  split; [destruct v; try contradiction; reflexivity|].
  destruct (isa_primitive I v (STRING (roots I)) p l sp Hv Hsp Hp Hl) as [b Hisa].
  pose proof (lookup_loop_primitive I v p l name Hv Hp Hl) as Hlook.
  assert (Hwalk : exists I',
     (r ← lift (fun I => lookup_loop (S (chainFuel I)) I v name);
      match r with
      | None => mret Undefined
      | Some o =>
          match accessor (getter o) name with
          | Some g => updObject g (set_isGetter true);; mret g
          | None => mret (readProp o name)
          end
      end) I
     = (Ret match firstWith I name l with
            | None => Undefined
            | Some o =>
                match accessor (getter o) name with
                | Some g => g
                | None => readProp o name
                end
            end, I')).
  { unfold mbind, M_bind, lift. rewrite Hlook.
    destruct (firstWith I name l) as [o|] eqn:Ef; [|eexists; reflexivity].
    destruct (accessor (getter o) name) as [g|] eqn:Eg; [|eexists; reflexivity].
    destruct (Hg o g eq_refl Eg) as [go Hgo].
    unfold updObject. destruct g; try discriminate Hgo.
    simpl in Hgo. rewrite Hgo. eexists; reflexivity. }
  destruct Hwalk as [I' Hwalk].
  (* the call, for a value that does not inherit from String *)
  assert (Hplain : isa I v (STRING (roots I)) = Ret false ->
     getProperty hs v (Str name) I =
     (Ret match firstWith I name l with
          | None => Undefined
          | Some o =>
              match accessor (getter o) name with
              | Some g => g
              | None => readProp o name
              end
          end, I')).
  { intros Hf. unfold getProperty, Body.getProperty.
    unfold mbind at 1. unfold M_bind at 1. unfold lift at 1.
    change (String_ I (Str name)) with (@Ret string name). cbv iota.
    assert (Hspecial :
      (if (name =? "length")%string
       then isString ← lift (fun I0 => isa I0 v (STRING (roots I0)));
            (if (isString : bool)
             then l0 ← lift (fun I0 => String_length I0 v); mret (Some (Num (NInt l0)))
             else mret None)
       else if charCode0_lt_0x40 name
            then isString ← lift (fun I0 => isa I0 v (STRING (roots I0)));
                 (if (isString : bool)
                  then match legalArrayIndex name with
                       | Some n =>
                           s ← lift (fun I0 => String_ I0 v);
                           (if n <? Z.of_nat (String.length s)
                            then mret (Some (Str (substring (Z.to_nat n) 1 s)))
                            else mret None)
                       | None => mret None
                       end
                  else mret None)
            else mret None) I = (Ret (@None Value), I)).
    { destruct (name =? "length")%string; [|destruct (charCode0_lt_0x40 name)];
        unfold mbind, M_bind, lift; try rewrite Hf; reflexivity. }
    destruct v; try contradiction;
      unfold mbind at 1; unfold M_bind at 1; rewrite Hspecial; exact Hwalk. }
  split.
  - destruct v as [| |bv|nv|sv| | | |]; try contradiction;
      try (eexists _, _; apply Hplain, Hns; discriminate).
    unfold getProperty, Body.getProperty.
    unfold mbind at 1. unfold M_bind at 1. unfold lift at 1.
    change (String_ I (Str name)) with (@Ret string name). cbv iota.
    assert (Hspecial : exists o : option Value,
      (if (name =? "length")%string
       then isString ← lift (fun I0 => isa I0 (Str sv) (STRING (roots I0)));
            (if (isString : bool)
             then l0 ← lift (fun I0 => String_length I0 (Str sv)); mret (Some (Num (NInt l0)))
             else mret None)
       else if charCode0_lt_0x40 name
            then isString ← lift (fun I0 => isa I0 (Str sv) (STRING (roots I0)));
                 (if (isString : bool)
                  then match legalArrayIndex name with
                       | Some n =>
                           s ← lift (fun I0 => String_ I0 (Str sv));
                           (if n <? Z.of_nat (String.length s)
                            then mret (Some (Str (substring (Z.to_nat n) 1 s)))
                            else mret None)
                       | None => mret None
                       end
                  else mret None)
            else mret None) I = (Ret o, I)).
    { destruct (name =? "length")%string; [|destruct (charCode0_lt_0x40 name)];
        unfold mbind, M_bind, lift; try rewrite Hisa.
      - destruct b; eexists; reflexivity.
      - destruct b; [|eexists; reflexivity].
        destruct (legalArrayIndex name) as [n|]; [|eexists; reflexivity].
        cbn [String_ String_prim].
        destruct (n <? Z.of_nat (String.length sv)); eexists; reflexivity.
      - eexists; reflexivity. }
    destruct Hspecial as [o Hspecial].
    unfold mbind at 1. unfold M_bind at 1. rewrite Hspecial.
    destruct o as [r|]; [eexists _, _; reflexivity|].
    eexists _, _. exact Hwalk.
  - intros Hn. eexists. apply Hplain, Hns, Hn.
Qed.

(** In the interpreter of the empty program, [hasProperty(1,
    'constructor')] throws and [getProperty(1, 'constructor')] is the
    function [Number], found on [Number.prototype]. *)
Lemma C10_primitive_hasProperty_getProperty_witness :
  hasProperty I_empty (Num (NInt 1)) (Str "constructor")
    = Throw (HostError "TypeError" "Primitive data type has no properties") /\
  exists I', getProperty scriptIsStrict (Num (NInt 1)) (Str "constructor") I_empty
             = (Ret (NUMBER (roots I_empty)), I').
Proof.
  assert (Hp : getPrototype I_empty (Num (NInt 1)) = Ret (Obj 13%nat))
    by (vm_compute; reflexivity).
  assert (Hl : ProtoChain I_empty (Obj 13%nat) [13%nat; 1%nat]).
  { eapply chain_step; [reflexivity|vm_compute; reflexivity|].
    eapply (chain_step _ _ _ 1%nat); [reflexivity|vm_compute; reflexivity|].
    apply chain_end. vm_compute. reflexivity. }
  assert (Hsp : prototypeOf I_empty (STRING (roots I_empty)) = Ret (Obj 9%nat))
    by (vm_compute; reflexivity).
  assert (Hns : (forall s, Num (NInt 1) <> Str s) ->
                isa I_empty (Num (NInt 1)) (STRING (roots I_empty)) = Ret false)
    by (intros _; vm_compute; reflexivity).
  assert (Hg : forall o g, firstWith I_empty "constructor" [13%nat; 1%nat] = Some o ->
               accessor (getter o) "constructor" = Some g -> is_Some (objectOf I_empty g)).
  { intros o g Hf Ha. vm_compute in Hf. injection Hf as <-.
    vm_compute in Ha. discriminate Ha. }
  destruct (C10_primitive_hasProperty_getProperty scriptIsStrict I_empty
              (Num (NInt 1)) "constructor" (Obj 13%nat) [13%nat; 1%nat] (Obj 9%nat)
              I Hp Hl Hsp Hns Hg) as (Hhas & _ & Hget).
  split; [exact Hhas|].
  destruct (Hget ltac:(discriminate)) as [I' E].
  exists I'. rewrite E. vm_compute. reflexivity.
Defined.

End ObjectProps.

(** ** Invariants of the methods: what a call leaves untouched *)

Module FrameProps.
Import Interpreter Fixtures Logic.

Section Rules.

Context {Inv : Interp -> Prop}.

Lemma keeps_ret {A} (a : A) (Q : A -> Prop) : Q a -> keeps Inv (mret a) Q.
Proof. intros Ha I HI. split; [exact HI|]. intros a' [= <-]. exact Ha. Qed.

Lemma keeps_throw {A} (e : Exn) (Q : A -> Prop) : keeps Inv (throw e) Q.
Proof. intros I HI. split; [exact HI|]. intros a' [=]. Qed.

Lemma keeps_bind {A B} (m : M A) (k : A -> M B) (Qa : A -> Prop) (Qb : B -> Prop) :
  keeps Inv m Qa ->
  (forall a, Qa a -> keeps Inv (k a) Qb) ->
  keeps Inv (m ≫= k) Qb.
Proof.
  intros Hm Hk I HI. unfold mbind, M_bind.
  destruct (Hm I HI) as [HI' Hq]. destruct (m I) as [[a|e] I']; simpl in *.
  - apply (Hk a (Hq a eq_refl) I' HI').
  - split; [exact HI'|]. intros b [=].
Qed.

Lemma keeps_bind_True {A B} (m : M A) (k : A -> M B) (Qb : B -> Prop) :
  keeps Inv m (fun _ => True) ->
  (forall a, keeps Inv (k a) Qb) ->
  keeps Inv (m ≫= k) Qb.
Proof. intros Hm Hk. eapply keeps_bind; [exact Hm|]. intros a _. apply Hk. Qed.

Lemma keeps_weaken {A} (m : M A) (Q Q' : A -> Prop) :
  keeps Inv m Q -> (forall a, Q a -> Q' a) -> keeps Inv m Q'.
Proof. intros H HQ I HI. destruct (H I HI) as [H1 H2]. split; auto. Qed.

Lemma keeps_gets {A} (f : Interp -> A) : keeps Inv (gets f) (fun _ => True).
Proof. intros I HI. split; [exact HI|]. auto. Qed.

Lemma keeps_gets_with {A} (f : Interp -> A) (Q : A -> Prop) :
  (forall I, Inv I -> Q (f I)) -> keeps Inv (gets f) Q.
Proof. intros H I HI. split; [exact HI|]. intros a [= <-]. auto. Qed.

Lemma keeps_lift {A} (f : Interp -> outcome A) : keeps Inv (lift f) (fun _ => True).
Proof. intros I HI. split; [exact HI|]. auto. Qed.

Lemma keeps_modify (f : Interp -> Interp) :
  (forall I, Inv I -> Inv (f I)) -> keeps Inv (modify f) (fun _ => True).
Proof. intros H I HI. split; [apply H, HI|]. auto. Qed.

Lemma keeps_getObject v : keeps Inv (getObject v) (fun _ => True).
Proof.
  intros I HI. unfold getObject. destruct (objectOf I v); simpl; auto.
Qed.

End Rules.

Section HeapOnly.

Context {Inv : Interp -> Prop} (Hho : heapOnly Inv).

Lemma Inv_set_stateStack I s : Inv I -> Inv (set_stateStack s I).
Proof. intros H. apply (Hho I s (paused_ I) (this_value I) (trace I) H). Qed.

Lemma Inv_set_paused_ I b : Inv I -> Inv (set_paused_ b I).
Proof. intros H. apply (Hho I (stateStack I) b (this_value I) (trace I) H). Qed.

Lemma Inv_set_this_value I v : Inv I -> Inv (set_this_value v I).
Proof. intros H. apply (Hho I (stateStack I) (paused_ I) v (trace I) H). Qed.

Lemma Inv_log I ev : Inv I -> Inv (log ev I).
Proof. intros H. apply (Hho I (stateStack I) (paused_ I) (this_value I) _ H). Qed.

Lemma keeps_getStack : keeps Inv getStack (fun _ => True).
Proof.
  intros I HI. unfold getStack. destruct (stateStack I); simpl; auto.
Qed.

Lemma keeps_putStack s : keeps Inv (putStack s) (fun _ => True).
Proof. apply keeps_modify. intros I. apply Inv_set_stateStack. Qed.

Lemma keeps_pop : keeps Inv pop (fun _ => True).
Proof.
  eapply keeps_bind; [apply keeps_getStack|]. intros s _. apply keeps_putStack.
Qed.

Lemma keeps_updTop f : keeps Inv (updTop f) (fun _ => True).
Proof.
  eapply keeps_bind; [apply keeps_getStack|]. intros s _.
  destruct s; [apply keeps_throw|apply keeps_putStack].
Qed.

Lemma keeps_getScope : keeps Inv getScope (fun _ => True).
Proof.
  eapply keeps_bind; [apply keeps_getStack|]. intros s _.
  destruct s as [|st s]; [apply keeps_throw|].
  destruct (truthy (scope st)); [apply keeps_ret; exact I|apply keeps_throw].
Qed.

Lemma keeps_log ev : keeps Inv (modify (log ev)) (fun _ => True).
Proof. apply keeps_modify. intros I. apply Inv_log. Qed.

End HeapOnly.


(** Stepping through a method with the rules above. *)
Ltac kstep :=
  lazymatch goal with
  | |- keeps _ (mbind _ _) _ => eapply keeps_bind_True; [|intros ?]
  | |- keeps _ (mret _) (fun _ => True) => apply keeps_ret; exact Corelib.Init.Logic.I
  | |- keeps _ (throw _) _ => apply keeps_throw
  | |- keeps _ (gets _) _ => apply keeps_gets
  | |- keeps _ (lift _) _ => apply keeps_lift
  | |- keeps _ (getObject _) _ => apply keeps_getObject
  | |- keeps _ (if ?b then _ else _) _ => destruct b
  | |- keeps _ (match ?x with _ => _ end) _ => destruct x
  end.

Section Frame.

Variable except : handle -> Prop.
Variable I0 : Interp.
Hypothesis HB0 : handlesBounded I0.

Local Notation "'Inv0'" := (Extends except I0).
Local Notation "'touch'" := (touchable except I0).

Lemma Extends_heapOnly : heapOnly Inv0.
Proof. intros I s p v t H. exact H. Qed.

Lemma sameShape_refl o : sameShape o o.
Proof. exists (isGetter o). destruct o; reflexivity. Qed.

Lemma sameShape_trans o1 o2 o3 :
  sameShape o1 o2 -> sameShape o2 o3 -> sameShape o1 o3.
Proof. intros [b ->] [b' ->]. exists b'. destruct o1; reflexivity. Qed.

Lemma Extends_refl : Inv0 I0.
Proof.
  split; [lia|]. split; [exact HB0|].
  intros h o Ho _. exists o. split; [exact Ho|apply sameShape_refl].
Qed.

Lemma keeps_updObject_shape v f :
  (forall o, sameShape o (f o)) -> keeps Inv0 (updObject v f) (fun _ => True).
Proof.
  intros Hf I (Hn & Hb & Hfr). unfold updObject.
  destruct v as [| | | | |h| | |]; try (split; [repeat split; assumption|auto]).
  destruct (heap I !! h) as [o|] eqn:Eo; simpl; [|split; [repeat split; assumption|auto]].
  split; [|auto]. split; [exact Hn|]. split.
  - intros h' [o' Ho']. apply Hb. simpl in Ho'.
    destruct (decide (h = h')) as [->|Hne]; [eauto|].
    rewrite lookup_insert_ne in Ho' by exact Hne. eauto.
  - intros h' o' Ho' Hex. destruct (Hfr h' o' Ho' Hex) as (o'' & Ho'' & Hs).
    simpl. destruct (decide (h = h')) as [->|Hne].
    + rewrite lookup_insert_eq. rewrite Eo in Ho''. injection Ho'' as <-.
      eexists; split; [reflexivity|]. eapply sameShape_trans; [exact Hs|apply Hf].
    + rewrite lookup_insert_ne by exact Hne. eauto.
Qed.

Lemma keeps_updObject_touch v f :
  touch v -> keeps Inv0 (updObject v f) (fun _ => True).
Proof.
  intros Ht I (Hn & Hb & Hfr). unfold updObject.
  destruct v as [| | | | |h| | |]; try (split; [repeat split; assumption|auto]).
  destruct (heap I !! h) as [o|] eqn:Eo; simpl; [|split; [repeat split; assumption|auto]].
  split; [|auto]. split; [exact Hn|]. split.
  - intros h' [o' Ho']. apply Hb. simpl in Ho'.
    destruct (decide (h = h')) as [->|Hne]; [eauto|].
    rewrite lookup_insert_ne in Ho' by exact Hne. eauto.
  - intros h' o' Ho' Hex. destruct (Hfr h' o' Ho' Hex) as (o'' & Ho'' & Hs).
    simpl. destruct (decide (h = h')) as [->|Hne].
    + exfalso. destruct (Ht h' eq_refl) as [Hin|Hnew]; [exact (Hex Hin)|].
      pose proof (HB0 h' (mk_is_Some _ _ Ho')). lia.
    + rewrite lookup_insert_ne by exact Hne. eauto.
Qed.

Lemma keeps_alloc o : keeps Inv0 (alloc o) touch.
Proof.
  intros I (Hn & Hb & Hfr). unfold alloc. simpl. split.
  - split; [simpl; lia|]. split.
    + intros h [o' Ho']. simpl in *.
      destruct (decide (nextHandle I = h)) as [<-|Hne]; [lia|].
      rewrite lookup_insert_ne in Ho' by exact Hne.
      pose proof (Hb h (mk_is_Some _ _ Ho')). lia.
    + intros h o' Ho' Hex. destruct (Hfr h o' Ho' Hex) as (o'' & Ho'' & Hs).
      simpl. destruct (decide (nextHandle I = h)) as [<-|Hne].
      * pose proof (Hb _ (mk_is_Some _ _ Ho'')). lia.
      * rewrite lookup_insert_ne by exact Hne. eauto.
  - intros a [= <-] h [= <-]. right. exact Hn.
Qed.

Lemma touchable_nonobject v :
  isObject v = false -> touch v.
Proof. intros H h ->. discriminate H. Qed.


Lemma keeps_log_obj (obj : Value) f :
  keeps Inv0 (match obj with
              | Obj h => modify (log (f h))
              | _ => mret tt
              end) (fun _ => True).
Proof.
  destruct obj; try (apply keeps_ret; constructor).
  apply (keeps_log Extends_heapOnly).
Qed.

Section Bodies.

Variable hs : bool.
Variable te : forall A : Type, Value -> option string -> M A.
Variable co : Value -> M Value.
Hypothesis Hte : forall A c msg, keeps Inv0 (te A c msg) (fun _ => True).
Hypothesis Hco : forall p, keeps Inv0 (co p) touch.

Lemma keeps_throwError A cls msg :
  keeps Inv0 (@Body.throwError te A cls msg) (fun _ => True).
Proof. unfold Body.throwError. kstep; [kstep|apply Hte]. Qed.

Lemma keeps_isStrict : keeps Inv0 Body.isStrict (fun _ => True).
Proof.
  unfold Body.isStrict. kstep; [kstep|]. kstep; [|kstep].
  kstep; [apply keeps_getScope|kstep].
Qed.

Ltac ktac :=
  repeat first
    [ apply keeps_throwError
    | apply keeps_isStrict
    | apply keeps_getStack
    | apply (keeps_putStack Extends_heapOnly)
    | apply (keeps_pop Extends_heapOnly)
    | apply (keeps_updTop Extends_heapOnly)
    | apply keeps_getScope
    | apply (keeps_log Extends_heapOnly)
    | apply keeps_log_obj
    | apply keeps_updObject_touch; assumption
    | kstep ].

Lemma keeps_setProperty_array obj name v :
  touch obj ->
  keeps Inv0 (Body.setProperty_array hs te obj name v) (fun _ => True).
Proof. intros Ht. unfold Body.setProperty_array. ktac. Qed.

Lemma keeps_setProperty_define obj name v d :
  touch obj ->
  keeps Inv0 (Body.setProperty_define te obj name v d) (fun _ => True).
Proof. intros Ht. unfold Body.setProperty_define. ktac. Qed.

Lemma keeps_setProperty_assign gs obj name v :
  touch obj ->
  keeps Inv0 (Body.setProperty_assign hs te gs obj name v) (fun _ => True).
Proof. intros Ht. unfold Body.setProperty_assign. ktac. Qed.

Lemma keeps_setProperty obj name v d :
  touch obj ->
  keeps Inv0 (Body.setProperty hs te obj name v d) (fun _ => True).
Proof.
  intros Ht. unfold Body.setProperty.
  ktac; first [apply keeps_setProperty_array|apply keeps_setProperty_define
              |apply keeps_setProperty_assign]; assumption.
Qed.


Lemma sameShape_set_isGetter b o : sameShape o (set_isGetter b o).
Proof. exists b. reflexivity. Qed.

Lemma keeps_getProperty obj name :
  keeps Inv0 (Body.getProperty te obj name) (fun _ => True).
Proof.
  unfold Body.getProperty. ktac.
  all: apply keeps_updObject_shape; intros; apply sameShape_set_isGetter.
Qed.

Lemma keeps_unwind type v label :
  keeps Inv0 (Body.unwind te type v label) (fun _ => True).
Proof.
  unfold Body.unwind.
  repeat first [apply keeps_getProperty | ktac].
Qed.

Lemma keeps_createObjectProto p :
  keeps Inv0 (Body.createObjectProto hs te co p) touch.
Proof.
  unfold Body.createObjectProto.
  eapply keeps_bind; [apply keeps_alloc|]. intros obj Hobj.
  repeat first
    [ apply keeps_setProperty; exact Hobj
    | apply keeps_updObject_touch; exact Hobj
    | eapply keeps_weaken; [apply Hco|intros; exact Corelib.Init.Logic.I]
    | kstep ].
  apply keeps_ret. exact Hobj.
Qed.

Lemma keeps_createObject c :
  keeps Inv0 (Body.createObject hs te co c) touch.
Proof.
  unfold Body.createObject. destruct (truthy c).
  - kstep; [kstep|]. apply keeps_createObjectProto.
  - apply keeps_createObjectProto.
Qed.

Lemma keeps_throwException A c msg :
  keeps Inv0 (Body.throwException hs te co A c msg) (fun _ => True).
Proof.
  unfold Body.throwException.
  eapply keeps_bind_True.
  - destruct msg as [message|]; [|kstep].
    eapply keeps_bind; [apply keeps_createObject|]. intros err Herr.
    kstep; [apply keeps_setProperty; exact Herr|]. kstep.
  - intros err. kstep; [apply keeps_unwind|]. kstep.
Qed.

End Bodies.

(** The methods tied to any depth keep the invariant. *)
Lemma keeps_tie hs depth :
  (forall A c msg, keeps Inv0 ((tie hs depth).1 A c msg) (fun _ => True)) /\
  (forall p, keeps Inv0 ((tie hs depth).2 p) touch).
Proof.
  induction depth as [|d [IH1 IH2]]; simpl.
  - split; intros; apply keeps_throw.
  - split; intros.
    + apply keeps_throwException; assumption.
    + apply keeps_createObjectProto; assumption.
Qed.

Lemma keeps_throwException_tied hs A c msg :
  keeps Inv0 (@throwException hs A c msg) (fun _ => True).
Proof.
  unfold throwException. destruct (keeps_tie hs reentrancy) as [H1 H2].
  apply keeps_throwException; assumption.
Qed.

Lemma keeps_throwError_tied hs A cls msg :
  keeps Inv0 (@throwError hs A cls msg) (fun _ => True).
Proof.
  unfold throwError. kstep; [kstep|apply keeps_throwException_tied].
Qed.

Lemma keeps_setProperty_tied hs obj name v d :
  touch obj -> keeps Inv0 (setProperty hs obj name v d) (fun _ => True).
Proof.
  intros Ht. unfold setProperty. destruct (keeps_tie hs reentrancy) as [H1 H2].
  apply keeps_setProperty; assumption.
Qed.

Lemma keeps_getProperty_tied hs obj name :
  keeps Inv0 (getProperty hs obj name) (fun _ => True).
Proof.
  unfold getProperty. destruct (keeps_tie hs reentrancy) as [H1 H2].
  apply keeps_getProperty; assumption.
Qed.

End Frame.

(** A guest exception never returns to its caller. *)
Lemma Body_throwException_throws hs te co A c msg I :
  exists ex, (Body.throwException hs te co A c msg I).1 = Throw ex.
Proof.
  unfold Body.throwException, mbind, M_bind.
  match goal with |- context [match ?x with _ => _ end] => destruct x as [[err|ex] I1] end;
    [|eauto].
  match goal with |- context [match ?x with _ => _ end] => destruct x as [[[]|ex] I2] end;
    simpl; eauto.
Qed.

Lemma throwException_throws hs A c msg I :
  exists ex, (@throwException hs A c msg I).1 = Throw ex.
Proof. unfold throwException. apply Body_throwException_throws. Qed.

Lemma tie_throws hs d A c msg I :
  exists ex, ((tie hs d).1 A c msg I).1 = Throw ex.
Proof.
  destruct d as [|d]; cbn [tie fst]; [eexists; reflexivity|].
  apply Body_throwException_throws.
Qed.

Lemma handlesBounded_dec I :
  bool_decide (map_Forall (fun h _ => (h < nextHandle I)%nat) (heap I)) = true ->
  handlesBounded I.
Proof.
  intros H h [o Ho]. apply bool_decide_eq_true_1 in H. exact (H h o Ho).
Qed.

End FrameProps.
(** ** Assignment to an identifier: [setValueToScope] *)

Module ScopeProps.
Import Interpreter Fixtures Logic.

Lemma C6_counterexample :
  let I := I_empty in
  let r := setValueToScope scriptIsStrict "NaN" (Num (NInt 1)) I in
  (exists st rest, stateStack I = Some (st :: rest) /\ scope st = global I) /\
  pvalue <$> globalSlot I "NaN" = Some (Num NNaN) /\
  r.1 = Ret Undefined /\
  pvalue <$> globalSlot r.2 "NaN" = Some (Num NNaN).
Proof.
  cbv zeta. split.
  - eexists _, _. split; vm_compute; reflexivity.
  - split; [vm_compute; reflexivity|]. split; vm_compute; reflexivity.
Qed.

Section Scopes.

Variable I : Interp.

(** The loop of [getValueFromScope] and [setValueToScope] stops on the
    first scope of the chain that has the name, or where the chain ends. *)
Lemma scope_loop_chain sc l name fuel :
  ScopeChain I sc l -> (length l < fuel)%nat ->
  scope_loop fuel I sc name =
    Ret match firstScopeWith I name l with
        | Some h => (Obj h, true)
        | None => (chainEnd I parentScope sc l, false)
        end.
Proof.
  intros H. revert fuel.
  induction H as [v Hs|h o l Hs Ho Hc IH]; intros fuel Hf.
  - destruct fuel as [|fuel]; [simpl in Hf; lia|]. cbn [scope_loop].
    apply negb_true_iff in Hs. rewrite Hs. reflexivity.
  - destruct fuel as [|fuel]; [simpl in Hf; lia|].
    cbn [scope_loop firstScopeWith chainEnd].
    apply negb_false_iff in Hs. rewrite Hs. cbn [objectOf]. rewrite Ho.
    destruct (inProps name o); [reflexivity|].
    apply IH. simpl in Hf. lia.
Qed.

(** The loop of [setProperty] comes back to the object itself when no
    object of its prototype chain has the name. *)
Lemma defObj_loop_chain obj h l name fuel :
  ProtoChain I (Obj h) l -> (length l <= fuel)%nat ->
  firstWith I name l = None ->
  Body.defObj_loop fuel I obj (Obj h) name = Ret obj.
Proof.
  remember (Obj h) as d eqn:Ed. intros H. revert h Ed fuel.
  induction H as [v Hs|h' o l Hs Ho Hc IH]; intros h Ed fuel Hf Hnone.
  - subst v. discriminate Hs.
  - injection Ed as ->.
    destruct fuel as [|fuel]; [simpl in Hf; lia|].
    cbn [firstWith] in Hnone. rewrite Ho in Hnone.
    cbn [Body.defObj_loop objectOf]. rewrite Ho.
    destruct (inProps name o); [discriminate Hnone|].
    cbn [getPrototype]. rewrite Ho. cbn [obind].
    inversion Hc as [v Hs'|h'' o'' l'' Hs' Ho' Hc']; subst.
    + apply negb_true_iff in Hs'. rewrite Hs'. reflexivity.
    + cbn [truthy]. rewrite H. eapply IH; [symmetry; exact H| |exact Hnone].
      simpl in Hf. simpl. lia.
Qed.

End Scopes.

Section Assignment.

Variable hs : bool.
Variable I : Interp.
Variables (st : State) (rest : list State) (s0 : handle) (l : list handle).
Hypothesis Hstack : stateStack I = Some (st :: rest).
Hypothesis Hscope : scope st = Obj s0.
Hypothesis Hchain : ScopeChain I (Obj s0) l.

Lemma getScope_top : getScope I = (Ret (Obj s0), I).
Proof.
  unfold getScope, getStack, mbind, M_bind. rewrite Hstack, Hscope. reflexivity.
Qed.

Lemma scope_loop_top name :
  scope_loop (chainFuel I) I (Obj s0) name =
    Ret match firstScopeWith I name l with
        | Some h => (Obj h, true)
        | None => (chainEnd I parentScope (Obj s0) l, false)
        end.
Proof.
  apply scope_loop_chain; [exact Hchain|].
  pose proof (ObjectProps.Chain_length _ _ _ _ _ Hchain). unfold chainFuel. lia.
Qed.

Lemma setValueToScope_found name v h o cur :
  firstScopeWith I name l = Some h ->
  heap I !! h = Some o ->
  properties o !! name = Some cur ->
  writable cur = true ->
  setValueToScope hs name v I =
    (Ret Undefined,
     log (EvWrite h name v)
       (set_heap <[h := set_properties
                          (<[name := mkProp v true (enumerable cur) (configurable cur)]>
                             (properties o)) o]> I)).
Proof.
  intros Hfirst Ho Hcur Hw.
  unfold setValueToScope, mbind, M_bind. rewrite getScope_top.
  cbn [gets lift]. rewrite scope_loop_top, Hfirst.
  unfold getObject. cbn [objectOf]. rewrite Ho.
  unfold hostAssign. rewrite Hcur, Hw.
  unfold updObject. rewrite Ho. reflexivity.
Qed.

Variables (g : handle) (pl : list handle).
Hypothesis Hglobal : global I = Obj g.
Hypothesis Hproto : ProtoChain I (Obj g) pl.
Hypothesis HnotString : isa I (Obj g) (STRING (roots I)) = Ret false.

Lemma hasProperty_global name :
  firstWith I name pl = None ->
  hasProperty I (Obj g) (Str name) = Ret false.
Proof.
  intros Hnone. unfold hasProperty. cbn [isObject negb String_ String_prim obind].
  rewrite HnotString. cbn [obind]. rewrite andb_false_r.
  rewrite (ObjectProps.lookup_loop_chain I g pl name); [rewrite Hnone; reflexivity|exact Hproto|].
  pose proof (ObjectProps.Chain_length _ _ _ _ _ Hproto). unfold chainFuel. lia.
Qed.

Lemma setValueToScope_strict name v :
  firstScopeWith I name l = None ->
  chainEnd I parentScope (Obj s0) l = Obj g ->
  firstWith I name pl = None ->
  scopeStrict I (Obj s0) = true ->
  setValueToScope hs name v I =
    throwError hs REFERENCE_ERROR (name ++ " is not defined") I.
Proof.
  intros Hfirst Hend Hnone Hstrict.
  unfold setValueToScope, mbind at 1 2 3, M_bind. rewrite getScope_top.
  cbn [gets lift]. rewrite scope_loop_top, Hfirst, Hend, Hstrict.
  unfold mbind at 1 2, M_bind. cbn [gets]. rewrite Hglobal.
  cbn [strict_equal]. rewrite bool_decide_eq_true_2 by reflexivity.
  cbn [negb lift]. rewrite (hasProperty_global name Hnone). reflexivity.
Qed.

(** A guest ReferenceError leaves every object as it was. *)
Lemma setValueToScope_strict_frame name v :
  firstScopeWith I name l = None ->
  chainEnd I parentScope (Obj s0) l = Obj g ->
  firstWith I name pl = None ->
  scopeStrict I (Obj s0) = true ->
  handlesBounded I ->
  (exists ex, (setValueToScope hs name v I).1 = Throw ex) /\
  Extends (fun _ => False) I (setValueToScope hs name v I).2.
Proof.
  intros Hfirst Hend Hnone Hstrict HB.
  rewrite (setValueToScope_strict name v Hfirst Hend Hnone Hstrict).
  split.
  - unfold throwError, Body.throwError, mbind at 1, M_bind. cbn [gets].
    apply (FrameProps.throwException_throws hs).
  - apply (FrameProps.keeps_throwError_tied (fun _ => False) I HB hs).
    apply FrameProps.Extends_refl. exact HB.
Qed.

Lemma setValueToScope_implicit_global name v go :
  firstScopeWith I name l = None ->
  chainEnd I parentScope (Obj s0) l = Obj g ->
  firstWith I name pl = None ->
  scopeStrict I (Obj s0) = false ->
  heap I !! g = Some go ->
  String.eqb (class go) "Array" = false ->
  preventExtensions go = false ->
  accessor (setter go) name = None ->
  accessor (getter go) name = None ->
  v <> VALUE_IN_DESCRIPTOR ->
  setValueToScope hs name v I =
    (Ret Undefined,
     log (EvWrite g name v)
       (set_heap <[g := set_properties (<[name := plain v]> (properties go)) go]> I)).
Proof.
  intros Hfirst Hend Hnone Hstrict Hgo Hclass Hext Hset Hget Hv.
  unfold setValueToScope, mbind at 1 2 3, M_bind. rewrite getScope_top.
  cbn [gets lift]. rewrite scope_loop_top, Hfirst, Hend, Hstrict.
  unfold mbind at 1 2, M_bind. cbn [gets]. rewrite Hglobal.
  cbn [strict_equal]. rewrite bool_decide_eq_true_2 by reflexivity.
  cbn [negb]. unfold mret at 1, M_ret.
  assert (Hown : properties go !! name = None).
  { inversion Hproto as [v' Hs'|h' o' l' Hs' Ho' Hc' E1 E2]; [discriminate Hs'|].
    rewrite <- E2 in Hnone. cbn [firstWith] in Hnone. rewrite Hgo in Hnone.
    unfold inProps in Hnone.
    destruct (properties go !! name) eqn:E; [|reflexivity].
    rewrite bool_decide_eq_true_2 in Hnone by eauto. discriminate Hnone. }
  unfold setProperty, Body.setProperty, mbind at 1, M_bind.
  cbn [lift String_ String_prim andb].
  unfold mbind at 1, M_bind.
  unfold Body.isStrict at 1, mbind at 1 2, M_bind. cbn [gets]. rewrite Hstack.
  rewrite getScope_top. cbn [gets]. rewrite Hstrict.
  cbn [isObject negb]. unfold mbind at 1, M_bind. cbn [lift]. rewrite HnotString.
  unfold mbind at 1, M_bind, mret at 1, M_ret.
  unfold mbind at 1, M_bind, getObject at 1. cbn [objectOf]. rewrite Hgo.
  rewrite Hclass. unfold mbind at 1, M_bind, mret at 1, M_ret.
  unfold mbind at 1, M_bind, getObject at 1. cbn [objectOf]. rewrite Hgo.
  rewrite Hext. cbn [andb].
  unfold Body.setProperty_assign. rewrite bool_decide_eq_false_2 by exact Hv.
  unfold mbind at 1, M_bind. cbn [lift].
  rewrite (defObj_loop_chain I (Obj g) g pl name); [|exact Hproto| |exact Hnone].
  2:{ pose proof (ObjectProps.Chain_length _ _ _ _ _ Hproto). unfold chainFuel. lia. }
  unfold mbind at 1, M_bind, getObject at 1. cbn [objectOf]. rewrite Hgo.
  rewrite Hset, Hget.
  unfold mbind at 1, M_bind, getObject at 1. cbn [objectOf]. rewrite Hgo.
  unfold hostAssign. rewrite Hown.
  unfold mbind, M_bind, updObject. rewrite Hgo. reflexivity.
Qed.

End Assignment.

(** C6, as amended.  [setValueToScope(name, value)], called with the scope
    [s0] of the state on top of the stack, whose enclosing scopes below the
    global scope are [l]:
    - when [h] is the nearest scope of [l] whose property table has the
      name, and the slot is writable, stores the value in that slot of [h]
      and returns [undefined];
    - when no scope of [l] has the name, the chain ends on the global
      scope, and no object of the prototype chain [pl] of the global object
      has the name: if the current scope is not strict, and the global
      object is extensible, is not an array and has no accessor for the
      name, the value becomes a new property of the global object; if the
      current scope is strict, the call is the throw of a guest
      ReferenceError, it does not return, and it leaves every object with
      the properties it had: no binding is created. *)
Theorem C6_setValueToScope hs I st rest s0 l name v :
  stateStack I = Some (st :: rest) ->
  scope st = Obj s0 ->
  ScopeChain I (Obj s0) l ->
  (forall h o cur,
     firstScopeWith I name l = Some h ->
     heap I !! h = Some o ->
     properties o !! name = Some cur ->
     writable cur = true ->
     setValueToScope hs name v I =
       (Ret Undefined,
        log (EvWrite h name v)
          (set_heap <[h := set_properties
                             (<[name := mkProp v true (enumerable cur) (configurable cur)]>
                                (properties o)) o]> I))) /\
  (forall g pl,
     firstScopeWith I name l = None ->
     chainEnd I parentScope (Obj s0) l = Obj g ->
     global I = Obj g ->
     ProtoChain I (Obj g) pl ->
     isa I (Obj g) (STRING (roots I)) = Ret false ->
     firstWith I name pl = None ->
     (forall go,
        scopeStrict I (Obj s0) = false ->
        heap I !! g = Some go ->
        String.eqb (class go) "Array" = false ->
        preventExtensions go = false ->
        accessor (setter go) name = None ->
        accessor (getter go) name = None ->
        v <> VALUE_IN_DESCRIPTOR ->
        setValueToScope hs name v I =
          (Ret Undefined,
           log (EvWrite g name v)
             (set_heap <[g := set_properties (<[name := plain v]> (properties go)) go]> I))) /\
     (scopeStrict I (Obj s0) = true ->
      handlesBounded I ->
      setValueToScope hs name v I =
        throwError hs REFERENCE_ERROR (name ++ " is not defined") I /\
      (exists ex, (setValueToScope hs name v I).1 = Throw ex) /\
      Extends (fun _ => False) I (setValueToScope hs name v I).2)).
Proof.
  intros Hstack Hscope Hchain. split.
  - intros h o cur. apply (setValueToScope_found hs I st rest s0 l Hstack Hscope Hchain).
  - intros g pl Hfirst Hend Hglobal Hproto HnotString Hnone. split.
    + intros go Hstrict. revert Hfirst Hend Hnone Hstrict.
      apply (setValueToScope_implicit_global hs I st rest s0 l Hstack Hscope Hchain
               g pl Hglobal Hproto HnotString).
    + intros Hstrict HB. split.
      * apply (setValueToScope_strict hs I st rest s0 l Hstack Hscope Hchain
                 g pl Hglobal Hproto HnotString); assumption.
      * apply (setValueToScope_strict_frame hs I st rest s0 l Hstack Hscope Hchain
                 g pl Hglobal Hproto HnotString); assumption.
Qed.

Lemma C6_setValueToScope_witness :
  (exists I',
     setValueToScope scriptIsStrict "a" (Num (NInt 1)) (entered body_var_a)
       = (Ret Undefined, I') /\
     (o ← objectOf I' (Obj 36%nat); pvalue <$> properties o !! "a")
       = Some (Num (NInt 1))) /\
  (exists ex,
     (setValueToScope scriptIsStrict "x" (Num (NInt 1)) (entered body_strict)).1
       = Throw ex) /\
  globalSlot
    (setValueToScope scriptIsStrict "x" (Num (NInt 1)) (entered body_strict)).2 "x"
    = None.
Proof.
  assert (Hend : forall I, global I = Obj 0%nat ->
            negb (truthy (Obj 0%nat) && negb (strict_equal (Obj 0%nat) (global I))) = true).
  { intros I ->. reflexivity. }
  assert (Hstep : forall I, global I = Obj 0%nat ->
            negb (truthy (Obj 36%nat) && negb (strict_equal (Obj 36%nat) (global I))) = false).
  { intros I ->. reflexivity. }
  split.
  - destruct (stateStack (entered body_var_a)) as [[|st rest]|] eqn:Hstack;
      [vm_compute in Hstack; discriminate Hstack| |vm_compute in Hstack; discriminate Hstack].
    assert (Hscope : scope st = Obj 36%nat)
      by (vm_compute in Hstack; injection Hstack as <- _; reflexivity).
    destruct (heap (entered body_var_a) !! 36%nat) as [o|] eqn:Ho;
      [|vm_compute in Ho; discriminate Ho].
    assert (Hparent : parentScope o = Obj 0%nat)
      by (vm_compute in Ho; injection Ho as <-; reflexivity).
    assert (Hchain : ScopeChain (entered body_var_a) (Obj 36%nat) [36%nat]).
    { eapply chain_step; [apply Hstep; vm_compute; reflexivity|exact Ho|].
      rewrite Hparent. apply chain_end. apply Hend. vm_compute. reflexivity. }
    pose proof Ho as Ho'. vm_compute in Ho'. injection Ho' as <-.
    destruct (C6_setValueToScope scriptIsStrict (entered body_var_a) st rest 36%nat
                [36%nat] "a" (Num (NInt 1)) Hstack Hscope Hchain) as [HA _].
    eexists. split.
    + eapply (HA 36%nat _ (mkProp Undefined true true false)); [|exact Ho| |];
        vm_compute; reflexivity.
    + vm_compute. reflexivity.
  - destruct (stateStack (entered body_strict)) as [[|st rest]|] eqn:Hstack;
      [vm_compute in Hstack; discriminate Hstack| |vm_compute in Hstack; discriminate Hstack].
    assert (Hscope : scope st = Obj 36%nat)
      by (vm_compute in Hstack; injection Hstack as <- _; reflexivity).
    destruct (heap (entered body_strict) !! 36%nat) as [o|] eqn:Ho;
      [|vm_compute in Ho; discriminate Ho].
    assert (Hparent : parentScope o = Obj 0%nat)
      by (vm_compute in Ho; injection Ho as <-; reflexivity).
    assert (Hchain : ScopeChain (entered body_strict) (Obj 36%nat) [36%nat]).
    { eapply chain_step; [apply Hstep; vm_compute; reflexivity|exact Ho|].
      rewrite Hparent. apply chain_end. apply Hend. vm_compute. reflexivity. }
    assert (Hproto : ProtoChain (entered body_strict) (Obj 0%nat) [0%nat; 1%nat]).
    { eapply chain_step; [reflexivity|vm_compute; reflexivity|].
      eapply (chain_step _ _ _ 1%nat); [reflexivity|vm_compute; reflexivity|].
      apply chain_end. vm_compute. reflexivity. }
    destruct (C6_setValueToScope scriptIsStrict (entered body_strict) st rest 36%nat
                [36%nat] "x" (Num (NInt 1)) Hstack Hscope Hchain) as [_ HB].
    destruct (HB 0%nat [0%nat; 1%nat]) as [_ HC];
      [vm_compute; reflexivity|vm_compute; reflexivity
      |vm_compute; reflexivity|exact Hproto|vm_compute; reflexivity
      |vm_compute; reflexivity|].
    destruct HC as (E & Hthrow & _);
      [vm_compute; reflexivity|apply FrameProps.handlesBounded_dec; vm_compute; reflexivity|].
    split; [exact Hthrow|]. rewrite E. vm_compute. reflexivity.
Defined.

End ScopeProps.
(** ** Arrays: what the operations on properties keep of [length] *)

Module ArrayProps.
Import Interpreter Fixtures Logic.

Section Triples.

Context {Inv : Interp -> Prop}.

Lemma holds_bind {A B} P (m : M A) (k : A -> M B) Q R :
  holds Inv P m Q -> (forall a, holds Inv (Q a) (k a) R) ->
  holds Inv P (m ≫= k) R.
Proof.
  intros Hm Hk I HP. unfold mbind, M_bind. specialize (Hm I HP).
  destruct (m I) as [[a|ex] I']; [apply Hk, Hm|exact Hm].
Qed.

Lemma holds_ret {A} (P : Interp -> Prop) (a : A) (Q : A -> Interp -> Prop) :
  (forall I, P I -> Q a I) -> holds Inv P (mret a) Q.
Proof. intros H I HP. apply H, HP. Qed.

Lemma holds_throw {A} (P : Interp -> Prop) ex (Q : A -> Interp -> Prop) :
  (forall I, P I -> Inv I) -> holds Inv P (throw ex) Q.
Proof. intros H I HP. apply H, HP. Qed.

Lemma holds_conseq {A} (P P' : Interp -> Prop) (m : M A)
    (Q Q' : A -> Interp -> Prop) :
  holds Inv P m Q -> (forall I, P' I -> P I) -> (forall a I, Q a I -> Q' a I) ->
  holds Inv P' m Q'.
Proof.
  intros H HP HQ I HI. specialize (H I (HP I HI)).
  destruct (m I) as [[a|ex] I']; [apply HQ, H|exact H].
Qed.

Lemma holds_assume {A} (P : Interp -> Prop) (phi : Prop) (m : M A) Q :
  (forall I, P I -> phi) -> (phi -> holds Inv P m Q) -> holds Inv P m Q.
Proof. intros H1 H2 I HP. exact (H2 (H1 I HP) I HP). Qed.

(** A method that only reads keeps what held, and its result is what it
    read there. *)
Lemma holds_read {A} (P : Interp -> Prop) (m : M A) :
  reads m -> (forall I, P I -> Inv I) ->
  holds Inv P m (fun a I => P I /\ (m I).1 = Ret a).
Proof.
  intros Hr HP I HI. specialize (Hr I).
  destruct (m I) as [[a|ex] I'] eqn:E; simpl in Hr; subst I'.
  - split; [exact HI|rewrite E; reflexivity].
  - apply HP, HI.
Qed.

Lemma holds_read_ {A} (P : Interp -> Prop) (m : M A) :
  reads m -> (forall I, P I -> Inv I) -> holds Inv P m (fun _ I => P I).
Proof.
  intros Hr HP. eapply holds_conseq; [apply (holds_read P m Hr HP)|auto|].
  intros a I [H _]. exact H.
Qed.

Lemma holds_keeps {A} (P : Interp -> Prop) (m : M A) Q0 :
  keeps Inv m Q0 -> (forall I, P I -> Inv I) -> holds Inv P m (fun _ I => Inv I).
Proof.
  intros Hk HP I HI. destruct (Hk I (HP I HI)) as [H _].
  destruct (m I) as [[a|ex] I']; exact H.
Qed.

End Triples.

(** *** Methods that only read *)

Lemma reads_ret {A} (a : A) : reads (mret a).
Proof. intros I. reflexivity. Qed.

Lemma reads_throw {A} ex : reads (@throw A ex).
Proof. intros I. reflexivity. Qed.

Lemma reads_lift {A} (f : Interp -> outcome A) : reads (lift f).
Proof. intros I. reflexivity. Qed.

Lemma reads_gets {A} (f : Interp -> A) : reads (gets f).
Proof. intros I. reflexivity. Qed.

Lemma reads_bind {A B} (m : M A) (k : A -> M B) :
  reads m -> (forall a, reads (k a)) -> reads (m ≫= k).
Proof.
  intros Hm Hk I. unfold mbind, M_bind. specialize (Hm I).
  destruct (m I) as [[a|ex] I']; simpl in *; subst I'; [apply Hk|reflexivity].
Qed.

Lemma reads_getObject v : reads (getObject v).
Proof. intros I. unfold getObject. destruct (objectOf I v); reflexivity. Qed.

Lemma reads_getStack : reads getStack.
Proof. intros I. unfold getStack. destruct (stateStack I); reflexivity. Qed.

Lemma reads_getScope : reads getScope.
Proof.
  apply reads_bind; [apply reads_getStack|]. intros [|st s]; [apply reads_throw|].
  destruct (truthy (scope st)); [apply reads_ret|apply reads_throw].
Qed.

Lemma reads_isStrict : reads Body.isStrict.
Proof.
  apply reads_bind; [apply reads_gets|]. intros [s|]; [|apply reads_ret].
  apply reads_bind; [apply reads_getScope|]. intros sc. apply reads_gets.
Qed.

Ltac rstep :=
  lazymatch goal with
  | |- reads (mbind _ _) => apply reads_bind; [|intros ?]
  | |- reads (mret _) => apply reads_ret
  | |- reads (throw _) => apply reads_throw
  | |- reads (lift _) => apply reads_lift
  | |- reads (gets _) => apply reads_gets
  | |- reads (getObject _) => apply reads_getObject
  | |- reads getScope => apply reads_getScope
  | |- reads getStack => apply reads_getStack
  | |- reads Body.isStrict => apply reads_isStrict
  | |- reads (if ?b then _ else _) => destruct b
  | |- reads (match ?x with _ => _ end) => destruct x
  end.

(** *** Property tables of arrays *)

Lemma legalArrayIndex_length : legalArrayIndex "length" = None.
Proof. reflexivity. Qed.

Lemma legalArrayIndex_not_length k i : legalArrayIndex k = Some i -> k <> "length".
Proof. intros H ->. discriminate H. Qed.

Lemma legalArrayIndex_range k i :
  legalArrayIndex k = Some i -> 0 <= i <= 4294967294.
Proof.
  unfold legalArrayIndex. destruct (decimal k) as [z|]; [|discriminate].
  cbv zeta. destruct (String.eqb _ _); [|discriminate]. cbn [andb].
  destruct (z mod 2 ^ 32 =? 4294967295) eqn:E; [discriminate|].
  intros [= <-]. apply Z.eqb_neq in E.
  pose proof (Z.mod_pos_bound z (2 ^ 32) ltac:(lia)). lia.
Qed.

Lemma arrayOK_spec ps :
  arrayOK ps = true <->
  exists n, lengthIs ps n /\ 0 <= n <= 4294967295 /\
            map_Forall (fun k p => indexOK n k p = true) ps.
Proof.
  unfold arrayOK, lengthIs. split.
  - destruct (ps !! "length") as [cur|]; [|discriminate].
    destruct (pvalue cur) as [| | |[n| | |]| | | | |] eqn:Ev; try discriminate.
    intros H. apply andb_prop in H as [H Hall]. apply andb_prop in H as [H Hcf].
    apply andb_prop in H as [H Hw]. apply andb_prop in H as [H0 Hmax].
    apply Z.leb_le in H0, Hmax. apply negb_true_iff in Hcf.
    apply bool_decide_eq_true_1 in Hall.
    exists n. split; [exists cur; auto|]. split; [lia|exact Hall].
  - intros (n & (cur & -> & -> & Hw & Hc) & Hn & Hall).
    rewrite Hw, Hc. cbn [negb andb].
    rewrite bool_decide_eq_true_2 by exact Hall.
    replace (0 <=? n) with true by (symmetry; apply Z.leb_le; lia).
    replace (n <=? 4294967295) with true by (symmetry; apply Z.leb_le; lia).
    reflexivity.
Qed.

Lemma indexOK_mono n n' k p : n <= n' -> indexOK n k p = true -> indexOK n' k p = true.
Proof.
  unfold indexOK. destruct (legalArrayIndex k) as [i|]; [|auto].
  intros Hn H. repeat (apply andb_prop in H as [H ?]).
  apply Z.ltb_lt in H.
  replace (i <? n') with true by (symmetry; apply Z.ltb_lt; lia).
  cbn [andb]. apply andb_true_intro; auto.
Qed.

(** Writing a new length above every index. *)
Lemma arrayOK_set_length ps p n' :
  pvalue p = Num (NInt n') -> writable p = true -> configurable p = false ->
  0 <= n' <= 4294967295 ->
  map_Forall (fun k p => indexOK n' k p = true) ps ->
  arrayOK (<["length" := p]> ps) = true.
Proof.
  intros Hv Hw Hc Hn Hall. apply arrayOK_spec. exists n'. split.
  - exists p. rewrite lookup_insert_eq. auto.
  - split; [exact Hn|]. apply map_Forall_insert_2; [reflexivity|exact Hall].
Qed.

Lemma lengthIs_unique ps n n' : lengthIs ps n -> lengthIs ps n' -> n = n'.
Proof.
  intros (c & Hc & Hv & _) (c' & Hc' & Hv' & _). rewrite Hc in Hc'.
  injection Hc' as <-. rewrite Hv in Hv'. injection Hv' as <-. reflexivity.
Qed.

(** Writing a slot other than [length]. *)
Lemma arrayOK_insert ps n name p :
  arrayOK ps = true -> lengthIs ps n -> name <> "length" ->
  indexOK n name p = true ->
  arrayOK (<[name := p]> ps) = true.
Proof.
  intros Hok (cur & Hcur & Hv & Hw & Hc) Hne Hp.
  apply arrayOK_spec in Hok as (n0 & (c0 & Hc0 & Hv0 & _) & Hn & Hall).
  rewrite Hcur in Hc0. injection Hc0 as <-. rewrite Hv in Hv0. injection Hv0 as <-.
  apply arrayOK_spec. exists n. split.
  - exists cur. rewrite lookup_insert_ne by exact Hne. auto.
  - split; [exact Hn|]. apply map_Forall_insert_2; assumption.
Qed.

(** Removing slots other than [length]. *)
Lemma arrayOK_subset ps ps' :
  arrayOK ps = true -> ps' ⊆ ps -> ps' !! "length" = ps !! "length" ->
  arrayOK ps' = true.
Proof.
  intros Hok Hsub Hlen.
  apply arrayOK_spec in Hok as (n & (cur & Hcur & Hrest) & Hn & Hall).
  apply arrayOK_spec. exists n. split.
  - exists cur. rewrite Hlen. auto.
  - split; [exact Hn|]. intros k p Hk. apply (Hall k p).
    eapply lookup_weaken; eassumption.
Qed.

Lemma hostAssign_Some ps name v ps' :
  hostAssign ps name v = Some ps' ->
  exists p, ps' = <[name := p]> ps /\ pvalue p = v /\ writable p = true /\
    match ps !! name with
    | Some cur => enumerable p = enumerable cur /\ configurable p = configurable cur
    | None => enumerable p = true /\ configurable p = true
    end.
Proof.
  unfold hostAssign. destruct (ps !! name) as [cur|].
  - destruct (writable cur); [|discriminate]. intros [= <-].
    eexists. split; [reflexivity|]. cbn. auto.
  - intros [= <-]. exists (plain v). cbn. auto.
Qed.

Lemma assign_length_ok ps v' ps' :
  arrayOK ps = true -> 0 <= v' <= 4294967295 ->
  map_Forall (fun k p => indexOK v' k p = true) ps ->
  hostAssign ps "length" (Num (NInt v')) = Some ps' -> arrayOK ps' = true.
Proof.
  intros Hok Hv Hall Hps.
  apply arrayOK_spec in Hok as (n & (cur & Hcur & _ & _ & Hcf) & _).
  apply hostAssign_Some in Hps as (p & -> & Hp & Hw & Hflags).
  rewrite Hcur in Hflags. destruct Hflags as [_ Hc].
  apply (arrayOK_set_length ps p v'); auto. congruence.
Qed.

Lemma assign_index_ok ps n name i v ps' :
  arrayOK ps = true -> lengthIs ps n -> legalArrayIndex name = Some i -> i < n ->
  hostAssign ps name v = Some ps' -> arrayOK ps' = true.
Proof.
  intros Hok Hlen Hi Hlt Hps.
  apply hostAssign_Some in Hps as (p & -> & Hp & Hw & Hflags).
  apply (arrayOK_insert ps n); [exact Hok|exact Hlen|
    eapply legalArrayIndex_not_length; exact Hi|].
  assert (He : enumerable p = true /\ configurable p = true).
  { destruct (ps !! name) as [cur|] eqn:Hcur; [|exact Hflags].
    apply arrayOK_spec in Hok as (n0 & _ & _ & Hall).
    specialize (Hall name cur Hcur). cbv beta in Hall. unfold indexOK in Hall. rewrite Hi in Hall.
    apply andb_prop in Hall as [Hall Hc]. apply andb_prop in Hall as [_ He].
    destruct Hflags as [-> ->]. auto. }
  destruct He as [He Hc]. unfold indexOK. rewrite Hi, He, Hc.
  replace (i <? n) with true by (symmetry; apply Z.ltb_lt; lia). reflexivity.
Qed.

Lemma assign_other_ok ps name v ps' :
  arrayOK ps = true -> legalArrayIndex name = None -> name <> "length" ->
  hostAssign ps name v = Some ps' -> arrayOK ps' = true.
Proof.
  intros Hok Hi Hne Hps.
  apply hostAssign_Some in Hps as (p & -> & _).
  pose proof Hok as Hspec. apply arrayOK_spec in Hspec as (n & Hlen & _).
  apply (arrayOK_insert ps n); auto. unfold indexOK. rewrite Hi. reflexivity.
Qed.

Lemma truncated_length v' p : Body.truncated v' "length" p = false.
Proof. unfold Body.truncated. rewrite legalArrayIndex_length. apply andb_false_r. Qed.

(** Truncation leaves the indexes below the new length. *)
Lemma truncate_ok ps v' :
  arrayOK ps = true ->
  let ps1 := filter (fun kp => Body.truncated v' kp.1 kp.2 = false) ps in
  arrayOK ps1 = true /\ map_Forall (fun k p => indexOK v' k p = true) ps1.
Proof.
  intros Hok ps1. split.
  - apply (arrayOK_subset ps); [exact Hok|apply map_filter_subseteq|].
    destruct (ps !! "length") as [cur|] eqn:Hcur.
    + apply map_lookup_filter_Some. split; [exact Hcur|apply truncated_length].
    + apply map_lookup_filter_None. left. exact Hcur.
  - apply arrayOK_spec in Hok as (n & _ & _ & Hall).
    intros k p Hk. apply map_lookup_filter_Some in Hk as [Hk Htr].
    specialize (Hall k p Hk). cbn [fst snd] in Htr. cbv beta in Hall.
    unfold indexOK, Body.truncated in *. destruct (legalArrayIndex k) as [i|]; [|reflexivity].
    apply andb_prop in Hall as [Hall Hc]. apply andb_prop in Hall as [_ He].
    rewrite He, Hc in *. cbn [andb] in Htr. apply Z.leb_gt in Htr.
    replace (i <? v') with true by (symmetry; apply Z.ltb_lt; lia). reflexivity.
Qed.

(** Every slot that truncation removes can be removed. *)
Lemma doomed_configurable ps v' :
  arrayOK ps = true ->
  map_Forall (fun _ p => configurable p = true)
    (filter (fun kp => Body.truncated v' kp.1 kp.2 = true) ps).
Proof.
  intros Hok k p Hk. apply map_lookup_filter_Some in Hk as [Hk Htr].
  apply arrayOK_spec in Hok as (n & _ & _ & Hall).
  specialize (Hall k p Hk). cbn [fst snd] in Htr. cbv beta in Hall.
  unfold indexOK, Body.truncated in *. destruct (legalArrayIndex k) as [i|].
  - apply andb_prop in Hall as [_ Hc]. exact Hc.
  - rewrite andb_false_r in Htr. discriminate Htr.
Qed.

(** An element assignment first raises [length] above the index. *)
Lemma bump_ok ps n name i :
  arrayOK ps = true -> lengthIs ps n -> legalArrayIndex name = Some i ->
  exists ps2,
    hostAssign ps "length" (Num (Math_max (NInt n) (NInt (i + 1)))) = Some ps2 /\
    arrayOK ps2 = true /\ lengthIs ps2 (Z.max n (i + 1)).
Proof.
  intros Hok Hlen Hi. pose proof (legalArrayIndex_range _ _ Hi) as Hr.
  pose proof Hok as Hspec. apply arrayOK_spec in Hspec as (n0 & Hlen0 & Hn & Hall).
  pose proof (lengthIs_unique _ _ _ Hlen0 Hlen) as ->.
  destruct Hlen as (cur & Hcur & Hv & Hw & Hc).
  assert (Hmax : Math_max (NInt n) (NInt (i + 1)) = NInt (Z.max n (i + 1))).
  { unfold Math_max, num_ltb, num_frac. rewrite !Z.mul_1_r.
    destruct (n <? i + 1) eqn:E; [apply Z.ltb_lt in E|apply Z.ltb_ge in E];
      f_equal; lia. }
  rewrite Hmax. unfold hostAssign. rewrite Hcur, Hw. eexists. split; [reflexivity|].
  split.
  - apply (arrayOK_set_length ps _ (Z.max n (i + 1))); auto; [lia|].
    intros k p Hk. apply (indexOK_mono n); [lia|apply (Hall k p Hk)].
  - eexists. rewrite lookup_insert_eq. split; [reflexivity|]. cbn. auto.
Qed.

Lemma hostDelete_arrayOK ps name ps' :
  arrayOK ps = true -> hostDelete ps name = Some ps' -> arrayOK ps' = true.
Proof.
  intros Hok. unfold hostDelete. destruct (ps !! name) as [cur|] eqn:Hcur.
  - destruct (configurable cur) eqn:Hc; [|discriminate]. intros [= <-].
    assert (Hne : name <> "length").
    { intros ->. apply arrayOK_spec in Hok as (n & (c & Hc' & _ & _ & Hcf) & _).
      rewrite Hcur in Hc'. injection Hc' as <-. congruence. }
    eapply arrayOK_subset; [exact Hok|apply delete_subseteq|].
    apply lookup_delete_ne. exact Hne.
  - intros [= <-]. exact Hok.
Qed.

Section ArrayInvariant.

Variable hs : bool.
Variable h : handle.

Local Notation "'Inv'" := (ArrayInv h).

Lemma ArrayInv_heapOnly : heapOnly Inv.
Proof. intros I s p v t H. exact H. Qed.

(** What leaves every object as it is, but for those of [except], keeps
    the array when it is not one of them. *)
Lemma frame_keeps {A} (except : handle -> Prop) (m : M A) :
  ~ except h ->
  (forall I0, handlesBounded I0 -> keeps (Extends except I0) m (fun _ => True)) ->
  keeps Inv m (fun _ => True).
Proof.
  intros Hne H I [HB (o & Ho & Hc & Hok)].
  destruct (H I HB I (FrameProps.Extends_refl except I HB)) as [(Hn & HB' & Hfr) _].
  split; [|auto]. split; [exact HB'|].
  destruct (Hfr h o Ho Hne) as (o' & Ho' & [b ->]).
  exists (set_isGetter b o). split; [exact Ho'|]. split; assumption.
Qed.

Lemma keeps_throwError_array A cls msg :
  keeps Inv (@throwError hs A cls msg) (fun _ => True).
Proof.
  apply (frame_keeps (fun _ => False)); [tauto|]. intros I0 HB0.
  apply FrameProps.keeps_throwError_tied. exact HB0.
Qed.

Lemma keeps_tie_array d A c msg :
  keeps Inv ((tie hs d).1 A c msg) (fun _ => True).
Proof.
  apply (frame_keeps (fun _ => False)); [tauto|]. intros I0 HB0.
  apply (FrameProps.keeps_tie (fun _ => False) I0 HB0 hs d).
Qed.

(** A write to an object: to another object than the array, or one that
    leaves the array an array. *)
Lemma updObject_array obj f I :
  Inv I ->
  (forall o, heap I !! h = Some o -> obj = Obj h ->
             class (f o) = "Array" /\ arrayOK (properties (f o)) = true) ->
  Inv (updObject obj f I).2.
Proof.
  intros [HB (o & Ho & Hc & Hok)] Hf. unfold updObject.
  destruct obj as [| | | | |h'| | |]; try (split; [exact HB|eauto]).
  destruct (heap I !! h') as [o'|] eqn:Ho'; [|split; [exact HB|eauto]].
  cbn. split.
  - intros x [ox Hx]. cbn in Hx. apply HB.
    destruct (decide (h' = x)) as [->|Hne]; [eauto|].
    rewrite lookup_insert_ne in Hx by exact Hne. eauto.
  - cbn. destruct (decide (h' = h)) as [->|Hne].
    + rewrite lookup_insert_eq. rewrite Ho in Ho'. injection Ho' as <-.
      exists (f o). split; [reflexivity|]. apply Hf; [exact Ho|reflexivity].
    + rewrite lookup_insert_ne by exact Hne. eauto.
Qed.

Lemma At_inv o I : At h o I -> arrayOK (properties o) = true /\ class o = "Array".
Proof.
  intros [[_ (o' & Ho' & Hc & Hok)] Ho]. rewrite Ho in Ho'. injection Ho' as <-. auto.
Qed.

Lemma holds_getObject_array :
  holds Inv Inv (getObject (Obj h)) (fun o I => At h o I).
Proof.
  eapply holds_conseq; [apply (holds_read Inv _ (reads_getObject (Obj h)))|auto|]; [auto|].
  intros o I [HI Hr]. split; [exact HI|].
  unfold getObject in Hr. cbn [objectOf] in Hr.
  destruct (heap I !! h); [injection Hr as ->; reflexivity|discriminate Hr].
Qed.

Lemma holds_updObject_array o ps' :
  arrayOK ps' = true ->
  holds Inv (At h o) (updObject (Obj h) (set_properties ps'))
    (fun _ I => At h (set_properties ps' o) I).
Proof.
  intros Hps I [HI Ho].
  pose proof (updObject_array (Obj h) (set_properties ps') I HI) as H.
  unfold updObject in *. rewrite Ho in *. cbn in *. split.
  - apply H. intros o' [= <-] _. destruct HI as [_ (o' & Ho' & Hc & _)].
    rewrite Ho in Ho'. injection Ho' as <-. split; [exact Hc|exact Hps].
  - apply lookup_insert_eq.
Qed.

Lemma holds_log_at {P : Interp -> Prop} (obj : Value) f :
  heapOnly P -> (forall I, P I -> Inv I) ->
  holds Inv P (match obj with
               | Obj h' => modify (log (f h'))
               | _ => mret tt
               end) (fun _ I => P I).
Proof.
  intros Hho HP I HI. destruct obj; try exact HI.
  cbn. apply (Hho I (stateStack I) (paused_ I) (this_value I) _ HI).
Qed.

Lemma At_heapOnly o : heapOnly (At h o).
Proof. intros I s p v t H. exact H. Qed.

Lemma getObject_Ret I o :
  (getObject (Obj h) I).1 = Ret o -> heap I !! h = Some o.
Proof.
  unfold getObject. cbn [objectOf].
  destruct (heap I !! h); [intros [= ->]; reflexivity|discriminate].
Qed.

Section Bodies.

Variable te : forall A : Type, Value -> option string -> M A.
Hypothesis Hte : forall A c msg, keeps Inv (te A c msg) (fun _ => True).
Hypothesis Hthrows : forall A c msg I, exists ex, (te A c msg I).1 = Throw ex.

Lemma holds_throwError {A} (P : Interp -> Prop) cls msg (Q : A -> Interp -> Prop) :
  (forall I, P I -> Inv I) -> holds Inv P (@Body.throwError te A cls msg) Q.
Proof.
  intros HP I HI. unfold Body.throwError, mbind, M_bind. cbn [gets].
  destruct (Hte A (cls (roots I)) (Some msg) I (HP I HI)) as [H _].
  destruct (Hthrows A (cls (roots I)) (Some msg) I) as [ex E].
  destruct (te A (cls (roots I)) (Some msg) I) as [[a|ex'] I']; [discriminate E|exact H].
Qed.

Lemma holds_lift_throwError {A B} (P : Interp -> Prop) (f : Interp -> outcome B)
    cls (msg : B -> string) (Q : A -> Interp -> Prop) :
  (forall I, P I -> Inv I) ->
  holds Inv P (x ← lift f; @Body.throwError te A cls (msg x)) Q.
Proof.
  intros HP.
  eapply holds_bind; [apply holds_read_; [apply reads_lift|exact HP]|].
  intros x. apply holds_throwError. exact HP.
Qed.

Lemma holds_setProperty_assign gs name stored :
  holds Inv (fun I => Inv I /\ fits h name stored I)
    (Body.setProperty_assign hs te gs (Obj h) name stored) (fun _ I => Inv I).
Proof.
  unfold Body.setProperty_assign.
  destruct (bool_decide _); [apply holds_throw; tauto|].
  eapply holds_bind; [apply holds_read_; [apply reads_lift|tauto]|]. intros defObj. cbn beta.
  eapply holds_bind; [apply holds_read_; [apply reads_getObject|tauto]|]. intros d. cbn beta.
  destruct (accessor (setter d) name); [apply holds_ret; tauto|].
  destruct (accessor (getter d) name).
  { destruct gs; [apply holds_lift_throwError; tauto|apply holds_ret; tauto]. }
  eapply holds_bind; [apply holds_read; [apply reads_getObject|tauto]|]. intros o. cbn beta.
  destruct (hostAssign (properties o) name stored) as [ps|] eqn:Hps.
  - eapply holds_assume with (phi := arrayOK ps = true).
    { intros I [[HI Hfit] Hr]. apply (Hfit o ps); [|exact Hps].
      apply getObject_Ret. exact Hr. }
    intros Hok.
    eapply holds_bind.
    { eapply holds_conseq; [apply (holds_updObject_array o ps Hok)| |intros a I H; exact H].
      intros I [[HI _] Hr]. split; [exact HI|apply getObject_Ret; exact Hr]. }
    intros ?. eapply holds_bind.
    { apply (holds_log_at (Obj h) (fun h' => EvWrite h' name stored));
        [apply At_heapOnly|intros I [HI _]; exact HI]. }
    intros ?. apply holds_ret. intros I [HI _]. exact HI.
  - destruct (hs && gs); [apply holds_lift_throwError; tauto|apply holds_ret; tauto].
Qed.

Lemma fits_at o I name stored :
  At h o I ->
  (forall ps', hostAssign (properties o) name stored = Some ps' -> arrayOK ps' = true) ->
  fits h name stored I.
Proof.
  intros [_ Ho] H o' ps' Ho'. rewrite Ho in Ho'. injection Ho' as <-. apply H.
Qed.

Lemma readProp_length o n :
  lengthIs (properties o) n -> readProp o "length" = Num (NInt n).
Proof.
  intros (cur & Hc & Hv & _). unfold readProp. rewrite Hc. cbn. exact Hv.
Qed.

Lemma legalArrayLength_range v n :
  legalArrayLength v = Ret (Some n) -> 0 <= n <= 4294967295.
Proof.
  unfold legalArrayLength. destruct (ToNumber v) as [nx|]; [|discriminate].
  cbv zeta. destruct (bool_decide _); [|discriminate]. intros [= <-].
  destruct nx; cbn [toUint32]; try lia;
    match goal with |- _ <= ?a mod ?b <= _ =>
      pose proof (Z.mod_pos_bound a b ltac:(lia)); lia end.
Qed.

(** The part of [setProperty] for arrays leaves an array to which the
    value that it returns can be assigned. *)
Lemma holds_setProperty_array name v :
  holds Inv Inv (Body.setProperty_array hs te (Obj h) name v)
    (fun stored I => Inv I /\ fits h name stored I).
Proof.
  unfold Body.setProperty_array.
  eapply holds_bind; [apply holds_getObject_array|]. intros o. cbn beta zeta.
  apply holds_assume with (phi := arrayOK (properties o) = true);
    [intros I HI; apply (At_inv o I HI)|].
  intros Hok. pose proof Hok as Hspec.
  apply arrayOK_spec in Hspec as (n & Hlen & Hn & Hall).
  rewrite (readProp_length o n Hlen). cbn [ToNumber].
  destruct (String.eqb name "length") eqn:En.
  - apply String.eqb_eq in En. subst name.
    eapply holds_bind; [apply holds_read; [apply reads_lift|intros I [HI _]; exact HI]|].
    intros r. cbn beta.
    apply holds_assume with (phi := legalArrayLength v = Ret r);
      [intros I [_ Hr]; exact Hr|]. intros Hr.
    destruct r as [v'|]; [|apply holds_throwError; intros I [[HI _] _]; exact HI].
    pose proof (legalArrayLength_range v v' Hr) as Hv'.
    eapply holds_bind with (Q := fun _ I => Inv I /\ fits h "length" (Num (NInt v')) I).
    2:{ intros ?. apply holds_ret. auto. }
    destruct (num_ltb (NInt v') (NInt n)) eqn:Hlt.
    + rewrite bool_decide_eq_true_2 by (apply doomed_configurable; exact Hok).
      destruct (truncate_ok (properties o) v' Hok) as [Hok1 Hall1].
      eapply holds_conseq; [apply (holds_updObject_array o _ Hok1)|intros I [HI _]; exact HI|].
      intros ? I HAt. split; [apply HAt|].
      apply (fits_at _ I _ _ HAt). intros ps'. cbn [properties set_properties].
      apply assign_length_ok; assumption.
    + apply holds_ret. intros I [HAt _]. split; [apply HAt|].
      apply (fits_at o I _ _ HAt). intros ps'.
      apply assign_length_ok; [exact Hok|exact Hv'|].
      unfold num_ltb, num_frac in Hlt. rewrite !Z.mul_1_r in Hlt. apply Z.ltb_ge in Hlt.
      intros k p Hk. apply (indexOK_mono n); [lia|apply (Hall k p Hk)].
  - apply String.eqb_neq in En.
    destruct (legalArrayIndex name) as [i|] eqn:Ei.
    + destruct (bump_ok (properties o) n name i Hok Hlen Ei) as (ps2 & -> & Hok2 & Hlen2).
      eapply holds_bind; [apply (holds_updObject_array o ps2 Hok2)|]. intros ?.
      eapply holds_bind.
      { apply (holds_log_at (Obj h)
                 (fun h' => EvWrite h' "length" (Num (Math_max (NInt n) (NInt (i + 1))))));
          [apply At_heapOnly|intros I HI; apply HI]. }
      intros ?. apply holds_ret. intros I HAt. split; [apply HAt|].
      apply (fits_at _ I _ _ HAt). intros ps'. cbn [properties set_properties].
      apply (assign_index_ok ps2 (Z.max n (i + 1)) name i); [exact Hok2|exact Hlen2|exact Ei|lia].
    + apply holds_ret. intros I HAt. split; [apply HAt|].
      apply (fits_at o I _ _ HAt). intros ps'.
      apply assign_other_ok; assumption.
Qed.

Lemma holds_setProperty_self name v :
  holds Inv Inv (Body.setProperty hs te (Obj h) name v None) (fun _ I => Inv I).
Proof.
  unfold Body.setProperty.
  eapply holds_bind; [apply holds_read_; [apply reads_lift|auto]|]. intros name0.
  cbn [isObject negb]. cbv beta iota zeta.
  eapply holds_bind; [apply holds_read_; [apply reads_isStrict|auto]|]. intros gs.
  cbv beta.
  eapply holds_bind; [apply holds_read_; [apply reads_lift|auto]|]. intros isString.
  cbv beta.
  eapply holds_bind with (Q := fun _ I => Inv I).
  { apply holds_read_; [|auto]. repeat rstep. }
  intros readonlyChar.
  destruct readonlyChar.
  { destruct gs; [|apply holds_ret; auto].
    eapply holds_bind; [apply holds_read_; [apply reads_getObject|auto]|].
    intros o. apply holds_lift_throwError. auto. }
  eapply holds_bind; [apply holds_getObject_array|]. intros o.
  apply holds_assume with (phi := class o = "Array");
    [intros I HI; apply (At_inv o I HI)|].
  intros Hc. rewrite Hc, String.eqb_refl.
  eapply holds_bind.
  { eapply holds_conseq; [apply holds_setProperty_array|intros I HI; apply HI|].
    intros a I H. exact H. }
  intros stored. cbv beta.
  eapply holds_bind; [apply holds_read_; [apply reads_getObject|tauto]|]. intros o2.
  cbv beta.
  destruct (preventExtensions o2 && negb (inProps name0 o2)).
  { destruct gs; [apply holds_throwError; tauto|apply holds_ret; tauto]. }
  apply holds_setProperty_assign.
Qed.

End Bodies.

Lemma keeps_of_holds {A} (m : M A) :
  holds Inv Inv m (fun _ I => Inv I) -> keeps Inv m (fun _ => True).
Proof.
  intros H I HI. specialize (H I HI). destruct (m I) as [[a|ex] I']; auto.
Qed.

(** [setProperty(obj, name, v)] keeps the array, whatever the object, the
    name and the value are. *)
Lemma setProperty_keeps_array obj name v :
  keeps Inv (setProperty hs obj name v None) (fun _ => True).
Proof.
  destruct (decide (obj = Obj h)) as [->|Hne].
  - apply keeps_of_holds. unfold setProperty. apply holds_setProperty_self.
    + intros A c msg. apply keeps_tie_array.
    + intros A c msg I. apply FrameProps.tie_throws.
  - apply (frame_keeps (fun x => obj = Obj x)); [intros E; apply Hne; exact E|].
    intros I0 HB0. apply FrameProps.keeps_setProperty_tied; [exact HB0|].
    intros h' ->. left. reflexivity.
Qed.

(** A step of a unary expression keeps the array: [delete] removes slots
    that are configurable, and [length] is not. *)
Lemma holds_stepUnaryExpression st n :
  holds Inv Inv (stepUnaryExpression hs st n) (fun _ I => Inv I).
Proof.
  assert (Hcaught : forall (gs : bool) (f : Interp -> outcome string) msg,
            holds Inv Inv
              (if gs then s ← lift f; @throwError hs Value TYPE_ERROR (msg s)
               else mret (Bool false))
              (fun _ I => Inv I)).
  { intros [|] f msg; [|apply holds_ret; auto].
    eapply holds_bind; [apply holds_read_; [apply reads_lift|auto]|]. intros s.
    apply holds_keeps with (Q0 := fun _ => True); [apply keeps_throwError_array|auto]. }
  unfold stepUnaryExpression. destruct n; try (apply holds_throw; auto).
  destruct (negb (truthy (fld "done_" st))).
  - eapply holds_bind.
    { apply holds_keeps with (Q0 := fun _ => True);
        [apply (FrameProps.keeps_updTop ArrayInv_heapOnly)|auto]. }
    intros ?. apply holds_ret; auto.
  - eapply holds_bind.
    { apply holds_keeps with (Q0 := fun _ => True);
        [apply (FrameProps.keeps_pop ArrayInv_heapOnly)|auto]. }
    intros ?.
    eapply holds_bind with (Q := fun _ I => Inv I).
    2:{ intros v. eapply holds_bind.
        { apply holds_keeps with (Q0 := fun _ => True);
            [apply (FrameProps.keeps_updTop ArrayInv_heapOnly)|auto]. }
        intros ?. apply holds_ret; auto. }
    destruct (bool_decide _); [apply holds_throw; auto|].
    destruct (String.eqb operator "!"); [apply holds_ret; auto|].
    destruct (String.eqb operator "delete").
    2:{ destruct (String.eqb operator "typeof");
          [apply holds_read_; [apply reads_gets|auto]|].
        destruct (String.eqb operator "void"); [apply holds_ret; auto|apply holds_throw; auto]. }
    destruct (value st) as [| | | | | | | |base name]; try (apply holds_ret; auto).
    cbv zeta.
    set (obj := if strict_equal base SCOPE_REFERENCE then scope st else base).
    eapply holds_bind; [apply holds_read_; [apply reads_lift|auto]|]. intros name0.
    cbv beta.
    eapply holds_bind; [apply holds_read_; [apply reads_gets|auto]|]. intros gs.
    cbv beta.
    eapply holds_bind; [apply holds_read; [apply reads_gets|auto]|]. intros o.
    cbv beta.
    destruct o as [o|].
    2:{ eapply holds_conseq;
          [apply (Hcaught gs (fun I => String_ I obj)
                    (fun s => "Cannot delete property '" +:+ name0 +:+ "' of '" +:+ s +:+ "'"))
          |intros I HI; apply HI|auto]. }
    destruct (hostDelete (properties o) name0) as [ps|] eqn:Hd.
    + eapply holds_bind with (Q := fun _ I => Inv I).
      { intros I [HI Hr]. cbn [gets fst] in Hr. injection Hr as Hr.
        pose proof (updObject_array obj (set_properties ps) I HI) as H.
        match goal with |- match ?m with _ => _ end =>
          destruct m as [[r|ex] I1] eqn:E; try rewrite E in H; cbn [snd] in H; apply H end.
        all: intros o' Ho' Hobj; rewrite Hobj in Hr; cbn [objectOf] in Hr;
          rewrite Ho' in Hr; injection Hr as ->;
          destruct HI as [_ (o2 & Ho2 & Hc & Hok)]; rewrite Ho' in Ho2;
          injection Ho2 as <-; split; [exact Hc|];
          apply (hostDelete_arrayOK (properties o) name0); assumption. }
      intros ?. eapply holds_bind with (Q := fun _ I => Inv I).
      { match goal with |- holds _ _ (match ?x with _ => _ end) _ =>
          apply (holds_log_at x (fun h' => EvDelete h' name0));
            [apply ArrayInv_heapOnly|auto] end. }
      intros ?. apply holds_ret; auto.
    + destruct hs.
      * eapply holds_conseq;
          [apply (Hcaught gs (fun I => String_ I obj)
                    (fun s => "Cannot delete property '" +:+ name0 +:+ "' of '" +:+ s +:+ "'"))
          |intros I HI; apply HI|auto].
      * apply holds_ret. intros I HI. apply HI.
Qed.

Lemma applyOp_array op I : Inv I -> Inv (applyOp hs op I).
Proof.
  intros HI. destruct op as [obj name v|st n]; cbn [applyOp].
  - apply (setProperty_keeps_array obj name v I HI).
  - apply (keeps_of_holds _ (holds_stepUnaryExpression st n) I HI).
Qed.

Lemma runOps_array ops I : Inv I -> Inv (runOps hs ops I).
Proof.
  revert I. induction ops as [|op ops IH]; intros I HI; [exact HI|].
  apply IH. apply applyOp_array. exact HI.
Qed.

(** What the invariant says of [length] and of the indexes. *)
Lemma ArrayInv_length I :
  Inv I ->
  exists n, lengthOf I (Obj h) = Some (Num (NInt n)) /\
            0 <= n <= 4294967295 /\
            Forall (fun i => 0 <= i < n) (indexesOf I (Obj h)).
Proof.
  intros [_ (o & Ho & _ & Hok)].
  apply arrayOK_spec in Hok as (n & (cur & Hcur & Hv & _) & Hn & Hall).
  exists n. unfold lengthOf, indexesOf. cbn [objectOf]. rewrite Ho. cbn.
  rewrite Hcur. cbn. rewrite Hv. split; [reflexivity|]. split; [exact Hn|].
  apply Forall_forall. intros i Hi.
  apply list_elem_of_omap in Hi as ([k p] & Hkp & Hidx).
  apply elem_of_map_to_list in Hkp. cbn [fst] in Hidx.
  specialize (Hall k p Hkp). cbv beta in Hall. unfold indexOK in Hall.
  rewrite Hidx in Hall. apply andb_prop in Hall as [Hall _].
  apply andb_prop in Hall as [Hlt _]. apply Z.ltb_lt in Hlt.
  pose proof (legalArrayIndex_range k i Hidx). lia.
Qed.

End ArrayInvariant.

(** An array stays an array under assignments and deletions.  Let [h] be
    an object of class Array whose [length] is a writable slot that is not
    configurable and holds an integer from 0 to 2^32-1, and whose own
    indexes are all below [length], in slots that are enumerable and
    configurable, as array creation and element assignment make them.
    After any sequence of calls [setProperty(obj, name, v)] (on the array
    or on any other value) and of steps of unary expressions ([delete]
    among them), [h] is still such an array: its [length] is an integer
    from 0 to 2^32-1, and every index among its own properties is below
    that [length].  The operations are those that [covered] describes:
    the names are primitive values, and a value assigned to [length] is a
    number, a boolean, [null], [undefined] or a string of digits. *)
Theorem array_length_above_indexes hs h ops I :
  ArrayInv h I ->
  Forall covered ops ->
  ArrayInv h (runOps hs ops I) /\
  exists n, lengthOf (runOps hs ops I) (Obj h) = Some (Num (NInt n)) /\
            0 <= n <= 4294967295 /\
            Forall (fun i => 0 <= i < n) (indexesOf (runOps hs ops I) (Obj h)).
Proof.
  intros HI _. pose proof (runOps_array hs h ops I HI) as H.
  split; [exact H|]. apply (ArrayInv_length h _ H).
Qed.

Lemma array_length_above_indexes_witness :
  ArrayInv 36%nat I_array /\
  exists n,
    lengthOf (runOps scriptIsStrict
                [OpSet the_array (Str "length") (Num (NInt 5));
                 OpSet the_array (Num (NInt 7)) (Str "x");
                 OpUnary (deleting I_array the_array "7") (delete_ (dot (var "a") "7"));
                 OpSet the_array (Str "length") (Str "2")]
                I_array) (Obj 36%nat) = Some (Num (NInt n)) /\
    0 <= n <= 4294967295.
Proof.
  assert (HI : ArrayInv 36%nat I_array).
  { split; [apply FrameProps.handlesBounded_dec; vm_compute; reflexivity|].
    eexists. split; [vm_compute; reflexivity|]. split; vm_compute; reflexivity. }
  split; [exact HI|].
  destruct (array_length_above_indexes scriptIsStrict 36%nat
              [OpSet the_array (Str "length") (Num (NInt 5));
               OpSet the_array (Num (NInt 7)) (Str "x");
               OpUnary (deleting I_array the_array "7") (delete_ (dot (var "a") "7"));
               OpSet the_array (Str "length") (Str "2")]
              I_array HI) as [_ (n & Hlen & Hn & _)].
  { repeat constructor.
    - exists "length". split; [reflexivity|]. intros _. eexists. reflexivity.
    - exists "7". split; [reflexivity|]. discriminate.
    - vm_compute. eexists. reflexivity.
    - exists "length". split; [reflexivity|]. intros _. vm_compute. eexists. reflexivity. }
  exists n. split; [exact Hlen|exact Hn].
Defined.

End ArrayProps.
(** ** Exceptions: [unwind] and [throwException] *)

Module UnwindProps.
Import Interpreter Fixtures Logic.

Lemma neverReturns_throw {A} ex : neverReturns (@throw A ex).
Proof. intros I. eexists. reflexivity. Qed.

Lemma neverReturns_bind {A B} (m : M A) (k : A -> M B) :
  (forall a, neverReturns (k a)) -> neverReturns (m ≫= k).
Proof.
  intros Hk I. unfold mbind, M_bind. destruct (m I) as [[a|ex] I'].
  - apply Hk.
  - eexists. reflexivity.
Qed.

Lemma neverReturns_bind_l {A B} (m : M A) (k : A -> M B) :
  neverReturns m -> neverReturns (m ≫= k).
Proof.
  intros Hm I. unfold mbind, M_bind. destruct (Hm I) as [ex E].
  destruct (m I) as [[a|ex'] I']; [discriminate E|]. eexists. reflexivity.
Qed.

Lemma unwind_loop_throw_find stack v label :
  unwind_loop stack THROW v label =
    match list_find (fun st => node_type (node st) = "TryStatement") stack with
    | Some (i, st) =>
        (Handled, set_cv (Some (mkCv THROW v label)) st :: drop (S i) stack)
    | None => (Exhausted, [])
    end.
Proof.
  induction stack as [|st rest IH]; [reflexivity|].
  cbn [unwind_loop list_find]. cbv zeta.
  destruct (decide (node_type (node st) = "TryStatement")) as [E|E].
  - rewrite E. reflexivity.
  - apply String.eqb_neq in E. rewrite E.
    rewrite !andb_false_r. cbn [negb andb bool_decide decide_rel].
    rewrite IH. destruct (list_find _ rest) as [[i st']|]; reflexivity.
Qed.

Lemma unwind_unfold hs I stack type v label :
  type <> NORMAL ->
  stateStack I = Some stack ->
  unwind hs type v label I =
    (let (u, stack') := unwind_loop stack type v label in
     match u with
     | Handled => putStack stack'
     | Unsyntactic =>
         putStack stack';;
         throw (HostError "Error" "Unsynatctic break/continue not rejected by Acorn")
     | Exhausted =>
         putStack stack';;
         isError ← lift (fun I => isa I v (ERROR (roots I)));
         if (isError : bool) then
           name ← getProperty hs v (Str "name");
           name ← lift (fun _ => String_prim name);
           message ← getProperty hs v (Str "message");
           match message with
           | Undefined | Null =>
               throw (HostError "TypeError" "Cannot read property 'valueOf'")
           | _ =>
               message ← lift (fun I => String_ I message);
               throw (HostError (errorTable name) message)
           end
         else
           s ← lift (fun I => String_ I v);
           throw (HostThrown s)
     end) I.
Proof.
  intros Htype Hstack.
  unfold unwind, Body.unwind. rewrite bool_decide_eq_false_2 by exact Htype.
  unfold mbind at 1, M_bind, getStack. rewrite Hstack. reflexivity.
Qed.

(** A completion that no frame takes goes to the host. *)
Lemma unwind_exhausted hs v stack' :
  @neverReturns unit
    (putStack stack';;
     isError ← lift (fun I => isa I v (ERROR (roots I)));
     if (isError : bool) then
       name ← getProperty hs v (Str "name");
       name ← lift (fun _ => String_prim name);
       message ← getProperty hs v (Str "message");
       match message with
       | Undefined | Null =>
           throw (HostError "TypeError" "Cannot read property 'valueOf'")
       | _ =>
           message ← lift (fun I => String_ I message);
           throw (HostError (errorTable name) message)
       end
     else
       s ← lift (fun I => String_ I v);
       throw (HostThrown s)).
Proof.
  apply neverReturns_bind. intros ?. apply neverReturns_bind. intros [|].
  - apply neverReturns_bind. intros name. apply neverReturns_bind. intros name'.
    apply neverReturns_bind. intros message.
    destruct message; try apply neverReturns_throw;
      apply neverReturns_bind; intros m; apply neverReturns_throw.
  - apply neverReturns_bind. intros s. apply neverReturns_throw.
Qed.

Lemma unwind_throw_handled hs I stack v label i st :
  stateStack I = Some stack ->
  list_find (fun st => node_type (node st) = "TryStatement") stack = Some (i, st) ->
  unwind hs THROW v label I =
    (Ret tt,
     set_stateStack
       (Some (set_cv (Some (mkCv THROW v label)) st :: drop (S i) stack)) I).
Proof.
  intros Hstack Hfind.
  rewrite (unwind_unfold hs I stack THROW v label ltac:(discriminate) Hstack).
  rewrite unwind_loop_throw_find, Hfind. reflexivity.
Qed.

(** A throw unwinds the stack to the innermost enclosing [try] statement:
    the frames above it are dropped, and its frame receives the completion
    record of the throw; [unwind] then returns to its caller.  When no
    frame of the stack is a [try] statement, [unwind] does not return: the
    exception goes to the host. *)
Theorem unwind_throw_innermost_try hs I stack v label :
  stateStack I = Some stack ->
  match list_find (fun st => node_type (node st) = "TryStatement") stack with
  | Some (i, st) =>
      unwind hs THROW v label I =
        (Ret tt,
         set_stateStack
           (Some (set_cv (Some (mkCv THROW v label)) st :: drop (S i) stack)) I)
  | None => exists ex, (unwind hs THROW v label I).1 = Throw ex
  end.
Proof.
  intros Hstack.
  pose proof (unwind_unfold hs I stack THROW v label ltac:(discriminate) Hstack) as E.
  rewrite unwind_loop_throw_find in E.
  destruct (list_find _ stack) as [[i st]|]; [rewrite E; reflexivity|].
  rewrite E. apply unwind_exhausted.
Qed.

Lemma unwind_throw_innermost_try_witness :
  stateStack I_in_try = Some stack_in_try /\
  stateStack (unwind scriptIsStrict THROW (Num (NInt 7)) None I_in_try).2
    = Some [set_cv (Some (mkCv THROW (Num (NInt 7)) None))
              (newState try_node (global I_empty));
            newState (Program e [try_node]) (global I_empty)].
Proof.
  split; [reflexivity|].
  pose proof (unwind_throw_innermost_try scriptIsStrict I_in_try stack_in_try
                (Num (NInt 7)) None eq_refl) as H.
  cbn in H. rewrite H. reflexivity.
Defined.

(** [throwException] never returns to its caller, and it leaves every
    object that existed with the properties it had: the error object that
    it makes is a new one. *)
Theorem throwException_never_returns hs A c msg I :
  handlesBounded I ->
  (exists ex, (@throwException hs A c msg I).1 = Throw ex) /\
  objectsKept I (@throwException hs A c msg I).2.
Proof.
  intros HB. split; [apply FrameProps.throwException_throws|].
  destruct (FrameProps.keeps_throwException_tied (fun _ => False) I HB hs A c msg I
              (FrameProps.Extends_refl _ I HB)) as [(_ & _ & H) _].
  intros h o Ho. apply (H h o Ho). tauto.
Qed.

Lemma throwException_never_returns_witness :
  handlesBounded I_empty /\
  exists ex,
    (@throwException scriptIsStrict Value (TYPE_ERROR (roots I_empty))
       (Some "x is not a function") I_empty).1 = Throw ex.
Proof.
  assert (HB : handlesBounded I_empty)
    by (apply FrameProps.handlesBounded_dec; vm_compute; reflexivity).
  split; [exact HB|].
  apply (throwException_never_returns scriptIsStrict Value _ _ I_empty HB).
Defined.

Lemma unwind_loop_return_find stack v label :
  unwind_loop stack RETURN v label =
    match list_find catchesReturn stack with
    | Some (i, st) =>
        (Handled,
         (if String.eqb (node_type (node st)) "TryStatement"
          then set_cv (Some (mkCv RETURN v label)) st
          else set_value v st) :: drop (S i) stack)
    | None => (Exhausted, [])
    end.
Proof.
  induction stack as [|st rest IH]; [reflexivity|].
  cbn [unwind_loop list_find]. cbv zeta.
  destruct (decide (catchesReturn st)) as [Hc|Hc].
  - cbn [fmap option_fmap option_map drop].
    destruct (String.eqb (node_type (node st)) "TryStatement") eqn:E; [reflexivity|].
    apply String.eqb_neq in E.
    destruct Hc as [Hc|[Hc|Hc]]; [contradiction| |]; rewrite Hc;
      cbn [String.eqb Ascii.eqb Bool.eqb orb andb];
      rewrite bool_decide_eq_true_2 by reflexivity; reflexivity.
  - unfold catchesReturn in Hc.
    assert (H1 : String.eqb (node_type (node st)) "TryStatement" = false)
      by (apply String.eqb_neq; tauto).
    assert (H2 : String.eqb (node_type (node st)) "CallExpression" = false)
      by (apply String.eqb_neq; tauto).
    assert (H3 : String.eqb (node_type (node st)) "NewExpression" = false)
      by (apply String.eqb_neq; tauto).
    rewrite H1, H2, H3. cbn [orb andb].
    rewrite (bool_decide_eq_false_2 (RETURN = BREAK)) by discriminate.
    rewrite (bool_decide_eq_false_2 (RETURN = CONTINUE)) by discriminate.
    cbn [andb]. rewrite IH.
    destruct (list_find catchesReturn rest) as [[i st']|]; reflexivity.
Qed.

(** A return unwinds the stack to the innermost frame that is a call (or a
    [new]) or a [try] statement, and drops the frames above it: a call
    frame receives the returned value, a [try] frame receives the
    completion record of the return, for its [finally] block.  With no
    such frame, [unwind] does not return. *)
Theorem unwind_return_innermost_call hs I stack v label :
  stateStack I = Some stack ->
  match list_find catchesReturn stack with
  | Some (i, st) =>
      unwind hs RETURN v label I =
        (Ret tt,
         set_stateStack
           (Some ((if String.eqb (node_type (node st)) "TryStatement"
                   then set_cv (Some (mkCv RETURN v label)) st
                   else set_value v st) :: drop (S i) stack)) I)
  | None => exists ex, (unwind hs RETURN v label I).1 = Throw ex
  end.
Proof.
  intros Hstack.
  pose proof (unwind_unfold hs I stack RETURN v label ltac:(discriminate) Hstack) as E.
  rewrite unwind_loop_return_find in E.
  destruct (list_find _ stack) as [[i st]|]; [rewrite E; reflexivity|].
  rewrite E. apply unwind_exhausted.
Qed.

Lemma unwind_return_innermost_call_witness :
  stateStack I_in_call = Some stack_in_call /\
  stateStack (unwind scriptIsStrict RETURN (Num (NInt 7)) None I_in_call).2
    = Some [set_value (Num (NInt 7)) (newState call_node (global I_empty));
            newState (Program e [statement call_node]) (global I_empty)].
Proof.
  split; [reflexivity|].
  pose proof (unwind_return_innermost_call scriptIsStrict I_in_call stack_in_call
                (Num (NInt 7)) None eq_refl) as H.
  cbn in H. rewrite H. reflexivity.
Defined.

End UnwindProps.
(** ** Reading through the prototype chain *)

Module LookupProps.
Import Interpreter Fixtures Logic.

Section Lookup.

Variable I : Interp.
Variables (h : handle) (l : list handle).
Hypothesis Hchain : ProtoChain I (Obj h) l.
Hypothesis HnotString : isa I (Obj h) (STRING (roots I)) = Ret false.

Lemma lookup_loop_object name :
  lookup_loop (S (chainFuel I)) I (Obj h) name = Ret (firstWith I name l).
Proof.
  apply ObjectProps.lookup_loop_chain; [exact Hchain|].
  pose proof (ObjectProps.Chain_length _ _ _ _ _ Hchain). unfold chainFuel. lia.
Qed.

Lemma hasProperty_object name :
  hasProperty I (Obj h) (Str name) = Ret (bool_decide (is_Some (firstWith I name l))).
Proof.
  unfold hasProperty. cbn [isObject negb String_ String_prim obind].
  rewrite HnotString. cbn [obind]. rewrite andb_false_r.
  rewrite lookup_loop_object. reflexivity.
Qed.

Lemma getProperty_object hs name :
  (forall o g, firstWith I name l = Some o ->
               accessor (getter o) name = Some g -> is_Some (objectOf I g)) ->
  exists I',
    getProperty hs (Obj h) (Str name) I =
      (Ret match firstWith I name l with
           | None => Undefined
           | Some o =>
               match accessor (getter o) name with
               | Some g => g
               | None => readProp o name
               end
           end, I') /\
    objectsKept I I' /\
    match firstWith I name l with
    | Some o =>
        match accessor (getter o) name with
        | Some g =>
            exists hg og, g = Obj hg /\ heap I !! hg = Some og /\
              I' = set_heap <[hg := set_isGetter true og]> I /\
              isGetter <$> heap I' !! hg = Some true
        | None => I' = I
        end
    | None => I' = I
    end.
Proof.
  intros Hg. unfold getProperty, Body.getProperty.
  unfold mbind at 1, M_bind. cbn [lift String_ String_prim].
  assert (Hspecial : forall k : option Value -> M Value,
    ((if String.eqb name "length" then
        isString ← lift (fun I => isa I (Obj h) (STRING (roots I)));
        if (isString : bool)
        then l ← lift (fun I => String_length I (Obj h));
             mret (Some (Num (NInt l)))
        else mret None
      else if charCode0_lt_0x40 name then
        isString ← lift (fun I => isa I (Obj h) (STRING (roots I)));
        if (isString : bool) then
          match legalArrayIndex name with
          | Some n =>
              s ← lift (fun I => String_ I (Obj h));
              if n <? Z.of_nat (String.length s)
              then mret (Some (Str (String.substring (Z.to_nat n) 1 s)))
              else mret None
          | None => mret None
          end
        else mret None
      else mret None) ≫= k) I = k None I).
  { intros k. unfold mbind, M_bind.
    destruct (String.eqb name "length"); [cbn [lift]; rewrite HnotString; reflexivity|].
    destruct (charCode0_lt_0x40 name); [cbn [lift]; rewrite HnotString; reflexivity|].
    reflexivity. }
  rewrite Hspecial. unfold mbind at 1, M_bind. cbn [lift].
  rewrite lookup_loop_object.
  destruct (firstWith I name l) as [o|] eqn:Hfirst.
  2:{ eexists. split; [reflexivity|]. split; [|reflexivity]. intros x ox Hx. exists ox.
      split; [exact Hx|apply FrameProps.sameShape_refl]. }
  destruct (accessor (getter o) name) as [g|] eqn:Hacc.
  2:{ eexists. split; [reflexivity|]. split; [|reflexivity]. intros x ox Hx. exists ox.
      split; [exact Hx|apply FrameProps.sameShape_refl]. }
  destruct (Hg o g eq_refl Hacc) as [og Hog].
  destruct g as [| | | | |hg| | |]; try discriminate Hog.
  cbn [objectOf] in Hog.
  unfold mbind, M_bind, updObject. rewrite Hog.
  eexists. split; [reflexivity|]. split.
  - intros x ox Hx. cbn. destruct (decide (hg = x)) as [->|Hne].
    + rewrite lookup_insert_eq. rewrite Hog in Hx. injection Hx as <-.
      eexists. split; [reflexivity|]. exists true. reflexivity.
    + rewrite lookup_insert_ne by exact Hne. exists ox.
      split; [exact Hx|apply FrameProps.sameShape_refl].
  - exists hg, og. split; [reflexivity|]. split; [exact Hog|].
    split; [reflexivity|]. cbn [heap set_heap]. rewrite lookup_insert_eq.
    reflexivity.
Qed.

End Lookup.

(** [hasProperty] counts inherited properties: on an object that is not a
    String, it is [true] exactly when an object of the prototype chain,
    the object itself included, has the name in its property table. *)
Theorem hasProperty_inherited I h l name :
  ProtoChain I (Obj h) l ->
  isa I (Obj h) (STRING (roots I)) = Ret false ->
  hasProperty I (Obj h) (Str name)
    = Ret (bool_decide (is_Some (firstWith I name l))) /\
  (is_Some (firstWith I name l) <->
   exists x o, x ∈ l /\ heap I !! x = Some o /\ inProps name o = true).
Proof.
  intros Hchain Hns. split; [apply (hasProperty_object I h l Hchain Hns)|].
  clear Hns. remember (Obj h) as v eqn:Ev. clear Ev h.
  induction Hchain as [v Hs|x o l Hs Ho Hc IH]; cbn [firstWith].
  - split; [intros [? [=]]|]. intros (x & o & Hx & _). inversion Hx.
  - rewrite Ho. destruct (inProps name o) eqn:Hin.
    + split; [|eauto]. intros _. exists x, o. split; [left|]; auto.
    + rewrite IH. split.
      * intros (y & oy & Hy & Hoy & Hiny). exists y, oy. split; [right; exact Hy|auto].
      * intros (y & oy & Hy & Hoy & Hiny).
        apply elem_of_cons in Hy as [->|Hy]; [congruence|eauto].
Qed.

Lemma hasProperty_inherited_witness :
  hasProperty I_array the_array (Str "constructor") = Ret true /\
  hasProperty I_array the_array (Str "nothing") = Ret false.
Proof.
  assert (Hl : ProtoChain I_array (Obj 36%nat) [36%nat; 7%nat; 1%nat]).
  { eapply chain_step; [reflexivity|vm_compute; reflexivity|].
    eapply (chain_step _ _ _ 7%nat); [reflexivity|vm_compute; reflexivity|].
    eapply (chain_step _ _ _ 1%nat); [reflexivity|vm_compute; reflexivity|].
    apply chain_end. vm_compute. reflexivity. }
  assert (Hns : isa I_array (Obj 36%nat) (STRING (roots I_array)) = Ret false)
    by (vm_compute; reflexivity).
  split.
  - destruct (hasProperty_inherited I_array 36%nat [36%nat; 7%nat; 1%nat]
                "constructor" Hl Hns) as [E _].
    change the_array with (Obj 36%nat). rewrite E. vm_compute. reflexivity.
  - destruct (hasProperty_inherited I_array 36%nat [36%nat; 7%nat; 1%nat]
                "nothing" Hl Hns) as [E _].
    change the_array with (Obj 36%nat). rewrite E. vm_compute. reflexivity.
Defined.

(** [getProperty] on an object that is not a String reads the first object
    of the prototype chain that has the name: when that object has a
    getter for the name, [getProperty] returns the getter and sets its
    flag [isGetter], and this is all that it changes; otherwise it returns
    the value of the slot, and [undefined] when no object of the chain has
    the name, and changes nothing.  It changes no property of any object. *)
Theorem getProperty_first_in_chain hs I h l name :
  ProtoChain I (Obj h) l ->
  isa I (Obj h) (STRING (roots I)) = Ret false ->
  (forall o g, firstWith I name l = Some o ->
               accessor (getter o) name = Some g -> is_Some (objectOf I g)) ->
  exists I',
    getProperty hs (Obj h) (Str name) I =
      (Ret match firstWith I name l with
           | None => Undefined
           | Some o =>
               match accessor (getter o) name with
               | Some g => g
               | None => readProp o name
               end
           end, I') /\
    objectsKept I I' /\
    match firstWith I name l with
    | Some o =>
        match accessor (getter o) name with
        | Some g =>
            exists hg og, g = Obj hg /\ heap I !! hg = Some og /\
              I' = set_heap <[hg := set_isGetter true og]> I /\
              isGetter <$> heap I' !! hg = Some true
        | None => I' = I
        end
    | None => I' = I
    end.
Proof. intros Hchain Hns. apply (getProperty_object I h l Hchain Hns). Qed.

Lemma getProperty_first_in_chain_witness :
  getProperty scriptIsStrict (Obj 0%nat) (Str "NaN") I_empty
    = (Ret (Num NNaN), I_empty) /\
  OBJECT (roots I_getter) = Obj 4%nat /\
  exists I',
    getProperty scriptIsStrict (Obj 0%nat) (Str "first") I_getter
      = (Ret (Obj 4%nat), I') /\
    isGetter <$> heap I_getter !! 4%nat = Some false /\
    isGetter <$> heap I' !! 4%nat = Some true.
Proof.
  split; [|split; [vm_compute; reflexivity|]].
  - assert (Hl : ProtoChain I_empty (Obj 0%nat) [0%nat; 1%nat]).
    { eapply chain_step; [reflexivity|vm_compute; reflexivity|].
      eapply (chain_step _ _ _ 1%nat); [reflexivity|vm_compute; reflexivity|].
      apply chain_end. vm_compute. reflexivity. }
    assert (Hns : isa I_empty (Obj 0%nat) (STRING (roots I_empty)) = Ret false)
      by (vm_compute; reflexivity).
    destruct (firstWith I_empty "NaN" [0%nat; 1%nat]) as [o|] eqn:Ef;
      [|vm_compute in Ef; discriminate Ef].
    assert (Ha : accessor (getter o) "NaN" = None)
      by (vm_compute in Ef; injection Ef as <-; vm_compute; reflexivity).
    assert (Hv : readProp o "NaN" = Num NNaN)
      by (vm_compute in Ef; injection Ef as <-; vm_compute; reflexivity).
    assert (Hg : forall o g, firstWith I_empty "NaN" [0%nat; 1%nat] = Some o ->
                 accessor (getter o) "NaN" = Some g -> is_Some (objectOf I_empty g)).
    { intros o' g Hf Ha'. rewrite Ef in Hf. injection Hf as <-.
      rewrite Ha in Ha'. discriminate Ha'. }
    destruct (getProperty_first_in_chain scriptIsStrict I_empty 0%nat [0%nat; 1%nat]
                "NaN" Hl Hns Hg) as (I' & E & _ & Hsame).
    rewrite Ef, Ha in E, Hsame. rewrite Hv in E. rewrite Hsame in E. exact E.
  - assert (Hl : ProtoChain I_getter (Obj 0%nat) [0%nat; 1%nat]).
    { eapply chain_step; [reflexivity|vm_compute; reflexivity|].
      eapply (chain_step _ _ _ 1%nat); [reflexivity|vm_compute; reflexivity|].
      apply chain_end. vm_compute. reflexivity. }
    assert (Hns : isa I_getter (Obj 0%nat) (STRING (roots I_getter)) = Ret false)
      by (vm_compute; reflexivity).
    destruct (firstWith I_getter "first" [0%nat; 1%nat]) as [o|] eqn:Ef;
      [|vm_compute in Ef; discriminate Ef].
    assert (Ha : accessor (getter o) "first" = Some (Obj 4%nat))
      by (vm_compute in Ef; injection Ef as <-; vm_compute; reflexivity).
    assert (Hg : forall o g, firstWith I_getter "first" [0%nat; 1%nat] = Some o ->
                 accessor (getter o) "first" = Some g -> is_Some (objectOf I_getter g)).
    { intros o' g Hf' Ha'. rewrite Ef in Hf'. injection Hf' as <-.
      rewrite Ha in Ha'. injection Ha' as <-. vm_compute. eexists. reflexivity. }
    destruct (getProperty_first_in_chain scriptIsStrict I_getter 0%nat [0%nat; 1%nat]
                "first" Hl Hns Hg) as (I' & E & _ & Hflag).
    rewrite Ef, Ha in E, Hflag.
    exists I'. split; [exact E|].
    split; [vm_compute; reflexivity|].
    destruct Hflag as (hg & og & Eg & _ & _ & Hflag).
    injection Eg as <-. exact Hflag.
Defined.

(** [isa(child, constructor)] on an object is [true] exactly when the
    prototype of the constructor is the object or one of the objects of
    its prototype chain. *)
Theorem isa_prototype_in_chain I h l c proto :
  ProtoChain I (Obj h) l ->
  truthy c = true ->
  prototypeOf I c = Ret proto ->
  isa I (Obj h) c = Ret (existsb (fun x => strict_equal (Obj x) proto) l).
Proof.
  intros Hchain Hc Hp. unfold isa. rewrite Hc. cbn [negb]. rewrite Hp. cbn [obind].
  inversion Hchain as [v Hs|x o l' Hs Ho Hc' E1 E2]; [discriminate Hs|]. subst.
  cbn [existsb]. destruct (strict_equal (Obj h) proto); [reflexivity|].
  cbn [orb getPrototype]. rewrite Ho. cbn [obind].
  apply ObjectProps.isa_loop_chain; [exact Hc'|].
  pose proof (ObjectProps.Chain_length _ _ _ _ _ Hc'). unfold chainFuel. lia.
Qed.

Lemma isa_prototype_in_chain_witness :
  isa I_empty (global I_empty) (OBJECT (roots I_empty)) = Ret true /\
  isa I_empty (global I_empty) (ARRAY (roots I_empty)) = Ret false.
Proof.
  assert (Hl : ProtoChain I_empty (Obj 0%nat) [0%nat; 1%nat]).
  { eapply chain_step; [reflexivity|vm_compute; reflexivity|].
    eapply (chain_step _ _ _ 1%nat); [reflexivity|vm_compute; reflexivity|].
    apply chain_end. vm_compute. reflexivity. }
  split.
  - change (global I_empty) with (Obj 0%nat).
    rewrite (isa_prototype_in_chain I_empty 0%nat [0%nat; 1%nat]
               (OBJECT (roots I_empty)) (Obj 1%nat) Hl);
      vm_compute; reflexivity.
  - change (global I_empty) with (Obj 0%nat).
    destruct (prototypeOf I_empty (ARRAY (roots I_empty))) as [p|] eqn:Hp;
      [|vm_compute in Hp; discriminate Hp].
    rewrite (isa_prototype_in_chain I_empty 0%nat [0%nat; 1%nat]
               (ARRAY (roots I_empty)) p Hl); [|vm_compute; reflexivity|exact Hp].
    vm_compute in Hp. injection Hp as <-. vm_compute. reflexivity.
Defined.

End LookupProps.
(** ** Writes: what [setProperty] and [createObjectProto] leave alone *)

Module WriteProps.
Import Interpreter Fixtures Logic.

Lemma Extends_objectsKept except I I' :
  Extends except I I' ->
  forall h o, heap I !! h = Some o -> ~ except h ->
    exists o', heap I' !! h = Some o' /\ sameShape o o'.
Proof. intros (_ & _ & H). exact H. Qed.

(** [setProperty(obj, name, value, descriptor)] writes to [obj] only:
    whatever the name, the value, the descriptor and the outcome are, every
    other object that existed keeps its properties, accessors, class and
    prototype. *)
Theorem setProperty_writes_target_only hs obj name v d I :
  handlesBounded I ->
  forall h o, heap I !! h = Some o -> obj <> Obj h ->
    exists o', heap (setProperty hs obj name v d I).2 !! h = Some o' /\
               sameShape o o'.
Proof.
  intros HB h o Ho Hne.
  destruct (FrameProps.keeps_setProperty_tied (fun x => obj = Obj x) I HB hs obj name v d)
    with (I := I) as [H _].
  - intros x ->. left. reflexivity.
  - apply FrameProps.Extends_refl. exact HB.
  - apply (Extends_objectsKept _ _ _ H h o Ho). intros E. apply Hne. exact E.
Qed.

Lemma setProperty_writes_target_only_witness :
  handlesBounded I_array /\
  exists o',
    heap (setProperty scriptIsStrict the_array (Str "3") (Num (NInt 1)) None I_array).2
      !! 7%nat = Some o' /\
    properties <$> heap I_array !! 7%nat = Some (properties o').
Proof.
  assert (HB : handlesBounded I_array)
    by (apply FrameProps.handlesBounded_dec; vm_compute; reflexivity).
  split; [exact HB|].
  destruct (heap I_array !! 7%nat) as [o|] eqn:Ho; [|vm_compute in Ho; discriminate Ho].
  destruct (setProperty_writes_target_only scriptIsStrict the_array (Str "3")
              (Num (NInt 1)) None I_array HB 7%nat o Ho) as (o' & Ho' & [b ->]).
  { intros E. vm_compute in E. discriminate E. }
  eexists. split; [exact Ho'|]. reflexivity.
Defined.

Lemma createObjectProto_result hs p I r I' :
  createObjectProto hs p I = (Ret r, I') -> r = Obj (nextHandle I).
Proof.
  unfold createObjectProto, Body.createObjectProto.
  unfold mbind at 1, M_bind. cbn [alloc].
  set (I1 := alloc (newObject p) I).
  unfold alloc in I1. cbn in I1. subst I1.
  repeat (unfold mbind at 1, M_bind;
          match goal with
          | |- context [match ?m ?J with _ => _ end] =>
              destruct (m J) as [[?|?] ?]; [|intros [=]]
          end).
  intros [= <- _]. reflexivity.
Qed.

Lemma createObjectProto_extends hs p I :
  handlesBounded I ->
  Extends (fun _ => False) I (createObjectProto hs p I).2.
Proof.
  intros HB.
  destruct (FrameProps.keeps_tie (fun _ => False) I HB hs reentrancy) as [H1 H2].
  pose proof (FrameProps.keeps_createObjectProto (fun _ => False) I HB hs _ _ H1 H2 p I
                (FrameProps.Extends_refl _ I HB)) as [Hext _].
  exact Hext.
Qed.



Lemma neverReturns_throwError hs A cls msg : neverReturns (@Body.throwError (tie hs reentrancy).1 A cls msg).
Proof.
  intros I. unfold Body.throwError, mbind, M_bind. cbn [gets].
  apply FrameProps.tie_throws.
Qed.

(** Reading or writing a property of [null] or [undefined] never returns:
    [getProperty] and [setProperty] throw, and the objects that existed
    keep their properties. *)
Theorem property_of_null_throws hs obj name v d I :
  obj = Null \/ obj = Undefined ->
  handlesBounded I ->
  (exists ex, (getProperty hs obj name I).1 = Throw ex) /\
  (exists ex, (setProperty hs obj name v d I).1 = Throw ex) /\
  objectsKept I (getProperty hs obj name I).2 /\
  objectsKept I (setProperty hs obj name v d I).2.
Proof.
  intros Hobj HB.
  assert (Hget : neverReturns (getProperty hs obj name)).
  { unfold getProperty, Body.getProperty. apply UnwindProps.neverReturns_bind. intros s.
    destruct Hobj as [-> | ->]; apply UnwindProps.neverReturns_bind; intros ?;
      apply neverReturns_throwError. }
  assert (Hset : neverReturns (setProperty hs obj name v d)).
  { unfold setProperty, Body.setProperty. apply UnwindProps.neverReturns_bind. intros s.
    destruct Hobj as [-> | ->]; apply UnwindProps.neverReturns_bind; intros ?;
      apply neverReturns_throwError. }
  split; [apply Hget|]. split; [apply Hset|]. split.
  - destruct (FrameProps.keeps_getProperty_tied (fun _ => False) I HB hs obj name I
                (FrameProps.Extends_refl _ I HB)) as [H _].
    intros h o Ho. apply (Extends_objectsKept _ _ _ H h o Ho). tauto.
  - destruct (FrameProps.keeps_setProperty_tied (fun _ => False) I HB hs obj name v d)
      with (I := I) as [H _].
    + intros x E. destruct Hobj as [-> | ->]; discriminate E.
    + apply FrameProps.Extends_refl. exact HB.
    + intros h o Ho. apply (Extends_objectsKept _ _ _ H h o Ho). tauto.
Qed.

Lemma property_of_null_throws_witness :
  handlesBounded I_empty /\
  (exists ex, (getProperty scriptIsStrict Null (Str "x") I_empty).1 = Throw ex).
Proof.
  assert (HB : handlesBounded I_empty)
    by (apply FrameProps.handlesBounded_dec; vm_compute; reflexivity).
  split; [exact HB|].
  apply (property_of_null_throws scriptIsStrict Null (Str "x") Undefined None I_empty);
    [left; reflexivity|exact HB].
Defined.



End WriteProps.
(** ** Variables: [getValueFromScope] and [setValueToScope] *)

Module VariableProps.
Import Interpreter Fixtures Logic.

(** An assignment to a variable writes to the nearest enclosing scope that
    declares it: when [h] is the first of the scopes below the global scope
    whose property table has the name, and the slot is writable, the value
    goes to that slot of [h], no other object changes, and the call returns
    [undefined]. *)
Theorem assignment_writes_nearest_scope hs I st rest s0 l name v h o cur :
  stateStack I = Some (st :: rest) ->
  scope st = Obj s0 ->
  ScopeChain I (Obj s0) l ->
  firstScopeWith I name l = Some h ->
  heap I !! h = Some o ->
  properties o !! name = Some cur ->
  writable cur = true ->
  exists I',
    setValueToScope hs name v I = (Ret Undefined, I') /\
    (exists o', heap I' !! h = Some o' /\
                (pvalue <$> properties o' !! name) = Some v) /\
    (forall h', h' <> h -> heap I' !! h' = heap I !! h').
Proof.
  intros Hstack Hscope Hchain Hfirst Ho Hcur Hw.
  eexists. split.
  - apply (ScopeProps.setValueToScope_found hs I st rest s0 l Hstack Hscope Hchain
             name v h o cur Hfirst Ho Hcur Hw).
  - cbn [log set_heap heap]. split.
    + eexists. rewrite lookup_insert_eq. split; [reflexivity|].
      cbn [properties set_properties]. rewrite lookup_insert_eq. reflexivity.
    + intros h' Hne. apply lookup_insert_ne. congruence.
Qed.

Lemma assignment_writes_nearest_scope_witness :
  exists I',
    setValueToScope scriptIsStrict "a" (Num (NInt 1)) (entered body_var_a)
      = (Ret Undefined, I') /\
    (exists o', heap I' !! 36%nat = Some o' /\
                (pvalue <$> properties o' !! "a") = Some (Num (NInt 1))).
Proof.
  destruct (stateStack (entered body_var_a)) as [[|st rest]|] eqn:Hstack;
    [vm_compute in Hstack; discriminate Hstack| |vm_compute in Hstack; discriminate Hstack].
  assert (Hscope : scope st = Obj 36%nat)
    by (vm_compute in Hstack; injection Hstack as <- _; reflexivity).
  destruct (heap (entered body_var_a) !! 36%nat) as [o|] eqn:Ho;
    [|vm_compute in Ho; discriminate Ho].
  assert (Hparent : parentScope o = Obj 0%nat)
    by (vm_compute in Ho; injection Ho as <-; reflexivity).
  assert (Hchain : ScopeChain (entered body_var_a) (Obj 36%nat) [36%nat]).
  { eapply chain_step; [vm_compute; reflexivity|exact Ho|].
    rewrite Hparent. apply chain_end. vm_compute. reflexivity. }
  pose proof Ho as Ho'. vm_compute in Ho'. injection Ho' as <-.
  edestruct (assignment_writes_nearest_scope scriptIsStrict (entered body_var_a) st rest
               36%nat [36%nat] "a" (Num (NInt 1)) 36%nat)
    as (I' & E & Hnew & _);
    [exact Hstack|exact Hscope|exact Hchain|vm_compute; reflexivity|exact Ho
    |vm_compute; reflexivity|reflexivity|].
  exists I'. split; [exact E|exact Hnew].
Defined.

(** In strict code, an assignment to a name that no scope declares and
    that the global object does not have, itself or by inheritance, is a
    guest ReferenceError: the call does not return, and it creates no
    binding: every object keeps the properties it had. *)
Theorem assignment_strict_undeclared_throws hs I st rest s0 l g pl name v :
  stateStack I = Some (st :: rest) ->
  scope st = Obj s0 ->
  ScopeChain I (Obj s0) l ->
  global I = Obj g ->
  ProtoChain I (Obj g) pl ->
  isa I (Obj g) (STRING (roots I)) = Ret false ->
  firstScopeWith I name l = None ->
  chainEnd I parentScope (Obj s0) l = Obj g ->
  firstWith I name pl = None ->
  scopeStrict I (Obj s0) = true ->
  handlesBounded I ->
  setValueToScope hs name v I =
    throwError hs REFERENCE_ERROR (name ++ " is not defined") I /\
  (exists ex, (setValueToScope hs name v I).1 = Throw ex) /\
  objectsKept I (setValueToScope hs name v I).2.
Proof.
  intros Hstack Hscope Hchain Hglobal Hproto Hns Hfirst Hend Hnone Hstrict HB.
  split.
  - apply (ScopeProps.setValueToScope_strict hs I st rest s0 l Hstack Hscope Hchain
             g pl Hglobal Hproto Hns); assumption.
  - destruct (ScopeProps.setValueToScope_strict_frame hs I st rest s0 l Hstack Hscope
                Hchain g pl Hglobal Hproto Hns name v Hfirst Hend Hnone Hstrict HB)
      as [Hthrow Hext].
    split; [exact Hthrow|]. intros h o Ho.
    apply (WriteProps.Extends_objectsKept _ _ _ Hext h o Ho). tauto.
Qed.

Lemma assignment_strict_undeclared_throws_witness :
  (exists ex,
     (setValueToScope scriptIsStrict "x" (Num (NInt 1)) (entered body_strict)).1
       = Throw ex) /\
  globalSlot
    (setValueToScope scriptIsStrict "x" (Num (NInt 1)) (entered body_strict)).2 "x"
    = None.
Proof.
  destruct (stateStack (entered body_strict)) as [[|st rest]|] eqn:Hstack;
    [vm_compute in Hstack; discriminate Hstack| |vm_compute in Hstack; discriminate Hstack].
  assert (Hscope : scope st = Obj 36%nat)
    by (vm_compute in Hstack; injection Hstack as <- _; reflexivity).
  destruct (heap (entered body_strict) !! 36%nat) as [o|] eqn:Ho;
    [|vm_compute in Ho; discriminate Ho].
  assert (Hparent : parentScope o = Obj 0%nat)
    by (vm_compute in Ho; injection Ho as <-; reflexivity).
  assert (Hchain : ScopeChain (entered body_strict) (Obj 36%nat) [36%nat]).
  { eapply chain_step; [vm_compute; reflexivity|exact Ho|].
    rewrite Hparent. apply chain_end. vm_compute. reflexivity. }
  assert (Hproto : ProtoChain (entered body_strict) (Obj 0%nat) [0%nat; 1%nat]).
  { eapply chain_step; [reflexivity|vm_compute; reflexivity|].
    eapply (chain_step _ _ _ 1%nat); [reflexivity|vm_compute; reflexivity|].
    apply chain_end. vm_compute. reflexivity. }
  destruct (assignment_strict_undeclared_throws scriptIsStrict (entered body_strict)
              st rest 36%nat [36%nat] 0%nat [0%nat; 1%nat] "x" (Num (NInt 1))
              Hstack Hscope Hchain) as (E & Hthrow & _);
    [vm_compute; reflexivity|exact Hproto|vm_compute; reflexivity|vm_compute; reflexivity
    |vm_compute; reflexivity|vm_compute; reflexivity|vm_compute; reflexivity
    |apply FrameProps.handlesBounded_dec; vm_compute; reflexivity|].
  split; [exact Hthrow|]. rewrite E. vm_compute. reflexivity.
Defined.

(** In non-strict code, an assignment to a name that no scope declares and
    that the global object does not have becomes a new property of the
    global object, writable, enumerable and configurable, when the global
    object is extensible, is not an array and has no accessor for the
    name. *)
Theorem assignment_creates_global hs I st rest s0 l g pl name v go :
  stateStack I = Some (st :: rest) ->
  scope st = Obj s0 ->
  ScopeChain I (Obj s0) l ->
  global I = Obj g ->
  ProtoChain I (Obj g) pl ->
  isa I (Obj g) (STRING (roots I)) = Ret false ->
  firstScopeWith I name l = None ->
  chainEnd I parentScope (Obj s0) l = Obj g ->
  firstWith I name pl = None ->
  scopeStrict I (Obj s0) = false ->
  heap I !! g = Some go ->
  String.eqb (class go) "Array" = false ->
  preventExtensions go = false ->
  accessor (setter go) name = None ->
  accessor (getter go) name = None ->
  v <> VALUE_IN_DESCRIPTOR ->
  exists I',
    setValueToScope hs name v I = (Ret Undefined, I') /\
    (exists go', heap I' !! g = Some go' /\ properties go' !! name = Some (plain v)) /\
    (forall h', h' <> g -> heap I' !! h' = heap I !! h').
Proof.
  intros Hstack Hscope Hchain Hglobal Hproto Hns Hfirst Hend Hnone Hstrict Hgo
         Hclass Hext Hset Hget Hv.
  eexists. split.
  - apply (ScopeProps.setValueToScope_implicit_global hs I st rest s0 l Hstack Hscope
             Hchain g pl Hglobal Hproto Hns name v go); assumption.
  - cbn [log set_heap heap]. split.
    + eexists. rewrite lookup_insert_eq. split; [reflexivity|].
      cbn [properties set_properties]. apply lookup_insert_eq.
    + intros h' Hne. apply lookup_insert_ne. congruence.
Qed.

Lemma assignment_creates_global_witness :
  exists I',
    setValueToScope scriptIsStrict "x" (Num (NInt 1)) (entered body_var_a)
      = (Ret Undefined, I') /\
    (exists go', heap I' !! 0%nat = Some go' /\
                 properties go' !! "x" = Some (plain (Num (NInt 1)))).
Proof.
  destruct (stateStack (entered body_var_a)) as [[|st rest]|] eqn:Hstack;
    [vm_compute in Hstack; discriminate Hstack| |vm_compute in Hstack; discriminate Hstack].
  assert (Hscope : scope st = Obj 36%nat)
    by (vm_compute in Hstack; injection Hstack as <- _; reflexivity).
  destruct (heap (entered body_var_a) !! 36%nat) as [o|] eqn:Ho;
    [|vm_compute in Ho; discriminate Ho].
  assert (Hparent : parentScope o = Obj 0%nat)
    by (vm_compute in Ho; injection Ho as <-; reflexivity).
  assert (Hchain : ScopeChain (entered body_var_a) (Obj 36%nat) [36%nat]).
  { eapply chain_step; [vm_compute; reflexivity|exact Ho|].
    rewrite Hparent. apply chain_end. vm_compute. reflexivity. }
  assert (Hproto : ProtoChain (entered body_var_a) (Obj 0%nat) [0%nat; 1%nat]).
  { eapply chain_step; [reflexivity|vm_compute; reflexivity|].
    eapply (chain_step _ _ _ 1%nat); [reflexivity|vm_compute; reflexivity|].
    apply chain_end. vm_compute. reflexivity. }
  destruct (heap (entered body_var_a) !! 0%nat) as [go|] eqn:Hgo;
    [|vm_compute in Hgo; discriminate Hgo].
  pose proof Hgo as Hgo'. vm_compute in Hgo'. injection Hgo' as <-.
  edestruct (assignment_creates_global scriptIsStrict (entered body_var_a)
               st rest 36%nat [36%nat] 0%nat [0%nat; 1%nat] "x" (Num (NInt 1)))
    as (I' & E & Hnew & _);
    [exact Hstack|exact Hscope|exact Hchain|vm_compute; reflexivity|exact Hproto
    |vm_compute; reflexivity|vm_compute; reflexivity|vm_compute; reflexivity
    |vm_compute; reflexivity|vm_compute; reflexivity|exact Hgo|reflexivity|reflexivity
    |reflexivity|reflexivity|discriminate|].
  exists I'. split; [exact E|exact Hnew].
Defined.

Lemma typeof_match {A} (op : string) (x y : A) :
  match op with
  | "typeof" => x
  | _ => y
  end = if String.eqb op "typeof" then x else y.
Proof.
  repeat (match goal with
          | |- match ?s with _ => _ end = _ =>
              destruct s as [|[[] [] [] [] [] [] [] []] ?]; try reflexivity
          end).
Qed.

(** Reading a variable takes the value from the nearest enclosing scope
    that declares it, and changes nothing. *)
Theorem variable_read_from_nearest_scope hs I st rest s0 l name h o :
  stateStack I = Some (st :: rest) ->
  scope st = Obj s0 ->
  ScopeChain I (Obj s0) l ->
  firstScopeWith I name l = Some h ->
  heap I !! h = Some o ->
  getValueFromScope hs name I = (Ret (readProp o name), I).
Proof.
  intros Hstack Hscope Hchain Hfirst Ho.
  unfold getValueFromScope, mbind, M_bind.
  rewrite (ScopeProps.getScope_top I st rest s0 Hstack Hscope). cbn [lift].
  rewrite (ScopeProps.scope_loop_top I s0 l Hchain), Hfirst.
  unfold getObject. cbn [objectOf]. rewrite Ho. reflexivity.
Qed.

Lemma variable_read_from_nearest_scope_witness :
  getValueFromScope scriptIsStrict "a" (entered body_var_a)
    = (Ret Undefined, entered body_var_a).
Proof.
  destruct (stateStack (entered body_var_a)) as [[|st rest]|] eqn:Hstack;
    [vm_compute in Hstack; discriminate Hstack| |vm_compute in Hstack; discriminate Hstack].
  assert (Hscope : scope st = Obj 36%nat)
    by (vm_compute in Hstack; injection Hstack as <- _; reflexivity).
  destruct (heap (entered body_var_a) !! 36%nat) as [o|] eqn:Ho;
    [|vm_compute in Ho; discriminate Ho].
  assert (Hparent : parentScope o = Obj 0%nat)
    by (vm_compute in Ho; injection Ho as <-; reflexivity).
  assert (Hchain : ScopeChain (entered body_var_a) (Obj 36%nat) [36%nat]).
  { eapply chain_step; [vm_compute; reflexivity|exact Ho|].
    rewrite Hparent. apply chain_end. vm_compute. reflexivity. }
  assert (Hval : readProp o "a" = Undefined)
    by (vm_compute in Ho; injection Ho as <-; reflexivity).
  rewrite <- Hval.
  apply (variable_read_from_nearest_scope scriptIsStrict (entered body_var_a) st rest
           36%nat [36%nat] "a" 36%nat o Hstack Hscope Hchain);
    [vm_compute; reflexivity|exact Ho].
Defined.

(** Reading a name that no scope declares and that the global object does
    not have is the guest ReferenceError "name is not defined", which does
    not return and leaves every object as it was, except under [typeof]:
    when the frame on top of the stack is a [typeof] expression, the read
    returns [undefined] and changes nothing. *)
Theorem variable_read_undeclared hs I st rest s0 l g pl name :
  stateStack I = Some (st :: rest) ->
  scope st = Obj s0 ->
  ScopeChain I (Obj s0) l ->
  global I = Obj g ->
  ProtoChain I (Obj g) pl ->
  isa I (Obj g) (STRING (roots I)) = Ret false ->
  firstScopeWith I name l = None ->
  chainEnd I parentScope (Obj s0) l = Obj g ->
  firstWith I name pl = None ->
  match node st with
  | UnaryExpression _ "typeof" _ =>
      getValueFromScope hs name I = (Ret Undefined, I)
  | _ =>
      getValueFromScope hs name I =
        throwError hs REFERENCE_ERROR (name ++ " is not defined") I /\
      (exists ex, (getValueFromScope hs name I).1 = Throw ex) /\
      (handlesBounded I -> objectsKept I (getValueFromScope hs name I).2)
  end.
Proof.
  intros Hstack Hscope Hchain Hglobal Hproto Hns Hfirst Hend Hnone.
  assert (E : getValueFromScope hs name I =
              match node st with
              | UnaryExpression _ "typeof" _ => mret Undefined
              | _ => throwError hs REFERENCE_ERROR (name ++ " is not defined")
              end I).
  { unfold getValueFromScope, mbind at 1 2, M_bind.
    rewrite (ScopeProps.getScope_top I st rest s0 Hstack Hscope). cbn [lift].
    rewrite (ScopeProps.scope_loop_top I s0 l Hchain), Hfirst, Hend.
    unfold mbind at 1 2, M_bind. cbn [gets]. rewrite Hglobal.
    cbn [strict_equal]. rewrite bool_decide_eq_true_2 by reflexivity. cbn [lift].
    rewrite (ScopeProps.hasProperty_global I g pl Hproto Hns name Hnone).
    unfold mbind at 1, M_bind, getStack. rewrite Hstack. reflexivity. }
  assert (Hthrow : (exists ex,
             (@throwError hs Value REFERENCE_ERROR (name ++ " is not defined") I).1
               = Throw ex) /\
           (handlesBounded I ->
            objectsKept I
              (@throwError hs Value REFERENCE_ERROR (name ++ " is not defined") I).2)).
  { split.
    - unfold throwError, mbind, M_bind. cbn [gets].
      apply FrameProps.throwException_throws.
    - intros HB.
      destruct (FrameProps.keeps_throwError_tied (fun _ => False) I HB hs Value
                  REFERENCE_ERROR (name ++ " is not defined") I
                  (FrameProps.Extends_refl _ I HB)) as [H _].
      intros h o Ho. apply (WriteProps.Extends_objectsKept _ _ _ H h o Ho). tauto. }
  destruct (node st); try (split; [exact E|rewrite E; exact Hthrow]).
  rewrite !typeof_match in *.
  match goal with |- context [String.eqb ?op "typeof"] =>
    destruct (String.eqb op "typeof");
      [exact E|split; [exact E|rewrite E; exact Hthrow]] end.
Qed.

Lemma variable_read_undeclared_witness :
  getValueFromScope scriptIsStrict "x"
    (set_stateStack
       (Some [newState (UnaryExpression e "typeof" (var "x")) (global I_empty)]) I_empty)
  = (Ret Undefined,
     set_stateStack
       (Some [newState (UnaryExpression e "typeof" (var "x")) (global I_empty)]) I_empty) /\
  getValueFromScope scriptIsStrict "x" I_empty
  = throwError scriptIsStrict REFERENCE_ERROR "x is not defined" I_empty.
Proof.
  split.
  - set (st := newState (UnaryExpression e "typeof" (var "x")) (global I_empty)).
    set (I := set_stateStack (Some [st]) I_empty).
    assert (Hproto : ProtoChain I (Obj 0%nat) [0%nat; 1%nat]).
    { eapply chain_step; [reflexivity|vm_compute; reflexivity|].
      eapply (chain_step _ _ _ 1%nat); [reflexivity|vm_compute; reflexivity|].
      apply chain_end. vm_compute. reflexivity. }
    assert (Hchain : ScopeChain I (Obj 0%nat) []).
    { apply chain_end. vm_compute. reflexivity. }
    apply (variable_read_undeclared scriptIsStrict I st [] 0%nat [] 0%nat
             [0%nat; 1%nat] "x");
      [reflexivity|vm_compute; reflexivity|exact Hchain|vm_compute; reflexivity
      |exact Hproto|vm_compute; reflexivity|reflexivity|reflexivity
      |vm_compute; reflexivity].
  - destruct (stateStack I_empty) as [[|st rest]|] eqn:Hstack;
      [vm_compute in Hstack; discriminate Hstack|
      |vm_compute in Hstack; discriminate Hstack].
    assert (Hnode : node st = Program e [])
      by (vm_compute in Hstack; injection Hstack as <- _; reflexivity).
    assert (Hsc : scope st = Obj 0%nat)
      by (vm_compute in Hstack; injection Hstack as <- _; reflexivity).
    assert (Hproto : ProtoChain I_empty (Obj 0%nat) [0%nat; 1%nat]).
    { eapply chain_step; [reflexivity|vm_compute; reflexivity|].
      eapply (chain_step _ _ _ 1%nat); [reflexivity|vm_compute; reflexivity|].
      apply chain_end. vm_compute. reflexivity. }
    assert (Hchain : ScopeChain I_empty (Obj 0%nat) []).
    { apply chain_end. vm_compute. reflexivity. }
    pose proof (variable_read_undeclared scriptIsStrict I_empty st rest 0%nat []
                  0%nat [0%nat; 1%nat] "x" Hstack Hsc Hchain) as H.
    rewrite Hnode in H.
    destruct H as [E _];
      [vm_compute; reflexivity|exact Hproto|vm_compute; reflexivity|reflexivity
      |reflexivity|vm_compute; reflexivity|].
    exact E.
Defined.

End VariableProps.
(** ** Array indexes and lengths *)

Module IndexProps.
Import Interpreter Fixtures Logic.

Lemma decimal_go_digit (d : N) s acc :
  (d < 10)%N ->
  decimal_go (String (pretty_N_char d) s) acc = decimal_go s (acc * 10 + Z.of_N d).
Proof.
  intros Hd.
  assert (H : (d = 0 \/ d = 1 \/ d = 2 \/ d = 3 \/ d = 4 \/ d = 5 \/ d = 6 \/
               d = 7 \/ d = 8 \/ d = 9)%N) by lia.
  repeat (destruct H as [->|H]; [reflexivity|]). subst d. reflexivity.
Qed.

Lemma decimal_go_pretty x : forall s, exists k,
  forall acc, decimal_go (pretty_N_go x s) acc = decimal_go s (acc * 10 ^ k + Z.of_N x)
              /\ 0 <= k.
Proof.
  induction (N.lt_wf_0 x) as [x _ IH]. intros s.
  destruct (decide (x = 0%N)) as [->|Hx].
  - exists 0. intros acc. rewrite pretty_N_go_0. split; [f_equal; lia|lia].
  - rewrite pretty_N_go_step by lia.
    destruct (IH (x `div` 10)%N ltac:(apply N.div_lt; lia)
                 (String (pretty_N_char (x `mod` 10)) s)) as [k Hk].
    exists (k + 1). intros acc. destruct (Hk acc) as [E Hk0]. split; [|lia].
    rewrite E, decimal_go_digit by (apply N.mod_lt; lia). f_equal.
    rewrite Z.pow_add_r by lia.
    pose proof (N.div_mod x 10 ltac:(lia)) as Hdm.
    apply (f_equal Z.of_N) in Hdm. rewrite N2Z.inj_add, N2Z.inj_mul in Hdm.
    change (Z.of_N 10) with 10 in Hdm. lia.
Qed.

Lemma decimal_pretty z : 0 <= z -> decimal (pretty z) = Some z.
Proof.
  intros Hz. destruct z as [|p|p]; [reflexivity| |lia].
  change (pretty (Z.pos p)) with (pretty_N_go (N.pos p) "").
  destruct (decimal_go_pretty (N.pos p) "") as [k Hk].
  destruct (Hk 0) as [E _].
  assert (Hne : pretty_N_go (N.pos p) "" <> "").
  { rewrite pretty_N_go_step by lia. intros Hc.
    destruct (decimal_go_pretty (N.pos p `div` 10)
                (String (pretty_N_char (N.pos p `mod` 10)) "")) as [k' Hk'].
    destruct (Hk' 0) as [E' _]. rewrite Hc in E'.
    rewrite decimal_go_digit in E' by (apply N.mod_lt; lia). cbn [decimal_go] in E'.
    injection E' as E'. pose proof (N.mod_lt (N.pos p) 10 ltac:(lia)).
    pose proof (N.div_mod (N.pos p) 10 ltac:(lia)) as Hdm.
    assert (0 <= 10 ^ k') by (apply Z.pow_nonneg; lia). lia. }
  unfold decimal. destruct (pretty_N_go (N.pos p) "") eqn:Es; [congruence|].
  rewrite E. cbn [decimal_go]. f_equal; lia.
Qed.

(** [legalArrayIndex] accepts exactly the decimal numerals of the integers
    from 0 to 2^32-2: a string for which it returns an index is the
    numeral of that index, and the numeral of every such integer is
    accepted. *)
Theorem legalArrayIndex_canonical x i :
  (legalArrayIndex x = Some i -> x = pretty i /\ 0 <= i <= 4294967294) /\
  (0 <= i <= 4294967294 -> legalArrayIndex (pretty i) = Some i).
Proof.
  split.
  - intros H. split; [|apply (ArrayProps.legalArrayIndex_range x i H)].
    unfold legalArrayIndex in H. destruct (decimal x) as [z|]; [|discriminate].
    cbv zeta in H. destruct (String.eqb _ x) eqn:E; [|discriminate].
    apply String.eqb_eq in E. destruct (_ =? _); [discriminate|].
    injection H as <-. symmetry. exact E.
  - intros Hi. unfold legalArrayIndex. rewrite decimal_pretty by lia. cbv zeta.
    rewrite Z.mod_small by lia. unfold String_uint32. rewrite String.eqb_refl.
    replace (i =? 4294967295) with false by (symmetry; apply Z.eqb_neq; lia).
    reflexivity.
Qed.

Lemma legalArrayIndex_canonical_witness :
  legalArrayIndex "4294967294" = Some 4294967294 /\ "12" = pretty 12.
Proof.
  destruct (legalArrayIndex_canonical "12" 12) as [H1 _].
  destruct (legalArrayIndex_canonical "4294967294" 4294967294) as [_ H2].
  split; [apply H2; lia|apply H1; reflexivity].
Defined.

(** [legalArrayLength] is the identity on the integers from 0 to 2^32-1
    and NaN on every other integer. *)
Theorem legalArrayLength_integers v z :
  ToNumber v = Some (NInt z) ->
  legalArrayLength v =
    Ret (if (0 <=? z) && (z <=? 4294967295) then Some z else None).
Proof.
  intros Hv. unfold legalArrayLength. rewrite Hv. cbv zeta. cbn [toUint32]. f_equal.
  destruct ((0 <=? z) && (z <=? 4294967295)) eqn:E.
  - apply andb_prop in E as [H1 H2]. apply Z.leb_le in H1, H2.
    rewrite Z.mod_small by lia. rewrite bool_decide_eq_true_2 by reflexivity.
    reflexivity.
  - rewrite bool_decide_eq_false_2; [reflexivity|]. intros [= Hm].
    pose proof (Z.mod_pos_bound z (2 ^ 32) ltac:(lia)) as Hb.
    apply andb_false_iff in E as [E|E]; [apply Z.leb_gt in E|apply Z.leb_gt in E]; lia.
Qed.

Lemma legalArrayLength_integers_witness :
  legalArrayLength (Str "7") = Ret (Some 7) /\
  legalArrayLength (Num (NInt (-1))) = Ret None /\
  legalArrayLength (Num (NInt 4294967296)) = Ret None.
Proof.
  split; [|split].
  - apply (legalArrayLength_integers (Str "7") 7). reflexivity.
  - apply (legalArrayLength_integers (Num (NInt (-1))) (-1)). reflexivity.
  - apply (legalArrayLength_integers (Num (NInt 4294967296)) 4294967296). reflexivity.
Defined.

End IndexProps.
(** ** The tokenizer: identifiers, integers and hexadecimal numbers *)

Module TokenProps.
Import Acorn.
Local Open Scope list_scope.

(** Every character that may start an identifier may continue one, and
    the decimal digits may continue an identifier without starting one. *)
Theorem identifier_start_is_identifier_char nonASCIIStart nonASCIIChars code :
  (isIdentifierStart nonASCIIStart (Some code) = true ->
   isIdentifierChar nonASCIIStart nonASCIIChars (Some code) = true) /\
  (isDigit code ->
   isIdentifierChar nonASCIIStart nonASCIIChars (Some code) = true /\
   isIdentifierStart nonASCIIStart (Some code) = false).
Proof.
  unfold isIdentifierStart, isIdentifierChar, nonASCIIidentifier, isDigit. split.
  - destruct (code <? 48) eqn:E1; destruct (code <? 58) eqn:E2;
      destruct (code <? 65) eqn:E3; destruct (code <? 91) eqn:E4;
      destruct (code <? 97) eqn:E5; destruct (code <? 123) eqn:E6;
      try reflexivity; try lia; try (intros H; exact H);
      try (intros H; apply Z.eqb_eq in H; lia).
    intros H. apply andb_prop in H as [-> ->]. reflexivity.
  - intros H.
    destruct (code <? 48) eqn:E1; [lia|]. destruct (code <? 58) eqn:E2; [|lia].
    destruct (code <? 65) eqn:E3; [|lia]. split; [reflexivity|].
    apply Z.eqb_neq. lia.
Qed.

Lemma identifier_start_is_identifier_char_witness :
  isIdentifierChar (fun _ => false) (fun _ => false) (Some 95) = true /\
  isIdentifierChar (fun _ => false) (fun _ => false) (Some 55) = true /\
  isIdentifierStart (fun _ => false) (Some 55) = false.
Proof.
  destruct (identifier_start_is_identifier_char (fun _ => false) (fun _ => false) 95)
    as [H1 _].
  destruct (identifier_start_is_identifier_char (fun _ => false) (fun _ => false) 55)
    as [_ H2].
  split; [apply H1; reflexivity|]. apply H2. unfold isDigit. lia.
Defined.

(** *** [readInt] *)

Lemma digitVal_nonneg c v : digitVal c = Some v -> 0 <= v.
Proof.
  unfold digitVal.
  destruct (97 <=? c) eqn:E1; [intros [= <-]; lia|].
  destruct (65 <=? c) eqn:E2; [intros [= <-]; lia|].
  destruct ((48 <=? c) && (c <=? 57)) eqn:E3; [|discriminate].
  intros [= <-]. lia.
Qed.

(** The integer of a run of digits is not below the one it starts from. *)
Lemma digitsValue_mono radix ds acc :
  Forall (isDigitBelow radix) ds -> 0 <= acc -> acc <= digitsValue radix ds acc.
Proof.
  intros Hds. revert acc. unfold digitsValue.
  induction Hds as [|c ds (v & Hv & Hlt) _ IH]; intros acc Hacc; cbn [fold_left].
  - lia.
  - rewrite Hv. cbn [from_option id]. pose proof (digitVal_nonneg c v Hv).
    assert (acc <= acc * radix + v) by nia.
    etransitivity; [eassumption|]. apply IH. lia.
Qed.

(** Up to 2^53 the total of [readInt] is exact. *)
Lemma mulAdd_exact t radix v :
  0 <= t -> 0 <= v < radix -> t * radix + v <= 2 ^ 53 ->
  mulAdd (Finite t) radix v = Finite (t * radix + v).
Proof.
  intros Ht Hv Hle. unfold mulAdd.
  rewrite AcornProps.toDouble_exact by nia.
  apply AcornProps.toDouble_exact. nia.
Qed.

(** The loop reads the whole run, whatever the total becomes. *)
Lemma readInt_loop_count radix ds rest cnt total :
  Forall (isDigitBelow radix) ds -> stops radix rest ->
  exists t, readInt_loop radix (ds ++ rest) None cnt total =
    ((cnt + length ds)%nat, t).
Proof.
  intros Hds Hstop. revert cnt total.
  induction Hds as [|c ds (v & Hv & Hlt) Hds IH]; intros cnt total; cbn [app length].
  - replace (cnt + 0)%nat with cnt by lia.
    destruct rest as [|c rest]; [eexists; reflexivity|].
    cbn [readInt_loop fmap option_fmap option_map].
    cbn [stops] in Hstop. destruct (digitVal c) as [v|]; [|eexists; reflexivity].
    destruct (radix <=? v) eqn:E; [eexists; reflexivity|apply Z.leb_gt in E; lia].
  - cbn [readInt_loop fmap option_fmap option_map]. rewrite Hv.
    destruct (radix <=? v) eqn:E; [apply Z.leb_le in E; lia|].
    destruct (IH (S cnt) (mulAdd total radix v)) as [t Ht].
    exists t. rewrite Ht. f_equal. lia.
Qed.

Lemma readInt_loop_run radix ds rest cnt total :
  Forall (isDigitBelow radix) ds -> stops radix rest ->
  0 <= total -> digitsValue radix ds total <= 2 ^ 53 ->
  readInt_loop radix (ds ++ rest) None cnt (Finite total) =
    ((cnt + length ds)%nat, Finite (digitsValue radix ds total)).
Proof.
  intros Hds Hstop. revert cnt total.
  induction Hds as [|c ds (v & Hv & Hlt) Hds IH]; intros cnt total Ht Hle;
    cbn [app length].
  - replace (cnt + 0)%nat with cnt by lia. cbn [digitsValue fold_left].
    destruct rest as [|c rest]; [reflexivity|].
    cbn [readInt_loop fmap option_fmap option_map].
    cbn [stops] in Hstop. destruct (digitVal c) as [v|]; [|reflexivity].
    destruct (radix <=? v) eqn:E; [reflexivity|apply Z.leb_gt in E; lia].
  - cbn [readInt_loop fmap option_fmap option_map]. rewrite Hv.
    destruct (radix <=? v) eqn:E; [apply Z.leb_le in E; lia|].
    pose proof (digitVal_nonneg c v Hv) as Hv0.
    assert (Hstep : digitsValue radix (c :: ds) total
                    = digitsValue radix ds (total * radix + v)).
    { unfold digitsValue. cbn [fold_left]. rewrite Hv. reflexivity. }
    rewrite Hstep in Hle |- *.
    pose proof (digitsValue_mono radix ds (total * radix + v) Hds ltac:(nia)) as Hm.
    rewrite mulAdd_exact by lia.
    rewrite IH by (try assumption; nia). f_equal. lia.
Qed.

Lemma readInt_loop_len radix ds rest l cnt total :
  Forall (isDigitBelow radix) ds -> (l <= length ds)%nat ->
  0 <= total -> digitsValue radix (firstn l ds) total <= 2 ^ 53 ->
  readInt_loop radix (ds ++ rest) (Some l) cnt (Finite total) =
    ((cnt + l)%nat, Finite (digitsValue radix (firstn l ds) total)).
Proof.
  intros Hds. revert l cnt total.
  induction Hds as [|c ds (v & Hv & Hlt) Hds IH]; intros l cnt total Hl Ht Hle.
  - cbn [length] in Hl. assert (l = 0%nat) as -> by lia.
    destruct rest; cbn; rewrite Nat.add_0_r; reflexivity.
  - destruct l as [|l]; [cbn; rewrite Nat.add_0_r; reflexivity|].
    cbn [app readInt_loop fmap option_fmap option_map Nat.pred firstn].
    rewrite Hv. destruct (radix <=? v) eqn:E; [apply Z.leb_le in E; lia|].
    pose proof (digitVal_nonneg c v Hv) as Hv0.
    assert (Hstep : digitsValue radix (c :: firstn l ds) total
                    = digitsValue radix (firstn l ds) (total * radix + v)).
    { unfold digitsValue. cbn [fold_left]. rewrite Hv. reflexivity. }
    cbn [firstn] in Hle. rewrite Hstep in Hle |- *.
    pose proof (digitsValue_mono radix (firstn l ds) (total * radix + v)
                  ltac:(apply Forall_take; exact Hds) ltac:(nia)) as Hm.
    rewrite mulAdd_exact by lia.
    rewrite IH by (cbn [length] in Hl; try assumption; try lia; nia).
    f_equal. lia.
Qed.

Lemma readInt_loop_len_count radix ds rest l cnt total :
  Forall (isDigitBelow radix) ds -> (l <= length ds)%nat ->
  exists t, readInt_loop radix (ds ++ rest) (Some l) cnt total = ((cnt + l)%nat, t).
Proof.
  intros Hds. revert l cnt total.
  induction Hds as [|c ds (v & Hv & Hlt) Hds IH]; intros l cnt total Hl.
  - cbn [length] in Hl. assert (l = 0%nat) as -> by lia.
    destruct rest; cbn; rewrite Nat.add_0_r; eexists; reflexivity.
  - destruct l as [|l]; [cbn; rewrite Nat.add_0_r; eexists; reflexivity|].
    cbn [app readInt_loop fmap option_fmap option_map Nat.pred].
    rewrite Hv. destruct (radix <=? v) eqn:E; [apply Z.leb_le in E; lia|].
    destruct (IH l (S cnt) (mulAdd total radix v)) as [t Ht];
      [cbn [length] in Hl; lia|].
    exists t. rewrite Ht. f_equal. lia.
Qed.

Lemma readInt_loop_short radix ds rest l cnt total :
  Forall (isDigitBelow radix) ds -> stops radix rest -> (length ds < l)%nat ->
  exists t, readInt_loop radix (ds ++ rest) (Some l) cnt total =
    ((cnt + length ds)%nat, t).
Proof.
  intros Hds Hstop. revert l cnt total.
  induction Hds as [|c ds (v & Hv & Hlt) Hds IH]; intros l cnt total Hl.
  - destruct l as [|l]; [cbn [length] in Hl; lia|]. cbn [app length].
    replace (cnt + 0)%nat with cnt by lia.
    destruct rest as [|c rest]; [eexists; reflexivity|].
    cbn [readInt_loop fmap option_fmap option_map].
    cbn [stops] in Hstop. destruct (digitVal c) as [v|]; [|eexists; reflexivity].
    destruct (radix <=? v) eqn:E; [eexists; reflexivity|apply Z.leb_gt in E; lia].
  - destruct l as [|l]; [cbn [length] in Hl; lia|].
    cbn [app readInt_loop fmap option_fmap option_map Nat.pred length].
    rewrite Hv. destruct (radix <=? v) eqn:E; [apply Z.leb_le in E; lia|].
    destruct (IH l (S cnt) (mulAdd total radix v)) as [t Ht];
      [cbn [length] in Hl; lia|].
    exists t. rewrite Ht. f_equal. lia.
Qed.

(** Whatever the length of the run, [readInt] without [len] ends after it,
    and returns [null] for the empty run only. *)
Lemma readInt_position radix pre ds rest :
  Forall (isDigitBelow radix) ds -> stops radix rest ->
  exists r, readInt (pre ++ ds ++ rest) radix None (length pre) =
              (r, (length pre + length ds)%nat) /\
            (r = None <-> ds = []).
Proof.
  intros Hds Hstop. unfold readInt. rewrite AcornProps.skipn_prefix.
  destruct (readInt_loop_count radix ds rest 0 (Finite 0) Hds Hstop) as [t ->].
  cbn [Nat.add orb]. destruct ds as [|d ds]; cbn [length Nat.eqb].
  - exists None. split; [reflexivity|]. split; reflexivity.
  - exists (Some t). split; [reflexivity|]. split; discriminate.
Qed.

Lemma readInt_whole_run radix pre ds rest :
  Forall (isDigitBelow radix) ds -> stops radix rest ->
  digitsValue radix ds 0 <= 2 ^ 53 ->
  readInt (pre ++ ds ++ rest) radix None (length pre) =
    (if decide (ds = []) then None else Some (Finite (digitsValue radix ds 0)),
     (length pre + length ds)%nat).
Proof.
  intros Hds Hstop Hle. unfold readInt. rewrite AcornProps.skipn_prefix.
  rewrite (readInt_loop_run radix ds rest 0 0 Hds Hstop) by (try assumption; lia).
  cbn [Nat.add orb]. destruct ds as [|d ds]; reflexivity.
Qed.

Lemma readInt_exact radix pre ds rest l :
  Forall (isDigitBelow radix) ds -> (0 < l <= length ds)%nat ->
  digitsValue radix (firstn l ds) 0 <= 2 ^ 53 ->
  readInt (pre ++ ds ++ rest) radix (Some l) (length pre) =
    (Some (Finite (digitsValue radix (firstn l ds) 0)), (length pre + l)%nat).
Proof.
  intros Hds Hl Hle. unfold readInt. rewrite AcornProps.skipn_prefix.
  rewrite (readInt_loop_len radix ds rest l 0 0 Hds) by (try assumption; lia).
  cbn [Nat.add]. rewrite Nat.eqb_refl. destruct l as [|l]; [lia|]. reflexivity.
Qed.

(** With [len], [readInt] reads [len] digits of a run that has them,
    whatever their value. *)
Lemma readInt_len_position radix pre ds rest l :
  Forall (isDigitBelow radix) ds -> (0 < l <= length ds)%nat ->
  exists t, readInt (pre ++ ds ++ rest) radix (Some l) (length pre) =
              (Some t, (length pre + l)%nat).
Proof.
  intros Hds Hl. unfold readInt. rewrite AcornProps.skipn_prefix.
  destruct (readInt_loop_len_count radix ds rest l 0 (Finite 0) Hds ltac:(lia))
    as [t ->].
  cbn [Nat.add]. rewrite Nat.eqb_refl. destruct l as [|l]; [lia|].
  exists t. reflexivity.
Qed.

Lemma readInt_short radix pre ds rest l :
  Forall (isDigitBelow radix) ds -> stops radix rest -> (length ds < l)%nat ->
  readInt (pre ++ ds ++ rest) radix (Some l) (length pre) =
    (None, (length pre + length ds)%nat).
Proof.
  intros Hds Hstop Hl. unfold readInt. rewrite AcornProps.skipn_prefix.
  destruct (readInt_loop_short radix ds rest l 0 (Finite 0) Hds Hstop Hl) as [t ->].
  cbn [Nat.add].
  replace (length ds =? l)%nat with false by (symmetry; apply Nat.eqb_neq; lia).
  cbn [negb]. rewrite orb_true_r. reflexivity.
Qed.

(** [readInt(radix, len)] on a run [ds] of digits below the radix.  Without
    [len] it reads the whole run when what follows stops it, and returns
    [null] for the empty run only; with [len] it reads [len] digits when
    the run has that many, and returns [null] when the run is shorter.  The
    number returned is the integer that the digits read denote, as long as
    this integer is at most 2^53: the total is a double, which the source
    rounds at every digit beyond that. *)
Theorem readInt_reads_run radix pre ds rest :
  Forall (isDigitBelow radix) ds ->
  (stops radix rest ->
   exists r, readInt (pre ++ ds ++ rest) radix None (length pre) =
               (r, (length pre + length ds)%nat) /\
             (r = None <-> ds = []) /\
             (ds <> [] -> digitsValue radix ds 0 <= 2 ^ 53 ->
              r = Some (Finite (digitsValue radix ds 0)))) /\
  (forall l, (0 < l <= length ds)%nat ->
   exists t, readInt (pre ++ ds ++ rest) radix (Some l) (length pre) =
               (Some t, (length pre + l)%nat) /\
             (digitsValue radix (firstn l ds) 0 <= 2 ^ 53 ->
              t = Finite (digitsValue radix (firstn l ds) 0))) /\
  (forall l, stops radix rest -> (length ds < l)%nat ->
   readInt (pre ++ ds ++ rest) radix (Some l) (length pre) =
     (None, (length pre + length ds)%nat)).
Proof.
  intros Hds. split; [|split].
  - intros Hstop.
    destruct (readInt_position radix pre ds rest Hds Hstop) as (r & E & Hnull).
    exists r. split; [exact E|]. split; [exact Hnull|].
    intros Hne Hle.
    rewrite (readInt_whole_run radix pre ds rest Hds Hstop Hle) in E.
    destruct (decide (ds = [])) as [|_]; [contradiction|].
    injection E as <-. reflexivity.
  - intros l Hl.
    destruct (readInt_len_position radix pre ds rest l Hds Hl) as [t E].
    exists t. split; [exact E|]. intros Hle.
    rewrite (readInt_exact radix pre ds rest l Hds Hl Hle) in E.
    injection E as <-. reflexivity.
  - intros l Hstop Hl. apply readInt_short; assumption.
Qed.

Lemma readInt_reads_run_witness :
  readInt (codes "x=0x1F;") 16 None 4 = (Some (Finite 31), 6%nat) /\
  readInt ([92; 117] ++ codes "12") 16 (Some 4%nat) 2 = (None, 4%nat).
Proof.
  assert (H1 : Forall (isDigitBelow 16) [49; 70]).
  { repeat constructor; eexists; (split; [reflexivity|lia]). }
  assert (H2 : Forall (isDigitBelow 16) [49; 50]).
  { repeat constructor; eexists; (split; [reflexivity|lia]). }
  split.
  - destruct (readInt_reads_run 16 (codes "x=0x") [49; 70] (codes ";") H1) as [H _].
    destruct H as (r & E & _ & Hr); [vm_compute; exact I|].
    rewrite (Hr ltac:(discriminate) ltac:(vm_compute; discriminate)) in E.
    exact E.
  - destruct (readInt_reads_run 16 [92; 117] [49; 50] [] H2) as (_ & _ & H).
    apply (H 4%nat); [exact I|cbn; lia].
Defined.

(** Beyond 2^53 the total is rounded: [0x20000000000001] is 2^53 + 1 and
    reads as 2^53. *)
Example readInt_rounds :
  readInt (codes "0x20000000000001") 16 None 2
  = (Some (Finite 9007199254740992), 16%nat).
Proof. vm_compute. reflexivity. Qed.

(** *** Hexadecimal numbers *)

Lemma isHexDigit_below c : isHexDigit c -> digitVal c = Some (hexVal c) /\ hexVal c < 16.
Proof.
  unfold isHexDigit, digitVal, hexVal. intros H.
  destruct (97 <=? c) eqn:E1; destruct (65 <=? c) eqn:E2;
    destruct (48 <=? c) eqn:E3; destruct (c <=? 57) eqn:E4;
    destruct (c <? 58) eqn:E5; destruct (c <? 71) eqn:E6;
    cbn [andb]; try lia; (split; [f_equal; lia|lia]).
Qed.

Lemma hexDigits_value ds acc :
  Forall isHexDigit ds ->
  Forall (isDigitBelow 16) ds /\ digitsValue 16 ds acc = hexValueOf ds acc.
Proof.
  intros H. revert acc. induction H as [|c ds Hc _ IH]; intros acc.
  - split; [constructor|reflexivity].
  - destruct (isHexDigit_below c Hc) as [Hv Hlt]. split.
    + constructor; [exists (hexVal c); auto|apply (IH acc)].
    + unfold digitsValue, hexValueOf. cbn [fold_left]. rewrite Hv. cbn [default].
      apply (IH (acc * 16 + hexVal c)).
Qed.

(** [readHexNumber] on [0x] followed by the hexadecimal digits [ds]: when
    there is no digit it raises "Expected hexadecimal number" just after
    the [x]; when a character that can start an identifier follows the
    digits it raises "Identifier directly after number" there; otherwise
    the token ends after the digits, and its value is the integer that
    they denote in base sixteen when this integer is at most 2^53 (the
    longer ones are rounded by [readInt]). *)
Theorem readHexNumber_digits nonASCII pre x ds rest :
  Forall isHexDigit ds -> stops 16 rest ->
  (ds = [] ->
   readHexNumber nonASCII (pre ++ 48 :: x :: ds ++ rest) (length pre) =
     Raise (length pre + 2)%nat "Expected hexadecimal number") /\
  (ds <> [] -> isIdentifierStart nonASCII (charCodeAt rest 0) = true ->
   readHexNumber nonASCII (pre ++ 48 :: x :: ds ++ rest) (length pre) =
     Raise (length pre + 2 + length ds)%nat "Identifier directly after number") /\
  (ds <> [] -> isIdentifierStart nonASCII (charCodeAt rest 0) = false ->
   (exists val,
      readHexNumber nonASCII (pre ++ 48 :: x :: ds ++ rest) (length pre) =
        Ok (val, (length pre + 2 + length ds)%nat)) /\
   (hexValueOf ds 0 <= 2 ^ 53 ->
    readHexNumber nonASCII (pre ++ 48 :: x :: ds ++ rest) (length pre) =
      Ok (NumInt (hexValueOf ds 0), (length pre + 2 + length ds)%nat))).
Proof.
  intros Hds Hstop. destruct (hexDigits_value ds 0 Hds) as [Hbelow Hval].
  unfold readHexNumber.
  change (pre ++ 48 :: x :: ds ++ rest) with (pre ++ [48; x] ++ ds ++ rest).
  rewrite app_assoc.
  replace (length pre + 2)%nat with (length (pre ++ [48; x]))
    by (rewrite length_app; reflexivity).
  destruct (readInt_position 16 (pre ++ [48; x]) ds rest Hbelow Hstop)
    as (r & E & Hnull).
  assert (Hat : charCodeAt ((pre ++ [48; x]) ++ ds ++ rest)
                  (length (pre ++ [48; x]) + length ds) = charCodeAt rest 0).
  { rewrite AcornProps.charCodeAt_prefix. apply AcornProps.charCodeAt_after. }
  split; [|split].
  - intros ->. rewrite E. destruct Hnull as [_ ->]; reflexivity.
  - intros Hne Hid. rewrite E.
    destruct r as [val|]; [|destruct Hnull as [H _]; destruct (Hne (H eq_refl))].
    rewrite Hat, Hid. reflexivity.
  - intros Hne Hid. split.
    + rewrite E.
      destruct r as [val|]; [|destruct Hnull as [H _]; destruct (Hne (H eq_refl))].
      rewrite Hat, Hid. eexists. reflexivity.
    + intros Hle.
      rewrite (readInt_whole_run 16 (pre ++ [48; x]) ds rest Hbelow Hstop)
        by (rewrite Hval; exact Hle).
      destruct (decide (ds = [])) as [|_]; [contradiction|].
      rewrite Hat, Hid, Hval. reflexivity.
Qed.

Lemma readHexNumber_digits_witness :
  readHexNumber (fun _ => false) (codes "0xff;") 0 = Ok (NumInt 255, 4%nat) /\
  readHexNumber (fun _ => false) (codes "0x;") 0
    = Raise 2 "Expected hexadecimal number" /\
  readHexNumber (fun _ => false) (codes "0x1g") 0
    = Raise 3 "Identifier directly after number".
Proof.
  split; [|split].
  - destruct (readHexNumber_digits (fun _ => false) [] 120 [102; 102] [59])
      as (_ & _ & H).
    + repeat constructor; unfold isHexDigit; lia.
    + vm_compute. exact I.
    + destruct (H ltac:(discriminate) eq_refl) as [_ H'].
      apply H'. vm_compute. discriminate.
  - destruct (readHexNumber_digits (fun _ => false) [] 120 [] [59]) as (H & _ & _).
    + constructor.
    + vm_compute. exact I.
    + apply H. reflexivity.
  - destruct (readHexNumber_digits (fun _ => false) [] 120 [49] [103]) as (_ & H & _).
    + repeat constructor; unfold isHexDigit; lia.
    + vm_compute. discriminate.
    + apply H; [discriminate|reflexivity].
Defined.

(** A hexadecimal literal above 2^53 is rounded as the source rounds it. *)
Example readHexNumber_rounds :
  readHexNumber (fun _ => false) (codes "0x20000000000001") 0
  = Ok (NumInt 9007199254740992, 16%nat).
Proof. vm_compute. reflexivity. Qed.

(** The integer of [n] hexadecimal digits is below 16^n. *)
Lemma hexValueOf_lt ds acc :
  Forall isHexDigit ds -> 0 <= acc ->
  0 <= hexValueOf ds acc < (acc + 1) * 16 ^ Z.of_nat (length ds).
Proof.
  intros Hds. revert acc. unfold hexValueOf.
  induction Hds as [|c ds Hc _ IH]; intros acc Hacc; cbn [fold_left length].
  - cbn. lia.
  - destruct (isHexDigit_below c Hc) as [Hv Hlt].
    pose proof (digitVal_nonneg c (hexVal c) Hv) as H0.
    specialize (IH (acc * 16 + hexVal c) ltac:(lia)).
    rewrite Nat2Z.inj_succ, Z.pow_succ_r by lia.
    assert (0 < 16 ^ Z.of_nat (length ds)) by (apply Z.pow_pos_nonneg; lia).
    nia.
Qed.

Lemma hexValueOf_13 ds :
  Forall isHexDigit ds -> (length ds <= 13)%nat -> hexValueOf ds 0 <= 2 ^ 53.
Proof.
  intros Hds Hl. pose proof (hexValueOf_lt ds 0 Hds ltac:(lia)) as H.
  assert (16 ^ Z.of_nat (length ds) <= 16 ^ 13)
    by (apply Z.pow_le_mono_r; lia).
  assert (16 ^ 13 <= 2 ^ 53) by (vm_compute; discriminate).
  lia.
Qed.

(** [readHexChar(len)], for the escapes [\x], [\u] and [\U]: exactly [len]
    hexadecimal digits are read and give the code of the character (the
    code is exact up to 2^53, which covers thirteen digits; the source
    calls [readHexChar] with 2, 4 and 8); fewer digits are a "Bad character
    escape sequence", raised at the start of the token. *)
Theorem readHexChar_exact pre ds rest len tokStart :
  Forall isHexDigit ds ->
  ((0 < len <= length ds)%nat ->
   exists n,
     readHexChar (pre ++ ds ++ rest) len tokStart (length pre) =
       Ok (n, (length pre + len)%nat) /\
     ((len <= 13)%nat \/ hexValueOf (firstn len ds) 0 <= 2 ^ 53 ->
      n = Finite (hexValueOf (firstn len ds) 0))) /\
  (stops 16 rest -> (length ds < len)%nat ->
   readHexChar (pre ++ ds ++ rest) len tokStart (length pre) =
     Raise tokStart "Bad character escape sequence").
Proof.
  intros Hds. destruct (hexDigits_value ds 0 Hds) as [Hbelow _].
  unfold readHexChar. split.
  - intros Hl.
    assert (Hf : Forall isHexDigit (firstn len ds)) by (apply Forall_take; exact Hds).
    destruct (hexDigits_value (firstn len ds) 0 Hf) as [_ Hval].
    destruct (readInt_len_position 16 pre ds rest len Hbelow Hl) as [t E].
    rewrite E. exists t. split; [reflexivity|]. intros Hb.
    assert (Hle : hexValueOf (firstn len ds) 0 <= 2 ^ 53).
    { destruct Hb as [Hb|Hb]; [|exact Hb]. apply hexValueOf_13; [exact Hf|].
      rewrite length_take. lia. }
    rewrite (readInt_exact 16 pre ds rest len Hbelow Hl) in E
      by (rewrite Hval; exact Hle).
    injection E as <-. rewrite Hval. reflexivity.
  - intros Hstop Hl. rewrite (readInt_short 16 pre ds rest len Hbelow Hstop Hl).
    reflexivity.
Qed.

Lemma readHexChar_exact_witness :
  readHexChar ([92; 117] ++ codes "0041;") 4 0 2 = Ok (Finite 65, 6%nat) /\
  readHexChar ([92; 117] ++ codes "41;") 4 0 2
    = Raise 0 "Bad character escape sequence".
Proof.
  split.
  - destruct (readHexChar_exact [92; 117] [48; 48; 52; 49] [59] 4 0) as [H _].
    + repeat constructor; unfold isHexDigit; lia.
    + destruct H as (n & E & Hn); [cbn; lia|].
      rewrite (Hn ltac:(left; lia)) in E. exact E.
  - destruct (readHexChar_exact [92; 117] [52; 49] [59] 4 0) as [_ H].
    + repeat constructor; unfold isHexDigit; lia.
    + apply H; [vm_compute; exact I|cbn; lia].
Defined.

(** *** Decimal integers *)

Lemma match_dot {A} (o : option Z) (x y : A) :
  (forall c, o = Some c -> c <> 46) ->
  match o with Some 46 => x | _ => y end = y.
Proof.
  intros H. destruct o as [c|]; [|reflexivity].
  destruct c as [|p|p]; try reflexivity.
  do 6 (destruct p as [p|p|]; try reflexivity).
  exfalso. apply (H 46); reflexivity.
Qed.

Lemma match_exponent {A} (o : option Z) (x y : A) :
  (forall c, o = Some c -> c <> 69 /\ c <> 101) ->
  match o with Some 69 | Some 101 => x | _ => y end = y.
Proof.
  intros H. destruct o as [c|]; [|reflexivity].
  destruct c as [|p|p]; try reflexivity.
  do 7 (destruct p as [p|p|]; try reflexivity);
    exfalso;
    first [destruct (H 69 eq_refl) as [? _]; congruence
          |destruct (H 101 eq_refl) as [_ ?]; congruence].
Qed.

Lemma digits_value radix ds acc :
  10 <= radix -> Forall isDigit ds ->
  Forall (isDigitBelow radix) ds /\ digitsValue radix ds acc = valueOf radix ds acc.
Proof.
  intros Hr H. revert acc. induction H as [|c ds Hc _ IH]; intros acc.
  - split; [constructor|reflexivity].
  - pose proof (AcornProps.digitVal_digit c Hc) as Hv. split.
    + constructor; [|apply (IH acc)]. exists (c - 48). unfold isDigit in Hc.
      split; [exact Hv|lia].
    + unfold digitsValue, valueOf. cbn [fold_left]. rewrite Hv. cbn [default].
      apply (IH (acc * radix + (c - 48))).
Qed.

(** The digits that [parseInt] reads, and their integer. *)
Lemma digitsPrefix_run radix ds rest cnt total :
  Forall (isDigitBelow radix) ds -> stops radix rest ->
  digitsPrefix radix (ds ++ rest) cnt total =
    ((cnt + length ds)%nat, digitsValue radix ds total).
Proof.
  intros Hds Hstop. revert cnt total.
  induction Hds as [|c ds (v & Hv & Hlt) Hds IH]; intros cnt total; cbn [app length].
  - replace (cnt + 0)%nat with cnt by lia. cbn [digitsValue fold_left].
    destruct rest as [|c rest]; [reflexivity|]. cbn [digitsPrefix].
    cbn [stops] in Hstop. destruct (digitVal c) as [v|]; [|reflexivity].
    destruct (radix <=? v) eqn:E; [reflexivity|apply Z.leb_gt in E; lia].
  - cbn [digitsPrefix]. rewrite Hv.
    destruct (radix <=? v) eqn:E; [apply Z.leb_le in E; lia|].
    rewrite IH. unfold digitsValue. cbn [fold_left]. rewrite Hv. cbn [default].
    f_equal. lia.
Qed.

(** [readNumber] on a decimal integer: a run [ds] of at most twenty digits
    that does not start with [0], or is [0] alone, followed by something
    else than a digit, a dot or an exponent.  When the next character can
    start an identifier, [readNumber] raises "Identifier directly after
    number" at that character; otherwise the token is the integer that the
    digits denote in base ten, as the host's [parseInt] returns it (the
    nearest double, which is the integer itself up to 2^53), in strict mode
    as in non-strict mode. *)
Theorem readNumber_decimal_integer nonASCII strict pre ds rest :
  ds <> [] -> Forall isDigit ds -> (length ds <= 20)%nat ->
  head ds <> Some 48 \/ length ds = 1%nat ->
  stops 10 rest ->
  (forall c, charCodeAt rest 0 = Some c -> c <> 46 /\ c <> 69 /\ c <> 101) ->
  readNumber nonASCII strict (pre ++ ds ++ rest) false (length pre) =
    if isIdentifierStart nonASCII (charCodeAt rest 0)
    then Raise (length pre + length ds)%nat "Identifier directly after number"
    else Ok (tokNum (toDouble (valueOf 10 ds 0)), (length pre + length ds)%nat).
Proof.
  intros Hne Hds _ Hhead Hstop Hnext.
  destruct (digits_value 10 ds 0 ltac:(lia) Hds) as [Hbelow Hval].
  unfold readNumber.
  destruct (readInt_position 10 pre ds rest Hbelow Hstop) as (r & -> & Hnull).
  destruct r as [r|]; [|destruct Hnull as [H _]; destruct (Hne (H eq_refl))].
  assert (Hat : charCodeAt (pre ++ ds ++ rest) (length pre + length ds)
                = charCodeAt rest 0).
  { rewrite AcornProps.charCodeAt_prefix. apply AcornProps.charCodeAt_after. }
  rewrite Hat.
  rewrite match_dot by (intros c Hc; apply (Hnext c Hc)).
  rewrite Hat.
  rewrite match_exponent by (intros c Hc; destruct (Hnext c Hc) as (_ & ? & ?); auto).
  rewrite Hat.
  destruct (isIdentifierStart nonASCII (charCodeAt rest 0)); [reflexivity|].
  unfold slice. rewrite AcornProps.skipn_prefix.
  replace (length pre + length ds - length pre)%nat with (length ds) by lia.
  rewrite firstn_app, Nat.sub_diag, firstn_all. cbn [firstn]. rewrite app_nil_r.
  assert (Hdec : negb match charCodeAt (pre ++ ds ++ rest) (length pre) with
                      | Some 48 => true
                      | _ => false
                      end || (length ds =? 1)%nat = true).
  { destruct Hhead as [Hh|Hl]; [|rewrite Hl; apply orb_true_r].
    replace (length pre) with (length pre + 0)%nat by lia.
    rewrite AcornProps.charCodeAt_prefix.
    destruct ds as [|d ds']; [contradiction|]. cbn [app charCodeAt nth_error].
    cbn [head] in Hh.
    assert (Hd : d <> 48) by congruence.
    destruct d as [|p|p]; try reflexivity.
    do 6 (destruct p as [p|p|]; try reflexivity). contradiction. }
  rewrite Hdec. unfold parseInt.
  pose proof (digitsPrefix_run 10 ds [] 0 0 Hbelow I) as E.
  rewrite app_nil_r in E. rewrite E. cbn [Nat.add].
  destruct ds as [|d ds']; [contradiction|]. cbn [length Nat.eqb].
  rewrite Hval. reflexivity.
Qed.

Lemma readNumber_decimal_integer_witness :
  readNumber (fun _ => false) true (codes "x=120;") false 2 = Ok (NumInt 120, 5%nat) /\
  readNumber (fun _ => false) false (codes "3in") false 0
    = Raise 1 "Identifier directly after number" /\
  readNumber (fun _ => false) false (codes "9007199254740993") false 0
    = Ok (NumInt 9007199254740992, 16%nat).
Proof.
  split; [|split].
  - apply (readNumber_decimal_integer (fun _ => false) true (codes "x=")
             [49; 50; 48] [59]).
    + discriminate.
    + repeat constructor; unfold isDigit; lia.
    + cbn. lia.
    + left. discriminate.
    + vm_compute. exact I.
    + intros c Hc. vm_compute in Hc. injection Hc as <-. lia.
  - apply (readNumber_decimal_integer (fun _ => false) false [] [51] (codes "in")).
    + discriminate.
    + repeat constructor; unfold isDigit; lia.
    + cbn. lia.
    + left. discriminate.
    + vm_compute. discriminate.
    + intros c Hc. vm_compute in Hc. injection Hc as <-. lia.
  - apply (readNumber_decimal_integer (fun _ => false) false []
             [57; 48; 48; 55; 49; 57; 57; 50; 53; 52; 55; 52; 48; 57; 57; 51] []).
    + discriminate.
    + repeat constructor; unfold isDigit; lia.
    + cbn. lia.
    + left. discriminate.
    + exact I.
    + intros c Hc. discriminate Hc.
Defined.

End TokenProps.
(** ** The step loop and the completions *)

Module StepProps.
Import Interpreter Fixtures Logic.

Section Engine.

Variable sf : string -> option StepFunction.

Lemma step_finished fuel I : finished I -> step sf (S fuel) I = (Ret false, I).
Proof.
  unfold finished. intros H. cbn [step]. unfold mbind, M_bind, getStack.
  destruct (stateStack I) as [[|st rest]|]; [reflexivity| |contradiction].
  destruct H as [-> ->]. reflexivity.
Qed.

Lemma step_false_finished fuel : forall I I',
  step sf fuel I = (Ret false, I') -> finished I'.
Proof.
  induction fuel as [|fuel IH]; intros I I'; [discriminate|].
  cbn [step]. unfold mbind at 1, M_bind, getStack.
  destruct (stateStack I) as [[|st rest]|] eqn:Hstack; [| |discriminate].
  - intros [= <-]. unfold finished. rewrite Hstack. exact Corelib.Init.Logic.I.
  - destruct (String.eqb (node_type (node st)) "Program" && truthy (fld "done" st))
      eqn:Hdone.
    + intros [= <-]. unfold finished. rewrite Hstack.
      apply andb_prop in Hdone as [H1 H2]. apply String.eqb_eq in H1. auto.
    + unfold mbind at 1, M_bind. cbn [gets]. destruct (paused_ I); [discriminate|].
      unfold mbind at 1, M_bind.
      match goal with |- context [eatStepError ?m I] =>
        destruct (eatStepError m I) as [[ns|ex] I1] end; [|discriminate].
      unfold mbind at 1, M_bind.
      match goal with |- context [match ?m I1 with _ => _ end] =>
        destruct (m I1) as [[[]|ex] I2] end; [|discriminate].
      destruct (no_end (node st)); [apply IH|discriminate].
Qed.

End Engine.

(** [step] returns [false] exactly on a finished program: on an
    interpreter whose stack is empty or whose top frame is the program's,
    marked done, it returns [false] and changes nothing; and whenever it
    returns [false], the interpreter it leaves is finished. *)
Theorem step_false_iff_finished sf fuel I :
  (finished I -> step sf (S fuel) I = (Ret false, I)) /\
  (forall I', step sf fuel I = (Ret false, I') -> finished I').
Proof.
  split; [apply step_finished|]. intros I'. apply step_false_finished.
Qed.

Lemma step_false_iff_finished_witness :
  finished
    (step (stepFunctions scriptIsStrict noNative noAsync) 10
       (stepN (stepFunctions scriptIsStrict noNative noAsync) 10 9
          (newInterpreter scriptIsStrict prog_var noInit))).2.
Proof.
  set (sf := stepFunctions scriptIsStrict noNative noAsync).
  set (I1 := stepN sf 10 9 (newInterpreter scriptIsStrict prog_var noInit)).
  destruct (step sf 10 I1) as [r I'] eqn:E.
  destruct (step_false_iff_finished sf 10 I1) as [_ H].
  assert (Hr : r = Ret false).
  { pose proof (f_equal fst E) as E1. cbn [fst] in E1. rewrite <- E1.
    vm_compute. reflexivity. }
  subst r. exact (H I' E).
Defined.

(** A [throw] statement of user code (its node has an [end] offset) under
    a [try]: the step that executes the statement, once its argument is
    evaluated, unwinds the stack to the innermost enclosing [try] frame,
    which receives the thrown value in its completion record; the guest
    exception does not reach the host, and [step] returns [true] with the
    stack in that state.  (On a node without [end], which is polyfill
    code, [step] goes on with the next step before it returns.) *)
Theorem throw_step_reaches_try hs natives asyncs fuel I st rest pos arg i t :
  stateStack I = Some (st :: rest) ->
  node st = ThrowStatement (Some (S pos)) arg ->
  truthy (fld "done_" st) = true ->
  paused_ I = false ->
  list_find (fun s => node_type (node s) = "TryStatement") (st :: rest) = Some (i, t) ->
  step (stepFunctions hs natives asyncs) (S fuel) I =
    (Ret true,
     set_stateStack
       (Some (set_cv (Some (mkCv THROW (value st) None)) t :: drop (S i) (st :: rest)))
       I).
Proof.
  intros Hstack Hnode Hdone Hpaused Hfind.
  pose proof (UnwindProps.unwind_throw_handled hs I (st :: rest) (value st) None i t
                Hstack Hfind) as Hunwind.
  cbn [step]. unfold mbind at 1, M_bind, getStack. rewrite Hstack.
  rewrite Hnode. cbn [node_type String.eqb Ascii.eqb Bool.eqb andb].
  unfold mbind at 1, M_bind. cbn [gets]. rewrite Hpaused.
  assert (Hsf : stepFunctions hs natives asyncs "ThrowStatement"
                = Some (stepThrowStatement hs)) by reflexivity.
  rewrite Hsf.
  assert (Hstep : stepThrowStatement hs st (ThrowStatement (Some (S pos)) arg) I =
                  (Throw STEP_ERROR,
                   set_stateStack
                     (Some (set_cv (Some (mkCv THROW (value st) None)) t
                            :: drop (S i) (st :: rest))) I)).
  { unfold stepThrowStatement. rewrite Hdone. cbn [negb].
    unfold throwException, Body.throwException.
    unfold mbind at 1, M_bind. cbn [mret M_ret].
    unfold mbind at 1, M_bind.
    change (Body.unwind (tie hs reentrancy).1 THROW (value st) None I)
      with (unwind hs THROW (value st) None I).
    rewrite Hunwind. reflexivity. }
  unfold mbind at 1, M_bind, eatStepError. rewrite Hstep.
  reflexivity.
Qed.

Lemma throw_step_reaches_try_witness :
  (step (stepFunctions scriptIsStrict noNative noAsync) 10 I_throwing).1 = Ret true /\
  stateStack (step (stepFunctions scriptIsStrict noNative noAsync) 10 I_throwing).2
    = Some [set_cv (Some (mkCv THROW (Num (NInt 7)) None))
              (newState try_node (global I_empty));
            newState (Program e [try_node]) (global I_empty)].
Proof.
  pose proof (throw_step_reaches_try scriptIsStrict noNative noAsync 9 I_throwing
                throwing_frame
                [newState try_node (global I_empty);
                 newState (Program e [try_node]) (global I_empty)]
                0%nat (num 7) 1%nat (newState try_node (global I_empty))
                eq_refl eq_refl eq_refl eq_refl eq_refl) as H.
  rewrite H. split; reflexivity.
Defined.

End StepProps.
(** ** The bridge between native and guest values *)

Module BridgeProps.
Import Interpreter Fixtures Logic.
Import FrameProps.

Section Frame.

Variable except : handle -> Prop.
Variable I0 : Interp.
Hypothesis HB0 : handlesBounded I0.
Variable hs : bool.

Local Notation "'Inv0'" := (Extends except I0).
Local Notation "'touch'" := (touchable except I0).

Lemma keeps_createObjectProto_tied p :
  keeps Inv0 (createObjectProto hs p) touch.
Proof.
  unfold createObjectProto. destruct (keeps_tie except I0 HB0 hs reentrancy) as [H1 H2].
  apply (keeps_createObjectProto except I0 HB0 hs _ _ H1 H2).
Qed.

Lemma keeps_nativeToPseudo depth : forall nh v,
  keeps Inv0 (nativeToPseudo hs depth nh v) touch.
Proof.
  induction depth as [|depth IH]; intros nh v; [apply keeps_throw|].
  cbn [nativeToPseudo].
  destruct v as [| |b|n|s|h]; try (apply keeps_ret; intros x E; discriminate E).
  - destruct (nobjs nh !! h) as [o|]; [|apply keeps_throw].
    destruct (n_isArray o).
    + eapply keeps_bind_True; [apply keeps_gets|]. intros ap.
      eapply keeps_bind; [apply keeps_createObjectProto_tied|]. intros pseudoObj Hp.
      eapply keeps_bind_True; [|intros ?; apply keeps_ret; exact Hp].
      generalize 0 as i. generalize (Z.to_nat (n_length o)) as count.
      induction count as [|count IHc]; intros i; [apply keeps_ret; exact I|].
      eapply keeps_bind_True; [|intros ?; apply IHc].
      destruct (bool_decide _); [|apply keeps_ret; exact I].
      eapply keeps_bind_True; [eapply keeps_weaken; [apply IH|auto]|]. intros w.
      eapply keeps_bind_True; [|intros ?; apply keeps_ret; exact I].
      apply (keeps_setProperty_tied except I0 HB0 hs). exact Hp.
    + eapply keeps_bind_True; [apply keeps_gets|]. intros op.
      eapply keeps_bind; [apply keeps_createObjectProto_tied|]. intros pseudoObj Hp.
      eapply keeps_bind_True; [|intros ?; apply keeps_ret; exact Hp].
      generalize (host_forin (S (size (nobjs nh))) nh h []) as keys.
      induction keys as [|key keys IHk]; [apply keeps_ret; exact I|].
      eapply keeps_bind_True; [eapply keeps_weaken; [apply IH|auto]|]. intros w.
      eapply keeps_bind_True; [|intros ?; apply IHk].
      apply (keeps_setProperty_tied except I0 HB0 hs). exact Hp.
Qed.

Lemma keeps_pseudoToNative depth : forall v cycles nh,
  keeps Inv0 (pseudoToNative hs depth v cycles nh) (fun _ => True).
Proof.
  induction depth as [|depth IH]; intros v cycles nh; [apply keeps_throw|].
  cbn [pseudoToNative].
  destruct v; try (apply keeps_ret; exact I); try apply keeps_throw.
  eapply keeps_bind_True; [apply keeps_lift|]. intros isRegExp.
  destruct isRegExp; [apply keeps_throw|].
  destruct (cyclesLookup cycles _); [apply keeps_ret; exact I|].
  eapply keeps_bind_True; [apply keeps_lift|]. intros isArr.
  destruct isArr.
  - destruct (nalloc newNArray nh) as [nativeObj nh1].
    eapply keeps_bind_True; [apply (keeps_getProperty_tied except I0 HB0 hs)|].
    intros len.
    eapply keeps_bind_True; [|intros ?; apply keeps_ret; exact I].
    generalize nh1 as nh2. generalize 0 as i.
    generalize (match ToNumber len with
                | Some (NInt l) => Z.to_nat l
                | _ => 0%nat
                end) as count.
    induction count as [|count IHc]; intros i nh2; [apply keeps_ret; exact I|].
    eapply keeps_bind_True; [apply keeps_lift|]. intros has.
    eapply keeps_bind_True; [|intros ?; apply IHc].
    destruct has; [|apply keeps_ret; exact I].
    eapply keeps_bind_True; [apply (keeps_getProperty_tied except I0 HB0 hs)|].
    intros el.
    eapply keeps_bind_True; [apply IH|]. intros [w nh3].
    destruct nativeObj; try apply keeps_throw. apply keeps_lift.
  - destruct (nalloc newNObject nh) as [nativeObj nh1].
    eapply keeps_bind_True; [apply keeps_getObject|]. intros o.
    eapply keeps_bind_True; [|intros ?; apply keeps_ret; exact I].
    generalize nh1 as nh2. generalize (enumerableKeys o) as keys.
    induction keys as [|[key val] keys IHk]; intros nh2; [apply keeps_ret; exact I|].
    eapply keeps_bind_True; [apply IH|]. intros [w nh3].
    eapply keeps_bind_True; [|intros ?; apply IHk].
    destruct nativeObj; try apply keeps_throw. apply keeps_lift.
Qed.

End Frame.

(** [nativeToPseudo] builds its result out of new objects: whatever the
    native value is, the guest objects that existed keep their properties,
    and an object that it returns is one that did not exist. *)
Theorem nativeToPseudo_allocates_only hs depth nh v I :
  handlesBounded I ->
  objectsKept I (nativeToPseudo hs depth nh v I).2 /\
  (forall h, (nativeToPseudo hs depth nh v I).1 = Ret (Obj h) -> heap I !! h = None).
Proof.
  intros HB.
  destruct (keeps_nativeToPseudo (fun _ => False) I HB hs depth nh v I
              (Extends_refl _ I HB)) as [Hext Htouch].
  split.
  - intros h o Ho. apply (WriteProps.Extends_objectsKept _ _ _ Hext h o Ho). tauto.
  - intros h Hr. destruct (Htouch (Obj h) Hr h eq_refl) as [[]|Hnew].
    destruct (heap I !! h) eqn:Hh; [|reflexivity].
    pose proof (HB h (mk_is_Some _ _ Hh)). lia.
Qed.

Lemma nativeToPseudo_allocates_only_witness :
  handlesBounded I_empty /\
  (nativeToPseudo scriptIsStrict 10 (build json_sample emptyNHeap).2
     (build json_sample emptyNHeap).1 I_empty).1 = Ret (Obj 36%nat) /\
  heap I_empty !! 36%nat = None.
Proof.
  assert (HB : handlesBounded I_empty)
    by (apply handlesBounded_dec; vm_compute; reflexivity).
  assert (Hr : (nativeToPseudo scriptIsStrict 10 (build json_sample emptyNHeap).2
                  (build json_sample emptyNHeap).1 I_empty).1 = Ret (Obj 36%nat))
    by (vm_compute; reflexivity).
  split; [exact HB|]. split; [exact Hr|].
  destruct (nativeToPseudo_allocates_only scriptIsStrict 10
              (build json_sample emptyNHeap).2 (build json_sample emptyNHeap).1
              I_empty HB) as [_ H].
  apply (H 36%nat Hr).
Defined.

(** [pseudoToNative] only reads the guest objects: whatever the value is,
    every guest object keeps its properties, accessors, class and
    prototype. *)
Theorem pseudoToNative_reads_only hs depth v cycles nh I :
  handlesBounded I ->
  objectsKept I (pseudoToNative hs depth v cycles nh I).2.
Proof.
  intros HB.
  destruct (keeps_pseudoToNative (fun _ => False) I HB hs depth v cycles nh I
              (Extends_refl _ I HB)) as [Hext _].
  intros h o Ho. apply (WriteProps.Extends_objectsKept _ _ _ Hext h o Ho). tauto.
Qed.

Lemma pseudoToNative_reads_only_witness :
  handlesBounded I_array /\
  objectsKept I_array
    (pseudoToNative scriptIsStrict 10 the_array [] emptyNHeap I_array).2.
Proof.
  assert (HB : handlesBounded I_array)
    by (apply handlesBounded_dec; vm_compute; reflexivity).
  split; [exact HB|].
  apply (pseudoToNative_reads_only scriptIsStrict 10 the_array [] emptyNHeap I_array HB).
Defined.

End BridgeProps.
(** ** Read-only properties and [delete] *)

Module ReadOnlyProps.
Import Interpreter Fixtures Logic.
Import ArrayProps.

Section ReadOnly.

Variable hs : bool.
Variable I : Interp.
Hypothesis HB : handlesBounded I.
Variables (h : handle) (o : Object) (name : string) (cur : Prop_).
Hypothesis Ho : heap I !! h = Some o.
Hypothesis Hcur : properties o !! name = Some cur.
Hypothesis Hro : writable cur = false.
Hypothesis Hclass : String.eqb (class o) "Array" = false.

Local Notation "'Kept'" := (Extends (fun _ => False) I).
Local Notation "'Here'" := (fun I' : Interp => I' = I).

Lemma Here_Kept I' : Here I' -> Kept I'.
Proof. intros ->. apply FrameProps.Extends_refl. exact HB. Qed.

Lemma holds_here_read {A} (m : M A) :
  reads m -> holds Kept Here m (fun a I' => I' = I /\ (m I).1 = Ret a).
Proof.
  intros Hr. eapply holds_conseq;
    [apply (holds_read Here m Hr Here_Kept)|auto|].
  intros a I' [-> E]. auto.
Qed.

Lemma holds_here_throwError {A} cls msg (Q : A -> Interp -> Prop) :
  holds Kept Here (@Body.throwError (tie hs reentrancy).1 A cls msg) Q.
Proof.
  intros I' ->. unfold Body.throwError, mbind, M_bind. cbn [gets].
  destruct (FrameProps.keeps_tie (fun _ => False) I HB hs reentrancy) as [H1 _].
  destruct (H1 A (cls (roots I)) (Some msg) I (FrameProps.Extends_refl _ I HB)) as [H _].
  destruct (FrameProps.tie_throws hs reentrancy A (cls (roots I)) (Some msg) I) as [ex E].
  destruct ((tie hs reentrancy).1 A (cls (roots I)) (Some msg) I) as [[a|ex'] I'];
    [discriminate E|exact H].
Qed.

Lemma holds_here_lift_throwError {A B} (f : Interp -> outcome B) cls
    (msg : B -> string) (Q : A -> Interp -> Prop) :
  holds Kept Here
    (x ← lift f; @Body.throwError (tie hs reentrancy).1 A cls (msg x)) Q.
Proof.
  eapply holds_bind with (Q := fun _ I' => I' = I).
  { eapply holds_conseq; [apply (holds_here_read _ (reads_lift f))|auto|].
    intros a I' [E _]. exact E. }
  intros x. apply holds_here_throwError.
Qed.

Lemma holds_readonly v :
  holds Kept Here (setProperty hs (Obj h) (Str name) v None) (fun _ I' => Kept I').
Proof.
  unfold setProperty, Body.setProperty.
  eapply holds_bind; [apply holds_here_read; apply reads_lift|]. intros name0.
  cbn [isObject negb]. cbv beta iota zeta.
  apply holds_assume with (phi := name0 = name).
  { intros I' [-> E]. cbn in E. congruence. }
  intros ->.
  eapply holds_bind.
  { eapply holds_conseq; [apply (holds_here_read _ reads_isStrict)|tauto|].
    intros a I' [E _]. exact E. }
  intros gs. cbv beta.
  eapply holds_bind.
  { eapply holds_conseq; [apply (holds_here_read _ (reads_lift _))|auto|].
    intros a I' [E _]. exact E. }
  intros isString. cbv beta.
  eapply holds_bind with (Q := fun _ I' => I' = I).
  { eapply holds_conseq; [apply holds_here_read|auto|intros a I' [E _]; exact E].
    repeat rstep. }
  intros readonlyChar. destruct readonlyChar.
  { destruct gs; [|apply holds_ret; apply Here_Kept].
    eapply holds_bind with (Q := fun _ I' => I' = I).
    { eapply holds_conseq; [apply (holds_here_read _ (reads_getObject _))|auto|].
      intros a I' [E _]. exact E. }
    intros o0. apply holds_here_lift_throwError. }
  eapply holds_bind; [apply (holds_here_read _ (reads_getObject _))|]. intros o1.
  cbv beta.
  apply holds_assume with (phi := o1 = o).
  { intros I' [-> E]. apply getObject_Ret in E. congruence. }
  intros ->. rewrite Hclass.
  eapply holds_bind.
  { apply holds_ret. intros I' [E _]. exact E. }
  intros stored. cbv beta.
  eapply holds_bind; [apply (holds_here_read _ (reads_getObject _))|]. intros o2.
  cbv beta.
  apply holds_assume with (phi := o2 = o).
  { intros I' [-> E]. apply getObject_Ret in E. congruence. }
  intros ->.
  assert (Hin : inProps name o = true).
  { unfold inProps. rewrite Hcur. apply bool_decide_eq_true_2. eauto. }
  rewrite Hin. cbn [negb]. rewrite andb_false_r.
  unfold Body.setProperty_assign.
  destruct (bool_decide _); [apply holds_throw; intros I' [E _]; apply Here_Kept, E|].
  eapply holds_bind.
  { eapply holds_conseq; [apply (holds_here_read _ (reads_lift _))|tauto|].
    intros a I' H. exact H. }
  intros defObj. cbv beta.
  apply holds_assume with (phi := defObj = Obj h).
  { intros I' [-> E]. cbn [lift fst] in E. cbn [Body.defObj_loop objectOf] in E.
    rewrite Ho, Hin in E. congruence. }
  intros ->.
  eapply holds_bind.
  { eapply holds_conseq; [apply (holds_here_read _ (reads_getObject _))|tauto|].
    intros a I' H. exact H. }
  intros d. cbv beta.
  apply holds_assume with (phi := d = o).
  { intros I' [-> E]. apply getObject_Ret in E. congruence. }
  intros ->.
  destruct (accessor (setter o) name);
    [apply holds_ret; intros I' [E _]; apply Here_Kept, E|].
  destruct (accessor (getter o) name).
  { destruct gs; [|apply holds_ret; intros I' [E _]; apply Here_Kept, E].
    eapply holds_conseq;
      [apply holds_here_lift_throwError|tauto|intros a I' H; exact H]. }
  eapply holds_bind.
  { eapply holds_conseq; [apply (holds_here_read _ (reads_getObject _))|tauto|].
    intros a I' H. exact H. }
  intros o3. cbv beta.
  apply holds_assume with (phi := o3 = o).
  { intros I' [-> E]. apply getObject_Ret in E. congruence. }
  intros ->.
  unfold hostAssign. rewrite Hcur, Hro.
  destruct (hs && gs); [|apply holds_ret; intros I' [E _]; apply Here_Kept, E].
  eapply holds_conseq;
      [apply holds_here_lift_throwError|tauto|intros a I' H; exact H].
Qed.

End ReadOnly.

(** An assignment to a property that the object holds in a read-only slot
    changes nothing: whatever the value and the outcome are (the call
    returns in non-strict code and may throw a TypeError in strict code),
    every object, this one included, keeps the properties it had.  (For an
    object that is not an array.) *)
Theorem readonly_property_unchanged hs I h o name cur v :
  handlesBounded I ->
  heap I !! h = Some o ->
  properties o !! name = Some cur ->
  writable cur = false ->
  String.eqb (class o) "Array" = false ->
  objectsKept I (setProperty hs (Obj h) (Str name) v None I).2.
Proof.
  intros HB Ho Hcur Hro Hclass.
  pose proof (holds_readonly hs I HB h o name cur Ho Hcur Hro Hclass v I eq_refl) as H.
  assert (Hext : Extends (fun _ => False) I
                   (setProperty hs (Obj h) (Str name) v None I).2).
  { destruct (setProperty hs (Obj h) (Str name) v None I) as [[a|ex] I']; exact H. }
  intros x ox Hx. apply (WriteProps.Extends_objectsKept _ _ _ Hext x ox Hx). tauto.
Qed.

Lemma readonly_property_unchanged_witness :
  handlesBounded I_empty /\
  exists o',
    heap (setProperty scriptIsStrict (global I_empty) (Str "NaN") (Num (NInt 1)) None
            I_empty).2 !! 0%nat = Some o' /\
    pvalue <$> properties o' !! "NaN" = Some (Num NNaN).
Proof.
  assert (HB : handlesBounded I_empty)
    by (apply FrameProps.handlesBounded_dec; vm_compute; reflexivity).
  split; [exact HB|].
  destruct (heap I_empty !! 0%nat) as [o|] eqn:Ho; [|vm_compute in Ho; discriminate Ho].
  assert (Hcur : properties o !! "NaN" = Some (mkProp (Num NNaN) false true true))
    by (vm_compute in Ho; injection Ho as <-; vm_compute; reflexivity).
  assert (Hclass : String.eqb (class o) "Array" = false)
    by (vm_compute in Ho; injection Ho as <-; reflexivity).
  destruct (readonly_property_unchanged scriptIsStrict I_empty 0%nat o "NaN" _
              (Num (NInt 1)) HB Ho Hcur eq_refl Hclass 0%nat o Ho) as (o' & Ho' & [b ->]).
  exists (set_isGetter b o). split; [exact Ho'|].
  cbn [properties set_isGetter]. rewrite Hcur. reflexivity.
Defined.

Lemma bind_at {A B} (m m' : M A) (k : A -> M B) I :
  m I = m' I -> (m ≫= k) I = (m' ≫= k) I.
Proof. intros E. unfold mbind, M_bind. rewrite E. reflexivity. Qed.

(** A step of [delete obj[name]], once the reference is evaluated, on an
    object [h]: a property that is absent or configurable is removed from
    the property table, and the expression is [true]; a property that is
    not configurable stays, and the expression is still [true] when the
    interpreter runs as non-strict host code, whereas in strict host code
    it is [false] in a non-strict guest scope and a thrown TypeError in a
    strict one. *)
Theorem delete_step hs I st parent rest e0 arg h name o :
  stateStack I = Some (st :: parent :: rest) ->
  truthy (fld "done_" st) = true ->
  value st = Components (Obj h) (Str name) ->
  heap I !! h = Some o ->
  let r := stepUnaryExpression hs st (UnaryExpression e0 "delete" arg) I in
  let removable :=
    match properties o !! name with
    | Some cur => configurable cur
    | None => true
    end in
  (removable = true ->
   r.1 = Ret None /\
   heap r.2 = <[h := set_properties (delete name (properties o)) o]> (heap I) /\
   stateStack r.2 = Some (set_value (Bool true) parent :: rest)) /\
  (removable = false -> hs = false ->
   r.1 = Ret None /\ heap r.2 = heap I /\
   stateStack r.2 = Some (set_value (Bool true) parent :: rest)) /\
  (removable = false -> hs = true -> scopeStrict I (scope st) = false ->
   r.1 = Ret None /\ heap r.2 = heap I /\
   stateStack r.2 = Some (set_value (Bool false) parent :: rest)) /\
  (removable = false -> hs = true -> scopeStrict I (scope st) = true ->
   exists ex, r.1 = Throw ex).
Proof.
  intros Hstack Hdone Hval Ho. cbv zeta.
  set (I1 := set_stateStack (Some (parent :: rest)) I).
  assert (E : stepUnaryExpression hs st (UnaryExpression e0 "delete" arg) I =
    (v ← match hostDelete (properties o) name with
         | Some ps =>
             updObject (Obj h) (set_properties ps);;
             modify (log (EvDelete h name));;
             mret (Bool true)
         | None =>
             if hs
             then if scopeStrict I (scope st)
                  then s ← lift (fun I => String_ I (Obj h));
                       throwError hs TYPE_ERROR
                         ("Cannot delete property '" ++ name ++ "' of '" ++ s ++ "'")
                  else mret (Bool false)
             else mret (Bool true)
         end;
     setTopValue v;;
     mret None) I1).
  { unfold stepUnaryExpression. rewrite Hdone. cbn [negb].
    unfold mbind at 1, M_bind, pop, mbind at 1, M_bind, getStack. rewrite Hstack.
    cbn [putStack modify tail]. fold I1.
    rewrite bool_decide_eq_false_2
      by (intros Hin; repeat (apply elem_of_cons in Hin as [Hin|Hin]; [discriminate Hin|]);
          inversion Hin).
    cbn [String.eqb Ascii.eqb Bool.eqb]. rewrite Hval.
    cbn [strict_equal]. rewrite bool_decide_eq_false_2 by discriminate.
    apply bind_at.
    unfold mbind at 1 2 3, M_bind. cbn [lift gets String_ String_prim objectOf].
    change (heap I1) with (heap I). rewrite Ho.
    change (scopeStrict I1 (scope st)) with (scopeStrict I (scope st)).
    reflexivity. }
  rewrite E. clear E. unfold hostDelete.
  assert (Htop : forall (v : Value) J, stateStack J = Some (parent :: rest) ->
            ((setTopValue v;; mret None) J : outcome (option State) * Interp) =
            (Ret None, set_stateStack (Some (set_value v parent :: rest)) J)).
  { intros v J HJ. unfold setTopValue, updTop, mbind, M_bind, getStack.
    rewrite HJ. reflexivity. }
  assert (Hdel : forall ps,
            ((v ← (updObject (Obj h) (set_properties ps);;
                   modify (log (EvDelete h name));;
                   mret (Bool true));
              setTopValue v;; mret None) I1 : outcome (option State) * Interp) =
            (Ret None,
             set_stateStack (Some (set_value (Bool true) parent :: rest))
               (log (EvDelete h name) (set_heap <[h := set_properties ps o]> I1)))).
  { intros ps. unfold mbind, M_bind, updObject, setTopValue, updTop, getStack.
    change (heap I1) with (heap I). rewrite Ho. reflexivity. }
  destruct (properties o !! name) as [cur|] eqn:Hcur.
  - destruct (configurable cur) eqn:Hc.
    + split; [intros _|split; [discriminate|split; [discriminate|discriminate]]].
      rewrite Hdel. cbn. auto.
    + split; [discriminate|]. split; [|split].
      * intros _ ->. unfold mbind at 1, M_bind. cbn [mret M_ret].
        rewrite Htop by reflexivity. cbn. auto.
      * intros _ -> Hs. rewrite Hs. unfold mbind at 1, M_bind. cbn [mret M_ret].
        rewrite Htop by reflexivity. cbn. auto.
      * intros _ -> Hs. rewrite Hs.
        apply UnwindProps.neverReturns_bind_l.
        intros J. unfold mbind at 1, M_bind. cbn [lift].
        destruct (String_ J (Obj h)) as [s|ex]; [|eexists; reflexivity].
        unfold throwError, mbind, M_bind. cbn [gets].
        apply FrameProps.throwException_throws.
  - split; [intros _|split; [discriminate|split; [discriminate|discriminate]]].
    rewrite Hdel. cbn. rewrite delete_id by exact Hcur. auto.
Qed.

Lemma delete_step_witness :
  (stepUnaryExpression scriptIsStrict (deleting I_array the_array "length")
     (UnaryExpression e "delete" (dot (var "a") "length")) I_deleting).1 = Ret None /\
  stateStack
    (stepUnaryExpression scriptIsStrict (deleting I_array the_array "length")
       (UnaryExpression e "delete" (dot (var "a") "length")) I_deleting).2
    = Some [set_value (Bool true) (newState (Program e []) (global I_array))] /\
  (exists o, heap I_deleting !! 36%nat = Some o /\
             configurable <$> properties o !! "length" = Some false).
Proof.
  destruct (heap I_deleting !! 36%nat) as [o|] eqn:Ho;
    [|vm_compute in Ho; discriminate Ho].
  assert (Hlen : configurable <$> properties o !! "length" = Some false)
    by (vm_compute in Ho; injection Ho as <-; vm_compute; reflexivity).
  destruct (delete_step scriptIsStrict I_deleting (deleting I_array the_array "length")
              (newState (Program e []) (global I_array)) [] e (dot (var "a") "length")
              36%nat "length" o eq_refl eq_refl) as (_ & H & _).
  { vm_compute. reflexivity. }
  { exact Ho. }
  destruct H as (H1 & _ & H3).
  - destruct (properties o !! "length") as [cur|]; [|discriminate Hlen].
    cbn in Hlen. congruence.
  - reflexivity.
  - split; [exact H1|]. split; [exact H3|]. exists o. auto.
Defined.

End ReadOnlyProps.
(** ** The scopes of [catch] and [with] *)

Module SpecialScopeProps.
Import Interpreter Fixtures Logic.

Lemma strict_sameShape o o' : sameShape o o' -> strict o' = strict o.
Proof. intros [b ->]. reflexivity. Qed.

Lemma createSpecialScope_new hs p po I sc I' :
  handlesBounded I ->
  heap I !! p = Some po ->
  (sc0 ← createObjectProto hs Null;
   updObject sc0 (set_parentScope (Obj p));;
   ps ← gets (fun I => scopeStrict I (Obj p));
   updObject sc0 (set_strict ps);;
   mret sc0) I = (Ret sc, I') ->
  exists o', sc = Obj (nextHandle I) /\ heap I' !! nextHandle I = Some o' /\
    parentScope o' = Obj p /\ strict o' = strict po /\
    heap I !! nextHandle I = None /\ objectsKept I I'.
Proof.
  intros HB Hp.
  assert (Hnone : heap I !! nextHandle I = None).
  { destruct (heap I !! nextHandle I) eqn:Hh; [|reflexivity].
    pose proof (HB _ (mk_is_Some _ _ Hh)). lia. }
  assert (Hne : p <> nextHandle I) by (intros ->; rewrite Hnone in Hp; discriminate Hp).
  pose proof (WriteProps.createObjectProto_extends hs Null I HB) as Hext.
  unfold mbind at 1, M_bind.
  destruct (createObjectProto hs Null I) as [[r|x] I1] eqn:E; [|intros [=]].
  cbn [snd] in Hext.
  pose proof (WriteProps.createObjectProto_result hs Null I r I1 E) as ->.
  destruct (WriteProps.Extends_objectsKept _ _ _ Hext p po Hp ltac:(tauto))
    as (po1 & Hp1 & Hshape).
  unfold mbind at 1, M_bind. unfold updObject at 1.
  destruct (heap I1 !! nextHandle I) as [o1|] eqn:Ho1; [|intros [=]].
  unfold mbind at 1, M_bind. unfold gets at 1.
  unfold mbind at 1, M_bind. unfold updObject at 1.
  cbn [heap set_heap]. rewrite lookup_insert_eq.
  unfold mret, M_ret. intros [= <- <-].
  eexists. split; [reflexivity|]. cbn [heap set_heap].
  rewrite lookup_insert_eq. split; [reflexivity|].
  split; [reflexivity|]. split.
  { cbn [strict set_strict]. unfold scopeStrict, objectOf. cbn [heap set_heap].
    rewrite lookup_insert_ne by (intros Eq; apply Hne; symmetry; exact Eq).
    rewrite Hp1. apply strict_sameShape. exact Hshape. }
  split; [exact Hnone|].
  intros h o Ho.
  assert (h <> nextHandle I) by (intros ->; rewrite Hnone in Ho; discriminate Ho).
  destruct (WriteProps.Extends_objectsKept _ _ _ Hext h o Ho ltac:(tauto))
    as (o' & Ho' & Hs).
  exists o'. split; [|exact Hs]. cbn [heap set_heap].
  rewrite !lookup_insert_ne by (intros Eq; congruence). exact Ho'.
Qed.

(** [createSpecialScope(parentScope, opt_scope)], which makes the scope of a
    [catch] clause and of a [with] statement.  Without a parent it throws
    the host error "parentScope required" and changes nothing.  With a
    parent scope, the scope it returns has this parent and the parent's
    strictness; without [opt_scope] it is a new object and the objects that
    existed keep their properties; with an object as [opt_scope] it is this
    object, with its properties, and no other object changes. *)
Theorem createSpecialScope_links hs p po opt I :
  handlesBounded I ->
  heap I !! p = Some po ->
  (forall parent, truthy parent = false ->
     createSpecialScope hs parent opt I =
       (Throw (HostError "Error" "parentScope required"), I)) /\
  (forall sc I', createSpecialScope hs (Obj p) opt I = (Ret sc, I') ->
     exists h o', sc = Obj h /\ heap I' !! h = Some o' /\
       parentScope o' = Obj p /\ strict o' = strict po /\
       match opt with
       | Some (Obj s) =>
           h = s /\
           (exists os, heap I !! s = Some os /\ properties o' = properties os /\
                       proto o' = proto os) /\
           forall h', h' <> s -> heap I' !! h' = heap I !! h'
       | _ => heap I !! h = None /\ objectsKept I I'
       end).
Proof.
  intros HB Hp. split.
  { intros parent Hfalsy. unfold createSpecialScope. rewrite Hfalsy. reflexivity. }
  intros sc I'. unfold createSpecialScope. cbn [truthy negb].
  assert (Hnew : forall sc I',
    (sc0 ← createObjectProto hs Null;
     updObject sc0 (set_parentScope (Obj p));;
     ps ← gets (fun I => scopeStrict I (Obj p));
     updObject sc0 (set_strict ps);;
     mret sc0) I = (Ret sc, I') ->
    exists h o', sc = Obj h /\ heap I' !! h = Some o' /\
      parentScope o' = Obj p /\ strict o' = strict po /\
      heap I !! h = None /\ objectsKept I I').
  { intros sc1 I1 E.
    destruct (createSpecialScope_new hs p po I sc1 I1 HB Hp E) as (o' & H).
    exists (nextHandle I), o'. exact H. }
  destruct opt as [s|]; [|apply Hnew].
  destruct (truthy s) eqn:Hs; [|destruct s; try apply Hnew; discriminate Hs].
  destruct s as [| |b|n|str|s| | |c1 c2];
    try (unfold mbind at 1, M_bind; unfold mret at 1, M_ret;
         unfold mbind at 1, M_bind; unfold updObject at 1; intros [=]; fail).
  unfold mbind at 1, M_bind. unfold mret at 1, M_ret.
  unfold mbind at 1, M_bind. unfold updObject at 1.
  destruct (heap I !! s) as [os|] eqn:Hos; [|intros [=]].
  unfold mbind at 1, M_bind. unfold gets at 1.
  unfold mbind at 1, M_bind. unfold updObject at 1.
  cbn [heap set_heap]. rewrite lookup_insert_eq.
  unfold mret, M_ret. intros [= <- <-].
  eexists s, _. split; [reflexivity|]. cbn [heap set_heap].
  rewrite lookup_insert_eq. split; [reflexivity|].
  split; [reflexivity|]. split.
  { cbn [strict set_strict]. unfold scopeStrict, objectOf. cbn [heap set_heap].
    destruct (decide (p = s)) as [->|Hne].
    - rewrite lookup_insert_eq. rewrite Hos in Hp. injection Hp as ->. reflexivity.
    - rewrite lookup_insert_ne by (intros Eq; apply Hne; symmetry; exact Eq).
      rewrite Hp. reflexivity. }
  split; [reflexivity|]. split.
  { exists os. split; [reflexivity|]. split; reflexivity. }
  intros h' Hh'. cbn [heap set_heap].
  rewrite !lookup_insert_ne by (intros Eq; apply Hh'; symmetry; exact Eq).
  reflexivity.
Qed.

Lemma createSpecialScope_links_witness :
  handlesBounded I_array /\
  is_Some (heap I_array !! 0%nat) /\
  createSpecialScope scriptIsStrict Undefined (Some the_array) I_array =
    (Throw (HostError "Error" "parentScope required"), I_array) /\
  exists o',
    heap (createSpecialScope scriptIsStrict (global I_array) (Some the_array)
            I_array).2 !! 36%nat = Some o' /\
    parentScope o' = global I_array.
Proof.
  assert (HB : handlesBounded I_array)
    by (apply FrameProps.handlesBounded_dec; vm_compute; reflexivity).
  split; [exact HB|].
  destruct (heap I_array !! 0%nat) as [po|] eqn:Hp; [|vm_compute in Hp; discriminate Hp].
  split; [eexists; reflexivity|].
  destruct (createSpecialScope_links scriptIsStrict 0%nat po (Some (Obj 36%nat))
              I_array HB Hp) as [Hthrow Hret].
  split; [apply (Hthrow Undefined); reflexivity|].
  destruct (createSpecialScope scriptIsStrict (Obj 0%nat) (Some (Obj 36%nat)) I_array)
    as [[sc|x] I'] eqn:E; [|vm_compute in E; discriminate E].
  destruct (Hret sc I' eq_refl) as (h & o' & -> & Ho' & Hparent & _ & -> & _).
  change (global I_array) with (Obj 0%nat).
  change the_array with (Obj 36%nat).
  rewrite E. cbn [snd]. exists o'. split; [exact Ho'|exact Hparent].
Defined.

End SpecialScopeProps.
